(** * Pairtree tree sampler: a shallow embedding and its verified properties

    The development follows the three source files:
    - [common.py]        (relation classes, [make_ancestral_from_adj]),
    - [tree_builder.py]  ([make_adj]),
    - [lib/tree_sampler.py] (tree mutation, proposal weights, the
      Metropolis-Hastings chain and the chain orchestrator).

    Numpy integer and 0/1 float matrices are lists of rows over [Z];
    probabilities and log-probabilities are real numbers extended with the
    IEEE specials the code can produce ([-inf], [+inf], [nan]); a Python
    assertion or exception is a [None] result. *)

From Stdlib Require Import List ZArith Lia Bool Arith PeanoNat Permutation.
From Stdlib Require Import QArith Qround.
From Stdlib Require Import Reals Lra.
Import ListNotations.

Local Open Scope nat_scope.

(* ================================================================== *)
(** ** Lists as numpy vectors *)

(** [l[i] = v] for an index in range (numpy raises out of range; every
    caller below guards the index, and the update leaves the list alone
    there). *)
Fixpoint upd {A : Type} (i : nat) (v : A) (l : list A) : list A :=
  match l, i with
  | [], _ => []
  | _ :: t, O => v :: t
  | h :: t, S i' => h :: upd i' v t
  end.

(** [np.sum] of an integer vector. *)
Definition zsum (l : list Z) : Z := fold_right Z.add 0%Z l.

(** [np.flatnonzero]. *)
Definition flatnonzero (l : list Z) : list nat :=
  filter (fun i => negb (Z.eqb (nth i l 0%Z) 0)) (seq 0 (length l)).

(** [enumerate]-style map. *)
Definition mapi {A B : Type} (f : nat -> A -> B) (l : list A) : list B :=
  map (fun p => f (fst p) (snd p)) (combine (seq 0 (length l)) l).

(** Sequencing a list of fallible computations. *)
Fixpoint sequence {A : Type} (l : list (option A)) : option (list A) :=
  match l with
  | [] => Some []
  | None :: _ => None
  | Some x :: t =>
      match sequence t with Some r => Some (x :: r) | None => None end
  end.

(* ================================================================== *)
(** ** Matrices *)

Definition Matrix := list (list Z).

Definition get_row (M : Matrix) (i : nat) : list Z := nth i M [].
Definition mget (M : Matrix) (i j : nat) : Z := nth j (get_row M i) 0%Z.
Definition get_col (M : Matrix) (j : nat) : list Z :=
  map (fun r => nth j r 0%Z) M.
Definition set_row (M : Matrix) (i : nat) (r : list Z) : Matrix := upd i r M.
Definition set_col (M : Matrix) (j : nat) (c : list Z) : Matrix :=
  mapi (fun i r => upd j (nth i c 0%Z) r) M.
Definition mset (M : Matrix) (i j : nat) (v : Z) : Matrix :=
  upd i (upd j v (get_row M i)) M.
Definition fill_diagonal (M : Matrix) (v : Z) : Matrix :=
  mapi (fun i r => upd i v r) M.
(** [adj[:,j] = 0]. *)
Definition zero_col (M : Matrix) (j : nat) : Matrix :=
  map (fun r => upd j 0%Z r) M.
(** [np.eye(K)]. *)
Definition eye (K : nat) : Matrix :=
  map (fun i => map (fun j => if Nat.eqb i j then 1%Z else 0%Z) (seq 0 K))
      (seq 0 K).
(** [np.sum(M, axis=0)]. *)
Definition colsums (M : Matrix) : list Z :=
  map (fun j => zsum (get_col M j)) (seq 0 (length M)).
Definition diag (M : Matrix) : list Z :=
  map (fun i => mget M i i) (seq 0 (length M)).
Definition total (M : Matrix) : Z := zsum (map zsum M).

Definition is_square (K : nat) (M : Matrix) : Prop :=
  length M = K /\ forall i, i < K -> length (get_row M i) = K.

(* ------------------------------------------------------------------ *)
(** *** Pointwise behaviour of the updates *)

Lemma upd_length {A} (i : nat) (v : A) l : length (upd i v l) = length l.
Proof.
  revert i; induction l as [|h t IH]; intros [|i]; simpl; auto.
Qed.

Lemma nth_upd {A} (i j : nat) (v d : A) l :
  nth j (upd i v l) d =
  if Nat.eqb j i && Nat.ltb i (length l) then v else nth j l d.
Proof.
  revert i j; induction l as [|h t IH]; intros i j.
  - simpl. rewrite andb_false_r. now destruct i.
  - destruct i as [|i], j as [|j]; simpl; auto.
Qed.

Lemma nth_upd_same {A} (i : nat) (v d : A) l :
  i < length l -> nth i (upd i v l) d = v.
Proof.
  intros H. rewrite nth_upd, Nat.eqb_refl.
  apply Nat.ltb_lt in H. now rewrite H.
Qed.

Lemma nth_upd_other {A} (i j : nat) (v d : A) l :
  j <> i -> nth j (upd i v l) d = nth j l d.
Proof.
  intros H. rewrite nth_upd. apply Nat.eqb_neq in H. now rewrite H.
Qed.

Lemma mapi_length {A B} (f : nat -> A -> B) l : length (mapi f l) = length l.
Proof.
  unfold mapi. rewrite length_map, length_combine, length_seq. lia.
Qed.

Lemma nth_mapi {A B} (f : nat -> A -> B) l i da db :
  i < length l -> nth i (mapi f l) db = f i (nth i l da).
Proof.
  intros H. unfold mapi.
  rewrite (nth_indep _ db (f (fst (0, da)) (snd (0, da)))).
  2:{ rewrite length_map, length_combine, length_seq. lia. }
  rewrite (map_nth (fun p => f (fst p) (snd p))).
  rewrite combine_nth by (rewrite length_seq; reflexivity).
  simpl. rewrite seq_nth by exact H. reflexivity.
Qed.

Lemma nth_get_col (M : Matrix) i j : nth i (get_col M j) 0%Z = mget M i j.
Proof.
  unfold get_col, mget, get_row.
  revert i; induction M as [|r M IH]; intros [|i]; simpl; auto.
  - now destruct j.
  - now destruct j.
Qed.

Lemma get_col_length (M : Matrix) j : length (get_col M j) = length M.
Proof. apply length_map. Qed.

Lemma mget_fill_diagonal K (M : Matrix) v a b :
  is_square K M -> a < K -> b < K ->
  mget (fill_diagonal M v) a b = if Nat.eqb a b then v else mget M a b.
Proof.
  intros [HL HR] Ha Hb. unfold mget, get_row, fill_diagonal.
  rewrite (nth_mapi _ _ _ []) by lia.
  rewrite nth_upd. fold (get_row M a). rewrite (HR a Ha).
  rewrite (Nat.eqb_sym b a).
  destruct (Nat.eqb a b) eqn:E; simpl; auto.
  apply Nat.ltb_lt in Ha. now rewrite Ha.
Qed.

Lemma fill_diagonal_square K (M : Matrix) v :
  is_square K M -> is_square K (fill_diagonal M v).
Proof.
  intros [HL HR]. split.
  - unfold fill_diagonal. now rewrite mapi_length.
  - intros i Hi. unfold get_row, fill_diagonal.
    rewrite (nth_mapi _ _ _ []) by lia. rewrite upd_length. apply HR, Hi.
Qed.

Lemma mget_mset K (M : Matrix) i j v a b :
  is_square K M -> i < K -> j < K ->
  mget (mset M i j v) a b =
  if Nat.eqb a i && Nat.eqb b j then v else mget M a b.
Proof.
  intros [HL HR] Hi Hj. unfold mget, get_row, mset.
  rewrite nth_upd. rewrite HL.
  apply Nat.ltb_lt in Hi as Hi'. rewrite Hi', andb_true_r.
  destruct (Nat.eqb a i) eqn:E; simpl; auto.
  rewrite nth_upd. fold (get_row M i). rewrite (HR i Hi).
  apply Nat.ltb_lt in Hj as Hj'. rewrite Hj', andb_true_r.
  apply Nat.eqb_eq in E. subst a. reflexivity.
Qed.

Lemma mset_square K (M : Matrix) i j v :
  is_square K M -> is_square K (mset M i j v).
Proof.
  intros [HL HR]. split.
  - unfold mset. now rewrite upd_length.
  - intros a Ha. unfold get_row, mset. rewrite nth_upd.
    destruct (Nat.eqb a i && Nat.ltb i (length M)) eqn:E.
    + rewrite upd_length. apply andb_prop in E as [E _].
      apply Nat.eqb_eq in E. subst. apply HR, Ha.
    + apply HR, Ha.
Qed.

Lemma mget_set_row K (M : Matrix) i r a b :
  is_square K M -> i < K ->
  mget (set_row M i r) a b = if Nat.eqb a i then nth b r 0%Z else mget M a b.
Proof.
  intros [HL HR] Hi. unfold mget, get_row, set_row.
  rewrite nth_upd, HL. apply Nat.ltb_lt in Hi. rewrite Hi, andb_true_r.
  now destruct (Nat.eqb a i).
Qed.

Lemma set_row_square K (M : Matrix) i r :
  is_square K M -> length r = K -> is_square K (set_row M i r).
Proof.
  intros [HL HR] Hr. split.
  - unfold set_row. now rewrite upd_length.
  - intros a Ha. unfold get_row, set_row. rewrite nth_upd.
    destruct (Nat.eqb a i && Nat.ltb i (length M)); auto. apply HR, Ha.
Qed.

Lemma mget_set_col K (M : Matrix) j c a b :
  is_square K M -> j < K -> a < K ->
  mget (set_col M j c) a b = if Nat.eqb b j then nth a c 0%Z else mget M a b.
Proof.
  intros [HL HR] Hj Ha. unfold mget, get_row, set_col.
  rewrite (nth_mapi _ _ _ []) by lia.
  rewrite nth_upd. fold (get_row M a). rewrite (HR a Ha).
  apply Nat.ltb_lt in Hj. now rewrite Hj, andb_true_r.
Qed.

Lemma set_col_square K (M : Matrix) j c :
  is_square K M -> is_square K (set_col M j c).
Proof.
  intros [HL HR]. split.
  - unfold set_col. now rewrite mapi_length.
  - intros i Hi. unfold get_row, set_col.
    rewrite (nth_mapi _ _ _ []) by lia. rewrite upd_length. apply HR, Hi.
Qed.

Lemma mget_zero_col K (M : Matrix) j a b :
  is_square K M -> j < K -> a < K ->
  mget (zero_col M j) a b = if Nat.eqb b j then 0%Z else mget M a b.
Proof.
  intros [HL HR] Hj Ha. unfold mget, get_row, zero_col.
  rewrite (nth_indep _ [] (upd j 0%Z [])) by (rewrite length_map; lia).
  rewrite (map_nth (fun r => upd j 0%Z r)).
  rewrite nth_upd. fold (get_row M a). rewrite (HR a Ha).
  apply Nat.ltb_lt in Hj. now rewrite Hj, andb_true_r.
Qed.

Lemma zero_col_square K (M : Matrix) j :
  is_square K M -> is_square K (zero_col M j).
Proof.
  intros [HL HR]. split.
  - unfold zero_col. now rewrite length_map.
  - intros i Hi. unfold get_row, zero_col.
    rewrite (nth_indep _ [] (upd j 0%Z [])) by (rewrite length_map; lia).
    rewrite (map_nth (fun r => upd j 0%Z r)).
    rewrite upd_length. apply HR, Hi.
Qed.

Lemma get_row_length K (M : Matrix) i :
  is_square K M -> i < K -> length (get_row M i) = K.
Proof. intros [_ H]. apply H. Qed.

(** Two square matrices that agree entry by entry are the same matrix. *)
Lemma list_ext {A} (d : A) (l1 l2 : list A) :
  length l1 = length l2 ->
  (forall i, i < length l1 -> nth i l1 d = nth i l2 d) -> l1 = l2.
Proof.
  revert l2; induction l1 as [|a l1 IH]; intros [|b l2] HL H; simpl in *;
    try discriminate; auto.
  f_equal.
  - apply (H 0). lia.
  - apply IH; [lia|]. intros i Hi. apply (H (S i)). lia.
Qed.

Lemma matrix_ext K (M N : Matrix) :
  is_square K M -> is_square K N ->
  (forall i j, i < K -> j < K -> mget M i j = mget N i j) -> M = N.
Proof.
  intros [HM HMr] [HN HNr] H.
  apply (list_ext []); [lia|]. intros i Hi.
  rewrite HM in Hi.
  apply (list_ext 0%Z).
  - fold (get_row M i) (get_row N i). rewrite HMr, HNr; auto.
  - intros j Hj. fold (get_row M i) in Hj. rewrite HMr in Hj by auto.
    apply (H i j Hi Hj).
Qed.

(* ------------------------------------------------------------------ *)
(** *** Sums of integer vectors given by index *)

Definition zsumf (f : nat -> Z) (K : nat) : Z := zsum (map f (seq 0 K)).

Lemma zsum_app l1 l2 : zsum (l1 ++ l2) = (zsum l1 + zsum l2)%Z.
Proof. induction l1; simpl; lia. Qed.

Lemma zsumf_S f K : zsumf f (S K) = (zsumf f K + f K)%Z.
Proof.
  unfold zsumf. rewrite seq_S, map_app, zsum_app. simpl. lia.
Qed.

Lemma zsumf_ext f g K :
  (forall i, i < K -> f i = g i) -> zsumf f K = zsumf g K.
Proof.
  induction K as [|K IH]; intros H; [reflexivity|].
  rewrite !zsumf_S, IH, H; auto.
Qed.

Lemma zsumf_add f g K :
  zsumf (fun i => (f i + g i)%Z) K = (zsumf f K + zsumf g K)%Z.
Proof.
  induction K as [|K IH]; [reflexivity|]. rewrite !zsumf_S, IH. lia.
Qed.

Lemma zsumf_zero f K : (forall i, i < K -> f i = 0%Z) -> zsumf f K = 0%Z.
Proof.
  induction K as [|K IH]; intros H; [reflexivity|].
  rewrite zsumf_S, IH, H; auto.
Qed.

Lemma zsumf_nonneg f K :
  (forall i, i < K -> (0 <= f i)%Z) -> (0 <= zsumf f K)%Z.
Proof.
  induction K as [|K IH]; intros H; [unfold zsumf; simpl; lia|].
  rewrite zsumf_S. specialize (H K (Nat.lt_succ_diag_r K)) as HK.
  assert (0 <= zsumf f K)%Z by (apply IH; intros; apply H; lia). lia.
Qed.

Lemma zsumf_indicator i0 v K :
  i0 < K -> zsumf (fun i => if Nat.eqb i i0 then v else 0%Z) K = v.
Proof.
  induction K as [|K IH]; intros H; [lia|].
  rewrite zsumf_S. destruct (Nat.eq_dec i0 K) as [->|Hne].
  - rewrite Nat.eqb_refl, zsumf_zero; [lia|].
    intros i Hi. destruct (Nat.eqb_spec i K); [lia|reflexivity].
  - rewrite IH by lia. destruct (Nat.eqb_spec K i0); [lia|lia].
Qed.

Lemma zsumf_split f i0 K :
  i0 < K ->
  zsumf f K = (f i0 + zsumf (fun i => if Nat.eqb i i0 then 0 else f i) K)%Z.
Proof.
  intros H.
  rewrite <- (zsumf_indicator i0 (f i0) K H) at 1.
  rewrite <- zsumf_add. apply zsumf_ext. intros i _.
  destruct (Nat.eqb_spec i i0); subst; lia.
Qed.

Lemma zsumf_pos_witness f K :
  (forall i, i < K -> (0 <= f i)%Z) -> (0 < zsumf f K)%Z ->
  exists i, i < K /\ (0 < f i)%Z.
Proof.
  induction K as [|K IH]; intros Hnn H; [unfold zsumf in H; simpl in H; lia|].
  rewrite zsumf_S in H.
  destruct (Z_lt_le_dec 0 (f K)) as [Hp|Hz].
  - exists K. split; [lia|exact Hp].
  - destruct IH as (i & Hi & Hfi).
    + intros; apply Hnn; lia.
    + specialize (Hnn K (Nat.lt_succ_diag_r K)). lia.
    + exists i. split; [lia|exact Hfi].
Qed.

Lemma zsumf_ge_term f K i0 :
  (forall i, i < K -> (0 <= f i)%Z) -> i0 < K -> (f i0 <= zsumf f K)%Z.
Proof.
  intros Hnn Hi. rewrite (zsumf_split f i0 K Hi).
  assert (0 <= zsumf (fun i => if Nat.eqb i i0 then 0 else f i) K)%Z.
  { apply zsumf_nonneg. intros i Hi'.
    destruct (Nat.eqb i i0); [lia|apply Hnn, Hi']. }
  lia.
Qed.

(** A 0/1 vector that sums to one has exactly one entry set. *)
Lemma zsumf_binary_one f K :
  (forall i, i < K -> f i = 0%Z \/ f i = 1%Z) -> zsumf f K = 1%Z ->
  exists p, p < K /\ f p = 1%Z /\ forall i, i < K -> f i = 1%Z -> i = p.
Proof.
  intros Hb Hs.
  assert (Hnn : forall i, i < K -> (0 <= f i)%Z).
  { intros i Hi. destruct (Hb i Hi); lia. }
  destruct (zsumf_pos_witness f K Hnn) as (p & Hp & Hfp); [lia|].
  assert (Hp1 : f p = 1%Z) by (destruct (Hb p Hp); lia).
  exists p. repeat split; auto.
  intros i Hi Hfi. destruct (Nat.eq_dec i p) as [|Hne]; auto.
  rewrite (zsumf_split f p K Hp) in Hs.
  assert (f i <= zsumf (fun i => if Nat.eqb i p then 0 else f i) K)%Z.
  { pose proof (zsumf_ge_term (fun i => if Nat.eqb i p then 0%Z else f i) K i)
      as G. simpl in G.
    destruct (Nat.eqb_spec i p); [contradiction|]. apply G; auto.
    intros k Hk. destruct (Nat.eqb k p); [lia|apply Hnn, Hk]. }
  lia.
Qed.

Lemma zsumf_binary_zero f K :
  (forall i, i < K -> f i = 0%Z \/ f i = 1%Z) -> zsumf f K = 0%Z ->
  forall i, i < K -> f i = 0%Z.
Proof.
  intros Hb Hs i Hi.
  assert (Hnn : forall i, i < K -> (0 <= f i)%Z).
  { intros k Hk. destruct (Hb k Hk); lia. }
  pose proof (zsumf_ge_term f K i Hnn Hi). destruct (Hb i Hi); lia.
Qed.

Lemma colsum_zsumf (M : Matrix) j :
  zsum (get_col M j) = zsumf (fun i => mget M i j) (length M).
Proof.
  unfold zsumf. f_equal.
  apply (list_ext 0%Z).
  - rewrite get_col_length, length_map, length_seq. reflexivity.
  - intros i Hi. rewrite nth_get_col.
    rewrite get_col_length in Hi.
    rewrite (nth_indep _ 0%Z ((fun i => mget M i j) 0))
      by (rewrite length_map, length_seq; exact Hi).
    rewrite (map_nth (fun i => mget M i j)), seq_nth by exact Hi.
    reflexivity.
Qed.

Lemma zsumf_exchange (f : nat -> nat -> Z) K L :
  zsumf (fun i => zsumf (fun j => f i j) L) K =
  zsumf (fun j => zsumf (fun i => f i j) K) L.
Proof.
  induction K as [|K IH].
  - symmetry. apply zsumf_zero. reflexivity.
  - rewrite zsumf_S, IH, <- zsumf_add. apply zsumf_ext.
    intros j _. now rewrite zsumf_S.
Qed.

(** Summing over the indices after swapping two of them. *)
Definition swap_idx (a b i : nat) : nat :=
  if Nat.eqb i a then b else if Nat.eqb i b then a else i.

Lemma swap_idx_invol a b i : swap_idx a b (swap_idx a b i) = i.
Proof.
  unfold swap_idx.
  destruct (Nat.eqb_spec i a), (Nat.eqb_spec i b); subst;
    repeat (rewrite ?Nat.eqb_refl;
            try match goal with
                | |- context [Nat.eqb ?x ?y] => destruct (Nat.eqb_spec x y)
                end); congruence.
Qed.

Lemma swap_idx_lt a b i K : a < K -> b < K -> i < K -> swap_idx a b i < K.
Proof.
  unfold swap_idx. intros.
  destruct (Nat.eqb i a), (Nat.eqb i b); assumption.
Qed.

Lemma swap_idx_inj a b i j : swap_idx a b i = swap_idx a b j -> i = j.
Proof.
  intros H. rewrite <- (swap_idx_invol a b i), H. apply swap_idx_invol.
Qed.

Lemma zsumf_swap f a b K :
  a < K -> b < K ->
  zsumf (fun i => f (swap_idx a b i)) K = zsumf f K.
Proof.
  intros Ha Hb. destruct (Nat.eq_dec a b) as [->|Hab].
  - apply zsumf_ext. intros i _. unfold swap_idx.
    destruct (Nat.eqb_spec i b); subst; reflexivity.
  - rewrite (zsumf_split _ a K Ha), (zsumf_split f a K Ha).
    rewrite (zsumf_split _ b K Hb).
    rewrite (zsumf_split (fun i => if Nat.eqb i a then 0%Z else f i) b K Hb).
    assert (E1 : swap_idx a b a = b) by (unfold swap_idx; now rewrite Nat.eqb_refl).
    assert (E2 : swap_idx a b b = a).
    { unfold swap_idx. rewrite Nat.eqb_refl.
      destruct (Nat.eqb_spec b a); congruence. }
    rewrite E1, E2.
    destruct (Nat.eqb_spec b a) as [Eba|_]; [congruence|].
    assert (E3 : zsumf (fun i => if Nat.eqb i b then 0%Z
                        else if Nat.eqb i a then 0%Z else f (swap_idx a b i)) K =
                 zsumf (fun i => if Nat.eqb i b then 0%Z
                        else if Nat.eqb i a then 0%Z else f i) K).
    { apply zsumf_ext. intros i _. unfold swap_idx.
      destruct (Nat.eqb i b), (Nat.eqb i a); reflexivity. }
    rewrite E3. lia.
Qed.

(* ================================================================== *)
(** ** Relation classes ([common.Models]) *)

Inductive Models : Type := garbage | cocluster | A_B | B_A | diff_branches.

Definition Models_eqb (a b : Models) : bool :=
  match a, b with
  | garbage, garbage | cocluster, cocluster | A_B, A_B | B_A, B_A
  | diff_branches, diff_branches => true
  | _, _ => false
  end.

Lemma Models_eqb_spec a b : reflect (a = b) (Models_eqb a b).
Proof. destruct a, b; simpl; constructor; congruence. Qed.

(** The index [setattr(Models, M, idx)] gives each class. *)
Definition Models_index (m : Models) : nat :=
  match m with
  | garbage => 0 | cocluster => 1 | A_B => 2 | B_A => 3 | diff_branches => 4
  end.

(* ================================================================== *)
(** ** Trees as adjacency matrices *)

(** [i] is the immediate parent of [j]. *)
Definition edge (M : Matrix) (i j : nat) : Prop := i <> j /\ mget M i j = 1%Z.

(** A directed path of [n] edges in the adjacency graph without self-loops. *)
Inductive path (M : Matrix) : nat -> nat -> nat -> Prop :=
| path_nil : forall i, path M 0 i i
| path_snoc : forall n i j k, path M n i j -> edge M j k -> path M (S n) i k.

Definition reach (M : Matrix) (i j : nat) : Prop := exists n, path M n i j.
Definition panc (M : Matrix) (i j : nat) : Prop := exists n, path M (S n) i j.

(** The adjacency invariants: a 0/1 matrix with unit diagonal whose column 0
    sums to 1 and whose other columns sum to 2, every node reachable from
    node 0. *)
Record valid_adj (K : nat) (M : Matrix) : Prop := {
  va_pos : 0 < K;
  va_square : is_square K M;
  va_binary : forall i j, i < K -> j < K -> mget M i j = 0%Z \/ mget M i j = 1%Z;
  va_diag : forall i, i < K -> mget M i i = 1%Z;
  va_root_col : zsum (get_col M 0) = 1%Z;
  va_cols : forall j, 0 < j < K -> zsum (get_col M j) = 2%Z;
  va_reach : forall j, j < K -> reach M 0 j
}.

(** [anc] is the ancestry matrix of [adj]. *)
Definition ancestry_of (K : nat) (adj anc : Matrix) : Prop :=
  is_square K anc /\
  forall i j, i < K -> j < K ->
    (mget anc i j = 1%Z <-> reach adj i j) /\
    (mget anc i j = 0%Z \/ mget anc i j = 1%Z).

Lemma path_cons M n i j k : edge M i j -> path M n j k -> path M (S n) i k.
Proof.
  intros E P. induction P as [j|n j a b P IH Eab].
  - eapply path_snoc; [apply path_nil|exact E].
  - eapply path_snoc; [apply IH, E|exact Eab].
Qed.

Lemma path_front M n i k :
  path M (S n) i k -> exists j, edge M i j /\ path M n j k.
Proof.
  revert k. induction n as [|n IH]; intros k P.
  - inversion P as [|n' i' j k' P' E]; subst. inversion P'; subst.
    exists k. split; [exact E|apply path_nil].
  - inversion P as [|n' i' j k' P' E]; subst.
    destruct (IH _ P') as (a & Ea & Pa).
    exists a. split; [exact Ea|]. eapply path_snoc; eauto.
Qed.

Lemma path_app M n m i j k :
  path M n i j -> path M m j k -> path M (n + m) i k.
Proof.
  intros P Q. induction Q as [j|m j a b Q IH Eab].
  - now rewrite Nat.add_0_r.
  - rewrite Nat.add_succ_r. eapply path_snoc; [apply IH, P|exact Eab].
Qed.

Lemma reach_refl M i : reach M i i.
Proof. exists 0. apply path_nil. Qed.

Lemma reach_trans M i j k : reach M i j -> reach M j k -> reach M i k.
Proof. intros [n P] [m Q]. exists (n + m). eapply path_app; eauto. Qed.

Lemma reach_edge M i j : edge M i j -> reach M i j.
Proof. intros E. exists 1. eapply path_snoc; [apply path_nil|exact E]. Qed.

Lemma reach_cases M i j : reach M i j <-> i = j \/ panc M i j.
Proof.
  split.
  - intros [[|n] P]; [inversion P; auto|right; now exists n].
  - intros [->|[n P]]; [apply reach_refl|now exists (S n)].
Qed.

Lemma panc_front M i k :
  panc M i k <-> exists j, edge M i j /\ reach M j k.
Proof.
  split.
  - intros [n P]. destruct (path_front _ _ _ _ P) as (j & E & Q).
    exists j. split; [exact E|now exists n].
  - intros (j & E & [n Q]). exists n. eapply path_cons; eauto.
Qed.

Lemma panc_back M i k :
  panc M i k <-> exists j, reach M i j /\ edge M j k.
Proof.
  split.
  - intros [n P]. inversion P as [|n' i' j k' P' E]; subst.
    exists j. split; [now exists n|exact E].
  - intros (j & [n Q] & E). exists n. eapply path_snoc; eauto.
Qed.

Section TreeFacts.
Variable K : nat.
Variable M : Matrix.
Hypothesis V : valid_adj K M.

Lemma mget_range i j : mget M i j <> 0%Z -> i < K /\ j < K.
Proof.
  intros H. destruct V as [_ [HL HR] _ _ _ _ _].
  assert (Hi : i < K).
  { destruct (Nat.lt_ge_cases i K) as [|Hge]; auto. exfalso. apply H.
    unfold mget, get_row. rewrite (nth_overflow M) by lia. now destruct j. }
  split; auto.
  destruct (Nat.lt_ge_cases j K) as [|Hge]; auto. exfalso. apply H.
  unfold mget. apply nth_overflow. rewrite HR by auto. exact Hge.
Qed.

Lemma edge_range i j : edge M i j -> i < K /\ j < K.
Proof. intros [_ E]. apply mget_range. rewrite E. discriminate. Qed.

Lemma col_zsumf j : zsum (get_col M j) = zsumf (fun i => mget M i j) K.
Proof.
  rewrite colsum_zsumf. destruct V as [_ [HL _] _ _ _ _ _]. now rewrite HL.
Qed.

Lemma root_no_parent i : ~ edge M i 0.
Proof.
  intros E. destruct (edge_range _ _ E) as [Hi H0]. destruct E as [Hne E].
  pose proof (va_root_col _ _ V) as Hs. rewrite col_zsumf in Hs.
  rewrite (zsumf_split _ 0 K H0) in Hs.
  rewrite (va_diag _ _ V 0 H0) in Hs.
  assert (Hz : zsumf (fun i => if Nat.eqb i 0 then 0%Z else mget M i 0) K = 0%Z)
    by lia.
  pose proof (zsumf_binary_zero
                (fun i => if Nat.eqb i 0 then 0%Z else mget M i 0) K) as G.
  simpl in G. specialize (fun Hb => G Hb Hz i Hi).
  destruct (Nat.eqb_spec i 0); [contradiction|].
  rewrite G in E; [discriminate|].
  intros k Hk. destruct (Nat.eqb k 0); auto. apply (va_binary _ _ V); auto.
Qed.

Lemma parent_exists_unique j :
  0 < j < K ->
  exists p, edge M p j /\ forall i, edge M i j -> i = p.
Proof.
  intros Hj. assert (HjK : j < K) by lia.
  pose proof (va_cols _ _ V j Hj) as Hs. rewrite col_zsumf in Hs.
  rewrite (zsumf_split _ j K HjK) in Hs.
  rewrite (va_diag _ _ V j HjK) in Hs.
  destruct (zsumf_binary_one
              (fun i => if Nat.eqb i j then 0%Z else mget M i j) K)
    as (p & Hp & Hfp & Hu).
  { intros k Hk. destruct (Nat.eqb k j); auto. apply (va_binary _ _ V); auto. }
  { lia. }
  destruct (Nat.eqb_spec p j) as [|Hne]; [discriminate|].
  exists p. split; [split; assumption|].
  intros i E. destruct (edge_range _ _ E) as [Hi _]. destruct E as [Hij E].
  apply Hu; auto. destruct (Nat.eqb_spec i j); [contradiction|exact E].
Qed.

Lemma parent_unique i i' j : edge M i j -> edge M i' j -> i = i'.
Proof.
  intros E E'. destruct (edge_range _ _ E) as [_ Hj].
  destruct (Nat.eq_dec j 0) as [->|Hne]; [now apply root_no_parent in E|].
  destruct (parent_exists_unique j) as (p & _ & Hu); [lia|].
  rewrite (Hu _ E), (Hu _ E'). reflexivity.
Qed.

Lemma path_range n i j : path M n i j -> i < K -> j < K.
Proof.
  intros P Hi. destruct P as [|n i j k _ E]; auto.
  apply (edge_range _ _ E).
Qed.

Lemma path_to_root n i : path M n i 0 -> n = 0 /\ i = 0.
Proof.
  intros P. inversion P as [|n' i' j k' P' E]; subst; auto.
  now apply root_no_parent in E.
Qed.

(** The length of the path from the root to a node is determined. *)
Lemma depth_unique n : forall m j, path M n 0 j -> path M m 0 j -> n = m.
Proof.
  induction n as [|n IH]; intros m j P Q.
  - inversion P; subst. now destruct (path_to_root _ _ Q).
  - inversion P as [|n' i' p k' P' E]; subst.
    inversion Q as [|m' i' q k' Q' E']; subst.
    + now apply root_no_parent in E.
    + f_equal. rewrite (parent_unique _ _ _ E' E) in Q'. eapply IH; eauto.
Qed.

Lemma path_vertices n : forall j,
  path M n 0 j ->
  exists l, length l = S n /\ NoDup l /\
            forall x, In x l -> x < K /\ exists m, m <= n /\ path M m 0 x.
Proof.
  induction n as [|n IH]; intros j P.
  - inversion P; subst. exists [0]. repeat split.
    + constructor; [intros []|constructor].
    + destruct H as [<-|[]]. apply (va_pos _ _ V).
    + destruct H as [<-|[]]. exists 0. split; [lia|apply path_nil].
  - inversion P as [|n' i' p k' P' E]; subst.
    destruct (IH _ P') as (l & HL & ND & Hl).
    exists (j :: l). repeat split.
    + simpl. now rewrite HL.
    + constructor; [|exact ND]. intros Hin.
      destruct (Hl _ Hin) as (_ & m & Hm & Pm).
      pose proof (depth_unique _ _ _ P Pm). lia.
    + destruct H as [<-|Hin]; [apply (edge_range _ _ E)|apply (Hl _ Hin)].
    + destruct H as [<-|Hin]; [exists (S n); split; [lia|exact P]|].
      destruct (Hl _ Hin) as (_ & m & Hm & Pm). exists m. split; [lia|exact Pm].
Qed.

Lemma depth_bound n j : path M n 0 j -> n < K.
Proof.
  intros P. destruct (path_vertices _ _ P) as (l & HL & ND & Hl).
  assert (Hincl : incl l (seq 0 K)).
  { intros x Hx. apply in_seq. destruct (Hl _ Hx). lia. }
  pose proof (NoDup_incl_length ND Hincl) as Hlen.
  rewrite length_seq in Hlen. lia.
Qed.

Lemma path_bound n i j :
  i < K -> path M n i j -> exists d, path M d 0 i /\ d + n < K.
Proof.
  intros Hi P. destruct (va_reach _ _ V i Hi) as [d Pd].
  exists d. split; [exact Pd|].
  apply (depth_bound _ j). eapply path_app; eauto.
Qed.

Lemma acyclic n i : i < K -> ~ path M (S n) i i.
Proof.
  intros Hi P. destruct (va_reach _ _ V i Hi) as [d Pd].
  pose proof (path_app _ _ _ _ _ _ Pd P) as Q.
  pose proof (depth_unique _ _ _ Pd Q). lia.
Qed.

Lemma panc_irrefl i : ~ panc M i i.
Proof.
  intros [n P].
  destruct (path_front _ _ _ _ P) as (j & E & _).
  apply (acyclic n i); [apply (edge_range _ _ E)|exact P].
Qed.

Lemma panc_trans i j k : panc M i j -> panc M j k -> panc M i k.
Proof.
  intros [n P] [m Q]. exists (n + S m).
  replace (S (n + S m)) with (S n + S m) by lia. eapply path_app; eauto.
Qed.

Lemma panc_reach_trans i j k : panc M i j -> reach M j k -> panc M i k.
Proof.
  intros [n P] [m Q]. exists (n + m).
  replace (S (n + m)) with (S n + m) by lia. eapply path_app; eauto.
Qed.

Lemma reach_panc_trans i j k : reach M i j -> panc M j k -> panc M i k.
Proof.
  intros [n P] [m Q]. exists (n + m).
  replace (S (n + m)) with (n + S m) by lia. eapply path_app; eauto.
Qed.

Lemma panc_asym i j : panc M i j -> ~ panc M j i.
Proof. intros P Q. apply (panc_irrefl i). eapply panc_trans; eauto. Qed.

Lemma panc_range i j : panc M i j -> i < K /\ j < K.
Proof.
  intros [n P]. destruct (path_front _ _ _ _ P) as (a & E & _).
  inversion P as [|n' i' b k' _ E']; subst.
  split; [apply (edge_range _ _ E)|apply (edge_range _ _ E')].
Qed.

Lemma reach_antisym i j : reach M i j -> reach M j i -> i = j.
Proof.
  intros H1 H2. apply reach_cases in H1 as [|H1]; auto.
  apply reach_cases in H2 as [|H2]; auto.
  exfalso. eapply panc_asym; eauto.
Qed.

Lemma root_panc j : 0 < j < K -> panc M 0 j.
Proof.
  intros Hj. destruct (va_reach _ _ V j) as [[|n] P]; [lia| |now exists n].
  inversion P. lia.
Qed.

Lemma no_panc_root i : ~ panc M i 0.
Proof.
  intros [n P]. destruct (path_to_root _ _ P). discriminate.
Qed.

(** The ancestors of a node are its parent and the parent's ancestors. *)
Lemma panc_via_parent i p j :
  edge M p j -> (panc M i j <-> reach M i p).
Proof.
  intros E. split.
  - intros H. apply panc_back in H as (q & R & E').
    now rewrite (parent_unique _ _ _ E E').
  - intros R. apply panc_back. eauto.
Qed.

Lemma edge_dec i j : {edge M i j} + {~ edge M i j}.
Proof.
  unfold edge. destruct (Nat.eq_dec i j) as [->|Hne].
  - right. intros [H _]. now apply H.
  - destruct (Z.eq_dec (mget M i j) 1); [left|right]; tauto.
Qed.
End TreeFacts.

(* ================================================================== *)
(** ** Ancestry computation ([common.make_ancestral_from_adj]) *)

(** [a + b] on vectors of one length. *)
Definition vadd (a b : list Z) : list Z :=
  mapi (fun i x => (x + nth i b 0)%Z) a.

(** [np.sum(rows, axis=0)] for rows of length [K]. For an empty list numpy
    returns the scalar 0, which broadcasts in the addition that follows
    like the zero vector given here. *)
Definition sum_axis0 (K : nat) (rows : list (list Z)) : list Z :=
  map (fun j => zsum (map (fun r => nth j r 0%Z) rows)) (seq 0 K).

(** [v[v > 1] = 1]. *)
Definition clip_one (v : list Z) : list Z :=
  map (fun x => if (1 <? x)%Z then 1%Z else x) v.

(** The recursive helper of [make_ancestral_from_adj]; [fuel] bounds the
    recursion depth. *)
Fixpoint _find_desc (adj : Matrix) (fuel : nat) (I : nat) (vec : list Z)
  : option (list Z) :=
  match fuel with
  | O => None
  | S fuel' =>
      if (zsum vec =? 0)%Z then Some vec
      else
        match sequence
                (map (fun idx => _find_desc adj fuel' idx (get_row adj idx))
                     (filter (fun idx => negb (Nat.eqb idx I) &&
                                         (nth idx vec 0 =? 1)%Z)
                             (seq 0 (length vec)))) with
        | None => None
        | Some children =>
            Some (clip_one (vadd vec (sum_axis0 (length vec) children)))
        end
  end.

Definition make_ancestral_from_adj (fuel : nat) (adj : Matrix)
  : option Matrix :=
  sequence (map (fun k => _find_desc adj fuel k (get_row adj k))
                (seq 0 (length adj))).

Lemma sequence_map_Forall2 {A B} (f : A -> option B) (P : A -> B -> Prop) l :
  (forall x, In x l -> exists r, f x = Some r /\ P x r) ->
  exists rs, sequence (map f l) = Some rs /\ Forall2 P l rs.
Proof.
  induction l as [|a l IH]; intros H.
  - exists []. split; [reflexivity|constructor].
  - destruct (H a (or_introl eq_refl)) as (r & Hr & Pr).
    destruct IH as (rs & Hrs & Frs); [intros x Hx; apply H; now right|].
    exists (r :: rs). simpl. rewrite Hr, Hrs. split; [reflexivity|].
    constructor; assumption.
Qed.

Lemma zsum_zsumf l : zsum l = zsumf (fun j => nth j l 0%Z) (length l).
Proof.
  induction l as [|a l IH] using rev_ind; [reflexivity|].
  rewrite zsum_app, length_app, Nat.add_1_r, zsumf_S. simpl.
  rewrite app_nth2, Nat.sub_diag by lia. simpl.
  rewrite IH. f_equal; [|lia].
  apply zsumf_ext. intros i Hi. now rewrite app_nth1.
Qed.

Lemma nth_map_seq {A} (f : nat -> A) K j d :
  j < K -> nth j (map f (seq 0 K)) d = f j.
Proof.
  intros H. rewrite (nth_indep _ d (f 0)) by (rewrite length_map, length_seq; lia).
  rewrite map_nth, seq_nth by lia. reflexivity.
Qed.

Lemma nth_vadd a b j : j < length a ->
  nth j (vadd a b) 0%Z = (nth j a 0 + nth j b 0)%Z.
Proof. intros H. unfold vadd. now rewrite (nth_mapi _ _ _ 0%Z). Qed.

Lemma nth_clip_one v j :
  nth j (clip_one v) 0%Z = (if (1 <? nth j v 0)%Z then 1 else nth j v 0)%Z.
Proof.
  unfold clip_one.
  change 0%Z with ((fun x => if (1 <? x)%Z then 1%Z else x) 0%Z) at 1.
  now rewrite map_nth.
Qed.

Section Ancestry.
Variable K : nat.
Variable adj : Matrix.
Hypothesis V : valid_adj K adj.

(** What a correct row of the ancestry matrix of node [I] looks like. *)
Definition desc_row (I : nat) (r : list Z) : Prop :=
  length r = K /\
  forall j, j < K ->
    (nth j r 0%Z = 1%Z <-> reach adj I j) /\
    (nth j r 0%Z = 0%Z \/ nth j r 0%Z = 1%Z).

Lemma children_sum (cs : list nat) (rows : list (list Z)) j :
  j < K -> Forall2 desc_row cs rows ->
  (0 <= zsum (map (fun r => nth j r 0%Z) rows))%Z /\
  ((0 < zsum (map (fun r => nth j r 0%Z) rows))%Z <->
   exists c, In c cs /\ reach adj c j).
Proof.
  intros Hj F. induction F as [|c r cs rows [_ Hr] F IH]; simpl.
  - split; [lia|]. split; [lia|]. intros (c & [] & _).
  - destruct IH as [IH0 IH1]. destruct (Hr j Hj) as [Hr1 Hr01].
    split; [destruct Hr01; lia|]. split.
    + intros H. destruct Hr01 as [Hz|Ho].
      * destruct IH1 as [IH1 _].
        destruct IH1 as (c' & Hin & R); [lia|]. exists c'. auto.
      * exists c. split; [now left|now apply Hr1].
    + intros (c' & [<-|Hin] & R).
      * apply Hr1 in R. lia.
      * assert (0 < zsum (map (fun r => nth j r 0%Z) rows))%Z
          by (apply IH1; eauto).
        destruct Hr01; lia.
Qed.

Lemma row_sum_pos I : I < K -> (0 < zsum (get_row adj I))%Z.
Proof.
  intros HI. rewrite zsum_zsumf.
  rewrite (get_row_length K) by (auto; apply (va_square _ _ V)).
  pose proof (zsumf_ge_term (fun j => nth j (get_row adj I) 0%Z) K I) as G.
  simpl in G. fold (mget adj I I) in G.
  rewrite (va_diag _ _ V I HI) in G.
  assert (1 <= zsumf (fun j => nth j (get_row adj I) 0%Z) K)%Z; [|lia].
  apply G; auto. intros j Hj. fold (mget adj I j).
  destruct (va_binary _ _ V I j HI Hj) as [->| ->]; lia.
Qed.

Lemma find_desc_correct fuel : forall I d,
  I < K -> path adj d 0 I -> K <= fuel + d ->
  exists r, _find_desc adj fuel I (get_row adj I) = Some r /\ desc_row I r.
Proof.
  induction fuel as [|fuel IH]; intros I d HI P Hf.
  - pose proof (depth_bound _ _ V _ _ P). lia.
  - simpl.
    pose proof (row_sum_pos I HI) as Hpos.
    destruct (Z.eqb_spec (zsum (get_row adj I)) 0) as [E|_]; [lia|].
    rewrite (get_row_length K) by (auto; apply (va_square _ _ V)).
    set (cs := filter _ (seq 0 K)).
    assert (Hcs : forall c, In c cs <-> edge adj I c).
    { intros c. unfold cs. rewrite filter_In, in_seq, andb_true_iff.
      rewrite negb_true_iff, Nat.eqb_neq, Z.eqb_eq. fold (mget adj I c).
      split.
      - intros (_ & Hne & E). split; auto.
      - intros E. destruct (edge_range _ _ V _ _ E) as [_ Hc].
        destruct E as [Hne E]. repeat split; auto; lia. }
    destruct (sequence_map_Forall2
                (fun idx => _find_desc adj fuel idx (get_row adj idx))
                desc_row cs) as (rows & Hrows & F).
    { intros c Hc. apply Hcs in Hc.
      apply (IH c (S d)).
      - apply (edge_range _ _ V _ _ Hc).
      - eapply path_snoc; eauto.
      - lia. }
    rewrite Hrows. eexists. split; [reflexivity|].
    split.
    { unfold clip_one, vadd. rewrite length_map, mapi_length.
      apply (get_row_length K); auto. apply (va_square _ _ V). }
    intros j Hj.
    rewrite nth_clip_one, nth_vadd
      by (rewrite (get_row_length K); auto; apply (va_square _ _ V)).
    unfold sum_axis0. rewrite nth_map_seq by exact Hj.
    fold (mget adj I j).
    destruct (children_sum cs rows j Hj F) as [S0 S1].
    set (s := zsum (map (fun r => nth j r 0%Z) rows)) in *.
    assert (Hreach : reach adj I j <->
                     mget adj I j = 1%Z \/ exists c, In c cs /\ reach adj c j).
    { split.
      - intros R. apply reach_cases in R as [->|R].
        + left. apply (va_diag _ _ V j Hj).
        + apply panc_front in R as (c & E & R). right. exists c.
          split; [now apply Hcs|exact R].
      - intros [E|(c & Hc & R)].
        + destruct (Nat.eq_dec I j) as [->|Hne]; [apply reach_refl|].
          apply reach_edge. split; auto.
        + apply Hcs in Hc. eapply reach_trans; [apply reach_edge|]; eauto. }
    destruct (va_binary _ _ V I j HI Hj) as [Ez|Eo].
    + rewrite Ez in *. simpl.
      destruct (Z.ltb_spec 1 s).
      * split; [|now right]. split; [intros _|reflexivity].
        apply Hreach. right. apply S1. lia.
      * split; [|lia]. rewrite Hreach, <- S1. split; [lia|].
        intros [?|?]; [lia|lia].
    + rewrite Eo in *.
      destruct (Z.ltb_spec 1 (1 + s)).
      * split; [|now right]. split; [intros _|reflexivity].
        apply Hreach. now left.
      * assert (s = 0%Z) by lia. split; [|right; lia].
        split; [intros _; apply Hreach; now left|lia].
Qed.

Lemma make_ancestral_correct fuel :
  K <= fuel ->
  exists anc, make_ancestral_from_adj fuel adj = Some anc /\
              Forall2 desc_row (seq 0 K) anc.
Proof.
  intros Hf. unfold make_ancestral_from_adj.
  destruct (va_square _ _ V) as [HL _]. rewrite HL.
  apply sequence_map_Forall2.
  intros k Hk. apply in_seq in Hk.
  destruct (va_reach _ _ V k) as [d P]; [lia|].
  apply (find_desc_correct fuel k d); [lia|exact P|lia].
Qed.

Lemma Forall2_nth_seq (P : nat -> list Z -> Prop) n s (l : list (list Z)) :
  Forall2 P (seq s n) l ->
  length l = n /\ forall i, i < n -> P (s + i) (nth i l []).
Proof.
  revert s l. induction n as [|n IH]; intros s l F; simpl in F.
  - inversion F; subst. split; [reflexivity|]. intros i Hi. lia.
  - inversion F as [|a r l1 l2 Pa F']; subst.
    destruct (IH _ _ F') as [HL Hn]. split; [simpl; now rewrite HL|].
    intros [|i] Hi; simpl.
    + now rewrite Nat.add_0_r.
    + rewrite Nat.add_succ_r. apply (Hn i). lia.
Qed.

Lemma desc_rows_ancestry anc :
  Forall2 desc_row (seq 0 K) anc -> ancestry_of K adj anc.
Proof.
  intros F. destruct (Forall2_nth_seq _ _ _ _ F) as [HL Hn].
  split.
  - split; [exact HL|]. intros i Hi. apply (Hn i Hi).
  - intros i j Hi Hj. destruct (Hn i Hi) as [_ Hr]. apply (Hr j Hj).
Qed.
End Ancestry.

(* ================================================================== *)
(** ** The tree mutator ([tree_sampler._modify_tree]) *)

Fixpoint insert_sorted (x : Z) (l : list Z) : list Z :=
  match l with
  | [] => [x]
  | h :: t => if (x <=? h)%Z then x :: l else h :: insert_sorted x t
  end.

(** [np.sort]. *)
Definition np_sort (l : list Z) : list Z := fold_right insert_sorted [] l.

(** [np.array_equal]. *)
Fixpoint array_equal (a b : list Z) : bool :=
  match a, b with
  | [], [] => true
  | x :: a', y :: b' => (x =? y)%Z && array_equal a' b'
  | _, _ => false
  end.

(** Numpy truthiness of a matrix entry. *)
Definition truthy (z : Z) : bool := negb (z =? 0)%Z.

(** The five assertions [_modify_tree] makes on its arguments. *)
Definition modify_asserts (adj : Matrix) (A B : nat) : bool :=
  let K := length adj in
  (A <? K) && (0 <? B) && (B <? K) && negb (A =? B) &&
  array_equal (diag adj) (repeat 1%Z K) &&
  (total adj =? Z.of_nat K + (Z.of_nat K - 1))%Z &&
  array_equal (np_sort (colsums adj)) (1%Z :: repeat 2%Z (K - 1)).

(** The swap branch, on the copies with their diagonals zeroed. *)
Definition swap_nodes (adj : Matrix) (A B : nat) : Matrix :=
  let adj_BA := mget adj B A in
  let adj := if truthy adj_BA then mset adj B A 0%Z else adj in
  let acol := get_col adj A in
  let bcol := get_col adj B in
  let arow := get_row adj A in
  let brow := get_row adj B in
  let adj := set_row (set_row adj A brow) B arow in
  let adj := set_col (set_col adj A bcol) B acol in
  if truthy adj_BA then mset adj A B 1%Z else adj.

(** The move branch, on the copy with its diagonal zeroed. *)
Definition move_subtree (adj : Matrix) (A B : nat) : Matrix :=
  mset (zero_col adj B) A B 1%Z.

Definition _modify_tree (adj anc : Matrix) (A B : nat) : option Matrix :=
  if negb (modify_asserts adj A B) then None else
  let adj := fill_diagonal adj 0%Z in
  let anc := fill_diagonal anc 0%Z in
  if truthy (mget anc B A) then
    if negb ((mget anc A B =? mget adj A B)%Z && (mget adj A B =? 0)%Z)
    then None
    else Some (fill_diagonal (swap_nodes adj A B) 1%Z)
  else Some (fill_diagonal (move_subtree adj A B) 1%Z).

(** [_find_parent]. *)
Definition _find_parent (node : nat) (adj : Matrix) : option nat :=
  match flatnonzero (upd node 0%Z (get_col adj node)) with
  | [p] => Some p
  | _ => None
  end.

Create HintDb sq.
#[export] Hint Resolve fill_diagonal_square mset_square set_row_square
  set_col_square zero_col_square : sq.

Lemma array_equal_refl l : array_equal l l = true.
Proof. induction l; simpl; auto. now rewrite Z.eqb_refl. Qed.

Lemma array_equal_eq a b : array_equal a b = true -> a = b.
Proof.
  revert b; induction a as [|x a IH]; intros [|y b] H; simpl in H;
    try discriminate; auto.
  apply andb_prop in H as [H1 H2]. apply Z.eqb_eq in H1.
  f_equal; auto.
Qed.

Lemma np_sort_one_twos n :
  np_sort (1%Z :: repeat 2%Z n) = 1%Z :: repeat 2%Z n.
Proof.
  assert (H : np_sort (repeat 2%Z n) = repeat 2%Z n).
  { induction n as [|n IH]; simpl; auto.
    fold (np_sort (repeat 2%Z n)). rewrite IH. now destruct n. }
  unfold np_sort in *. simpl. rewrite H. now destruct n.
Qed.

Lemma nth_repeat_in {A} (a d : A) n i : i < n -> nth i (repeat a n) d = a.
Proof.
  revert i; induction n as [|n IH]; intros [|i] H; simpl; auto; try lia.
  apply IH. lia.
Qed.

Section ValidAsserts.
Variable K : nat.
Variable adj : Matrix.
Hypothesis V : valid_adj K adj.

Lemma valid_diag : diag adj = repeat 1%Z K.
Proof.
  destruct (va_square _ _ V) as [HL _].
  apply (list_ext 0%Z).
  - unfold diag. now rewrite length_map, length_seq, repeat_length.
  - intros i Hi. unfold diag in *. rewrite length_map, length_seq, HL in Hi.
    rewrite HL, nth_map_seq by exact Hi.
    rewrite (va_diag _ _ V i Hi). symmetry. now apply nth_repeat_in.
Qed.

Lemma valid_colsums : colsums adj = 1%Z :: repeat 2%Z (K - 1).
Proof.
  destruct (va_square _ _ V) as [HL _]. pose proof (va_pos _ _ V) as HK.
  apply (list_ext 0%Z).
  - unfold colsums. simpl. rewrite length_map, length_seq, repeat_length. lia.
  - intros j Hj. unfold colsums in *.
    rewrite length_map, length_seq, HL in Hj.
    rewrite HL, nth_map_seq by exact Hj.
    destruct j as [|j]; simpl.
    + apply (va_root_col _ _ V).
    + rewrite (va_cols _ _ V) by lia. symmetry. apply nth_repeat_in. lia.
Qed.

Lemma valid_total : total adj = (Z.of_nat K + (Z.of_nat K - 1))%Z.
Proof.
  destruct (va_square _ _ V) as [HL HR]. pose proof (va_pos _ _ V) as HK.
  unfold total.
  assert (E : zsum (map zsum adj) =
              zsumf (fun i => zsumf (fun j => mget adj i j) K) K).
  { rewrite zsum_zsumf, length_map, HL. apply zsumf_ext. intros i Hi.
    rewrite (nth_indep _ 0%Z (zsum [])) by (rewrite length_map; lia).
    rewrite (map_nth zsum). fold (get_row adj i).
    rewrite zsum_zsumf, (HR i Hi). reflexivity. }
  rewrite E, zsumf_exchange.
  rewrite (zsumf_ext _ (fun j => 2 + (if Nat.eqb j 0 then (-1) else 0))%Z).
  - rewrite zsumf_add, (zsumf_indicator 0 (-1)%Z K HK).
    assert (H2 : forall n, zsumf (fun _ => 2%Z) n = (2 * Z.of_nat n)%Z).
    { induction n as [|n IH]; [reflexivity|]. rewrite zsumf_S, IH. lia. }
    rewrite H2. lia.
  - intros j Hj. rewrite <- (col_zsumf _ _ V).
    destruct j as [|j]; simpl.
    + apply (va_root_col _ _ V).
    + apply (va_cols _ _ V). lia.
Qed.

Lemma modify_asserts_ok A B :
  A < K -> 0 < B < K -> A <> B -> modify_asserts adj A B = true.
Proof.
  intros HA HB Hne. unfold modify_asserts.
  destruct (va_square _ _ V) as [HL _]. rewrite HL.
  rewrite valid_diag, valid_colsums, valid_total, np_sort_one_twos.
  rewrite !array_equal_refl, Z.eqb_refl.
  apply Nat.ltb_lt in HA. destruct HB as [HB0 HBK].
  apply Nat.ltb_lt in HB0, HBK. apply Nat.eqb_neq in Hne.
  now rewrite HA, HB0, HBK, Hne.
Qed.
End ValidAsserts.

(** Building the adjacency invariants from a parent for every node. *)
Lemma valid_adj_of_parents K (R : Matrix) :
  0 < K -> is_square K R ->
  (forall i j, i < K -> j < K -> mget R i j = 0%Z \/ mget R i j = 1%Z) ->
  (forall i, i < K -> mget R i i = 1%Z) ->
  (forall i, i < K -> i <> 0 -> mget R i 0 = 0%Z) ->
  (forall j, 0 < j < K ->
     exists p, p < K /\ p <> j /\
       forall i, i < K -> i <> j -> (mget R i j = 1%Z <-> i = p)) ->
  (forall j, j < K -> reach R 0 j) ->
  valid_adj K R.
Proof.
  intros HK HS Hb Hd H0 Hp Hr.
  constructor; auto.
  - rewrite colsum_zsumf. destruct HS as [HL _]. rewrite HL.
    rewrite (zsumf_ext _ (fun i => if Nat.eqb i 0 then 1%Z else 0%Z)).
    + now apply zsumf_indicator.
    + intros i Hi. destruct (Nat.eqb_spec i 0) as [->|Hne]; auto.
  - intros j Hj. rewrite colsum_zsumf. destruct HS as [HL _]. rewrite HL.
    destruct (Hp j Hj) as (p & HpK & Hpj & Hiff).
    rewrite (zsumf_ext _ (fun i => (if Nat.eqb i j then 1 else 0) +
                                   (if Nat.eqb i p then 1 else 0))%Z).
    + rewrite zsumf_add, !zsumf_indicator by lia. reflexivity.
    + intros i Hi. destruct (Nat.eqb_spec i j) as [->|Hne].
      * destruct (Nat.eqb_spec j p); [congruence|]. rewrite Hd by lia. lia.
      * destruct (Nat.eqb_spec i p) as [->|Hne'].
        -- simpl. now apply Hiff.
        -- destruct (Hb i j) as [E|E]; [lia|lia|exact E|].
           apply Hiff in E; auto. contradiction.
Qed.

Ltac sq_side :=
  solve [ assumption | lia
        | repeat first [ assumption | lia
                       | apply fill_diagonal_square | apply mset_square
                       | apply set_col_square | apply zero_col_square
                       | apply set_row_square
                       | eapply get_row_length ] ].

Ltac mget_simp K :=
  repeat first
    [ rewrite (mget_fill_diagonal K) by sq_side
    | rewrite (mget_mset K) by sq_side
    | rewrite (mget_set_col K) by sq_side
    | rewrite (mget_zero_col K) by sq_side
    | rewrite (mget_set_row K) by sq_side
    | rewrite nth_get_col
    | match goal with
      | |- context [nth ?b (get_row ?M ?i) 0%Z] =>
          change (nth b (get_row M i) 0%Z) with (mget M i b)
      end ].

Ltac eqb_cases :=
  repeat match goal with
         | |- context [Nat.eqb ?x ?y] =>
             destruct (Nat.eqb_spec x y); subst; simpl; try lia; try congruence
         end.

Lemma swap_nodes_square K adj A B :
  is_square K adj -> A < K -> B < K -> is_square K (swap_nodes adj A B).
Proof.
  intros HS HA HB. unfold swap_nodes.
  destruct (truthy (mget adj B A)); sq_side.
Qed.

Lemma move_subtree_square K adj A B :
  is_square K adj -> is_square K (move_subtree adj A B).
Proof. intros HS. unfold move_subtree. sq_side. Qed.

#[export] Hint Resolve swap_nodes_square move_subtree_square : sq.

Section ModifyCorrect.
Variable K : nat.
Variables adj anc : Matrix.
Variables A B : nat.
Hypothesis V : valid_adj K adj.
Hypothesis HAnc : ancestry_of K adj anc.
Hypothesis HA : A < K.
Hypothesis HB : 0 < B < K.
Hypothesis HAB : A <> B.

Let HS : is_square K adj := va_square _ _ V.

Lemma anc_truthy i j :
  i < K -> j < K -> i <> j ->
  truthy (mget (fill_diagonal anc 0%Z) i j) = true <-> panc adj i j.
Proof.
  intros Hi Hj Hij. destruct HAnc as [HSa Ha].
  rewrite (mget_fill_diagonal K) by (auto; lia).
  destruct (Nat.eqb_spec i j); [contradiction|].
  destruct (Ha i j Hi Hj) as [H1 H01]. unfold truthy.
  rewrite reach_cases in H1.
  destruct H01 as [E|E]; rewrite E; simpl; split; intros H;
    try discriminate; auto.
  - rewrite E in H1. assert (0 = 1)%Z by (apply H1; auto). discriminate.
  - apply H1 in E. destruct E; [contradiction|assumption].
Qed.

(** *** Moving a subtree *)

Lemma move_pointwise i j :
  i < K -> j < K ->
  mget (fill_diagonal (move_subtree (fill_diagonal adj 0%Z) A B) 1%Z) i j =
  if Nat.eqb i j then 1%Z
  else if Nat.eqb j B then (if Nat.eqb i A then 1%Z else 0%Z)
  else mget adj i j.
Proof.
  intros Hi Hj. unfold move_subtree. mget_simp K. eqb_cases.
Qed.

Section Move.
Hypothesis Hnot : ~ panc adj B A.

Let R := fill_diagonal (move_subtree (fill_diagonal adj 0%Z) A B) 1%Z.

Lemma move_edge i j :
  edge R i j <-> (j = B /\ i = A) \/ (j <> B /\ edge adj i j).
Proof.
  split.
  - intros [Hne E].
    assert (Hr : i < K /\ j < K).
    { destruct (Nat.lt_ge_cases i K) as [Hi|Hi];
      destruct (Nat.lt_ge_cases j K) as [Hj|Hj]; auto; exfalso.
      - unfold mget in E. rewrite nth_overflow in E; [discriminate|].
        rewrite (get_row_length K); [lia| |lia]. unfold R. sq_side.
      - unfold mget, get_row in E.
        rewrite (nth_overflow R) in E.
        + destruct j; discriminate.
        + assert (HSR : is_square K R) by (unfold R; sq_side).
          destruct HSR as [HL _]. lia.
      - unfold mget, get_row in E.
        rewrite (nth_overflow R) in E.
        + destruct j; discriminate.
        + assert (HSR : is_square K R) by (unfold R; sq_side).
          destruct HSR as [HL _]. lia. }
    destruct Hr as [Hi Hj]. unfold R in E.
    rewrite move_pointwise in E by assumption.
    destruct (Nat.eqb_spec i j); [contradiction|].
    destruct (Nat.eqb_spec j B).
    + destruct (Nat.eqb_spec i A); [auto|discriminate].
    + right. split; [assumption|split; assumption].
  - intros [[-> ->]|[Hne E]].
    + split; [exact HAB|]. unfold R. rewrite move_pointwise by lia.
      destruct (Nat.eqb_spec A B); [contradiction|].
      now rewrite !Nat.eqb_refl.
    + destruct (edge_range _ _ V _ _ E) as [Hi Hj]. destruct E as [Hij E].
      split; [exact Hij|]. unfold R. rewrite move_pointwise by lia.
      destruct (Nat.eqb_spec i j); [contradiction|].
      destruct (Nat.eqb_spec j B); [contradiction|exact E].
Qed.

Lemma move_reach_above n : forall j,
  path adj n 0 j -> reach adj j A -> reach R 0 j.
Proof.
  induction n as [|n IH]; intros j P RA.
  - inversion P; subst. apply reach_refl.
  - inversion P as [|n' i' p k' P' E]; subst.
    assert (Rp : reach R 0 p).
    { apply IH; auto. eapply reach_trans; [apply reach_edge|]; eauto. }
    eapply reach_trans; [exact Rp|]. apply reach_edge.
    apply move_edge. right. split; [|exact E].
    intros ->. apply reach_cases in RA as [E'|RA]; [congruence|contradiction].
Qed.

Lemma move_reach_B : reach R 0 B.
Proof.
  destruct (va_reach _ _ V A HA) as [n P].
  eapply reach_trans.
  - eapply move_reach_above; [exact P|apply reach_refl].
  - apply reach_edge, move_edge. now left.
Qed.

Lemma move_reach_all n : forall j, path adj n 0 j -> reach R 0 j.
Proof.
  induction n as [|n IH]; intros j P.
  - inversion P; subst. apply reach_refl.
  - inversion P as [|n' i' p k' P' E]; subst.
    destruct (Nat.eq_dec j B) as [->|Hne]; [apply move_reach_B|].
    eapply reach_trans; [apply (IH _ P')|].
    apply reach_edge, move_edge. right. split; assumption.
Qed.

Lemma move_valid : valid_adj K R.
Proof.
  assert (HSR : is_square K R) by (unfold R; sq_side).
  apply valid_adj_of_parents; auto.
  - apply (va_pos _ _ V).
  - intros i j Hi Hj. unfold R. rewrite move_pointwise by assumption.
    destruct (Nat.eqb i j); auto. destruct (Nat.eqb j B).
    + destruct (Nat.eqb i A); auto.
    + apply (va_binary _ _ V); auto.
  - intros i Hi. unfold R. rewrite move_pointwise by assumption.
    now rewrite Nat.eqb_refl.
  - intros i Hi Hne. unfold R. rewrite move_pointwise by lia.
    destruct (Nat.eqb_spec i 0); [contradiction|].
    destruct (Nat.eqb_spec 0 B); [lia|].
    destruct (va_binary _ _ V i 0) as [E|E]; [lia|lia|exact E|].
    exfalso. apply (root_no_parent _ _ V i). split; assumption.
  - intros j Hj. destruct (Nat.eq_dec j B) as [->|Hne].
    + exists A. repeat split; auto.
      * intros E. unfold R in E. rewrite move_pointwise in E by lia.
        destruct (Nat.eqb_spec i B); [contradiction|].
        rewrite Nat.eqb_refl in E.
        destruct (Nat.eqb_spec i A); [assumption|discriminate].
      * intros ->. unfold R. rewrite move_pointwise by lia.
        destruct (Nat.eqb_spec A B); [contradiction|].
        now rewrite !Nat.eqb_refl.
    + destruct (parent_exists_unique _ _ V j Hj) as (p & E & Hu).
      exists p. destruct (edge_range _ _ V _ _ E) as [Hp _].
      destruct E as [Hpj E]. repeat split; auto.
      * intros E'. unfold R in E'. rewrite move_pointwise in E' by lia.
        destruct (Nat.eqb_spec i j); [contradiction|].
        destruct (Nat.eqb_spec j B); [contradiction|].
        apply Hu. split; assumption.
      * intros ->. unfold R. rewrite move_pointwise by lia.
        destruct (Nat.eqb_spec p j); [contradiction|].
        destruct (Nat.eqb_spec j B); [contradiction|exact E].
  - intros j Hj. destruct (va_reach _ _ V j Hj) as [n P].
    apply (move_reach_all n j P).
Qed.
End Move.
End ModifyCorrect.

Section SwapCorrect.
Variable K : nat.
Variable adj : Matrix.
Variables A B : nat.
Hypothesis V : valid_adj K adj.
Hypothesis HA : A < K.
Hypothesis HB : 0 < B < K.
Hypothesis HAB : A <> B.
Hypothesis Hanc : panc adj B A.

Let HS : is_square K adj := va_square _ _ V.
Let R := fill_diagonal (swap_nodes (fill_diagonal adj 0%Z) A B) 1%Z.
Let sigma := swap_idx A B.

Lemma swap_no_AB : mget adj A B = 0%Z.
Proof.
  destruct (va_binary _ _ V A B) as [E|E]; [lia|lia|exact E|].
  exfalso. apply (panc_asym _ _ V _ _ Hanc).
  exists 0. eapply path_snoc; [apply path_nil|]. split; assumption.
Qed.

Lemma swap_A_not_root : A <> 0.
Proof. intros ->. apply (no_panc_root _ _ V _ Hanc). Qed.

(** The swap branch relabels the tree by the transposition of [A] and
    [B]. *)
Lemma swap_pointwise i j :
  i < K -> j < K -> mget R i j = mget adj (sigma i) (sigma j).
Proof.
  intros Hi Hj. unfold R, swap_nodes, sigma.
  pose proof swap_no_AB as HAB0.
  assert (HBA : mget (fill_diagonal adj 0%Z) B A = mget adj B A).
  { mget_simp K. eqb_cases. }
  rewrite HBA.
  destruct (va_binary _ _ V B A) as [E|E]; [lia|lia| |]; rewrite E; simpl.
  - mget_simp K. unfold swap_idx. eqb_cases.
    all: try (rewrite (va_diag _ _ V); auto; lia).
  - mget_simp K. unfold swap_idx. eqb_cases.
    all: try (rewrite (va_diag _ _ V); auto; lia).
Qed.

Lemma swap_square : is_square K R.
Proof. unfold R. apply fill_diagonal_square, swap_nodes_square; sq_side. Qed.

Lemma sigma_lt i : i < K -> sigma i < K.
Proof. intros. apply swap_idx_lt; lia. Qed.

Lemma sigma_zero : sigma 0 = 0.
Proof.
  unfold sigma, swap_idx. pose proof swap_A_not_root.
  destruct (Nat.eqb_spec 0 A); [congruence|].
  destruct (Nat.eqb_spec 0 B); [lia|reflexivity].
Qed.

Lemma swap_edge i j :
  i < K -> j < K -> (edge R i j <-> edge adj (sigma i) (sigma j)).
Proof.
  intros Hi Hj. unfold edge. rewrite swap_pointwise by assumption.
  split; intros [Hne E]; split; auto.
  all: intros H; apply Hne;
    first [now apply (swap_idx_inj A B) | now rewrite H].
Qed.

Lemma swap_path n : forall j,
  path adj n 0 j -> path R n 0 (sigma j).
Proof.
  induction n as [|n IH]; intros j P.
  - inversion P; subst. rewrite sigma_zero. apply path_nil.
  - inversion P as [|n' i' p k' P' E]; subst.
    eapply path_snoc; [apply (IH _ P')|].
    destruct (edge_range _ _ V _ _ E) as [Hp Hj].
    apply swap_edge; try (apply sigma_lt; assumption).
    unfold sigma. now rewrite !swap_idx_invol.
Qed.

Lemma swap_valid : valid_adj K R.
Proof.
  apply valid_adj_of_parents.
  - apply (va_pos _ _ V).
  - apply swap_square.
  - intros i j Hi Hj. rewrite swap_pointwise by assumption.
    apply (va_binary _ _ V); apply sigma_lt; assumption.
  - intros i Hi. rewrite swap_pointwise by assumption.
    apply (va_diag _ _ V), sigma_lt, Hi.
  - intros i Hi Hne. rewrite swap_pointwise by lia.
    rewrite sigma_zero.
    destruct (va_binary _ _ V (sigma i) 0) as [E|E];
      [apply sigma_lt, Hi|lia|exact E|].
    exfalso. apply (root_no_parent _ _ V (sigma i)). split; [|exact E].
    intros H. apply Hne. apply (swap_idx_inj A B). fold sigma.
    now rewrite sigma_zero.
  - intros j Hj.
    assert (Hsj : 0 < sigma j < K).
    { split; [|apply sigma_lt; lia].
      destruct (Nat.eq_dec (sigma j) 0) as [E|]; [|lia].
      rewrite <- sigma_zero in E. apply (swap_idx_inj A B) in E. lia. }
    destruct (parent_exists_unique _ _ V _ Hsj) as (p & E & Hu).
    destruct (edge_range _ _ V _ _ E) as [Hp _].
    exists (sigma p). split; [apply sigma_lt, Hp|]. split.
    + intros H. destruct E as [Hne _]. apply Hne.
      apply (f_equal sigma) in H. unfold sigma in H at 1.
      now rewrite swap_idx_invol in H.
    + intros i Hi Hij. rewrite swap_pointwise by lia. split.
      * intros E'. assert (sigma i = p).
        { apply Hu. split; [|exact E'].
          intros H. apply Hij. now apply (swap_idx_inj A B). }
        subst p. unfold sigma. now rewrite swap_idx_invol.
      * intros ->. unfold sigma at 1. rewrite swap_idx_invol. apply E.
  - intros j Hj. destruct (va_reach _ _ V (sigma j)) as [n P];
      [apply sigma_lt, Hj|].
    exists n. apply swap_path in P. unfold sigma in P at 1.
    now rewrite swap_idx_invol in P.
Qed.
End SwapCorrect.

(* ================================================================== *)
(** ** The traversal check ([tree_sampler._ensure_valid_tree]) *)

(** The [while len(stack) > 0] loop. The Python list [stack] is kept in its
    own order: [pop] takes the last element and [+=] appends. [fuel] bounds
    the number of iterations; [None] is a failed assertion (or no fuel
    left). *)
Fixpoint ensure_loop (adj : Matrix) (fuel : nat) (stack visited : list nat)
  : option (list nat) :=
  match rev stack with
  | [] => Some visited
  | P :: rest =>
      match fuel with
      | O => None
      | S fuel' =>
          if existsb (Nat.eqb P) visited then None
          else ensure_loop adj fuel' (rev rest ++ flatnonzero (get_row adj P))
                           (P :: visited)
      end
  end.

(** [visited == set(range(K))]. *)
Definition visited_all (K : nat) (visited : list nat) : bool :=
  forallb (fun k => existsb (Nat.eqb k) visited) (seq 0 K) &&
  forallb (fun v => v <? K) visited.

(** Returns the visiting order when every assertion holds. *)
Definition _ensure_valid_tree (fuel : nat) (adj : Matrix)
  : option (list nat) :=
  let K := length adj in
  if negb (forallb (fun z => (z =? 1)%Z) (diag adj)) then None else
  match ensure_loop (fill_diagonal adj 0%Z) fuel [0] [] with
  | None => None
  | Some visited => if visited_all K visited then Some visited else None
  end.

Lemma existsb_eqb_In x l : existsb (Nat.eqb x) l = true <-> In x l.
Proof.
  rewrite existsb_exists. split.
  - intros (y & Hy & E). apply Nat.eqb_eq in E. now subst.
  - intros H. exists x. split; [exact H|apply Nat.eqb_refl].
Qed.

Lemma flatnonzero_In l c :
  In c (flatnonzero l) <-> c < length l /\ nth c l 0%Z <> 0%Z.
Proof.
  unfold flatnonzero. rewrite filter_In, in_seq, negb_true_iff, Z.eqb_neq.
  intuition lia.
Qed.

Lemma flatnonzero_NoDup l : NoDup (flatnonzero l).
Proof. apply NoDup_filter, seq_NoDup. Qed.

Section Traversal.
Variable K : nat.
Variable adj : Matrix.
Hypothesis V : valid_adj K adj.

Let HS : is_square K adj := va_square _ _ V.
Let adj0 := fill_diagonal adj 0%Z.

Lemma children_In P c :
  P < K -> (In c (flatnonzero (get_row adj0 P)) <-> edge adj P c).
Proof.
  intros HP. rewrite flatnonzero_In.
  rewrite (get_row_length K) by (unfold adj0; sq_side).
  split.
  - intros [Hc Hnz]. fold (mget adj0 P c) in Hnz. unfold adj0 in Hnz.
    rewrite (mget_fill_diagonal K) in Hnz by sq_side.
    destruct (Nat.eqb_spec P c); [congruence|].
    split; auto. destruct (va_binary _ _ V P c HP Hc); congruence.
  - intros E. destruct (edge_range _ _ V _ _ E) as [_ Hc].
    destruct E as [Hne E]. split; auto.
    fold (mget adj0 P c). unfold adj0.
    rewrite (mget_fill_diagonal K) by sq_side.
    destruct (Nat.eqb_spec P c); [congruence|]. rewrite E. discriminate.
Qed.

(** The loop invariant: discovered nodes (on the stack or visited) are
    distinct, and a non-root node is discovered exactly when its parent
    has been visited. *)
Definition dfs_inv (stack visited : list nat) : Prop :=
  NoDup (stack ++ visited) /\
  (forall x, In x (stack ++ visited) -> x < K) /\
  In 0 (stack ++ visited) /\
  forall j, 0 < j < K ->
    (In j (stack ++ visited) <-> exists p, edge adj p j /\ In p visited).

Lemma dfs_inv_init : dfs_inv [0] [].
Proof.
  repeat split; simpl.
  - constructor; [intros []|constructor].
  - intros x [<-|[]]. apply (va_pos _ _ V).
  - now left.
  - intros [E|[]]. lia.
  - intros (p & _ & []).
Qed.

Lemma dfs_inv_step stack P visited :
  dfs_inv (stack ++ [P]) visited ->
  ~ In P visited /\
  dfs_inv (stack ++ flatnonzero (get_row adj0 P)) (P :: visited).
Proof.
  intros (ND & Hlt & H0 & Hpar).
  assert (HP : P < K) by (apply Hlt; rewrite !in_app_iff; simpl; auto).
  assert (HPv : ~ In P visited).
  { intros Hin. rewrite <- app_assoc in ND. apply NoDup_remove_2 in ND.
    apply ND. rewrite in_app_iff. now right. }
  split; [exact HPv|].
  assert (Hmem : forall x, In x ((stack ++ [P]) ++ visited) <->
                           In x (stack ++ P :: visited)).
  { intros x. rewrite !in_app_iff. simpl. tauto. }
  assert (Hnew : forall c, edge adj P c -> ~ In c ((stack ++ [P]) ++ visited)).
  { intros c E Hin. destruct (edge_range _ _ V _ _ E) as [_ Hc].
    destruct (Nat.eq_dec c 0) as [->|Hc0];
      [now apply (root_no_parent _ _ V) in E|].
    apply Hpar in Hin; [|lia]. destruct Hin as (p & E' & Hp).
    rewrite (parent_unique _ _ V _ _ _ E' E) in Hp. contradiction. }
  assert (Hch : forall c, In c (flatnonzero (get_row adj0 P)) <-> edge adj P c)
    by (intros c; now apply children_In).
  repeat split.
  - (* distinct *)
    apply (Permutation_NoDup
             (l := flatnonzero (get_row adj0 P) ++ (stack ++ P :: visited))).
    + rewrite <- app_assoc. apply Permutation_app_swap_app.
    + apply NoDup_app.
      * apply flatnonzero_NoDup.
      * now rewrite <- app_assoc in ND.
      * intros c Hc Hin. apply Hch in Hc. apply (Hnew c Hc).
        now apply Hmem.
  - (* in range *)
    intros x Hx. rewrite !in_app_iff in Hx. simpl in Hx.
    destruct Hx as [[Hx|Hx]|[<-|Hx]]; auto.
    + apply Hlt. rewrite !in_app_iff. auto.
    + apply Hch in Hx. apply (edge_range _ _ V _ _ Hx).
    + apply Hlt. rewrite !in_app_iff. auto.
  - (* the root is discovered *)
    rewrite !in_app_iff in *. simpl in *. tauto.
  - (* a discovered node has a visited parent *)
    intros Hj. rewrite !in_app_iff in Hj. simpl in Hj.
    destruct Hj as [[Hj|Hj]|[<-|Hj]].
    + destruct (proj1 (Hpar j H)) as (p & E & Hp);
        [rewrite !in_app_iff; auto|].
      exists p. split; [exact E|now right].
    + apply Hch in Hj. exists P. split; [exact Hj|now left].
    + destruct (proj1 (Hpar P H)) as (p & E & Hp);
        [rewrite !in_app_iff; simpl; auto|].
      exists p. split; [exact E|now right].
    + destruct (proj1 (Hpar j H)) as (p & E & Hp);
        [rewrite !in_app_iff; auto|].
      exists p. split; [exact E|now right].
  - (* and conversely *)
    intros (p & E & [<-|Hp]).
    + rewrite !in_app_iff. left. right. now apply Hch.
    + assert (Hin : In j ((stack ++ [P]) ++ visited))
        by (apply Hpar; eauto).
      rewrite !in_app_iff in *. simpl in *. tauto.
Qed.

Lemma dfs_inv_final visited :
  dfs_inv [] visited ->
  NoDup visited /\ forall k, k < K <-> In k visited.
Proof.
  intros (ND & Hlt & H0 & Hpar). simpl in *.
  split; [exact ND|]. intros k. split; [|apply Hlt].
  intros Hk. destruct (va_reach _ _ V k Hk) as [n P].
  clear Hk. revert k P. induction n as [|n IH]; intros k P.
  - inversion P; subst. exact H0.
  - inversion P as [|n' i' p k' P' E]; subst.
    destruct (edge_range _ _ V _ _ E) as [_ Hk].
    destruct (Nat.eq_dec k 0) as [->|Hne]; [exact H0|].
    apply Hpar; [lia|]. exists p. split; [exact E|apply (IH _ P')].
Qed.

Lemma ensure_loop_ok fuel : forall stack visited,
  dfs_inv stack visited -> K <= fuel + length visited ->
  exists vis, ensure_loop adj0 fuel stack visited = Some vis /\
              NoDup vis /\ forall k, k < K <-> In k vis.
Proof.
  induction fuel as [|fuel IH]; intros stack visited Inv Hf.
  - destruct stack as [|s stack] using rev_ind.
    + exists visited. split; [reflexivity|now apply dfs_inv_final].
    + exfalso. destruct Inv as (ND & Hlt & _).
      assert (Hincl : incl ((stack ++ [s]) ++ visited) (seq 0 K)).
      { intros x Hx. apply in_seq. specialize (Hlt x Hx). lia. }
      pose proof (NoDup_incl_length ND Hincl) as Hlen.
      rewrite !length_app, length_seq in Hlen. simpl in *. lia.
  - destruct stack as [|s stack _] using rev_ind.
    + exists visited. split; [reflexivity|now apply dfs_inv_final].
    + destruct (dfs_inv_step _ _ _ Inv) as [HPv Inv'].
      simpl. rewrite rev_app_distr. simpl.
      destruct (existsb (Nat.eqb s) visited) eqn:Ex.
      * apply existsb_eqb_In in Ex. contradiction.
      * rewrite rev_involutive. apply IH; [exact Inv'|simpl; lia].
Qed.

(** On a valid tree the traversal passes every assertion and visits every
    node exactly once. *)
Lemma ensure_valid_tree_ok fuel :
  K <= fuel ->
  exists vis, _ensure_valid_tree fuel adj = Some vis /\
              NoDup vis /\ forall k, k < K <-> In k vis.
Proof.
  intros Hf. unfold _ensure_valid_tree.
  rewrite (valid_diag _ _ V).
  assert (Hd : forallb (fun z => (z =? 1)%Z) (repeat 1%Z K) = true).
  { apply forallb_forall. intros z Hz. apply repeat_spec in Hz. now subst. }
  rewrite Hd. simpl.
  destruct (ensure_loop_ok fuel [0] []) as (vis & Hvis & ND & Hall).
  { apply dfs_inv_init. }
  { simpl. lia. }
  fold adj0. rewrite Hvis.
  assert (Hva : visited_all (length adj) vis = true).
  { destruct HS as [HL _]. rewrite HL. unfold visited_all.
    apply andb_true_intro. split; apply forallb_forall.
    - intros k Hk. apply in_seq in Hk. apply existsb_eqb_In, Hall. lia.
    - intros v Hv. apply Nat.ltb_lt. now apply Hall. }
  rewrite Hva. exists vis. auto.
Qed.
End Traversal.

(* ================================================================== *)
(** ** The mutator returns a valid tree *)

Section ModifyTree.
Variable K : nat.
Variables adj anc : Matrix.
Variables A B : nat.
Hypothesis V : valid_adj K adj.
Hypothesis HAnc : ancestry_of K adj anc.
Hypothesis HA : A < K.
Hypothesis HB : 0 < B < K.
Hypothesis HAB : A <> B.

Lemma modify_tree_swap :
  panc adj B A ->
  _modify_tree adj anc A B =
    Some (fill_diagonal (swap_nodes (fill_diagonal adj 0%Z) A B) 1%Z).
Proof.
  intros Hp. unfold _modify_tree.
  rewrite (modify_asserts_ok K) by assumption. simpl.
  assert (T : truthy (mget (fill_diagonal anc 0%Z) B A) = true).
  { apply (anc_truthy K adj); auto; lia. }
  rewrite T.
  assert (F : truthy (mget (fill_diagonal anc 0%Z) A B) = false).
  { destruct (truthy (mget (fill_diagonal anc 0%Z) A B)) eqn:E; auto.
    apply (anc_truthy K adj) in E; auto; try lia.
    exfalso. eapply panc_asym; eauto. }
  unfold truthy in F. apply negb_false_iff, Z.eqb_eq in F. rewrite F.
  pose proof (va_square _ _ V) as HS.
  rewrite (mget_fill_diagonal K) by sq_side.
  destruct (Nat.eqb_spec A B); [contradiction|].
  rewrite (swap_no_AB K adj A B) by assumption. reflexivity.
Qed.

Lemma modify_tree_move :
  ~ panc adj B A ->
  _modify_tree adj anc A B =
    Some (fill_diagonal (move_subtree (fill_diagonal adj 0%Z) A B) 1%Z).
Proof.
  intros Hp. unfold _modify_tree.
  rewrite (modify_asserts_ok K) by assumption. simpl.
  destruct (truthy (mget (fill_diagonal anc 0%Z) B A)) eqn:E; auto.
  apply (anc_truthy K adj) in E; auto; try lia. contradiction.
Qed.

Lemma panc_dec_anc : {panc adj B A} + {~ panc adj B A}.
Proof.
  destruct (truthy (mget (fill_diagonal anc 0%Z) B A)) eqn:E.
  - left. apply (anc_truthy K adj anc) in E; auto; lia.
  - right. intros H. apply (anc_truthy K adj anc) in H; auto; try lia.
    congruence.
Qed.

Lemma modify_tree_ok :
  exists R, _modify_tree adj anc A B = Some R /\ valid_adj K R.
Proof.
  destruct panc_dec_anc as [Hp|Hp].
  - eexists. split; [now apply modify_tree_swap|].
    now apply swap_valid.
  - eexists. split; [now apply modify_tree_move|].
    now apply move_valid.
Qed.
End ModifyTree.

Lemma NoDup_singleton (l : list nat) p :
  NoDup l -> (forall x, In x l <-> x = p) -> l = [p].
Proof.
  intros ND H. destruct l as [|a l].
  - exfalso. apply (proj2 (H p) eq_refl).
  - assert (a = p) by (apply H; now left). subst a.
    destruct l as [|b l]; auto.
    assert (b = p) by (apply H; right; now left). subst b.
    inversion ND; subst. exfalso. apply H2. now left.
Qed.

Lemma find_parent_ok K adj j :
  valid_adj K adj -> 0 < j < K ->
  exists p, _find_parent j adj = Some p /\ edge adj p j.
Proof.
  intros V Hj. destruct (parent_exists_unique _ _ V j Hj) as (p & E & Hu).
  exists p. split; [|exact E]. unfold _find_parent.
  destruct (va_square _ _ V) as [HL HR].
  rewrite (NoDup_singleton _ p); auto.
  - apply flatnonzero_NoDup.
  - intros x. rewrite flatnonzero_In, upd_length, get_col_length, HL.
    rewrite nth_upd, get_col_length, HL, nth_get_col.
    destruct Hj as [Hj0 HjK]. apply Nat.ltb_lt in HjK as HjK'. rewrite HjK'.
    rewrite andb_true_r. split.
    + intros [Hx Hnz]. destruct (Nat.eqb_spec x j); [congruence|].
      apply Hu. split; auto.
      destruct (va_binary _ _ V x j Hx HjK); congruence.
    + intros ->. destruct (edge_range _ _ V _ _ E) as [Hp _].
      destruct E as [Hne E]. split; auto.
      destruct (Nat.eqb_spec p j); [contradiction|]. rewrite E. discriminate.
Qed.

(* ================================================================== *)
(** ** Arrays as mutable objects

    [_modify_tree] receives references to numpy arrays and edits arrays in
    place. The store holds the array objects allocated so far, a reference
    is an address in it, [np.copy] allocates. *)

Definition Store := list Matrix.
Definition ST (A : Type) := Store -> option (A * Store).

Definition st_ret {A} (a : A) : ST A := fun s => Some (a, s).
Definition st_bind {A B} (m : ST A) (f : A -> ST B) : ST B :=
  fun s => match m s with Some (a, s') => f a s' | None => None end.

Notation "x <- m ;; k" := (st_bind m (fun x => k))
  (at level 61, m at next level, right associativity).
Notation "m ;;; k" := (st_bind m (fun _ => k))
  (at level 61, right associativity).

Definition st_assert (b : bool) : ST unit :=
  fun s => if b then Some (tt, s) else None.
Definition st_read (r : nat) : ST Matrix :=
  fun s => match nth_error s r with Some m => Some (m, s) | None => None end.
Definition st_update (r : nat) (f : Matrix -> Matrix) : ST unit :=
  fun s => match nth_error s r with
           | Some m => Some (tt, upd r (f m) s)
           | None => None
           end.
Definition np_copy (r : nat) : ST nat :=
  fun s => match nth_error s r with
           | Some m => Some (length s, s ++ [m])
           | None => None
           end.
Definition st_when (b : bool) (m : ST unit) : ST unit :=
  if b then m else st_ret tt.

Definition _modify_tree_st (adj anc : nat) (A B : nat) : ST nat :=
  m <- st_read adj ;;
  st_assert (modify_asserts m A B) ;;;
  adj <- np_copy adj ;;
  anc <- np_copy anc ;;
  st_update adj (fun m => fill_diagonal m 0%Z) ;;;
  st_update anc (fun m => fill_diagonal m 0%Z) ;;;
  a <- st_read anc ;;
  m <- st_read adj ;;
  (if truthy (mget a B A) then
     let adj_BA := mget m B A in
     st_assert ((mget a A B =? mget m A B)%Z && (mget m A B =? 0)%Z) ;;;
     st_when (truthy adj_BA) (st_update adj (fun m => mset m B A 0%Z)) ;;;
     m <- st_read adj ;;
     let acol := get_col m A in
     let bcol := get_col m B in
     let arow := get_row m A in
     let brow := get_row m B in
     st_update adj (fun m => set_row (set_row m A brow) B arow) ;;;
     st_update adj (fun m => set_col (set_col m A bcol) B acol) ;;;
     st_when (truthy adj_BA) (st_update adj (fun m => mset m A B 1%Z))
   else
     st_update adj (fun m => zero_col m B) ;;;
     st_update adj (fun m => mset m A B 1%Z)) ;;;
  st_update adj (fun m => fill_diagonal m 1%Z) ;;;
  st_ret adj.

Lemma nth_error_mid {A} (s t : list A) (m : A) :
  nth_error (s ++ m :: t) (length s) = Some m.
Proof. rewrite nth_error_app2, Nat.sub_diag by lia. reflexivity. Qed.

Lemma upd_mid {A} (s t : list A) (m v : A) :
  upd (length s) v (s ++ m :: t) = s ++ v :: t.
Proof. induction s as [|a s IH]; simpl; [reflexivity|now rewrite IH]. Qed.

Lemma st_update_mid s t m f :
  st_update (length s) f (s ++ m :: t) = Some (tt, s ++ f m :: t).
Proof. unfold st_update. now rewrite nth_error_mid, upd_mid. Qed.

Lemma st_read_mid s t m :
  st_read (length s) (s ++ m :: t) = Some (m, s ++ m :: t).
Proof. unfold st_read. now rewrite nth_error_mid. Qed.

Lemma st_update_snd s m a f :
  st_update (S (length s)) f (s ++ [m; a]) = Some (tt, s ++ [m; f a]).
Proof.
  pose proof (st_update_mid (s ++ [m]) [] a f) as H.
  rewrite length_app, Nat.add_1_r, <- !app_assoc in H. exact H.
Qed.

Lemma st_read_snd s m a :
  st_read (S (length s)) (s ++ [m; a]) = Some (a, s ++ [m; a]).
Proof.
  pose proof (st_read_mid (s ++ [m]) [] a) as H.
  rewrite length_app, Nat.add_1_r, <- !app_assoc in H. exact H.
Qed.

(** The store-passing mutator computes [_modify_tree] on the contents of
    its arguments and only ever extends the store: both new arrays are
    fresh copies. *)
Lemma modify_tree_st_run s ra rb adjm ancm A B :
  nth_error s ra = Some adjm -> nth_error s rb = Some ancm ->
  _modify_tree_st ra rb A B s =
  match _modify_tree adjm ancm A B with
  | Some R => Some (length s, s ++ [R; fill_diagonal ancm 0%Z])
  | None => None
  end.
Proof.
  intros Ha Hb. unfold _modify_tree_st, _modify_tree, st_bind.
  unfold st_read at 1. rewrite Ha. unfold st_assert.
  destruct (modify_asserts adjm A B); simpl; [|reflexivity].
  unfold np_copy at 1. rewrite Ha.
  unfold np_copy. rewrite nth_error_app1 by (apply nth_error_Some; congruence).
  rewrite Hb. rewrite length_app, Nat.add_1_r, <- app_assoc. simpl.
  rewrite st_update_mid, st_update_snd, st_read_snd, st_read_mid.
  destruct (truthy (mget (fill_diagonal ancm 0%Z) B A)).
  - destruct ((mget (fill_diagonal ancm 0%Z) A B =?
               mget (fill_diagonal adjm 0%Z) A B)%Z &&
              (mget (fill_diagonal adjm 0%Z) A B =? 0)%Z); simpl;
      [|reflexivity].
    unfold swap_nodes, st_when.
    destruct (truthy (mget (fill_diagonal adjm 0%Z) B A)); simpl;
      unfold st_ret;
      repeat (rewrite ?st_update_mid, ?st_read_mid; simpl); reflexivity.
  - simpl. unfold move_subtree, st_ret.
    repeat (rewrite ?st_update_mid; simpl). reflexivity.
Qed.

(* ================================================================== *)
(** ** A decision procedure for the adjacency invariants *)

Definition valid_adjb (K : nat) (M : Matrix) : bool :=
  (0 <? K) && (length M =? K) &&
  forallb (fun r => length r =? K) M &&
  forallb (forallb (fun z => (z =? 0)%Z || (z =? 1)%Z)) M &&
  forallb (fun z => (z =? 1)%Z) (diag M) &&
  array_equal (colsums M) (1%Z :: repeat 2%Z (K - 1)) &&
  match _ensure_valid_tree K M with Some _ => true | None => false end.

Lemma ensure_loop_sound K (M : Matrix) :
  is_square K M ->
  (forall i j, i < K -> j < K -> mget M i j = 0%Z \/ mget M i j = 1%Z) ->
  forall fuel stack visited vis,
    ensure_loop (fill_diagonal M 0%Z) fuel stack visited = Some vis ->
    (forall x, In x (stack ++ visited) -> reach M 0 x) ->
    forall x, In x vis -> reach M 0 x.
Proof.
  intros HS Hb. induction fuel as [|fuel IH]; intros stack visited vis.
  - simpl. destruct (rev stack) eqn:E; [|discriminate].
    intros H Hr x Hx. inversion H; subst. apply Hr, in_or_app. now right.
  - simpl. destruct (rev stack) as [|P rest] eqn:E.
    + intros H Hr x Hx. inversion H; subst. apply Hr, in_or_app. now right.
    + destruct (existsb (Nat.eqb P) visited); [discriminate|].
      intros H Hr. apply (IH _ _ _ H).
      assert (Hst : stack = rev rest ++ [P]).
      { rewrite <- (rev_involutive stack), E. reflexivity. }
      subst stack. intros x Hx.
      rewrite !in_app_iff in Hx. simpl in Hx.
      destruct Hx as [[Hx|Hx]|[<-|Hx]].
      * apply Hr. rewrite !in_app_iff. auto.
      * assert (RP : reach M 0 P)
          by (apply Hr; rewrite !in_app_iff; simpl; auto).
        eapply reach_trans; [exact RP|]. apply reach_edge.
        apply flatnonzero_In in Hx as [Hx Hnz].
        destruct (Nat.lt_ge_cases P K) as [HP|HP].
        -- rewrite (get_row_length K) in Hx by sq_side.
           fold (mget (fill_diagonal M 0%Z) P x) in Hnz.
           rewrite (mget_fill_diagonal K) in Hnz by sq_side.
           destruct (Nat.eqb_spec P x); [congruence|].
           split; auto. destruct (Hb P x HP Hx); congruence.
        -- exfalso. unfold get_row in Hx. rewrite nth_overflow in Hx.
           ++ simpl in Hx. lia.
           ++ unfold fill_diagonal. rewrite mapi_length.
              destruct HS as [HL _]. lia.
      * apply Hr. rewrite !in_app_iff. simpl. auto.
      * apply Hr. rewrite !in_app_iff. auto.
Qed.

Lemma valid_adjb_sound K M : valid_adjb K M = true -> valid_adj K M.
Proof.
  unfold valid_adjb. rewrite !andb_true_iff.
  intros [[[[[[HK HL] HR] Hb] Hd] Hc] He].
  apply Nat.ltb_lt in HK. apply Nat.eqb_eq in HL.
  assert (HS : is_square K M).
  { split; auto. intros i Hi. unfold get_row.
    rewrite forallb_forall in HR. apply Nat.eqb_eq, HR, nth_In. lia. }
  assert (Hbin : forall i j, i < K -> j < K ->
                             mget M i j = 0%Z \/ mget M i j = 1%Z).
  { intros i j Hi Hj. rewrite forallb_forall in Hb.
    assert (Hrow : In (get_row M i) M) by (apply nth_In; lia).
    specialize (Hb _ Hrow). rewrite forallb_forall in Hb.
    assert (Hin : In (mget M i j) (get_row M i)).
    { apply nth_In. rewrite (get_row_length K); auto. }
    specialize (Hb _ Hin). apply orb_true_iff in Hb.
    rewrite !Z.eqb_eq in Hb. exact Hb. }
  apply array_equal_eq in Hc.
  constructor; auto.
  - intros i Hi. rewrite forallb_forall in Hd. apply Z.eqb_eq, Hd.
    unfold diag. rewrite HL.
    apply in_map_iff. exists i. split; [reflexivity|apply in_seq; lia].
  - apply (f_equal (fun l => nth 0 l 0%Z)) in Hc. unfold colsums in Hc.
    rewrite HL, nth_map_seq in Hc by lia. exact Hc.
  - intros j Hj. apply (f_equal (fun l => nth j l 0%Z)) in Hc.
    unfold colsums in Hc. rewrite HL, nth_map_seq in Hc by lia.
    rewrite Hc. destruct j as [|j]; [lia|]. simpl. apply nth_repeat_in. lia.
  - intros j Hj. unfold _ensure_valid_tree in He.
    destruct (negb _); [discriminate|].
    destruct (ensure_loop _ _ _ _) as [vis|] eqn:El; [|discriminate].
    destruct (visited_all (length M) vis) eqn:Ev; [|discriminate].
    apply (ensure_loop_sound K M HS Hbin _ _ _ _ El).
    + intros x [<-|[]]. apply reach_refl.
    + unfold visited_all in Ev. apply andb_prop in Ev as [Ev _].
      rewrite forallb_forall in Ev. apply existsb_eqb_In, Ev, in_seq. lia.
Qed.

(** Both directions: the procedure decides the invariants. *)
Lemma valid_adjb_complete K M : valid_adj K M -> valid_adjb K M = true.
Proof.
  intros V. unfold valid_adjb.
  destruct (va_square _ _ V) as [HL HR].
  pose proof (va_pos _ _ V) as HK.
  rewrite (valid_colsums _ _ V), array_equal_refl, (valid_diag _ _ V).
  destruct (ensure_valid_tree_ok K M V K (le_n K)) as (vis & -> & _).
  apply Nat.ltb_lt in HK as ->. apply Nat.eqb_eq in HL as HL'. rewrite HL'.
  simpl. rewrite !andb_true_r. rewrite !andb_true_iff. repeat split.
  - apply forallb_forall. intros r Hr.
    destruct (In_nth _ _ [] Hr) as (i & Hi & <-).
    apply Nat.eqb_eq, HR. lia.
  - apply forallb_forall. intros r Hr.
    destruct (In_nth _ _ [] Hr) as (i & Hi & <-).
    apply forallb_forall. intros z Hz.
    destruct (In_nth _ _ 0%Z Hz) as (j & Hj & <-).
    fold (get_row M i) in *. rewrite HR in Hj by lia.
    fold (mget M i j).
    destruct (va_binary _ _ V i j) as [-> | ->]; auto; lia.
  - apply forallb_forall. intros z Hz. apply repeat_spec in Hz. now subst.
Qed.

(* ================================================================== *)
(** ** Verified properties of the tree mutator and the ancestry matrix *)

(** A chain [0 -> 1 -> 2] and a tree whose indices are not topologically
    sorted, [0 -> 2 -> 1]. *)
Definition chain3 : Matrix := [[1; 1; 0]; [0; 1; 1]; [0; 0; 1]]%Z.
Definition chain3_anc : Matrix := [[1; 1; 1]; [0; 1; 1]; [0; 0; 1]]%Z.
Definition unsorted3 : Matrix := [[1; 0; 1]; [0; 1; 0]; [0; 1; 1]]%Z.

Lemma ancestry_of_computed K adj anc fuel :
  valid_adj K adj -> K <= fuel ->
  make_ancestral_from_adj fuel adj = Some anc -> ancestry_of K adj anc.
Proof.
  intros V Hf H.
  destruct (make_ancestral_correct K adj V fuel Hf) as (anc' & H' & F).
  rewrite H in H'. inversion H'; subst. now apply desc_rows_ancestry.
Qed.

(** C2: for a valid K x K adjacency matrix [adj] with ancestry matrix
    [anc] and nodes [A <> B], [A < K], [0 < B < K], [_modify_tree] returns
    a new array that again satisfies every adjacency invariant (unit
    diagonal, column 0 summing to 1 and every other column to 2, every node
    reachable from the root), on which the traversal of
    [_ensure_valid_tree] visits every node exactly once; the arrays behind
    both argument references are unchanged in the resulting store, as is
    every other array of the store. *)
Theorem modify_tree_preserves_invariants :
  forall K adj anc A B (s : Store) ra rb fuel,
    valid_adj K adj -> ancestry_of K adj anc ->
    A <> B -> A < K -> 0 < B < K ->
    nth_error s ra = Some adj -> nth_error s rb = Some anc ->
    K <= fuel ->
    exists r s' R,
      _modify_tree_st ra rb A B s = Some (r, s') /\
      nth_error s' r = Some R /\
      valid_adj K R /\
      diag R = repeat 1%Z K /\
      colsums R = 1%Z :: repeat 2%Z (K - 1) /\
      (exists vis, _ensure_valid_tree fuel R = Some vis /\
                   NoDup vis /\ forall k, k < K <-> In k vis) /\
      nth_error s' ra = Some adj /\ nth_error s' rb = Some anc /\
      (forall r0 m, nth_error s r0 = Some m -> nth_error s' r0 = Some m).
Proof.
  intros K adj anc A B s ra rb fuel V HAnc HAB HA HB Hra Hrb Hf.
  destruct (modify_tree_ok K adj anc A B V HAnc HA HB HAB) as (R & HR & VR).
  exists (length s), (s ++ [R; fill_diagonal anc 0%Z]), R.
  assert (Hold : forall r0 m, nth_error s r0 = Some m ->
                 nth_error (s ++ [R; fill_diagonal anc 0%Z]) r0 = Some m).
  { intros r0 m H. rewrite nth_error_app1; auto.
    apply nth_error_Some. congruence. }
  refine (conj _ (conj _ (conj VR (conj _ (conj _ (conj _
            (conj (Hold _ _ Hra) (conj (Hold _ _ Hrb) Hold)))))))).
  - rewrite (modify_tree_st_run s ra rb adj anc A B Hra Hrb), HR. reflexivity.
  - apply nth_error_mid.
  - now apply valid_diag.
  - now apply valid_colsums.
  - now apply ensure_valid_tree_ok.
Qed.

Lemma modify_tree_preserves_invariants_witness :
  exists r s' R,
    _modify_tree_st 0 1 2 1 [chain3; chain3_anc] = Some (r, s') /\
    nth_error s' r = Some R /\
    valid_adj 3 R /\
    diag R = repeat 1%Z 3 /\
    colsums R = 1%Z :: repeat 2%Z (3 - 1) /\
    (exists vis, _ensure_valid_tree 3 R = Some vis /\
                 NoDup vis /\ forall k, k < 3 <-> In k vis) /\
    nth_error s' 0 = Some chain3 /\ nth_error s' 1 = Some chain3_anc /\
    (forall r0 m, nth_error [chain3; chain3_anc] r0 = Some m ->
                  nth_error s' r0 = Some m).
Proof.
  assert (V : valid_adj 3 chain3) by (apply valid_adjb_sound; reflexivity).
  apply (modify_tree_preserves_invariants 3 chain3 chain3_anc 2 1
           [chain3; chain3_anc] 0 1 3 V).
  - apply (ancestry_of_computed 3 chain3 chain3_anc 3 V); [lia|reflexivity].
  - discriminate.
  - lia.
  - lia.
  - reflexivity.
  - reflexivity.
  - lia.
Defined.

(** C3: for every valid adjacency matrix, whatever the order of its node
    indices, [make_ancestral_from_adj] (given recursion depth at least K)
    returns the transitive closure: entry [i][j] is 1 exactly when [i = j]
    or a directed path of at least one edge leads from [i] to [j] in the
    adjacency graph without its diagonal, and 0 exactly otherwise. *)
Theorem make_ancestral_is_transitive_closure :
  forall K adj fuel,
    valid_adj K adj -> K <= fuel ->
    exists anc,
      make_ancestral_from_adj fuel adj = Some anc /\
      is_square K anc /\
      forall i j, i < K -> j < K ->
        (mget anc i j = 1%Z <-> (i = j \/ exists n, path adj (S n) i j)) /\
        (mget anc i j = 0%Z <-> ~ (i = j \/ exists n, path adj (S n) i j)).
Proof.
  intros K adj fuel V Hf.
  destruct (make_ancestral_correct K adj V fuel Hf) as (anc & H & F).
  exists anc. split; [exact H|].
  destruct (desc_rows_ancestry K adj anc F) as [HS Ha].
  split; [exact HS|]. intros i j Hi Hj.
  destruct (Ha i j Hi Hj) as [H1 H01].
  rewrite reach_cases in H1. fold (panc adj i j).
  split; [exact H1|]. split.
  - intros E H2. apply H1 in H2. congruence.
  - intros H2. destruct H01 as [E|E]; [exact E|]. apply H1 in E. contradiction.
Qed.

Lemma make_ancestral_is_transitive_closure_witness :
  exists anc,
    make_ancestral_from_adj 3 unsorted3 = Some anc /\
    is_square 3 anc /\
    forall i j, i < 3 -> j < 3 ->
      (mget anc i j = 1%Z <->
       (i = j \/ exists n, path unsorted3 (S n) i j)) /\
      (mget anc i j = 0%Z <->
       ~ (i = j \/ exists n, path unsorted3 (S n) i j)).
Proof.
  apply (make_ancestral_is_transitive_closure 3 unsorted3 3).
  - apply valid_adjb_sound. reflexivity.
  - lia.
Defined.

(* ================================================================== *)
(** ** Floating-point values

    A numpy float is a real number or one of the IEEE specials. Rounding
    error is not modelled: arithmetic on finite values is exact. *)

Inductive npfloat : Type :=
| NaN : npfloat
| NInf : npfloat
| PInf : npfloat
| Fin : R -> npfloat.

Definition fopp (a : npfloat) : npfloat :=
  match a with
  | NaN => NaN | NInf => PInf | PInf => NInf | Fin x => Fin (- x)%R
  end.

Definition fadd (a b : npfloat) : npfloat :=
  match a, b with
  | NaN, _ | _, NaN => NaN
  | NInf, PInf | PInf, NInf => NaN
  | NInf, _ | _, NInf => NInf
  | PInf, _ | _, PInf => PInf
  | Fin x, Fin y => Fin (x + y)%R
  end.

Definition fsub (a b : npfloat) : npfloat := fadd a (fopp b).

(** [a >= b]; false as soon as one side is [nan]. *)
Definition fge (a b : npfloat) : bool :=
  match a, b with
  | NaN, _ | _, NaN => false
  | PInf, _ => true
  | _, NInf => true
  | NInf, _ => false
  | _, PInf => false
  | Fin x, Fin y => if Rle_dec y x then true else false
  end.

(** [np.log] of a real argument. *)
Definition np_log (x : R) : npfloat :=
  if Rlt_dec 0 x then Fin (ln x)
  else if Req_dec_T x 0 then NInf else NaN.

(** [np.exp]. *)
Definition np_exp (a : npfloat) : npfloat :=
  match a with
  | NaN => NaN | NInf => Fin 0%R | PInf => PInf | Fin x => Fin (exp x)
  end.

(* ================================================================== *)
(** ** Python's [round] on a fraction: to the nearest integer, ties to the
    even one *)

Definition py_round (q : Q) : Z :=
  let f := Qfloor q in
  match Qcompare (q - inject_Z f) (1 # 2) with
  | Lt => f
  | Gt => (f + 1)%Z
  | Eq => if Z.even f then f else (f + 1)%Z
  end.



Lemma py_round_inject z : py_round (inject_Z z) = z.
Proof.
  unfold py_round. rewrite Qfloor_Z.
  assert (E : (inject_Z z - inject_Z z == 0)%Q) by ring.
  destruct (Qcompare_spec (inject_Z z - inject_Z z) (1 # 2)) as [H|H|H];
    rewrite E in H; try reflexivity; discriminate H.
Qed.


(* ================================================================== *)
(** ** Tree samples *)

Module TS.
Record t : Type := mk {
  adj : Matrix;
  anc : Matrix;
  depth_frac : list npfloat;
  phi : list (list R);
  llh_phi : R
}.
End TS.

(** The acceptance test of one Metropolis-Hastings iteration: the
    log-ratio and whether it is at least [log(U)]. *)
Definition mh_accept (old_llh new_llh : R)
    (log_p_new_given_old log_p_old_given_new : npfloat) (U : R)
  : npfloat * bool :=
  let log_p_transition :=
    fadd (Fin (new_llh - old_llh)%R)
         (fsub log_p_old_given_new log_p_new_given_old) in
  (log_p_transition, fge log_p_transition (np_log U)).

(* ================================================================== *)
(** ** The chain runner ([tree_sampler._run_chain]) and the orchestrator
    ([tree_sampler.sample_trees])

    The global random state of a process is threaded explicitly. The
    generator itself, the construction of the initial tree and the proposal
    step are parameters here; the proposal step is made concrete in the
    last part of the development. A step that fails an assertion aborts
    the chain. *)

Section ChainRunner.
Variable Rng : Type.
(** [np.random.seed]: the state a seed in [0, 2**32) installs. *)
Variable seed_rng : Z -> Rng.
(** [np.random.uniform()]. *)
Variable rand_uniform : Rng -> R * Rng.
(** [_init_chain] after seeding. *)
Variable init_sample : Rng -> option (TS.t * Rng).
(** [_generate_new_sample] on the chain's data. *)
Variable generate_new_sample :
  TS.t -> Rng -> option ((TS.t * npfloat * npfloat) * Rng).

Definition _init_chain (seed : Z) (g : Rng) : option (TS.t * Rng) :=
  init_sample (seed_rng (seed mod 2 ^ 32)%Z).

(** One iteration of the loop body: the sample the chain moves to, whether
    the proposal was accepted, and the generator state. *)
Definition chain_step (old_samp : TS.t) (g : Rng)
  : option (TS.t * bool * Rng) :=
  match generate_new_sample old_samp g with
  | None => None
  | Some ((new_samp, log_p_new_given_old, log_p_old_given_new), g1) =>
      let (U, g2) := rand_uniform g1 in
      let accept :=
        snd (mh_accept (TS.llh_phi old_samp) (TS.llh_phi new_samp)
                       log_p_new_given_old log_p_old_given_new U) in
      Some (if accept then new_samp else old_samp, accept, g2)
  end.

(** [for I in range(1, nsamples)], over the remaining indices. *)
Fixpoint chain_loop (record_every : Z) (Is : list nat) (old_samp : TS.t)
    (samps : list TS.t) (accepted : nat) (g : Rng)
  : option (list TS.t * nat * Rng) :=
  match Is with
  | [] => Some (samps, accepted, g)
  | i :: Is' =>
      match chain_step old_samp g with
      | None => None
      | Some (samp, accept, g') =>
          chain_loop record_every Is' samp
            (if (Z.of_nat i mod record_every =? 0)%Z
             then samps ++ [samp] else samps)
            (if accept then S accepted else accepted) g'
      end
  end.

Definition Qleb_strict (a b : Q) : bool :=
  match Qcompare a b with Lt => true | _ => false end.

(** The three parallel lists a chain returns. *)
Definition ChainResult : Type :=
  (list Matrix * list (list (list R)) * list R)%type.

Definition _run_chain (nsamples : nat) (thinned_frac : Q) (seed : Z)
    (g : Rng) : option (ChainResult * Rng) :=
  if negb (0 <? nsamples) then None else
  match _init_chain seed g with
  | None => None
  | Some (init, g0) =>
      if negb (Qleb_strict 0 thinned_frac && Qle_bool thinned_frac 1)
      then None else
      let record_every := py_round (/ thinned_frac) in
      let expected_total_trees :=
        (1 + (Z.of_nat nsamples - 1) / record_every)%Z in
      if (record_every =? 0)%Z then None else
      match chain_loop record_every (seq 1 (nsamples - 1)) init [init] 0 g0
      with
      | None => None
      | Some (samps, accepted, g') =>
          if negb (Z.of_nat (length samps) =? expected_total_trees)%Z
          then None
          else Some ((map TS.adj samps, map TS.phi samps,
                      map TS.llh_phi samps), g')
      end
  end.

(* ------------------------------------------------------------------ *)
(** *** The recording policy *)









Lemma run_chain_seed_residue nsamples thinned_frac seed seed' g :
  (seed mod 2 ^ 32 = seed' mod 2 ^ 32)%Z ->
  _run_chain nsamples thinned_frac seed g =
  _run_chain nsamples thinned_frac seed' g.
Proof. intros E. unfold _run_chain, _init_chain. now rewrite E. Qed.

(* ------------------------------------------------------------------ *)
(** *** The orchestrator *)


























(* ------------------------------------------------------------------ *)
(** *** Verified properties of the chain runner and the orchestrator *)







End ChainRunner.

(* ------------------------------------------------------------------ *)
(** *** A concrete chain

    The chain runner instantiated on a three-node tree with a proposal
    whose log-probabilities are [nan], so that every proposal is rejected:
    enough to run the recording policy and the orchestrator. *)







(* ================================================================== *)
(** ** The deterministic tree builder ([tree_builder.make_adj]) *)

Module TreeBuilder.

(** An N x N array of relation classes. *)
Definition Relations := list (list Models).

Definition rel_at (relations : Relations) (I J : nat) : Models :=
  nth J (nth I relations []) garbage.

Inductive outcome : Type :=
| Built : Matrix -> outcome
| CannotBuildTreeException : outcome
| AssertionError : outcome
| IndexError : outcome.

(** [for J in reversed(range(I))], over the remaining [J]; [None] when
    the exception is raised. *)
Fixpoint place_node (relations : Relations) (I : nat) (Js : list nat)
    (adj : Matrix) (I_placed : bool) : option Matrix :=
  match Js with
  | [] => Some adj
  | J :: Js' =>
      match rel_at relations I J with
      | B_A =>
          if I_placed then place_node relations I Js' adj true
          else place_node relations I Js' (mset adj J I 1%Z) true
      | diff_branches => place_node relations I Js' adj I_placed
      | _ => None
      end
  end.

(** [for I in range(2, N)], over the remaining [I]. *)
Fixpoint place_all (relations : Relations) (Is : list nat) (adj : Matrix)
  : outcome :=
  match Is with
  | [] => Built adj
  | i :: Is' =>
      match place_node relations i (rev (seq 0 i)) adj false with
      | None => CannotBuildTreeException
      | Some adj' => place_all relations Is' adj'
      end
  end.

Definition make_adj (relations : Relations) : outcome :=
  let N := length relations in
  if negb (forallb (fun r => length r =? N) relations) then AssertionError
  else if N <? 2 then IndexError
  else if negb (Models_eqb (rel_at relations 1 0) B_A)
       then CannotBuildTreeException
  else place_all relations (seq 2 (N - 2)) (mset (eye N) 0 1 1%Z).

(** A relation the inner loop accepts. *)
Definition placeable (m : Models) : bool :=
  match m with B_A | diff_branches => true | _ => false end.

Lemma place_node_raises relations I Js : forall adj placed,
  place_node relations I Js adj placed = None <->
  exists J, In J Js /\ placeable (rel_at relations I J) = false.
Proof.
  induction Js as [|J Js IH]; intros adj placed; simpl.
  - split; [discriminate|intros (J & [] & _)].
  - destruct (rel_at relations I J) eqn:E;
      try (split; [intros _; exists J; rewrite E; auto|reflexivity]).
    + destruct placed; rewrite IH; split.
      * intros (J' & H & P). exists J'. auto.
      * intros (J' & [<-|H] & P); [rewrite E in P; discriminate|eauto].
      * intros (J' & H & P). exists J'. auto.
      * intros (J' & [<-|H] & P); [rewrite E in P; discriminate|eauto].
    + rewrite IH; split.
      * intros (J' & H & P). exists J'. auto.
      * intros (J' & [<-|H] & P); [rewrite E in P; discriminate|eauto].
Qed.

Lemma place_all_raises relations Is : forall adj,
  place_all relations Is adj = CannotBuildTreeException <->
  exists I J, In I Is /\ J < I /\ placeable (rel_at relations I J) = false.
Proof.
  induction Is as [|I Is IH]; intros adj; simpl.
  - split; [discriminate|intros (I & J & [] & _)].
  - destruct (place_node relations I (rev (seq 0 I)) adj false) as [adj'|] eqn:E.
    + rewrite IH. split.
      * intros (I' & J & H & HJ & P). exists I', J. auto.
      * intros (I' & J & [<-|H] & HJ & P); [|eauto].
        exfalso.
        assert (N : place_node relations I (rev (seq 0 I)) adj false = None).
        { apply place_node_raises. exists J. split; [|exact P].
          rewrite <- in_rev. apply in_seq. lia. }
        congruence.
    + split; [intros _|reflexivity].
      apply place_node_raises in E as (J & HJ & P).
      rewrite <- in_rev in HJ. apply in_seq in HJ.
      exists I, J. repeat split; auto. lia.
Qed.

Lemma place_all_never_fails_otherwise relations Is : forall adj,
  place_all relations Is adj <> AssertionError /\
  place_all relations Is adj <> IndexError.
Proof.
  induction Is as [|I Is IH]; intros adj; simpl.
  - split; discriminate.
  - destruct (place_node _ _ _ _ _); [apply IH|split; discriminate].
Qed.

(** When [make_adj] raises its exception: exactly when node 1 is not
    marked a descendant of node 0, or some entry below the diagonal is
    neither [B_A] nor [diff_branches]. *)
Lemma make_adj_raises relations :
  let N := length relations in
  2 <= N -> (forall I, I < N -> length (nth I relations []) = N) ->
  (make_adj relations = CannotBuildTreeException <->
   rel_at relations 1 0 <> B_A \/
   exists I J, J < I < N /\ placeable (rel_at relations I J) = false).
Proof.
  intros N HN Hsq. unfold make_adj. fold N.
  assert (Hshape : forallb (fun r => length r =? N) relations = true).
  { apply forallb_forall. intros r Hr.
    destruct (In_nth _ _ [] Hr) as (I & HI & <-). apply Nat.eqb_eq, Hsq, HI. }
  rewrite Hshape. cbn [negb].
  destruct (Nat.ltb_spec N 2) as [|_]; [lia|].
  destruct (Models_eqb_spec (rel_at relations 1 0) B_A) as [E|E]; cbn [negb].
  - rewrite place_all_raises. split.
    + intros (I & J & HI & HJ & P). right. exists I, J.
      apply in_seq in HI. repeat split; auto. lia.
    + intros [H|(I & J & [HJ HI] & P)]; [contradiction|].
      exists I, J. repeat split; auto. apply in_seq.
      destruct (Nat.eq_dec I 1) as [->|Hne]; [|lia].
      assert (J = 0) by lia. subst J. rewrite E in P. discriminate.
  - split; [intros _|reflexivity]. now left.
Qed.

(** A relation matrix the builder accepts without placing node 2. *)
Definition orphan3 : Relations :=
  [[cocluster; A_B; diff_branches];
   [B_A; cocluster; diff_branches];
   [diff_branches; diff_branches; cocluster]].

End TreeBuilder.

(** C7, the failing input: on a complete 3 x 3 relation matrix in which
    node 1 is a child of node 0 and node 2 is on a different branch from
    both, [make_adj] raises nothing and returns a matrix in which node 2
    has no parent: its column sums to 1 and the adjacency invariants
    fail. *)
Theorem make_adj_returns_orphan :
  exists adj,
    TreeBuilder.make_adj TreeBuilder.orphan3 = TreeBuilder.Built adj /\
    adj = [[1; 1; 0]; [0; 1; 0]; [0; 0; 1]]%Z /\
    zsum (get_col adj 2) = 1%Z /\
    ~ valid_adj 3 adj.
Proof.
  eexists. split; [reflexivity|]. split; [reflexivity|].
  split; [reflexivity|].
  intros V. apply valid_adjb_complete in V. discriminate V.
Qed.

(* ================================================================== *)
(** ** More floating-point operations *)

Definition fscale (c : R) (a : npfloat) : npfloat :=
  match a with
  | NaN => NaN
  | Fin x => Fin (c * x)%R
  | PInf => if Rlt_dec 0 c then PInf else if Rlt_dec c 0 then NInf else NaN
  | NInf => if Rlt_dec 0 c then NInf else if Rlt_dec c 0 then PInf else NaN
  end.

Definition fdiv (a b : npfloat) : npfloat :=
  match a, b with
  | NaN, _ | _, NaN => NaN
  | Fin x, Fin y =>
      if Req_dec_T y 0
      then (if Req_dec_T x 0 then NaN
            else if Rlt_dec 0 x then PInf else NInf)
      else Fin (x / y)%R
  | Fin _, _ => Fin 0%R
  | PInf, Fin y => if Rlt_dec y 0 then NInf else PInf
  | NInf, Fin y => if Rlt_dec y 0 then PInf else NInf
  | _, _ => NaN
  end.

(** [np.maximum]. *)
Definition fmax (a b : npfloat) : npfloat :=
  match a, b with
  | NaN, _ | _, NaN => NaN
  | PInf, _ | _, PInf => PInf
  | NInf, x | x, NInf => x
  | Fin x, Fin y => Fin (Rmax x y)
  end.

(** [np.log] of a float. *)
Definition flog (a : npfloat) : npfloat :=
  match a with
  | NaN | NInf => NaN
  | PInf => PInf
  | Fin x => np_log x
  end.

Definition fsum (l : list npfloat) : npfloat := fold_right fadd (Fin 0%R) l.
Definition rsum (l : list R) : R := fold_right Rplus 0%R l.

(** [a > b] and [a == b]. *)
Definition fgt (a b : npfloat) : bool :=
  match a, b with
  | NaN, _ | _, NaN => false
  | PInf, PInf => false
  | PInf, _ => true
  | _, PInf => false
  | NInf, _ => false
  | _, NInf => true
  | Fin x, Fin y => if Rlt_dec y x then true else false
  end.

Definition feq (a b : npfloat) : bool :=
  match a, b with
  | PInf, PInf | NInf, NInf => true
  | Fin x, Fin y => if Req_dec_T x y then true else false
  | _, _ => false
  end.

Definition isnan (a : npfloat) : bool :=
  match a with NaN => true | _ => false end.
Definition isinf (a : npfloat) : bool :=
  match a with PInf | NInf => true | _ => false end.

(** [np.isclose(a, b)] with numpy's default tolerances. *)
Definition isclose (a b : npfloat) : bool :=
  match a, b with
  | PInf, PInf | NInf, NInf => true
  | Fin x, Fin y =>
      if Rle_dec (Rabs (x - y)) (1 / 100000000 + 1 / 100000 * Rabs y)%R
      then true else false
  | _, _ => false
  end.

(** Modelled from the spec: [scipy.special.logsumexp] along one axis, the
    logarithm of the sum of the exponentials. *)
Definition logsumexp (l : list npfloat) : npfloat :=
  flog (fsum (map np_exp l)).

(** Modelled from the spec: [util.softmax], which is not among the source
    files; the exponentials divided by their sum. *)
Definition softmax (l : list npfloat) : list npfloat :=
  let e := map np_exp l in
  map (fun x => fdiv x (fsum e)) e.

Lemma fsum_Fin (l : list R) : fsum (map Fin l) = Fin (rsum l).
Proof.
  induction l as [|x l IH]; [reflexivity|].
  change (fsum (map Fin (x :: l))) with (fadd (Fin x) (fsum (map Fin l))).
  rewrite IH. reflexivity.
Qed.

Lemma rsum_nonneg l : (forall x, In x l -> (0 <= x)%R) -> (0 <= rsum l)%R.
Proof.
  induction l as [|x l IH]; intros H; simpl; [lra|].
  assert (0 <= x)%R by (apply H; now left).
  assert (0 <= rsum l)%R by (apply IH; intros; apply H; now right). lra.
Qed.

Lemma rsum_pos l :
  (forall x, In x l -> (0 <= x)%R) -> (exists x, In x l /\ (0 < x)%R) ->
  (0 < rsum l)%R.
Proof.
  induction l as [|x l IH]; intros H (y & Hy & Py); simpl; [destruct Hy|].
  assert (0 <= x)%R by (apply H; now left).
  assert (0 <= rsum l)%R by (apply rsum_nonneg; intros; apply H; now right).
  destruct Hy as [->|Hy]; [lra|].
  assert (0 < rsum l)%R; [|lra].
  apply IH; [intros; apply H; now right|eauto].
Qed.

Lemma rsum_map_div (l : list R) (s : R) :
  (s <> 0)%R -> rsum (map (fun x => x / s)%R l) = (rsum l / s)%R.
Proof.
  intros Hs. induction l as [|x l IH]; simpl; [field; exact Hs|].
  rewrite IH. field. exact Hs.
Qed.

Lemma rsum_app l1 l2 : rsum (l1 ++ l2) = (rsum l1 + rsum l2)%R.
Proof. induction l1; simpl; lra. Qed.

Lemma np_log_pos x : (0 < x)%R -> np_log x = Fin (ln x).
Proof. intros H. unfold np_log. destruct (Rlt_dec 0 x); [reflexivity|lra]. Qed.

Lemma ln_div x y : (0 < x)%R -> (0 < y)%R -> ln (x / y) = (ln x - ln y)%R.
Proof.
  intros Hx Hy. unfold Rdiv.
  rewrite ln_mult; [|exact Hx|now apply Rinv_0_lt_compat].
  rewrite ln_Rinv by exact Hy. lra.
Qed.

Lemma ln_le_minus_one y : (0 < y)%R -> (ln y <= y - 1)%R.
Proof.
  intros Hy. pose proof (exp_ineq1_le (ln y)) as H.
  rewrite exp_ln in H by exact Hy. lra.
Qed.

Lemma isclose_refl_Fin x : isclose (Fin x) (Fin x) = true.
Proof.
  unfold isclose. destruct (Rle_dec _ _) as [|N]; [reflexivity|].
  exfalso. apply N. rewrite Rminus_diag, Rabs_R0.
  pose proof (Rabs_pos x). lra.
Qed.

(* ================================================================== *)
(** ** The relation model and its log transform
    ([tree_sampler._make_data_logmutrel]) *)

(** Modelled from the spec: the named tuple [mutrel.Mutrel], whose module is
    not among the source files: the variant identifiers and the
    (K-1) x (K-1) x 5 array of per-class values. The identifier ['S<k>'] is
    the number [k]. *)
Record Mutrel (X : Type) : Type := mkMutrel {
  vids : list nat;
  rels : list (list (list X))
}.
Arguments mkMutrel {X} _ _.
Arguments vids {X} _.
Arguments rels {X} _.

Definition alpha : R := (1 / 1000)%R.

Definition valid_models : list Models := [A_B; B_A; diff_branches].
Definition invalid_models : list Models := [cocluster; garbage].

(** [cell[ms] = f(class)] along the last axis. *)
Definition set_classes {X} (ms : list Models) (f : Models -> X)
    (cell : list X) : list X :=
  fold_left (fun c m => upd (Models_index m) (f m) c) ms cell.

Definition class_at {X} (d : X) (cell : list X) (m : Models) : X :=
  nth (Models_index m) cell d.

(** The six array assignments of [_make_data_logmutrel] as they act on the
    cell of the pair [(a, b)], whose probabilities are [p]. *)
Definition cell_logrel (a b : nat) (p : list R) : list npfloat :=
  let c := repeat NaN (length p) in
  let c := set_classes invalid_models (fun _ => NInf) c in
  let c := set_classes valid_models
             (fun m => np_log (class_at 0%R p m + alpha)%R) c in
  let c := if Nat.eqb a b then map (fun _ => NInf) c else c in
  let c := if Nat.eqb a b then set_classes [cocluster] (fun _ => Fin 0%R) c
           else c in
  let valid_old := c in
  set_classes valid_models
    (fun m => fsub (class_at NaN valid_old m)
                   (np_log (1 + INR (length valid_models) * alpha)%R)) c.

Definition logrels_of (rels : list (list (list R)))
  : list (list (list npfloat)) :=
  mapi (fun a row => mapi (fun b p => cell_logrel a b p) row) rels.

(** [np.allclose(0, x)] over an array. *)
Definition allclose0 (l : list npfloat) : bool :=
  forallb (fun x => isclose (Fin 0%R) x) l.

Definition _make_data_logmutrel (mutrel : Mutrel R) : option (Mutrel npfloat) :=
  let logrels := logrels_of (rels mutrel) in
  if negb (forallb (fun row => allclose0 (map logsumexp row)) logrels)
  then None
  else if existsb (existsb (existsb isnan)) logrels then None
  else Some (mkMutrel (vids mutrel) logrels).

Definition cell3 {X} (d : X) (A : list (list (list X))) (a b : nat) : list X :=
  nth b (nth a A []) [].

(** A (K-1) x (K-1) x 5 array. *)
Definition mutrel_shape {X} (K : nat) (A : list (list (list X))) : Prop :=
  length A = K /\
  forall a, a < K ->
    length (nth a A []) = K /\
    forall b, b < K -> length (nth b (nth a A []) []) = 5.

Lemma cell3_logrels K rels a b :
  mutrel_shape K rels -> a < K -> b < K ->
  cell3 NaN (logrels_of rels) a b = cell_logrel a b (cell3 0%R rels a b).
Proof.
  intros [HL HR] Ha Hb. destruct (HR a Ha) as [HLa _].
  unfold cell3, logrels_of.
  rewrite (nth_mapi _ _ _ []) by lia.
  rewrite (nth_mapi _ _ _ []) by lia. reflexivity.
Qed.

Lemma logrels_shape K rels :
  mutrel_shape K rels -> mutrel_shape K (logrels_of rels).
Proof.
  intros [HL HR]. split.
  - unfold logrels_of. now rewrite mapi_length.
  - intros a Ha. destruct (HR a Ha) as [HLa Hc]. unfold logrels_of.
    rewrite (nth_mapi _ _ _ []) by lia. split.
    + now rewrite mapi_length.
    + intros b Hb. rewrite (nth_mapi _ _ _ []) by lia.
      specialize (Hc b Hb).
      destruct (nth b (nth a rels []) []) as [|g [|c [|ab [|ba [|d [|]]]]]];
        try discriminate.
      unfold cell_logrel. simpl. now destruct (Nat.eqb a b).
Qed.

(** The contents of a cell of the log transform. *)
Lemma cell_logrel_offdiag a b g c ab ba d :
  a <> b -> (0 <= ab)%R -> (0 <= ba)%R -> (0 <= d)%R ->
  cell_logrel a b [g; c; ab; ba; d] =
  [NInf; NInf;
   Fin (ln ((ab + alpha) / (1 + 3 * alpha)));
   Fin (ln ((ba + alpha) / (1 + 3 * alpha)));
   Fin (ln ((d + alpha) / (1 + 3 * alpha)))].
Proof.
  intros Hne Hab Hba Hd. unfold cell_logrel, set_classes, class_at.
  apply Nat.eqb_neq in Hne. rewrite Hne. simpl.
  assert (Ha : (0 < alpha)%R) by (unfold alpha; lra).
  assert (E3 : (1 + (1 + 1 + 1) * alpha = 1 + 3 * alpha)%R) by ring.
  rewrite E3.
  rewrite !np_log_pos by (unfold alpha in *; lra).
  unfold fsub, fopp, fadd.
  rewrite !ln_div by (unfold alpha in *; lra).
  reflexivity.
Qed.

Lemma cell_logrel_diag a g c ab ba d :
  cell_logrel a a [g; c; ab; ba; d] = [NInf; Fin 0%R; NInf; NInf; NInf].
Proof.
  unfold cell_logrel, set_classes, class_at. rewrite Nat.eqb_refl. simpl.
  assert (E3 : (1 + (1 + 1 + 1) * alpha = 1 + 3 * alpha)%R) by ring.
  rewrite E3. rewrite np_log_pos by (unfold alpha; lra). reflexivity.
Qed.

(** The probability mass of the three valid classes after smoothing. *)
Definition valid_mass (cell : list npfloat) : npfloat :=
  fsum (map (fun m => np_exp (class_at NaN cell m)) valid_models).

Lemma exp_ln_ratio x :
  (0 <= x)%R ->
  exp (ln ((x + alpha) / (1 + 3 * alpha))) = ((x + alpha) / (1 + 3 * alpha))%R.
Proof.
  intros H. apply exp_ln. unfold alpha.
  apply Rdiv_lt_0_compat; lra.
Qed.

Lemma valid_mass_offdiag a b g c ab ba d :
  a <> b -> (0 <= ab)%R -> (0 <= ba)%R -> (0 <= d)%R ->
  valid_mass (cell_logrel a b [g; c; ab; ba; d]) =
  Fin ((ab + ba + d + 3 * alpha) / (1 + 3 * alpha))%R.
Proof.
  intros Hne Hab Hba Hd. rewrite cell_logrel_offdiag by assumption.
  unfold valid_mass, class_at. simpl.
  rewrite !exp_ln_ratio by assumption. f_equal. unfold alpha. field.
Qed.

Lemma logsumexp_offdiag a b g c ab ba d :
  a <> b -> (0 <= ab)%R -> (0 <= ba)%R -> (0 <= d)%R ->
  logsumexp (cell_logrel a b [g; c; ab; ba; d]) =
  Fin (ln ((ab + ba + d + 3 * alpha) / (1 + 3 * alpha))).
Proof.
  intros Hne Hab Hba Hd. rewrite cell_logrel_offdiag by assumption.
  unfold logsumexp. simpl.
  rewrite !exp_ln_ratio by assumption.
  rewrite np_log_pos.
  - f_equal. f_equal. unfold alpha. field.
  - unfold alpha.
    assert (0 < (ab + 1 / 1000) / (1 + 3 * (1 / 1000)))%R
      by (apply Rdiv_lt_0_compat; lra).
    assert (0 < (ba + 1 / 1000) / (1 + 3 * (1 / 1000)))%R
      by (apply Rdiv_lt_0_compat; lra).
    assert (0 < (d + 1 / 1000) / (1 + 3 * (1 / 1000)))%R
      by (apply Rdiv_lt_0_compat; lra).
    lra.
Qed.

Lemma logsumexp_diag a g c ab ba d :
  logsumexp (cell_logrel a a [g; c; ab; ba; d]) = Fin 0%R.
Proof.
  rewrite cell_logrel_diag. unfold logsumexp. simpl.
  rewrite exp_0.
  replace (0 + (1 + (0 + (0 + (0 + 0)))))%R with 1%R by ring.
  rewrite np_log_pos by lra. now rewrite ln_1.
Qed.

Definition prob (rels : list (list (list R))) (a b : nat) (m : Models) : R :=
  class_at 0%R (cell3 0%R rels a b) m.
Definition logp (L : list (list (list npfloat))) (a b : nat) (m : Models)
  : npfloat :=
  class_at NaN (cell3 NaN L a b) m.

Lemma cell_five {X} (K : nat) (A : list (list (list X))) (d : X) a b :
  mutrel_shape K A -> a < K -> b < K ->
  exists g c ab ba df, cell3 d A a b = [g; c; ab; ba; df].
Proof.
  intros [HL HR] Ha Hb. destruct (HR a Ha) as [_ Hc]. specialize (Hc b Hb).
  unfold cell3.
  destruct (nth b (nth a A []) []) as [|g [|c [|ab [|ba [|df [|]]]]]];
    try discriminate.
  now exists g, c, ab, ba, df.
Qed.

Lemma assertion_cells K mutrel out :
  mutrel_shape K (rels mutrel) ->
  _make_data_logmutrel mutrel = Some out ->
  rels out = logrels_of (rels mutrel) /\ vids out = vids mutrel /\
  forall a b, a < K -> b < K ->
    isclose (Fin 0%R)
            (logsumexp (cell3 NaN (logrels_of (rels mutrel)) a b)) = true.
Proof.
  intros Sh H. unfold _make_data_logmutrel in H.
  destruct (forallb _ _) eqn:E; [|discriminate]. cbn [negb] in H.
  destruct (existsb _ _); [discriminate|]. inversion H; subst; clear H.
  cbn [rels vids]. repeat split.
  intros a b Ha Hb. rewrite forallb_forall in E.
  pose proof (logrels_shape K _ Sh) as [HL HR].
  destruct (HR a Ha) as [HLa _].
  assert (Hrow : In (nth a (logrels_of (rels mutrel)) [])
                    (logrels_of (rels mutrel))) by (apply nth_In; lia).
  specialize (E _ Hrow). unfold allclose0 in E. rewrite forallb_forall in E.
  apply E. unfold cell3. apply in_map. apply nth_In. lia.
Qed.

Lemma make_data_logmutrel_total K mutrel :
  mutrel_shape K (rels mutrel) ->
  (forall a b m, a < K -> b < K -> (0 <= prob (rels mutrel) a b m)%R) ->
  (forall a b, a < K -> b < K -> a <> b ->
     (prob (rels mutrel) a b A_B + prob (rels mutrel) a b B_A +
      prob (rels mutrel) a b diff_branches = 1)%R) ->
  _make_data_logmutrel mutrel =
    Some (mkMutrel (vids mutrel) (logrels_of (rels mutrel))).
Proof.
  intros Sh Hnn Hone. unfold _make_data_logmutrel.
  pose proof (logrels_shape K _ Sh) as ShL.
  assert (Hcells : forall row cell,
            In row (logrels_of (rels mutrel)) -> In cell row ->
            exists a b, a < K /\ b < K /\
              cell = cell3 NaN (logrels_of (rels mutrel)) a b).
  { intros row cell Hrow Hcell. destruct ShL as [HL HR].
    destruct (In_nth _ _ [] Hrow) as (a & Ha & <-).
    rewrite HL in Ha. destruct (HR a Ha) as [HLa _].
    destruct (In_nth _ _ [] Hcell) as (b & Hb & <-).
    exists a, b. repeat split; auto; lia. }
  assert (Hcell : forall a b, a < K -> b < K ->
            let cell := cell3 NaN (logrels_of (rels mutrel)) a b in
            isclose (Fin 0%R) (logsumexp cell) = true /\
            existsb isnan cell = false).
  { intros a b Ha Hb cell. unfold cell.
    rewrite (cell3_logrels K) by assumption.
    destruct (cell_five K (rels mutrel) 0%R a b Sh Ha Hb)
      as (g & c & ab & ba & d & E).
    pose proof (Hnn a b A_B Ha Hb) as H1.
    pose proof (Hnn a b B_A Ha Hb) as H2.
    pose proof (Hnn a b diff_branches Ha Hb) as H3.
    unfold prob, class_at in H1, H2, H3. rewrite E in *. simpl in H1, H2, H3.
    destruct (Nat.eq_dec a b) as [->|Hne].
    - rewrite logsumexp_diag, cell_logrel_diag. split; [|reflexivity].
      apply isclose_refl_Fin.
    - rewrite logsumexp_offdiag, cell_logrel_offdiag by assumption.
      split; [|reflexivity].
      specialize (Hone a b Ha Hb Hne). unfold prob, class_at in Hone.
      rewrite E in Hone. simpl in Hone.
      replace ((ab + ba + d + 3 * alpha) / (1 + 3 * alpha))%R with 1%R.
      + rewrite ln_1. apply isclose_refl_Fin.
      + rewrite Hone. unfold alpha. field. }
  assert (E1 : forallb (fun row => allclose0 (map logsumexp row))
                       (logrels_of (rels mutrel)) = true).
  { apply forallb_forall. intros row Hrow. unfold allclose0.
    apply forallb_forall. intros x Hx. apply in_map_iff in Hx as (cell & <- & Hc).
    destruct (Hcells row cell Hrow Hc) as (a & b & Ha & Hb & ->).
    apply (Hcell a b Ha Hb). }
  assert (E2 : existsb (existsb (existsb isnan)) (logrels_of (rels mutrel))
               = false).
  { apply not_true_is_false. intros H. apply existsb_exists in H as (row & Hrow & H).
    apply existsb_exists in H as (cell & Hc & H).
    destruct (Hcells row cell Hrow Hc) as (a & b & Ha & Hb & ->).
    destruct (Hcell a b Ha Hb) as [_ Hn]. congruence. }
  now rewrite E1, E2.
Qed.

(** C8, as amended: the log transform has the shape of its input; for an
    off-diagonal pair the garbage and cocluster classes get [-inf] and each
    valid class gets [log((p + alpha) / (1 + 3 alpha))], so that the three
    valid classes sum, in probability space, to
    [(p_A_B + p_B_A + p_diff + 3 alpha) / (1 + 3 alpha)], which is 1 exactly
    when the pair's input mass lies on the valid classes alone; on the
    diagonal the cocluster class gets 0 and every other class, the valid
    ones included, [-inf]. [_make_data_logmutrel] returns this array with
    the input's identifiers or fails its assertion, and it returns whenever
    every off-diagonal pair has all its mass on the valid classes. *)
Theorem make_data_logmutrel_cells :
  forall K (mutrel : Mutrel R),
    mutrel_shape K (rels mutrel) ->
    (forall a b m, a < K -> b < K -> (0 <= prob (rels mutrel) a b m)%R) ->
    let p := prob (rels mutrel) in
    let L := logrels_of (rels mutrel) in
    mutrel_shape K L /\
    (forall a b, a < K -> b < K -> a <> b ->
       logp L a b garbage = NInf /\ logp L a b cocluster = NInf /\
       (forall m, In m valid_models ->
          logp L a b m = Fin (ln ((p a b m + alpha) / (1 + 3 * alpha)))) /\
       valid_mass (cell3 NaN L a b) =
         Fin ((p a b A_B + p a b B_A + p a b diff_branches + 3 * alpha) /
              (1 + 3 * alpha))%R /\
       (valid_mass (cell3 NaN L a b) = Fin 1%R <->
        (p a b A_B + p a b B_A + p a b diff_branches = 1)%R)) /\
    (forall a, a < K ->
       logp L a a cocluster = Fin 0%R /\
       forall m, m <> cocluster -> logp L a a m = NInf) /\
    (forall out, _make_data_logmutrel mutrel = Some out ->
       rels out = L /\ vids out = vids mutrel) /\
    ((forall a b, a < K -> b < K -> a <> b ->
        (p a b A_B + p a b B_A + p a b diff_branches = 1)%R) ->
     _make_data_logmutrel mutrel = Some (mkMutrel (vids mutrel) L)).
Proof.
  intros K mutrel Sh Hnn p L.
  split; [now apply logrels_shape|]. split; [|split; [|split]].
  - intros a b Ha Hb Hne. unfold logp, L.
    rewrite (cell3_logrels K) by assumption.
    destruct (cell_five K (rels mutrel) 0%R a b Sh Ha Hb)
      as (g & c & ab & ba & d & E).
    pose proof (Hnn a b A_B Ha Hb) as H1.
    pose proof (Hnn a b B_A Ha Hb) as H2.
    pose proof (Hnn a b diff_branches Ha Hb) as H3.
    unfold p, prob, class_at in *. rewrite E in *. simpl in H1, H2, H3.
    rewrite valid_mass_offdiag, cell_logrel_offdiag by assumption.
    simpl. repeat split; auto.
    + intros m [<-|[<-|[<-|[]]]]; reflexivity.
    + intros H. inversion H as [H']. unfold alpha in *.
      apply (f_equal (fun x => x * (1 + 3 * (1 / 1000)))%R) in H'.
      field_simplify in H'. lra.
    + intros H. f_equal. unfold alpha.
      replace (ab + ba + d)%R with 1%R by lra. field.
  - intros a Ha. unfold logp, L. rewrite (cell3_logrels K) by assumption.
    destruct (cell_five K (rels mutrel) 0%R a a Sh Ha Ha)
      as (g & c & ab & ba & d & E).
    rewrite E, cell_logrel_diag. unfold class_at. simpl. split; [reflexivity|].
    intros m Hm. destruct m; simpl; try reflexivity. contradiction.
  - intros out H. destruct (assertion_cells K mutrel out Sh H) as (H1 & H2 & _).
    auto.
  - intros Hone. now apply (make_data_logmutrel_total K).
Qed.

(** A relation model on two clusters that puts all of the pair's mass on
    the garbage class, and one with a proper pair. *)
Definition garbage_pair : Mutrel R :=
  mkMutrel [0; 1]
    [[[0; 1; 0; 0; 0]; [1; 0; 0; 0; 0]];
     [[1; 0; 0; 0; 0]; [0; 1; 0; 0; 0]]]%R.
Definition proper_pair : Mutrel R :=
  mkMutrel [0; 1]
    [[[0; 1; 0; 0; 0]; [0; 0; 1; 0; 0]];
     [[0; 0; 0; 1; 0]; [0; 1; 0; 0; 0]]]%R.

Lemma pair_shape (c00 c01 c10 c11 : list R) :
  length c00 = 5 -> length c01 = 5 -> length c10 = 5 -> length c11 = 5 ->
  mutrel_shape 2 [[c00; c01]; [c10; c11]].
Proof.
  intros H00 H01 H10 H11. split; [reflexivity|].
  intros [|[|a]] Ha; try lia; (split; [reflexivity|]);
    intros [|[|b]] Hb; try lia; assumption.
Qed.

(** C8 as stated fails on [garbage_pair]: the valid classes of the pair
    (0, 1) sum to [3 alpha / (1 + 3 alpha)], not 1, and no log relation
    model is derived, the assertion on the sums fails. *)
Lemma make_data_logmutrel_counterexample :
  mutrel_shape 2 (rels garbage_pair) /\
  valid_mass (cell3 NaN (logrels_of (rels garbage_pair)) 0 1) =
    Fin (3 * alpha / (1 + 3 * alpha))%R /\
  valid_mass (cell3 NaN (logrels_of (rels garbage_pair)) 0 1) <> Fin 1%R /\
  _make_data_logmutrel garbage_pair = None.
Proof.
  assert (Sh : mutrel_shape 2 (rels garbage_pair))
    by (apply pair_shape; reflexivity).
  assert (Hm : valid_mass (cell3 NaN (logrels_of (rels garbage_pair)) 0 1) =
               Fin (3 * alpha / (1 + 3 * alpha))%R).
  { rewrite (cell3_logrels 2) by (auto; lia).
    change (cell3 0%R (rels garbage_pair) 0 1) with [1; 0; 0; 0; 0]%R.
    rewrite valid_mass_offdiag by (try lra; discriminate).
    f_equal. unfold alpha. field. }
  split; [exact Sh|]. split; [exact Hm|]. split.
  - rewrite Hm. intros H. inversion H as [H']. unfold alpha in H'.
    apply (f_equal (fun x => x * (1 + 3 * (1 / 1000)))%R) in H'.
    field_simplify in H'. lra.
  - destruct (_make_data_logmutrel garbage_pair) as [out|] eqn:E;
      [|reflexivity].
    exfalso. destruct (assertion_cells 2 _ _ Sh E) as (_ & _ & Hc).
    specialize (Hc 0 1 ltac:(lia) ltac:(lia)).
    rewrite (cell3_logrels 2) in Hc by (auto; lia).
    change (cell3 0%R (rels garbage_pair) 0 1) with [1; 0; 0; 0; 0]%R in Hc.
    rewrite logsumexp_offdiag in Hc by (try lra; discriminate).
    unfold isclose in Hc. destruct (Rle_dec _ _) as [Hle|]; [|discriminate].
    set (y := ((0 + 0 + 0 + 3 * alpha) / (1 + 3 * alpha))%R) in *.
    assert (Hy : (0 < y < 1 / 100)%R).
    { unfold y, alpha. split.
      - apply Rdiv_lt_0_compat; lra.
      - apply (Rmult_lt_reg_r (1 + 3 * (1 / 1000))%R); [lra|].
        unfold Rdiv at 1. rewrite Rmult_assoc, Rinv_l by lra. lra. }
    pose proof (ln_le_minus_one y (proj1 Hy)) as Hln.
    rewrite Rminus_0_l, Rabs_Ropp in Hle.
    rewrite Rabs_left in Hle by lra. lra.
Qed.

Lemma make_data_logmutrel_cells_witness :
  _make_data_logmutrel proper_pair =
    Some (mkMutrel (vids proper_pair) (logrels_of (rels proper_pair))).
Proof.
  assert (Sh : mutrel_shape 2 (rels proper_pair))
    by (apply pair_shape; reflexivity).
  assert (Hnn : forall a b m, a < 2 -> b < 2 ->
                  (0 <= prob (rels proper_pair) a b m)%R).
  { intros [|[|a]] [|[|b]] m Ha Hb; try lia;
      destruct m; unfold prob, class_at; simpl; lra. }
  destruct (make_data_logmutrel_cells 2 proper_pair Sh Hnn)
    as (_ & _ & _ & _ & Htot).
  apply Htot.
  intros [|[|a]] [|[|b]] Ha Hb Hne; try lia; try congruence;
    unfold prob, class_at; simpl; lra.
Defined.

(* ================================================================== *)
(** ** The relations a tree induces ([tree_sampler._determine_node_rels]) *)

Definition RelMatrix := list (list Models).

Definition rget (M : RelMatrix) (i j : nat) : Models :=
  nth j (nth i M []) garbage.

Definition mem (i : nat) (l : list nat) : bool := existsb (Nat.eqb i) l.

(** [M[np.ix_(rows, cols)] = v]. *)
Definition set_block (rows cols : list nat) (v : Models) (M : RelMatrix)
  : RelMatrix :=
  mapi (fun i r =>
          if mem i rows
          then mapi (fun j x => if mem j cols then v else x) r
          else r) M.

(** [np.full((K, K), diff_branches)], the diagonal set to [cocluster] and
    row 0 from column 1 on to [A_B]. *)
Definition node_rels_init (K : nat) : RelMatrix :=
  map (fun i =>
         map (fun j =>
                if Nat.eqb i 0 && negb (Nat.eqb j 0) then A_B
                else if Nat.eqb i j then cocluster else diff_branches)
             (seq 0 K))
      (seq 0 K).

(** [visited.add(P)] on a set kept as a duplicate-free list. *)
Definition set_add (P : nat) (visited : list nat) : list nat :=
  if mem P visited then visited else P :: visited.

Fixpoint node_rels_loop (adj : Matrix) (fuel : nat) (stack visited : list nat)
    (node_rels : RelMatrix) : option (list nat * RelMatrix) :=
  match rev stack with
  | [] => Some (visited, node_rels)
  | P :: rest =>
      match fuel with
      | O => None
      | S fuel' =>
          let visited := set_add P visited in
          let C := flatnonzero (get_row adj P) in
          match C with
          | [] => node_rels_loop adj fuel' (rev rest) visited node_rels
          | _ =>
              let P_anc :=
                filter (fun j => Models_eqb (rget node_rels P j) B_A)
                       (seq 0 (length (nth P node_rels []))) in
              let C_anc := P_anc ++ [P] in
              let node_rels := set_block C_anc C A_B node_rels in
              let node_rels := set_block C C_anc B_A node_rels in
              node_rels_loop adj fuel' (rev rest ++ C) visited node_rels
          end
      end
  end.

Definition _determine_node_rels (fuel : nat) (adj : Matrix)
  : option RelMatrix :=
  let K := length adj in
  if negb (forallb (fun z => (z =? 1)%Z) (diag adj)) then None else
  match node_rels_loop (fill_diagonal adj 0%Z) fuel [0] []
                       (node_rels_init K) with
  | None => None
  | Some (visited, node_rels) =>
      if visited_all K visited &&
         forallb (fun i => Models_eqb (rget node_rels i i) cocluster)
                 (seq 0 K) &&
         forallb (fun j => Models_eqb (rget node_rels 0 j) A_B)
                 (seq 1 (K - 1)) &&
         forallb (fun i => Models_eqb (rget node_rels i 0) B_A)
                 (seq 1 (K - 1))
      then Some node_rels else None
  end.

Definition rel_square (K : nat) (M : RelMatrix) : Prop :=
  length M = K /\ forall i, i < K -> length (nth i M []) = K.

Lemma mem_In i l : mem i l = true <-> In i l.
Proof. apply existsb_eqb_In. Qed.

Lemma rget_set_block K rows cols v M i j :
  rel_square K M -> i < K -> j < K ->
  rget (set_block rows cols v M) i j =
  if mem i rows && mem j cols then v else rget M i j.
Proof.
  intros [HL HR] Hi Hj. unfold rget, set_block.
  rewrite (nth_mapi _ _ _ []) by lia.
  destruct (mem i rows); simpl; [|reflexivity].
  rewrite (nth_mapi _ _ _ garbage) by (rewrite HR; lia). reflexivity.
Qed.

Lemma set_block_square K rows cols v M :
  rel_square K M -> rel_square K (set_block rows cols v M).
Proof.
  intros [HL HR]. split.
  - unfold set_block. now rewrite mapi_length.
  - intros i Hi. unfold set_block. rewrite (nth_mapi _ _ _ []) by lia.
    destruct (mem i rows); [rewrite mapi_length|]; apply HR, Hi.
Qed.

Lemma node_rels_init_square K : rel_square K (node_rels_init K).
Proof.
  split.
  - unfold node_rels_init. now rewrite length_map, length_seq.
  - intros i Hi. unfold node_rels_init. rewrite nth_map_seq by exact Hi.
    now rewrite length_map, length_seq.
Qed.

Lemma rget_init K i j :
  i < K -> j < K ->
  rget (node_rels_init K) i j =
  if Nat.eqb i 0 && negb (Nat.eqb j 0) then A_B
  else if Nat.eqb i j then cocluster else diff_branches.
Proof.
  intros Hi Hj. unfold rget, node_rels_init.
  rewrite nth_map_seq by exact Hi. now rewrite nth_map_seq by exact Hj.
Qed.

Lemma reach_decidable K M i j :
  valid_adj K M -> reach M i j \/ ~ reach M i j.
Proof.
  intros V.
  destruct (Nat.lt_ge_cases i K) as [Hi|Hi];
    [destruct (Nat.lt_ge_cases j K) as [Hj|Hj]|].
  - destruct (make_ancestral_correct K M V K (le_n K)) as (anc & _ & F).
    destruct (desc_rows_ancestry K M anc F) as [_ Ha].
    destruct (Ha i j Hi Hj) as [H1 [H0|H0]].
    + right. intros R. apply H1 in R. congruence.
    + left. now apply H1.
  - destruct (Nat.eq_dec i j) as [->|Hne]; [left; apply reach_refl|].
    right. intros R. apply reach_cases in R as [|R]; [contradiction|].
    apply (panc_range _ _ V) in R. lia.
  - destruct (Nat.eq_dec i j) as [->|Hne]; [left; apply reach_refl|].
    right. intros R. apply reach_cases in R as [|R]; [contradiction|].
    apply (panc_range _ _ V) in R. lia.
Qed.

Lemma panc_decidable K M i j :
  valid_adj K M -> panc M i j \/ ~ panc M i j.
Proof.
  intros V. destruct (Nat.eq_dec i j) as [->|Hne].
  - right. apply (panc_irrefl _ _ V).
  - destruct (reach_decidable K M i j V) as [R|R].
    + left. apply reach_cases in R as [|R]; [contradiction|exact R].
    + right. intros P. apply R, reach_cases. now right.
Qed.

Section NodeRels.
Variable K : nat.
Variable adj : Matrix.
Hypothesis V : valid_adj K adj.

Let adj0 := fill_diagonal adj 0%Z.

(** The relation the traversal has recorded for the pair [(x, y)] once the
    nodes of [D] are discovered. *)
Definition expected_rel (D : list nat) (x y : nat) (m : Models) : Prop :=
  (x = y /\ m = cocluster) \/
  (x <> y /\ (panc adj x y /\ (In y D \/ x = 0)) /\ m = A_B) \/
  (x <> y /\ (panc adj y x /\ In x D) /\ m = B_A) \/
  (x <> y /\ ~ (panc adj x y /\ (In y D \/ x = 0)) /\
   ~ (panc adj y x /\ In x D) /\ m = diff_branches).

Definition rel_inv (D : list nat) (nr : RelMatrix) : Prop :=
  rel_square K nr /\
  forall x y, x < K -> y < K -> expected_rel D x y (rget nr x y).

Lemma expected_rel_ext D D' x y m :
  (forall z, In z D <-> In z D') ->
  expected_rel D x y m -> expected_rel D' x y m.
Proof.
  intros E. unfold expected_rel. rewrite !E. tauto.
Qed.

Lemma rel_inv_ext D D' nr :
  (forall z, In z D <-> In z D') -> rel_inv D nr -> rel_inv D' nr.
Proof.
  intros E [HS H]. split; [exact HS|].
  intros x y Hx Hy. apply (expected_rel_ext D); auto.
Qed.

Lemma rel_inv_init : rel_inv [0] (node_rels_init K).
Proof.
  split; [apply node_rels_init_square|].
  intros x y Hx Hy. rewrite rget_init by assumption. unfold expected_rel.
  destruct (Nat.eqb_spec x 0) as [->|Hx0]; simpl.
  - destruct (Nat.eqb_spec y 0) as [->|Hy0]; simpl.
    + left. auto.
    + right. left. split; [lia|]. split; [|reflexivity].
      split; [apply (root_panc _ _ V); lia|now right].
  - destruct (Nat.eqb_spec x y) as [->|Hxy].
    + left. auto.
    + right. right. right. split; [exact Hxy|]. split; [|split; [|reflexivity]].
      * intros [P [[E|[]]|E]]; [|contradiction].
        subst y. apply (no_panc_root _ _ V _ P).
      * intros [_ [E|[]]]. congruence.
Qed.

(** The recorded ancestors of a discovered node are its ancestors. *)
Lemma recorded_ancestors D nr P j :
  rel_inv D nr -> In P D -> P < K -> j < K ->
  (rget nr P j = B_A <-> panc adj j P).
Proof.
  intros [_ H] HP HPK Hj. specialize (H P j HPK Hj).
  unfold expected_rel in H. split.
  - intros E. rewrite E in H.
    destruct H as [[_ H]|[(_ & _ & H)|[(_ & [H _] & _)|(_ & _ & _ & H)]]];
      try discriminate. exact H.
  - intros Pj.
    destruct H as [[E _]|[(_ & [H _] & _)|[(_ & _ & H)|(_ & _ & H & _)]]].
    + subst j. now apply (panc_irrefl _ _ V) in Pj.
    + exfalso. eapply (panc_asym _ _ V); eauto.
    + exact H.
    + exfalso. apply H. auto.
Qed.

Lemma rel_inv_step rest P visited nr :
  dfs_inv K adj (rest ++ [P]) visited ->
  rel_inv ((rest ++ [P]) ++ visited) nr ->
  let C := flatnonzero (get_row adj0 P) in
  let P_anc := filter (fun j => Models_eqb (rget nr P j) B_A)
                      (seq 0 (length (nth P nr []))) in
  let C_anc := P_anc ++ [P] in
  rel_inv ((rest ++ C) ++ P :: visited)
          (set_block C C_anc B_A (set_block C_anc C A_B nr)).
Proof.
  intros Inv RI C P_anc C_anc.
  assert (HPD : In P ((rest ++ [P]) ++ visited))
    by (rewrite !in_app_iff; simpl; auto).
  assert (HP : P < K) by (destruct Inv as (_ & Hlt & _); now apply Hlt).
  assert (HC : forall c, In c C <-> edge adj P c)
    by (intros c; apply (children_In K adj V); exact HP).
  pose proof RI as [HS Hexp].
  assert (HCa : forall a, a < K -> (In a C_anc <-> reach adj a P)).
  { intros a Ha. unfold C_anc, P_anc. rewrite in_app_iff, filter_In, in_seq.
    destruct HS as [_ HR]. rewrite (HR P HP).
    rewrite reach_cases. simpl.
    split.
    - intros [[_ E]|[E|[]]]; [right|left; auto].
      destruct (Models_eqb_spec (rget nr P a) B_A) as [E'|]; [|discriminate].
      now apply (recorded_ancestors _ _ _ _ RI HPD HP Ha).
    - intros [->|Pa]; [right; now left|left].
      split; [lia|].
      apply (recorded_ancestors _ _ _ _ RI HPD HP Ha) in Pa. rewrite Pa.
      reflexivity. }
  assert (HD' : forall z, In z ((rest ++ C) ++ P :: visited) <->
                          In z ((rest ++ [P]) ++ visited) \/ In z C).
  { intros z. rewrite !in_app_iff. simpl. tauto. }
  split; [now apply set_block_square, set_block_square|].
  intros x y Hx Hy.
  rewrite (rget_set_block K) by (auto; now apply set_block_square).
  rewrite (rget_set_block K) by auto.
  specialize (Hexp x y Hx Hy).
  assert (HxC : mem x C = true <-> edge adj P x)
    by (rewrite mem_In; apply HC).
  assert (HyC : mem y C = true <-> edge adj P y)
    by (rewrite mem_In; apply HC).
  assert (HxA : mem x C_anc = true <-> reach adj x P)
    by (rewrite mem_In; now apply HCa).
  assert (HyA : mem y C_anc = true <-> reach adj y P)
    by (rewrite mem_In; now apply HCa).
  destruct (mem x C && mem y C_anc) eqn:E1.
  - (* x is a child of P and y an ancestor of x *)
    apply andb_prop in E1 as [Ex Ey]. apply HxC in Ex. apply HyA in Ey.
    assert (Pyx : panc adj y x) by (apply panc_back; eauto).
    assert (Hne : x <> y).
    { intros ->. now apply (panc_irrefl _ _ V) in Pyx. }
    right. right. left. split; [exact Hne|]. split; [|reflexivity].
    split; [exact Pyx|]. apply HD'. right. now apply HC.
  - destruct (mem x C_anc && mem y C) eqn:E2.
    + apply andb_prop in E2 as [Ex Ey]. apply HxA in Ex. apply HyC in Ey.
      assert (Pxy : panc adj x y) by (apply panc_back; eauto).
      assert (Hne : x <> y).
      { intros ->. now apply (panc_irrefl _ _ V) in Pxy. }
      right. left. split; [exact Hne|]. split; [|reflexivity].
      split; [exact Pxy|]. left. apply HD'. right. now apply HC.
    + (* untouched entry *)
      assert (N1 : ~ (edge adj P x /\ reach adj y P)).
      { intros [A1 A2]. apply HxC in A1. apply HyA in A2.
        rewrite A1, A2 in E1. discriminate. }
      assert (N2 : ~ (reach adj x P /\ edge adj P y)).
      { intros [A1 A2]. apply HxA in A1. apply HyC in A2.
        rewrite A1, A2 in E2. discriminate. }
      assert (G1 : panc adj x y -> In y C -> False).
      { intros Pxy Hc. apply HC in Hc. apply N2. split; [|exact Hc].
        now apply (panc_via_parent _ _ V x P y Hc). }
      assert (G2 : panc adj y x -> In x C -> False).
      { intros Pyx Hc. apply HC in Hc. apply N1. split; [exact Hc|].
        now apply (panc_via_parent _ _ V y P x Hc). }
      unfold expected_rel in *. rewrite !HD'.
      destruct Hexp as [H|[H|[H|H]]]; [tauto|tauto|tauto|].
      right. right. right. tauto.
Qed.

Lemma node_rels_loop_ok fuel : forall stack visited nr,
  dfs_inv K adj stack visited -> rel_inv (stack ++ visited) nr ->
  K <= fuel + length visited ->
  exists vis nr',
    node_rels_loop adj0 fuel stack visited nr = Some (vis, nr') /\
    (forall k, k < K <-> In k vis) /\ rel_inv vis nr'.
Proof.
  induction fuel as [|fuel IH]; intros stack visited nr Inv RI Hf.
  - destruct stack as [|s stack _] using rev_ind.
    + exists visited, nr. split; [reflexivity|].
      split; [now apply (dfs_inv_final K adj V)|exact RI].
    + exfalso. destruct Inv as (ND & Hlt & _).
      assert (Hincl : incl ((stack ++ [s]) ++ visited) (seq 0 K)).
      { intros x Hx. apply in_seq. specialize (Hlt x Hx). lia. }
      pose proof (NoDup_incl_length ND Hincl) as Hlen.
      rewrite !length_app, length_seq in Hlen. simpl in *. lia.
  - destruct stack as [|s stack _] using rev_ind.
    + exists visited, nr. split; [reflexivity|].
      split; [now apply (dfs_inv_final K adj V)|exact RI].
    + destruct (dfs_inv_step K adj V _ _ _ Inv) as [HPv Inv'].
      pose proof (rel_inv_step _ _ _ _ Inv RI) as RI'. cbv zeta in RI'.
      simpl. rewrite rev_app_distr. simpl. rewrite rev_involutive.
      assert (Hadd : set_add s visited = s :: visited).
      { unfold set_add. destruct (mem s visited) eqn:E; [|reflexivity].
        apply mem_In in E. contradiction. }
      rewrite Hadd. fold adj0 in Inv', RI' |- *.
      destruct (flatnonzero (get_row adj0 s)) as [|c C] eqn:EC.
      * apply IH.
        -- rewrite app_nil_r in Inv'. exact Inv'.
        -- apply (rel_inv_ext ((stack ++ [s]) ++ visited)); [|exact RI].
           intros z. rewrite !in_app_iff. simpl. tauto.
        -- simpl. lia.
      * apply IH; [exact Inv'|exact RI'|simpl; lia].
Qed.

(** The relation classes of a tree. *)
Definition tree_rel (x y : nat) (m : Models) : Prop :=
  (x = y /\ m = cocluster) \/
  (x <> y /\ panc adj x y /\ m = A_B) \/
  (x <> y /\ panc adj y x /\ m = B_A) \/
  (x <> y /\ ~ panc adj x y /\ ~ panc adj y x /\ m = diff_branches).

(** On a valid tree the traversal passes its assertions and classifies
    every pair of nodes. *)
Lemma determine_node_rels_ok fuel :
  K <= fuel ->
  exists nr, _determine_node_rels fuel adj = Some nr /\
             rel_square K nr /\
             forall x y, x < K -> y < K -> tree_rel x y (rget nr x y).
Proof.
  intros Hf. unfold _determine_node_rels.
  rewrite (valid_diag _ _ V).
  assert (Hd : forallb (fun z => (z =? 1)%Z) (repeat 1%Z K) = true).
  { apply forallb_forall. intros z Hz. apply repeat_spec in Hz. now subst. }
  rewrite Hd. cbn [negb].
  destruct (va_square _ _ V) as [HL _]. rewrite HL.
  destruct (node_rels_loop_ok fuel [0] [] (node_rels_init K))
    as (vis & nr & Hrun & Hall & [HS Hexp]).
  { apply (dfs_inv_init K adj V). }
  { apply rel_inv_init. }
  { simpl. lia. }
  fold adj0. rewrite Hrun.
  assert (Htree : forall x y, x < K -> y < K -> tree_rel x y (rget nr x y)).
  { intros x y Hx Hy. specialize (Hexp x y Hx Hy).
    pose proof (proj1 (Hall x) Hx). pose proof (proj1 (Hall y) Hy).
    unfold expected_rel in Hexp. unfold tree_rel. tauto. }
  assert (E1 : visited_all K vis = true).
  { unfold visited_all. apply andb_true_intro. split; apply forallb_forall.
    - intros k Hk. apply in_seq in Hk. apply existsb_eqb_In, Hall. lia.
    - intros v Hv. apply Nat.ltb_lt. now apply Hall. }
  assert (E2 : forallb (fun i => Models_eqb (rget nr i i) cocluster)
                       (seq 0 K) = true).
  { apply forallb_forall. intros i Hi. apply in_seq in Hi.
    destruct (Htree i i) as [[_ ->]|[H|[H|H]]]; try lia; try reflexivity;
      destruct H as [H _]; congruence. }
  assert (E3 : forallb (fun j => Models_eqb (rget nr 0 j) A_B)
                       (seq 1 (K - 1)) = true).
  { apply forallb_forall. intros j Hj. apply in_seq in Hj.
    pose proof (root_panc _ _ V j ltac:(lia)) as Pj.
    destruct (Htree 0 j) as [[E _]|[(_ & _ & ->)|[(_ & H & _)|(_ & H & _)]]];
      try lia; try reflexivity.
    - now apply (no_panc_root _ _ V) in H.
    - contradiction. }
  assert (E4 : forallb (fun i => Models_eqb (rget nr i 0) B_A)
                       (seq 1 (K - 1)) = true).
  { apply forallb_forall. intros i Hi. apply in_seq in Hi.
    pose proof (root_panc _ _ V i ltac:(lia)) as Pj.
    destruct (Htree i 0) as [[E _]|[(_ & H & _)|[(_ & _ & ->)|(_ & _ & H & _)]]];
      try lia; try reflexivity.
    - now apply (no_panc_root _ _ V) in H.
    - contradiction. }
  rewrite E1, E2, E3, E4. exists nr. auto.
Qed.
End NodeRels.

(* ================================================================== *)
(** ** The log-relation score of a tree
    ([tree_sampler._calc_tree_logmutrel]) *)

Definition FMatrix := list (list npfloat).

Definition fmget (T : FMatrix) (i j : nat) : npfloat :=
  nth j (nth i T []) NaN.

(** [A.shape == (K, K, n)]. *)
Definition shape3b {X} (K n : nat) (A : list (list (list X))) : bool :=
  (length A =? K) &&
  forallb (fun row => (length row =? K) &&
                      forallb (fun cell => length cell =? n) row) A.

Fixpoint list_nat_eqb (a b : list nat) : bool :=
  match a, b with
  | [], [] => true
  | x :: a', y :: b' => Nat.eqb x y && list_nat_eqb a' b'
  | _, _ => false
  end.

(** [a <= 0]. *)
Definition fle0 (a : npfloat) : bool :=
  match a with
  | NaN | PInf => false
  | NInf => true
  | Fin x => if Rle_dec x 0 then true else false
  end.

Definition _calc_tree_logmutrel (fuel : nat) (adj : Matrix)
    (data_logmutrel : Mutrel npfloat) : option FMatrix :=
  match _determine_node_rels fuel adj with
  | None => None
  | Some node_rels =>
      let K := length node_rels in
      if negb (forallb (fun r => length r =? K) node_rels) then None else
      if negb (shape3b (K - 1) 5 (rels data_logmutrel)) then None else
      if negb (list_nat_eqb (vids data_logmutrel) (seq 0 (K - 1)))
      then None else
      let tree_logmutrel :=
        map (fun a =>
               map (fun b =>
                      class_at NaN (cell3 NaN (rels data_logmutrel) a b)
                               (rget node_rels (a + 1) (b + 1)))
                   (seq 0 (K - 1)))
            (seq 0 (K - 1)) in
      let tree_logmutrel :=
        repeat (Fin 0%R) K :: map (fun row => Fin 0%R :: row) tree_logmutrel in
      if negb (forallb (fun i =>
                 forallb (fun j => feq (fmget tree_logmutrel i j)
                                       (fmget tree_logmutrel j i))
                         (seq 0 K)) (seq 0 K)) then None else
      if negb (forallb (forallb fle0) tree_logmutrel) then None
      else Some tree_logmutrel
  end.

(** [np.triu]. *)
Definition triu (T : FMatrix) : FMatrix :=
  mapi (fun i row => mapi (fun j x => if j <? i then Fin 0%R else x) row) T.

(** [np.sum(np.triu(T))]. *)
Definition triu_sum (T : FMatrix) : npfloat := fsum (concat (triu T)).

(* ================================================================== *)
(** ** Proposal weights *)

(** [weights /= np.sum(weights)]. *)
Definition normalize (w : list npfloat) : list npfloat :=
  map (fun x => fdiv x (fsum w)) w.

Definition floor_weight : R := (1 / 10000000000)%R.

Definition _make_W_nodes_uniform (adj : Matrix) : list npfloat :=
  let K := length adj in
  normalize (upd 0 (Fin 0%R) (repeat (Fin 1%R) K)).

Definition fdiag (T : FMatrix) : list npfloat :=
  map (fun i => fmget T i i) (seq 0 (length T)).
Definition fcol (T : FMatrix) (j : nat) : list npfloat :=
  map (fun r => nth j r NaN) T.

Definition _make_W_nodes_mutrel (fuel : nat) (adj : Matrix)
    (data_logmutrel : Mutrel npfloat) : option (list npfloat) :=
  let K := length adj in
  if negb (forallb (fun r => length r =? K) adj) then None else
  match _calc_tree_logmutrel fuel adj data_logmutrel with
  | None => None
  | Some tree_logmutrel =>
      let pair_error :=
        map (map (fun x => fsub (Fin 1%R) (np_exp x))) tree_logmutrel in
      if negb (allclose0 (fdiag pair_error)) then None else
      if negb (allclose0 (nth 0 pair_error [])) then None else
      if negb (allclose0 (fcol pair_error 0)) then None else
      let pair_error := map (map (fmax (Fin floor_weight))) pair_error in
      let node_error := map (fun row => logsumexp (map flog row)) pair_error in
      let weights := repeat (Fin 0%R) K in
      let weights :=
        firstn 1 weights ++
        map (fun p => fadd (fst p) (snd p))
            (combine (skipn 1 weights) (softmax (skipn 1 node_error))) in
      let weights :=
        firstn 1 weights ++ map (fmax (Fin floor_weight)) (skipn 1 weights) in
      let weights := normalize weights in
      if feq (nth 0 weights NaN) (Fin 0%R) &&
         forallb (fun w => fgt w (Fin 0%R)) (skipn 1 weights)
      then Some weights else None
  end.

Definition _make_W_dests_uniform (subtree_head curr_parent : nat)
    (adj : Matrix) : list npfloat :=
  let K := length adj in
  let weights := repeat (Fin 1%R) K in
  let weights := upd subtree_head (Fin 0%R) weights in
  let weights := upd curr_parent (Fin 0%R) weights in
  normalize weights.

(** [for dest in range(K)] of [_make_W_dests_mutrel], over the remaining
    destinations. The tree scored is [adj], the tree the function was
    given: [new_adj] is computed and not used. *)
Fixpoint logweights_loop (fuel : nat) (subtree_head curr_parent : nat)
    (adj anc : Matrix) (data_logmutrel : Mutrel npfloat)
    (dests : list nat) (logweights : list npfloat)
  : option (list npfloat) :=
  match dests with
  | [] => Some logweights
  | dest :: dests' =>
      if Nat.eqb dest curr_parent || Nat.eqb dest subtree_head
      then logweights_loop fuel subtree_head curr_parent adj anc
                           data_logmutrel dests' logweights
      else
        match _modify_tree adj anc dest subtree_head with
        | None => None
        | Some new_adj =>
            match _calc_tree_logmutrel fuel adj data_logmutrel with
            | None => None
            | Some tree_logmutrel =>
                logweights_loop fuel subtree_head curr_parent adj anc
                  data_logmutrel dests'
                  (upd dest (triu_sum tree_logmutrel) logweights)
            end
        end
  end.

(** [np.delete(v, (i, j))]. *)
Definition np_delete2 {X} (v : list X) (i j : nat) : list X :=
  map snd (filter (fun p => negb (Nat.eqb (fst p) i || Nat.eqb (fst p) j))
                  (combine (seq 0 (length v)) v)).

Definition _make_W_dests_mutrel (fuel : nat) (subtree_head curr_parent : nat)
    (adj anc : Matrix) (depth_frac : list npfloat)
    (data_logmutrel : Mutrel npfloat) : option (list npfloat) :=
  if negb (0 <? subtree_head) then None else
  if negb (mget adj curr_parent subtree_head =? 1)%Z then None else
  let cluster_idx := subtree_head - 1 in
  match nth_error (vids data_logmutrel) cluster_idx with
  | None => None
  | Some v =>
      if negb (Nat.eqb v cluster_idx) then None else
      let K := length adj in
      match logweights_loop fuel subtree_head curr_parent adj anc
                            data_logmutrel (seq 0 K) (repeat NInf K) with
      | None => None
      | Some logweights =>
          if existsb isnan logweights then None else
          let valid_logweights :=
            np_delete2 logweights curr_parent subtree_head in
          if existsb isinf valid_logweights then None else
          let weights := softmax logweights in
          let weights := map (fmax (Fin floor_weight)) weights in
          let weights := upd curr_parent (Fin 0%R) weights in
          let weights := upd subtree_head (Fin 0%R) weights in
          Some (normalize weights)
      end
  end.

(** [np.dot(combiner, np.vstack((arr1, arr2)))[0]] for the 1 x 2 array
    [combiner = [[c1, c2]]]. *)
Definition _combine_arrays (arr1 arr2 : list npfloat) (c1 c2 : R)
  : option ((list npfloat * list npfloat) * list npfloat) :=
  if negb (length arr1 =? length arr2) then None else
  Some ((arr1, arr2),
        map (fun p => fadd (fscale c1 (fst p)) (fscale c2 (snd p)))
            (combine arr1 arr2)).

Definition _make_W_nodes_combined (fuel : nat) (adj : Matrix)
    (data_logmutrel : Mutrel npfloat) (c1 c2 : R)
  : option ((list npfloat * list npfloat) * list npfloat) :=
  let W_nodes_uniform := _make_W_nodes_uniform adj in
  match _make_W_nodes_mutrel fuel adj data_logmutrel with
  | None => None
  | Some W_nodes_mutrel =>
      match _combine_arrays W_nodes_uniform W_nodes_mutrel c1 c2 with
      | None => None
      | Some (W_nodes_stacked, W_nodes) =>
          if feq (nth 0 W_nodes NaN) (Fin 0%R) &&
             isclose (Fin 1%R) (fsum W_nodes)
          then Some (W_nodes_stacked, W_nodes) else None
      end
  end.

Definition _make_W_dests_combined (fuel : nat)
    (subtree_head curr_parent : nat) (adj anc : Matrix)
    (depth_frac : list npfloat) (data_logmutrel : Mutrel npfloat)
    (c1 c2 : R)
  : option ((list npfloat * list npfloat) * list npfloat) :=
  let W_dests_uniform := _make_W_dests_uniform subtree_head curr_parent adj in
  match _make_W_dests_mutrel fuel subtree_head curr_parent adj anc depth_frac
                             data_logmutrel with
  | None => None
  | Some W_dests_mutrel =>
      match _combine_arrays W_dests_uniform W_dests_mutrel c1 c2 with
      | None => None
      | Some (W_dests_stacked, W_dests) =>
          if feq (nth subtree_head W_dests NaN) (nth curr_parent W_dests NaN) &&
             feq (nth curr_parent W_dests NaN) (Fin 0%R) &&
             isclose (Fin 1%R) (fsum W_dests)
          then Some (W_dests_stacked, W_dests) else None
      end
  end.

(** The precondition [_sample_cat] asserts on its weights. *)
Definition sample_cat_pre (W : list npfloat) : bool :=
  forallb (fun w => fge w (Fin 0%R)) W && isclose (Fin 1%R) (fsum W).

(* ------------------------------------------------------------------ *)
(** *** Vectors of finite values *)

Definition fin_val (a : npfloat) : R :=
  match a with Fin x => x | _ => 0%R end.

Definition all_Fin (l : list npfloat) : Prop :=
  forall x, In x l -> exists r, x = Fin r.

Lemma all_Fin_map l : all_Fin l -> l = map Fin (map fin_val l).
Proof.
  induction l as [|a l IH]; intros H; simpl; [reflexivity|].
  destruct (H a (or_introl eq_refl)) as [r ->]. simpl. f_equal.
  apply IH. intros x Hx. apply H. now right.
Qed.

Lemma map_Fin_all_Fin rs : all_Fin (map Fin rs).
Proof. intros x Hx. apply in_map_iff in Hx as (r & <- & _). now exists r. Qed.

Lemma nth_map_Fin rs i : i < length rs -> nth i (map Fin rs) NaN = Fin (nth i rs 0%R).
Proof.
  intros H. rewrite (nth_indep _ NaN (Fin 0%R)) by (now rewrite length_map).
  apply map_nth.
Qed.

Lemma upd_map {A B} (f : A -> B) i v l :
  upd i (f v) (map f l) = map f (upd i v l).
Proof.
  revert i; induction l as [|a l IH]; intros [|i]; simpl; auto.
  now rewrite IH.
Qed.

Lemma fdiv_Fin x s : (s <> 0)%R -> fdiv (Fin x) (Fin s) = Fin (x / s).
Proof.
  intros H. unfold fdiv. destruct (Req_dec_T s 0); [contradiction|reflexivity].
Qed.

Lemma normalize_Fin rs :
  (rsum rs <> 0)%R ->
  normalize (map Fin rs) = map Fin (map (fun x => x / rsum rs)%R rs).
Proof.
  intros H. unfold normalize. rewrite fsum_Fin, !map_map.
  apply map_ext. intros x. now apply fdiv_Fin.
Qed.

Lemma map_fmax_Fin c rs :
  map (fmax (Fin c)) (map Fin rs) = map Fin (map (Rmax c) rs).
Proof. rewrite !map_map. reflexivity. Qed.

Lemma rsum_In_le l x : (forall y, In y l -> (0 <= y)%R) -> In x l -> (x <= rsum l)%R.
Proof.
  induction l as [|a l IH]; intros H Hx; [destruct Hx|]. simpl.
  assert (0 <= a)%R by (apply H; now left).
  assert (0 <= rsum l)%R by (apply rsum_nonneg; intros; apply H; now right).
  destruct Hx as [->|Hx]; [lra|].
  assert (x <= rsum l)%R by (apply IH; auto; intros; apply H; now right). lra.
Qed.

(** A weight vector of length [K]: finite, summing to one, zero at the
    masked indices and positive elsewhere. *)
Definition is_dist (K : nat) (masked : nat -> bool) (w : list npfloat) : Prop :=
  exists rs, w = map Fin rs /\ length rs = K /\ rsum rs = 1%R /\
    forall i, i < K ->
      if masked i then nth i rs 0%R = 0%R else (0 < nth i rs 0)%R.

(** Unnormalized weights: zero at the masked indices, positive elsewhere. *)
Definition is_weights (K : nat) (masked : nat -> bool) (rs : list R) : Prop :=
  length rs = K /\
  forall i, i < K ->
    if masked i then nth i rs 0%R = 0%R else (0 < nth i rs 0)%R.

Lemma is_weights_nonneg K masked rs :
  is_weights K masked rs -> forall x, In x rs -> (0 <= x)%R.
Proof.
  intros [HL H] x Hx. destruct (In_nth _ _ 0%R Hx) as (i & Hi & <-).
  rewrite HL in Hi. specialize (H i Hi). destruct (masked i); lra.
Qed.

Lemma is_weights_sum_pos K masked rs :
  is_weights K masked rs -> (exists i, i < K /\ masked i = false) ->
  (0 < rsum rs)%R.
Proof.
  intros W (i & Hi & Hm). apply rsum_pos.
  - now apply (is_weights_nonneg K masked).
  - destruct W as [HL H]. exists (nth i rs 0%R). split.
    + apply nth_In. lia.
    + specialize (H i Hi). now rewrite Hm in H.
Qed.

Lemma normalize_is_dist K masked rs :
  is_weights K masked rs -> (exists i, i < K /\ masked i = false) ->
  is_dist K masked (normalize (map Fin rs)).
Proof.
  intros W Hex. pose proof (is_weights_sum_pos K masked rs W Hex) as Hs.
  destruct W as [HL H].
  exists (map (fun x => x / rsum rs)%R rs).
  split; [apply normalize_Fin; lra|]. split; [now rewrite length_map|].
  split; [rewrite rsum_map_div by lra; field; lra|].
  intros i Hi. specialize (H i Hi).
  rewrite (nth_indep _ 0%R ((fun x => x / rsum rs)%R 0%R))
    by (rewrite length_map; lia).
  rewrite (map_nth (fun x => x / rsum rs)%R).
  destruct (masked i).
  - rewrite H. unfold Rdiv. ring.
  - apply Rdiv_lt_0_compat; assumption.
Qed.

Lemma is_dist_sample_cat_pre K masked w :
  is_dist K masked w -> sample_cat_pre w = true.
Proof.
  intros (rs & -> & HL & Hs & H). unfold sample_cat_pre.
  rewrite fsum_Fin, Hs, isclose_refl_Fin, andb_true_r.
  apply forallb_forall. intros x Hx. apply in_map_iff in Hx as (r & <- & Hr).
  destruct (In_nth _ _ 0%R Hr) as (i & Hi & <-). rewrite HL in Hi.
  specialize (H i Hi). unfold fge.
  destruct (Rle_dec 0 (nth i rs 0%R)) as [|N]; [reflexivity|].
  exfalso. apply N. destruct (masked i); lra.
Qed.

Lemma is_dist_length K masked w : is_dist K masked w -> length w = K.
Proof. intros (rs & -> & HL & _). now rewrite length_map. Qed.

Lemma is_dist_masked K masked w i :
  is_dist K masked w -> i < K -> masked i = true -> nth i w NaN = Fin 0%R.
Proof.
  intros (rs & -> & HL & _ & H) Hi Hm. rewrite nth_map_Fin by lia.
  specialize (H i Hi). rewrite Hm in H. now rewrite H.
Qed.

Lemma is_dist_positive K masked w i :
  is_dist K masked w -> i < K -> masked i = false ->
  exists r, nth i w NaN = Fin r /\ (0 < r)%R.
Proof.
  intros (rs & -> & HL & _ & H) Hi Hm. rewrite nth_map_Fin by lia.
  specialize (H i Hi). rewrite Hm in H. eauto.
Qed.

(* ------------------------------------------------------------------ *)
(** *** The uniform components *)

Lemma nth_upd_R i j (v : R) l :
  nth j (upd i v l) 0%R =
  if Nat.eqb j i && Nat.ltb i (length l) then v else nth j l 0%R.
Proof. apply nth_upd. Qed.

Lemma W_nodes_uniform_dist K adj :
  length adj = K -> 2 <= K ->
  is_dist K (fun i => Nat.eqb i 0) (_make_W_nodes_uniform adj).
Proof.
  intros HL HK. unfold _make_W_nodes_uniform. rewrite HL.
  change (repeat (Fin 1%R) K) with (repeat (Fin 1%R) K).
  replace (repeat (Fin 1%R) K) with (map Fin (repeat 1%R K))
    by (now rewrite map_repeat).
  rewrite upd_map. apply normalize_is_dist.
  - split; [now rewrite upd_length, repeat_length|].
    intros i Hi. rewrite nth_upd, repeat_length.
    destruct (Nat.eqb_spec i 0) as [->|Hne]; simpl.
    + destruct (Nat.ltb_spec 0 K); [reflexivity|lia].
    + rewrite nth_repeat_in by lia. lra.
  - exists 1. split; [lia|reflexivity].
Qed.

Definition dest_masked (subtree_head curr_parent : nat) (i : nat) : bool :=
  Nat.eqb i curr_parent || Nat.eqb i subtree_head.

Lemma dest_unmasked_exists K head parent :
  3 <= K -> exists i, i < K /\ dest_masked head parent i = false.
Proof.
  intros HK.
  assert (H : exists i, i < 3 /\ i <> parent /\ i <> head).
  { destruct (Nat.eq_dec parent 0), (Nat.eq_dec head 0),
             (Nat.eq_dec parent 1), (Nat.eq_dec head 1);
      first [exists 0; lia | exists 1; lia | exists 2; lia]. }
  destruct H as (i & Hi & Hp & Hh). exists i. split; [lia|].
  unfold dest_masked.
  destruct (Nat.eqb_spec i parent), (Nat.eqb_spec i head); simpl; congruence.
Qed.

Lemma masked_weights K head parent (rs : list R) :
  length rs = K -> head < K -> parent < K ->
  (forall i, i < K -> (0 < nth i rs 0)%R) ->
  is_weights K (dest_masked head parent) (upd head 0%R (upd parent 0%R rs)) /\
  is_weights K (dest_masked head parent) (upd parent 0%R (upd head 0%R rs)).
Proof.
  intros HL Hh Hp Hpos. unfold dest_masked.
  split; (split; [now rewrite !upd_length|]); intros i Hi;
    rewrite !nth_upd, !upd_length, HL;
    apply Nat.ltb_lt in Hh as Hh'; apply Nat.ltb_lt in Hp as Hp';
    rewrite Hh', Hp', !andb_true_r;
    destruct (Nat.eqb i parent), (Nat.eqb i head); simpl; auto.
Qed.

Lemma W_dests_uniform_dist K adj head parent :
  length adj = K -> 3 <= K -> head < K -> parent < K ->
  is_dist K (dest_masked head parent) (_make_W_dests_uniform head parent adj).
Proof.
  intros HL HK Hh Hp. unfold _make_W_dests_uniform. rewrite HL.
  replace (repeat (Fin 1%R) K) with (map Fin (repeat 1%R K))
    by (now rewrite map_repeat).
  rewrite !upd_map. apply normalize_is_dist.
  - apply masked_weights; auto; [apply repeat_length|].
    intros i Hi. rewrite nth_repeat_in by lia. lra.
  - now apply dest_unmasked_exists.
Qed.

(** With two nodes there is no destination left: the sum of the masked
    weights is zero and the division yields [nan]. *)
Lemma W_dests_uniform_two adj :
  length adj = 2 ->
  _make_W_dests_uniform 1 0 adj = [NaN; NaN].
Proof.
  intros HL. unfold _make_W_dests_uniform, normalize. rewrite HL. simpl.
  replace (0 + (0 + 0))%R with 0%R by ring.
  unfold fdiv. destruct (Req_dec_T 0 0); [reflexivity|congruence].
Qed.

(* ------------------------------------------------------------------ *)
(** *** Well-formed log relation models and the score matrix *)

(** What the sampler assumes of [data_logmutrel]: the shape, the
    identifiers, finite non-positive log-probabilities for the valid classes
    of a pair, log-probability 0 for a cluster with itself, and the
    symmetry of the relation classes. *)
Definition wf_logmutrel (K1 : nat) (data : Mutrel npfloat) : Prop :=
  mutrel_shape K1 (rels data) /\
  vids data = seq 0 K1 /\
  forall a b, a < K1 -> b < K1 ->
    logp (rels data) a a cocluster = Fin 0%R /\
    (a <> b -> forall m, In m valid_models ->
       exists x, logp (rels data) a b m = Fin x /\ (x <= 0)%R) /\
    logp (rels data) a b A_B = logp (rels data) b a B_A /\
    logp (rels data) a b diff_branches = logp (rels data) b a diff_branches.

Lemma shape3b_ok {X} K (A : list (list (list X))) :
  mutrel_shape K A -> shape3b K 5 A = true.
Proof.
  intros [HL HR]. unfold shape3b. apply Nat.eqb_eq in HL as HL'.
  rewrite HL'. simpl. apply forallb_forall. intros row Hrow.
  destruct (In_nth _ _ [] Hrow) as (a & Ha & <-). rewrite HL in Ha.
  destruct (HR a Ha) as [HLa Hc]. apply Nat.eqb_eq in HLa as HLa'.
  rewrite HLa'. simpl. apply forallb_forall. intros cell Hcell.
  destruct (In_nth _ _ [] Hcell) as (b & Hb & <-). rewrite HLa in Hb.
  apply Nat.eqb_eq, Hc, Hb.
Qed.

Lemma list_nat_eqb_refl l : list_nat_eqb l l = true.
Proof. induction l; simpl; auto. now rewrite Nat.eqb_refl. Qed.

Lemma feq_refl_Fin x : feq (Fin x) (Fin x) = true.
Proof. unfold feq. destruct (Req_dec_T x x); congruence. Qed.

(** The score matrix with its zero row and column inserted. *)
Definition with_zero_margins (K : nat) (e : nat -> nat -> npfloat) : FMatrix :=
  repeat (Fin 0%R) K ::
  map (fun row => Fin 0%R :: row)
      (map (fun a => map (fun b => e a b) (seq 0 (K - 1))) (seq 0 (K - 1))).

Lemma with_zero_margins_entry K e i j :
  i < K -> j < K ->
  fmget (with_zero_margins K e) i j =
  match i, j with
  | O, _ | _, O => Fin 0%R
  | S a, S b => e a b
  end.
Proof.
  intros Hi Hj. unfold fmget, with_zero_margins.
  destruct i as [|a]; simpl.
  - rewrite nth_repeat_in by lia. now destruct j.
  - rewrite map_map.
    rewrite (nth_map_seq (fun x => Fin 0%R :: map (fun b => e x b)
                                     (seq 0 (K - 1)))) by lia.
    destruct j as [|b]; simpl; [reflexivity|].
    now rewrite nth_map_seq by lia.
Qed.

Lemma with_zero_margins_shape K e :
  0 < K ->
  length (with_zero_margins K e) = K /\
  forall i, i < K -> length (nth i (with_zero_margins K e) []) = K.
Proof.
  intros HK. unfold with_zero_margins. split.
  - simpl. rewrite !length_map, length_seq. lia.
  - intros [|a] Hi; simpl.
    + apply repeat_length.
    + rewrite map_map.
      rewrite (nth_map_seq (fun x => Fin 0%R :: map (fun b => e x b)
                                       (seq 0 (K - 1)))) by lia.
      simpl. rewrite length_map, length_seq. lia.
Qed.

Lemma calc_tree_logmutrel_unfold fuel adj data :
  _calc_tree_logmutrel fuel adj data =
  match _determine_node_rels fuel adj with
  | None => None
  | Some node_rels =>
      let K := length node_rels in
      if negb (forallb (fun r => length r =? K) node_rels) then None else
      if negb (shape3b (K - 1) 5 (rels data)) then None else
      if negb (list_nat_eqb (vids data) (seq 0 (K - 1))) then None else
      let T := with_zero_margins K
                 (fun a b => class_at NaN (cell3 NaN (rels data) a b)
                                      (rget node_rels (a + 1) (b + 1))) in
      if negb (forallb (fun i =>
                 forallb (fun j => feq (fmget T i j) (fmget T j i))
                         (seq 0 K)) (seq 0 K)) then None else
      if negb (forallb (forallb fle0) T) then None else Some T
  end.
Proof. reflexivity. Qed.

(** A finite, non-positive, symmetric K x K score matrix whose diagonal,
    first row and first column are zero. *)
Definition is_score_matrix (K : nat) (T : FMatrix) : Prop :=
  length T = K /\
  (forall i, i < K -> length (nth i T []) = K) /\
  forall i j, i < K -> j < K ->
    exists x, fmget T i j = Fin x /\ (x <= 0)%R /\
              (i = j \/ i = 0 \/ j = 0 -> x = 0%R) /\
              fmget T j i = Fin x.

Section ScoreMatrix.
Variable K : nat.
Variable adj : Matrix.
Variable data : Mutrel npfloat.
Hypothesis V : valid_adj K adj.
Hypothesis WF : wf_logmutrel (K - 1) data.

Lemma tree_rel_entry nr a b :
  (forall x y, x < K -> y < K -> tree_rel adj x y (rget nr x y)) ->
  a < K - 1 -> b < K - 1 ->
  exists x,
    class_at NaN (cell3 NaN (rels data) a b) (rget nr (a + 1) (b + 1)) = Fin x /\
    (x <= 0)%R /\ (a = b -> x = 0%R) /\
    class_at NaN (cell3 NaN (rels data) b a) (rget nr (b + 1) (a + 1)) = Fin x.
Proof.
  intros Htree Ha Hb. destruct WF as (_ & _ & Hw).
  destruct (Hw a b Ha Hb) as (Hd & Hv & Hs1 & Hs2).
  destruct (Hw b a Hb Ha) as (_ & _ & Hs1' & _).
  fold (logp (rels data) a b (rget nr (a + 1) (b + 1))).
  fold (logp (rels data) b a (rget nr (b + 1) (a + 1))).
  pose proof (Htree (a + 1) (b + 1) ltac:(lia) ltac:(lia)) as T1.
  pose proof (Htree (b + 1) (a + 1) ltac:(lia) ltac:(lia)) as T2.
  assert (Asym : forall x y, panc adj x y -> panc adj y x -> False)
    by (intros x y P Q; eapply (panc_asym _ _ V); eauto).
  unfold tree_rel in T1, T2.
  destruct T1 as [[E1 M1]|[(N1 & P1 & M1)|[(N1 & P1 & M1)|(N1 & P1 & Q1 & M1)]]];
    rewrite M1.
  - assert (a = b) by lia. subst b.
    destruct T2 as [[_ M2]|[(N2 & _)|[(N2 & _)|(N2 & _)]]]; try lia.
    rewrite M2. exists 0%R. repeat split; auto; lra.
  - destruct T2 as [[E2 _]|[(_ & P2 & _)|[(_ & _ & M2)|(_ & _ & Q2 & _)]]];
      try lia; try (exfalso; eauto; fail); try contradiction.
    rewrite M2. destruct (Hv ltac:(lia) A_B) as (x & Ex & Hx);
      [simpl; auto|].
    exists x. repeat split; auto; try lia. now rewrite <- Hs1.
  - destruct T2 as [[E2 _]|[(_ & _ & M2)|[(_ & P2 & _)|(_ & Q2 & _)]]];
      try lia; try (exfalso; eauto; fail); try contradiction.
    rewrite M2. destruct (Hv ltac:(lia) B_A) as (x & Ex & Hx);
      [simpl; auto|].
    exists x. repeat split; auto; try lia. now rewrite Hs1'.
  - destruct T2 as [[E2 _]|[(_ & P2 & _)|[(_ & P2 & _)|(_ & _ & _ & M2)]]];
      try lia; try contradiction.
    rewrite M2. destruct (Hv ltac:(lia) diff_branches) as (x & Ex & Hx);
      [simpl; auto|].
    exists x. repeat split; auto; try lia. now rewrite <- Hs2.
Qed.

Lemma calc_tree_logmutrel_ok fuel :
  K <= fuel ->
  exists T, _calc_tree_logmutrel fuel adj data = Some T /\ is_score_matrix K T.
Proof.
  intros Hf. rewrite calc_tree_logmutrel_unfold.
  destruct (determine_node_rels_ok K adj V fuel Hf) as (nr & -> & [HL HR] & Htree).
  pose proof (va_pos _ _ V) as HK.
  cbv zeta. rewrite HL.
  assert (Hsq : forallb (fun r => length r =? K) nr = true).
  { apply forallb_forall. intros r Hr.
    destruct (In_nth _ _ [] Hr) as (i & Hi & <-). apply Nat.eqb_eq, HR. lia. }
  rewrite Hsq. cbn [negb].
  destruct WF as (Sh & Hv & Hw).
  rewrite (shape3b_ok _ _ Sh), Hv, list_nat_eqb_refl. cbn [negb].
  set (e := fun a b => class_at NaN (cell3 NaN (rels data) a b)
                                (rget nr (a + 1) (b + 1))).
  assert (Hscore : is_score_matrix K (with_zero_margins K e)).
  { destruct (with_zero_margins_shape K e HK) as [L1 L2].
    split; [exact L1|]. split; [exact L2|].
    intros i j Hi Hj. rewrite !with_zero_margins_entry by assumption.
    destruct i as [|a], j as [|b];
      try (exists 0%R; repeat split; auto; lra).
    destruct (tree_rel_entry nr a b Htree ltac:(lia) ltac:(lia))
      as (x & E1 & Hx & Hd & E2).
    exists x. unfold e. repeat split; auto.
    intros [E|[E|E]]; try lia. apply Hd. lia. }
  destruct Hscore as (L1 & L2 & Hent).
  assert (Hsym : forallb (fun i =>
             forallb (fun j => feq (fmget (with_zero_margins K e) i j)
                                   (fmget (with_zero_margins K e) j i))
                     (seq 0 K)) (seq 0 K) = true).
  { apply forallb_forall. intros i Hi. apply in_seq in Hi.
    apply forallb_forall. intros j Hj. apply in_seq in Hj.
    destruct (Hent i j ltac:(lia) ltac:(lia)) as (x & -> & _ & _ & ->).
    apply feq_refl_Fin. }
  rewrite Hsym. cbn [negb].
  assert (Hle : forallb (forallb fle0) (with_zero_margins K e) = true).
  { apply forallb_forall. intros row Hrow.
    destruct (In_nth _ _ [] Hrow) as (i & Hi & <-). rewrite L1 in Hi.
    apply forallb_forall. intros v Hv'.
    destruct (In_nth _ _ NaN Hv') as (j & Hj & <-). rewrite L2 in Hj by lia.
    destruct (Hent i j Hi Hj) as (x & Ex & Hx & _).
    unfold fmget in Ex. rewrite Ex. unfold fle0.
    destruct (Rle_dec x 0); [reflexivity|contradiction]. }
  rewrite Hle. cbn [negb]. eexists. split; [reflexivity|].
  split; [exact L1|]. split; [exact L2|exact Hent].
Qed.
End ScoreMatrix.

Lemma score_matrix_rows K T i :
  is_score_matrix K T -> i < K -> all_Fin (nth i T []).
Proof.
  intros (L1 & L2 & H) Hi v Hv.
  destruct (In_nth _ _ NaN Hv) as (j & Hj & <-). rewrite L2 in Hj by lia.
  destruct (H i j Hi Hj) as (x & Ex & _). exists x. exact Ex.
Qed.

Lemma all_Fin_concat (M : list (list npfloat)) :
  (forall row, In row M -> all_Fin row) -> all_Fin (concat M).
Proof.
  intros H v Hv. apply in_concat in Hv as (row & Hrow & Hv).
  apply (H row Hrow v Hv).
Qed.

Lemma triu_sum_finite K T :
  is_score_matrix K T -> exists s, triu_sum T = Fin s.
Proof.
  intros ST. pose proof ST as (L1 & L2 & H). unfold triu_sum.
  assert (A : all_Fin (concat (triu T))).
  { apply all_Fin_concat. intros row Hrow. unfold triu in Hrow.
    destruct (In_nth _ _ [] Hrow) as (i & Hi & <-).
    rewrite mapi_length in Hi. rewrite (nth_mapi _ _ _ []) by lia.
    intros v Hv. destruct (In_nth _ _ NaN Hv) as (j & Hj & <-).
    rewrite mapi_length in Hj. rewrite (nth_mapi _ _ _ NaN) by lia.
    destruct (j <? i); [now exists 0%R|].
    rewrite L1 in Hi. rewrite L2 in Hj by lia.
    destruct (H i j Hi Hj) as (x & Ex & _). exists x. exact Ex. }
  rewrite (all_Fin_map _ A), fsum_Fin. eauto.
Qed.

(* ------------------------------------------------------------------ *)
(** *** The informed node weights *)

Lemma floor_weight_pos : (0 < floor_weight)%R.
Proof. unfold floor_weight. lra. Qed.

(** The pair error of a finite score after the floor is applied. *)
Definition floored_error (v : npfloat) : R :=
  Rmax floor_weight (1 + - exp (fin_val v)).

Lemma floored_error_pos v : (0 < floored_error v)%R.
Proof.
  unfold floored_error. pose proof floor_weight_pos.
  pose proof (Rmax_l floor_weight (1 + - exp (fin_val v))). lra.
Qed.

Lemma node_error_row (row : list npfloat) :
  all_Fin row -> row <> [] ->
  logsumexp
    (map flog
       (map (fmax (Fin floor_weight))
            (map (fun x => fsub (Fin 1%R) (np_exp x)) row))) =
  Fin (ln (rsum (map floored_error row))) /\
  (0 < rsum (map floored_error row))%R.
Proof.
  intros A Hne.
  assert (Hpos : (0 < rsum (map floored_error row))%R).
  { apply rsum_pos.
    - intros x Hx. apply in_map_iff in Hx as (v & <- & _).
      pose proof (floored_error_pos v). lra.
    - destruct row as [|v row]; [congruence|].
      exists (floored_error v). split; [now left|apply floored_error_pos]. }
  split; [|exact Hpos].
  unfold logsumexp. rewrite !map_map.
  assert (E : map (fun x => np_exp (flog (fmax (Fin floor_weight)
                                       (fsub (Fin 1%R) (np_exp x))))) row =
              map Fin (map floored_error row)).
  { rewrite map_map. apply map_ext_in. intros v Hv.
    destruct (A v Hv) as [x ->]. simpl.
    rewrite np_log_pos by apply (floored_error_pos (Fin x)). simpl.
    now rewrite exp_ln by apply (floored_error_pos (Fin x)). }
  rewrite E, fsum_Fin. simpl. now apply np_log_pos.
Qed.

Lemma softmax_Fin_pos (xs : list R) :
  xs <> [] ->
  exists rs, softmax (map Fin xs) = map Fin rs /\ length rs = length xs /\
             forall r, In r rs -> (0 < r)%R.
Proof.
  intros Hne. unfold softmax.
  assert (E : map np_exp (map Fin xs) = map Fin (map exp xs))
    by (rewrite !map_map; reflexivity).
  rewrite E, fsum_Fin.
  assert (Hs : (0 < rsum (map exp xs))%R).
  { apply rsum_pos.
    - intros x Hx. apply in_map_iff in Hx as (v & <- & _).
      pose proof (exp_pos v). lra.
    - destruct xs as [|x xs]; [congruence|].
      exists (exp x). split; [now left|apply exp_pos]. }
  exists (map (fun e => e / rsum (map exp xs))%R (map exp xs)).
  split; [|split].
  - rewrite !map_map. apply map_ext. intros x. apply fdiv_Fin. lra.
  - now rewrite !length_map.
  - intros r Hr. apply in_map_iff in Hr as (e & <- & He).
    apply in_map_iff in He as (x & <- & _).
    apply Rdiv_lt_0_compat; [apply exp_pos|exact Hs].
Qed.

Lemma fmget_map_map (f : npfloat -> npfloat) (T : FMatrix) i j :
  f NaN = NaN -> fmget (map (map f) T) i j = f (fmget T i j).
Proof.
  intros Hf. unfold fmget.
  change (@nil npfloat) with (map f []) at 1. rewrite map_nth.
  rewrite <- Hf at 1. now rewrite map_nth.
Qed.

Lemma firstn_repeat_one {A} (a : A) K : 1 <= K -> firstn 1 (repeat a K) = [a].
Proof. destruct K; [lia|reflexivity]. Qed.

Lemma skipn_repeat_one {A} (a : A) K :
  1 <= K -> skipn 1 (repeat a K) = repeat a (K - 1).
Proof. destruct K; [lia|]. simpl. now rewrite Nat.sub_0_r. Qed.

Lemma allclose0_zeros l : (forall v, In v l -> v = Fin 0%R) -> allclose0 l = true.
Proof.
  intros H. apply forallb_forall. intros v Hv. rewrite (H v Hv).
  apply isclose_refl_Fin.
Qed.

Section NodeWeights.
Variable K : nat.
Variable adj : Matrix.
Variable data : Mutrel npfloat.
Hypothesis V : valid_adj K adj.
Hypothesis WF : wf_logmutrel (K - 1) data.
Hypothesis HK : 2 <= K.

Lemma adj_rows_square : forallb (fun r => length r =? K) adj = true.
Proof.
  destruct (va_square _ _ V) as [HL HR].
  apply forallb_forall. intros r Hr.
  destruct (In_nth _ _ [] Hr) as (i & Hi & <-). apply Nat.eqb_eq.
  apply (HR i). lia.
Qed.

Lemma pair_error_zero T i j :
  is_score_matrix K T -> i < K -> j < K -> (i = j \/ i = 0 \/ j = 0) ->
  fmget (map (map (fun x => fsub (Fin 1%R) (np_exp x))) T) i j = Fin 0%R.
Proof.
  intros (L1 & L2 & H) Hi Hj Hz.
  rewrite fmget_map_map by reflexivity.
  destruct (H i j Hi Hj) as (x & -> & _ & Hx & _).
  rewrite (Hx Hz). simpl. rewrite exp_0. f_equal. ring.
Qed.

Lemma W_nodes_mutrel_dist fuel :
  K <= fuel ->
  exists w, _make_W_nodes_mutrel fuel adj data = Some w /\
            is_dist K (fun i => Nat.eqb i 0) w.
Proof.
  intros Hf. unfold _make_W_nodes_mutrel.
  destruct (va_square _ _ V) as [HL HR]. rewrite HL.
  rewrite adj_rows_square. cbn [negb].
  destruct (calc_tree_logmutrel_ok K adj data V WF fuel Hf) as (T & -> & ST).
  pose proof ST as (L1 & L2 & Hent).
  set (PE := map (map (fun x => fsub (Fin 1%R) (np_exp x))) T).
  assert (A1 : allclose0 (fdiag PE) = true).
  { apply allclose0_zeros. intros v Hv. unfold fdiag in Hv.
    apply in_map_iff in Hv as (i & <- & Hi). apply in_seq in Hi.
    unfold PE in *. rewrite length_map, L1 in Hi.
    apply pair_error_zero; auto; lia. }
  assert (A2 : allclose0 (nth 0 PE []) = true).
  { apply allclose0_zeros. intros v Hv.
    destruct (In_nth _ _ NaN Hv) as (j & Hj & <-).
    assert (HjK : j < K).
    { unfold PE in Hj. change (@nil npfloat) with
        (map (fun x => fsub (Fin 1%R) (np_exp x)) []) in Hj.
      rewrite map_nth, length_map, L2 in Hj by lia. exact Hj. }
    change (nth j (nth 0 PE []) NaN) with (fmget PE 0 j).
    apply pair_error_zero; auto; lia. }
  assert (A3 : allclose0 (fcol PE 0) = true).
  { apply allclose0_zeros. intros v Hv. unfold fcol in Hv.
    apply in_map_iff in Hv as (r & <- & Hr).
    destruct (In_nth _ _ [] Hr) as (i & Hi & <-).
    unfold PE in Hi. rewrite length_map, L1 in Hi.
    change (nth 0 (nth i PE []) NaN) with (fmget PE i 0).
    apply pair_error_zero; auto; lia. }
  rewrite A1, A2, A3. cbn [negb].
  (* the node errors *)
  assert (NE : map (fun row => logsumexp (map flog row))
                   (map (map (fmax (Fin floor_weight))) PE) =
               map Fin (map (fun row => ln (rsum (map floored_error row))) T)).
  { unfold PE. rewrite !map_map. apply map_ext_in. intros row Hrow.
    destruct (In_nth _ _ [] Hrow) as (i & Hi & <-). rewrite L1 in Hi.
    apply node_error_row.
    - now apply (score_matrix_rows K).
    - intros E. apply (f_equal (@length _)) in E. rewrite L2 in E by lia.
      simpl in E. lia. }
  rewrite NE. cbv zeta.
  rewrite (firstn_repeat_one (Fin 0%R) K), (skipn_repeat_one (Fin 0%R) K) by lia.
  assert (HT : exists r0 rows, T = r0 :: rows /\ rows <> []).
  { destruct T as [|r0 [|r1 rows]]; simpl in L1; try lia.
    exists r0, (r1 :: rows). split; [reflexivity|discriminate]. }
  destruct HT as (r0 & rows & -> & Hrows).
  change (skipn 1 (map Fin (map (fun row => ln (rsum (map floored_error row)))
                                (r0 :: rows))))
    with (map Fin (map (fun row => ln (rsum (map floored_error row))) rows)).
  destruct (softmax_Fin_pos
              (map (fun row => ln (rsum (map floored_error row))) rows))
    as (rs & Hsm & Hlen & Hpos).
  { destruct rows; [congruence|discriminate]. }
  rewrite Hsm.
  assert (Hk : length rows = K - 1) by (simpl in L1; lia).
  assert (Hrep : repeat (Fin 0%R) (K - 1) = map Fin (repeat 0%R (K - 1)))
    by (now rewrite map_repeat).
  rewrite Hrep.
  assert (Hcomb : map (fun p => fadd (fst p) (snd p))
                      (combine (map Fin (repeat 0%R (K - 1))) (map Fin rs)) =
                  map Fin rs).
  { rewrite length_map in Hlen. rewrite Hk in Hlen. clear - Hlen.
    revert Hlen. generalize (K - 1) as k.
    induction rs as [|r rs IH]; intros [|k] Hlen;
      simpl in *; try lia; auto.
    rewrite IH by lia. f_equal. f_equal. ring. }
  rewrite Hcomb. cbn [firstn skipn app].
  rewrite map_fmax_Fin.
  change (Fin 0%R :: map Fin (map (Rmax floor_weight) rs))
    with (map Fin (0%R :: map (Rmax floor_weight) rs)).
  assert (W : is_weights K (fun i => Nat.eqb i 0)
                         (0%R :: map (Rmax floor_weight) rs)).
  { split.
    - simpl. rewrite length_map, Hlen, length_map. lia.
    - intros [|i] Hi; simpl; [reflexivity|].
      rewrite (nth_indep _ 0%R (Rmax floor_weight 0%R))
        by (rewrite length_map, Hlen, length_map; lia).
      rewrite map_nth.
      pose proof (Rmax_l floor_weight (nth i rs 0%R)).
      pose proof floor_weight_pos. lra. }
  assert (Hex : exists i, i < K /\ Nat.eqb i 0 = false)
    by (exists 1; split; [lia|reflexivity]).
  pose proof (normalize_is_dist _ _ _ W Hex) as D.
  set (w := normalize (map Fin (0%R :: map (Rmax floor_weight) rs))) in *.
  assert (E0 : feq (nth 0 w NaN) (Fin 0%R) = true).
  { rewrite (is_dist_masked _ _ _ 0 D) by (auto; lia). apply feq_refl_Fin. }
  assert (Ep : forallb (fun x => fgt x (Fin 0%R)) (skipn 1 w) = true).
  { apply forallb_forall. intros x Hx.
    destruct (In_nth _ _ NaN Hx) as (i & Hi & <-).
    rewrite length_skipn, (is_dist_length _ _ _ D) in Hi.
    rewrite nth_skipn.
    destruct (is_dist_positive _ _ _ (1 + i) D) as (r & -> & Hr);
      [lia|reflexivity|].
    unfold fgt. destruct (Rlt_dec 0 r); [reflexivity|contradiction]. }
  cbn [skipn] in Ep. rewrite E0, Ep. exists w. split; [reflexivity|exact D].
Qed.
End NodeWeights.

(* ------------------------------------------------------------------ *)
(** *** The informed destination weights *)

Lemma np_delete2_In {X} (v : list X) i j x :
  In x (np_delete2 v i j) ->
  exists d, d < length v /\ d <> i /\ d <> j /\ nth_error v d = Some x.
Proof.
  unfold np_delete2. intros H. apply in_map_iff in H as ([d y] & <- & H).
  apply filter_In in H as [Hin Hf]. simpl in *.
  apply negb_true_iff, orb_false_iff in Hf as [H1 H2].
  apply Nat.eqb_neq in H1, H2.
  apply In_nth_error in Hin as (n & Hn).
  assert (Hlen : n < length (combine (seq 0 (length v)) v))
    by (apply nth_error_Some; congruence).
  rewrite length_combine, length_seq, Nat.min_id in Hlen.
  assert (Hd : nth_error (seq 0 (length v)) n = Some n).
  { rewrite nth_error_nth' with (d := 0) by (rewrite length_seq; lia).
    now rewrite seq_nth. }
  destruct (nth_error v n) as [z|] eqn:Ez;
    [|apply nth_error_None in Ez; lia].
  assert (Hc : nth_error (combine (seq 0 (length v)) v) n = Some (n, z)).
  { clear - Hd Ez. revert Hd. generalize n at 2 4 as m.
    revert n Ez. generalize (seq 0 (length v)) as l.
    induction v as [|a v IH]; intros l n Ez m Hd.
    - destruct n; discriminate.
    - destruct l as [|b l]; [destruct n; discriminate|].
      destruct n as [|n]; simpl in *.
      + inversion Hd; inversion Ez; subst. reflexivity.
      + now apply IH. }
  rewrite Hc in Hn. inversion Hn; subst. exists d. auto.
Qed.

Section DestWeights.
Variable K : nat.
Variables adj anc : Matrix.
Variable data : Mutrel npfloat.
Variables subtree_head curr_parent : nat.
Hypothesis V : valid_adj K adj.
Hypothesis HAnc : ancestry_of K adj anc.
Hypothesis WF : wf_logmutrel (K - 1) data.
Hypothesis Hhead : 0 < subtree_head < K.
Hypothesis Hparent : edge adj curr_parent subtree_head.

Let masked := dest_masked subtree_head curr_parent.

(** Every unmasked destination gets the score of the tree [adj] itself. *)
Lemma logweights_loop_ok fuel T dests :
  K <= fuel -> _calc_tree_logmutrel fuel adj data = Some T ->
  (forall d, In d dests -> d < K) ->
  forall lw,
  exists out,
    logweights_loop fuel subtree_head curr_parent adj anc data dests lw =
      Some out /\
    length out = length lw /\
    forall d, nth d out NaN =
      if mem d dests && negb (masked d) && (d <? length lw)
      then triu_sum T else nth d lw NaN.
Proof.
  intros Hf HT. induction dests as [|dest dests IH]; intros Hd lw.
  - exists lw. simpl. auto.
  - cbn [logweights_loop].
    assert (Hrest : forall d, In d dests -> d < K)
      by (intros d Hin; apply Hd; now right).
    destruct (Nat.eqb dest curr_parent || Nat.eqb dest subtree_head) eqn:Em.
    + destruct (IH Hrest lw) as (out & Hout & HL & Hn).
      exists out. split; [exact Hout|]. split; [exact HL|].
      intros d. rewrite Hn. unfold mem. simpl.
      destruct (Nat.eqb_spec d dest) as [->|Hne]; simpl; [|reflexivity].
      unfold masked, dest_masked. rewrite Em. simpl.
      now rewrite andb_false_r.
    + apply orb_false_iff in Em as [E1 E2]. apply Nat.eqb_neq in E1, E2.
      destruct (modify_tree_ok K adj anc dest subtree_head V HAnc
                  (Hd dest (or_introl eq_refl)) Hhead E2)
        as (new_adj & -> & _).
      rewrite HT.
      destruct (IH Hrest (upd dest (triu_sum T) lw)) as (out & Hout & HL & Hn).
      exists out. split; [exact Hout|].
      rewrite upd_length in HL, Hn. split; [exact HL|].
      intros d. rewrite Hn. unfold mem. simpl. rewrite nth_upd.
      destruct (Nat.eqb_spec d dest) as [->|Hne]; simpl.
      * assert (Em : masked dest = false).
        { unfold masked, dest_masked.
          apply Nat.eqb_neq in E1, E2. now rewrite E1, E2. }
        rewrite Em. simpl.
        destruct (existsb (Nat.eqb dest) dests); simpl;
          destruct (dest <? length lw); reflexivity.
      * reflexivity.
Qed.

Lemma W_dests_mutrel_dist fuel depth_frac :
  K <= fuel -> 3 <= K ->
  exists w c,
    _make_W_dests_mutrel fuel subtree_head curr_parent adj anc depth_frac data
      = Some w /\
    is_dist K masked w /\
    forall d, d < K -> masked d = false -> nth d w NaN = Fin c.
Proof.
  intros Hf HK3. unfold _make_W_dests_mutrel.
  destruct Hhead as [Hh0 HhK]. apply Nat.ltb_lt in Hh0 as Hh0'.
  rewrite Hh0'. cbn [negb].
  destruct (edge_range _ _ V _ _ Hparent) as [HpK _].
  destruct Hparent as [Hph E]. rewrite E, Z.eqb_refl. cbn [negb].
  destruct WF as (Sh & Hv & Hw). rewrite Hv.
  assert (Hvid : nth_error (seq 0 (K - 1)) (subtree_head - 1) =
                 Some (subtree_head - 1)).
  { rewrite nth_error_nth' with (d := 0) by (rewrite length_seq; lia).
    rewrite seq_nth by lia. reflexivity. }
  rewrite Hvid, Nat.eqb_refl. cbn [negb].
  destruct (va_square _ _ V) as [HL _]. rewrite HL.
  destruct (calc_tree_logmutrel_ok K adj data V WF fuel Hf) as (T & HT & ST).
  destruct (triu_sum_finite K T ST) as (s & Hs).
  destruct (logweights_loop_ok fuel T (seq 0 K) Hf HT) with (lw := repeat NInf K)
    as (lw & -> & HLlw & Hlw).
  { intros d Hd. apply in_seq in Hd. lia. }
  rewrite repeat_length in HLlw, Hlw.
  assert (Elw : lw = map (fun d => if masked d then NInf else Fin s) (seq 0 K)).
  { apply (list_ext NaN).
    - now rewrite length_map, length_seq.
    - intros d Hd. rewrite HLlw in Hd. rewrite Hlw, nth_map_seq by lia.
      assert (Hm : mem d (seq 0 K) = true) by (apply mem_In, in_seq; lia).
      apply Nat.ltb_lt in Hd as Hd'. rewrite Hm, Hd', Hs. simpl.
      rewrite nth_repeat_in by lia. now destruct (masked d). }
  assert (N1 : existsb isnan lw = false).
  { apply not_true_is_false. intros H.
    apply existsb_exists in H as (x & Hx & Hn). rewrite Elw in Hx.
    apply in_map_iff in Hx as (d & <- & _). now destruct (masked d). }
  assert (N2 : existsb isinf (np_delete2 lw curr_parent subtree_head) = false).
  { apply not_true_is_false. intros H.
    apply existsb_exists in H as (x & Hx & Hn).
    apply np_delete2_In in Hx as (d & Hd & D1 & D2 & Hx).
    rewrite HLlw in Hd.
    apply nth_error_nth with (d := NaN) in Hx. rewrite Elw in Hx.
    rewrite nth_map_seq in Hx by lia.
    assert (Hm : masked d = false).
    { unfold masked, dest_masked. apply Nat.eqb_neq in D1, D2.
      now rewrite D1, D2. }
    rewrite Hm in Hx. subst x. discriminate. }
  rewrite N1, N2.
  (* the softmax of the log-weights *)
  set (e := fun d => if masked d then 0%R else exp s).
  assert (Eexp : map np_exp lw = map Fin (map e (seq 0 K))).
  { rewrite Elw, !map_map. apply map_ext. intros d. unfold e.
    now destruct (masked d). }
  destruct (dest_unmasked_exists K subtree_head curr_parent HK3)
    as (d0 & Hd0 & Hm0). fold masked in Hm0.
  assert (HS : (0 < rsum (map e (seq 0 K)))%R).
  { apply rsum_pos.
    - intros x Hx. apply in_map_iff in Hx as (d & <- & _). unfold e.
      destruct (masked d); [lra|]. pose proof (exp_pos s). lra.
    - exists (e d0). split; [apply in_map, in_seq; lia|].
      unfold e. rewrite Hm0. apply exp_pos. }
  set (S := rsum (map e (seq 0 K))) in *.
  set (c0 := Rmax floor_weight (exp s / S)).
  assert (Hc0 : (0 < c0)%R).
  { unfold c0. pose proof (Rmax_l floor_weight (exp s / S)).
    pose proof floor_weight_pos. lra. }
  set (rs := map (fun d => if masked d then 0%R else c0) (seq 0 K)).
  assert (Ew : upd subtree_head (Fin 0%R)
                 (upd curr_parent (Fin 0%R)
                    (map (fmax (Fin floor_weight)) (softmax lw))) =
               map Fin rs).
  { unfold softmax. rewrite Eexp, fsum_Fin. fold S.
    apply (list_ext NaN).
    - unfold rs. now rewrite !upd_length, !length_map, !length_seq.
    - intros d Hd.
      rewrite !upd_length, !length_map, length_seq in Hd.
      assert (RHS : nth d (map Fin rs) NaN =
                    Fin (if masked d then 0%R else c0)).
      { rewrite nth_map_Fin by (unfold rs; rewrite length_map, length_seq; lia).
        unfold rs. now rewrite nth_map_seq by lia. }
      assert (LHS : nth d (map (fmax (Fin floor_weight))
                             (map (fun x => fdiv x (Fin S))
                                  (map Fin (map e (seq 0 K))))) NaN =
                    Fin (Rmax floor_weight (e d / S))).
      { rewrite !map_map. rewrite nth_map_seq by lia.
        rewrite fdiv_Fin by lra. reflexivity. }
      rewrite RHS.
      rewrite !nth_upd, !upd_length, !length_map, length_seq, LHS.
      apply Nat.ltb_lt in HhK as HhK'. apply Nat.ltb_lt in HpK as HpK'.
      rewrite HhK', HpK', !andb_true_r.
      unfold masked, dest_masked, e, masked, dest_masked.
      destruct (Nat.eqb_spec d subtree_head); simpl;
        [now rewrite orb_true_r|].
      destruct (Nat.eqb_spec d curr_parent); simpl; reflexivity. }
  rewrite Ew.
  assert (W : is_weights K masked rs).
  { split; [unfold rs; now rewrite length_map, length_seq|].
    intros d Hd. unfold rs. rewrite nth_map_seq by lia.
    now destruct (masked d). }
  pose proof (normalize_is_dist K masked rs W
                (ex_intro _ d0 (conj Hd0 Hm0))) as D.
  exists (normalize (map Fin rs)), (c0 / rsum rs)%R.
  split; [reflexivity|]. split; [exact D|].
  intros d Hd Hm.
  pose proof (is_weights_sum_pos K masked rs W
                (ex_intro _ d0 (conj Hd0 Hm0))) as Hsum.
  rewrite normalize_Fin by lra.
  rewrite nth_map_Fin by (unfold rs; rewrite !length_map, length_seq; lia).
  f_equal.
  rewrite (nth_indep _ 0%R ((fun x => x / rsum rs)%R 0%R))
    by (unfold rs; rewrite !length_map, length_seq; lia).
  rewrite (map_nth (fun x => x / rsum rs)%R).
  unfold rs at 1. rewrite nth_map_seq by lia. now rewrite Hm.
Qed.
End DestWeights.

(* ------------------------------------------------------------------ *)
(** *** The mixtures *)

Lemma rsum_combine_linear c1 c2 (us ms : list R) :
  length us = length ms ->
  rsum (map (fun p => c1 * fst p + c2 * snd p)%R (combine us ms)) =
  (c1 * rsum us + c2 * rsum ms)%R.
Proof.
  revert ms. induction us as [|u us IH]; intros [|m ms] H; simpl in *;
    try discriminate; [ring|].
  rewrite IH by lia. ring.
Qed.

Lemma combine_arrays_dist K masked u m c1 c2 :
  is_dist K masked u -> is_dist K masked m ->
  (0 <= c1)%R -> (0 <= c2)%R -> (c1 + c2 = 1)%R ->
  exists w,
    _combine_arrays u m c1 c2 = Some ((u, m), w) /\
    is_dist K masked w /\
    forall i, i < K ->
      exists pu pm, nth i u NaN = Fin pu /\ nth i m NaN = Fin pm /\
                    nth i w NaN = Fin (c1 * pu + c2 * pm)%R.
Proof.
  intros (us & -> & Lu & Su & Hu) (ms & -> & Lm & Sm & Hm) H1 H2 H12.
  unfold _combine_arrays. rewrite !length_map, Lu, Lm, Nat.eqb_refl.
  cbn [negb].
  set (ws := map (fun p => c1 * fst p + c2 * snd p)%R (combine us ms)).
  assert (Ew : map (fun p => fadd (fscale c1 (fst p)) (fscale c2 (snd p)))
                   (combine (map Fin us) (map Fin ms)) = map Fin ws).
  { unfold ws. clear - Lu Lm. revert ms K Lu Lm.
    induction us as [|a us IH]; intros [|b ms] K Lu Lm; simpl in *;
      try reflexivity.
    f_equal. apply (IH ms (length us)); lia. }
  rewrite Ew. exists (map Fin ws).
  assert (Lw : length ws = K).
  { unfold ws. rewrite length_map, length_combine. lia. }
  assert (Nw : forall i, i < K ->
             nth i ws 0%R = (c1 * nth i us 0 + c2 * nth i ms 0)%R).
  { intros i Hi. unfold ws.
    rewrite (nth_indep _ 0%R ((fun p => c1 * fst p + c2 * snd p)%R (0%R, 0%R)))
      by (rewrite length_map, length_combine; lia).
    rewrite (map_nth (fun p => c1 * fst p + c2 * snd p)%R).
    rewrite combine_nth by lia. reflexivity. }
  split; [reflexivity|]. split.
  - exists ws. split; [reflexivity|]. split; [exact Lw|]. split.
    + unfold ws. rewrite rsum_combine_linear by lia. rewrite Su, Sm. lra.
    + intros i Hi. rewrite (Nw i Hi).
      specialize (Hu i Hi). specialize (Hm i Hi).
      destruct (masked i).
      * rewrite Hu, Hm. ring.
      * assert (0 <= c1 * nth i us 0)%R by (apply Rmult_le_pos; lra).
        assert (0 <= c2 * nth i ms 0)%R by (apply Rmult_le_pos; lra).
        destruct (Rle_lt_or_eq_dec 0 c1 H1) as [P1|Z1].
        -- assert (0 < c1 * nth i us 0)%R by (apply Rmult_lt_0_compat; lra).
           lra.
        -- assert (0 < c2 * nth i ms 0)%R
             by (apply Rmult_lt_0_compat; lra). lra.
  - intros i Hi. exists (nth i us 0%R), (nth i ms 0%R).
    rewrite !nth_map_Fin by lia. rewrite (Nw i Hi). auto.
Qed.

Lemma dist_asserts K masked w :
  is_dist K masked w -> isclose (Fin 1%R) (fsum w) = true.
Proof.
  intros (rs & -> & _ & Hs & _). rewrite fsum_Fin, Hs.
  apply isclose_refl_Fin.
Qed.

Section CombinedWeights.
Variable K : nat.
Variables adj anc : Matrix.
Variable data : Mutrel npfloat.
Variables c1 c2 : R.
Hypothesis V : valid_adj K adj.
Hypothesis HAnc : ancestry_of K adj anc.
Hypothesis WF : wf_logmutrel (K - 1) data.
Hypothesis HK : 3 <= K.
Hypothesis Hc1 : (0 <= c1)%R.
Hypothesis Hc2 : (0 <= c2)%R.
Hypothesis Hc12 : (c1 + c2 = 1)%R.

Lemma W_nodes_combined_ok fuel :
  K <= fuel ->
  exists u m w,
    _make_W_nodes_combined fuel adj data c1 c2 = Some ((u, m), w) /\
    u = _make_W_nodes_uniform adj /\
    _make_W_nodes_mutrel fuel adj data = Some m /\
    is_dist K (fun i => Nat.eqb i 0) u /\
    is_dist K (fun i => Nat.eqb i 0) m /\
    is_dist K (fun i => Nat.eqb i 0) w /\
    forall i, i < K ->
      exists pu pm, nth i u NaN = Fin pu /\ nth i m NaN = Fin pm /\
                    nth i w NaN = Fin (c1 * pu + c2 * pm)%R.
Proof.
  intros Hf. unfold _make_W_nodes_combined.
  destruct (va_square _ _ V) as [HL _].
  pose proof (W_nodes_uniform_dist K adj HL ltac:(lia)) as Du.
  destruct (W_nodes_mutrel_dist K adj data V WF ltac:(lia) fuel Hf)
    as (m & Hm & Dm).
  rewrite Hm.
  destruct (combine_arrays_dist K _ _ _ c1 c2 Du Dm Hc1 Hc2 Hc12)
    as (w & Hw & Dw & Hn).
  rewrite Hw.
  rewrite (is_dist_masked _ _ _ 0 Dw) by (auto; lia).
  rewrite feq_refl_Fin, (dist_asserts _ _ _ Dw). cbn [andb].
  exists (_make_W_nodes_uniform adj), m, w. repeat split; auto.
Qed.

Lemma W_dests_combined_ok fuel head parent depth_frac :
  K <= fuel -> 0 < head < K -> edge adj parent head ->
  exists u m w,
    _make_W_dests_combined fuel head parent adj anc depth_frac data c1 c2 =
      Some ((u, m), w) /\
    u = _make_W_dests_uniform head parent adj /\
    _make_W_dests_mutrel fuel head parent adj anc depth_frac data = Some m /\
    is_dist K (dest_masked head parent) u /\
    is_dist K (dest_masked head parent) m /\
    is_dist K (dest_masked head parent) w /\
    forall i, i < K ->
      exists pu pm, nth i u NaN = Fin pu /\ nth i m NaN = Fin pm /\
                    nth i w NaN = Fin (c1 * pu + c2 * pm)%R.
Proof.
  intros Hf Hh Hp. unfold _make_W_dests_combined.
  destruct (va_square _ _ V) as [HL _].
  destruct (edge_range _ _ V _ _ Hp) as [HpK _].
  pose proof (W_dests_uniform_dist K adj head parent HL HK ltac:(lia) HpK)
    as Du.
  destruct (W_dests_mutrel_dist K adj anc data head parent V HAnc WF Hh Hp
              fuel depth_frac Hf HK) as (m & c & Hm & Dm & _).
  rewrite Hm.
  destruct (combine_arrays_dist K _ _ _ c1 c2 Du Dm Hc1 Hc2 Hc12)
    as (w & Hw & Dw & Hn).
  rewrite Hw.
  assert (Mh : dest_masked head parent head = true).
  { unfold dest_masked. now rewrite Nat.eqb_refl, orb_true_r. }
  assert (Mp : dest_masked head parent parent = true).
  { unfold dest_masked. now rewrite Nat.eqb_refl. }
  rewrite (is_dist_masked _ _ _ head Dw) by (auto; lia).
  rewrite (is_dist_masked _ _ _ parent Dw) by auto.
  rewrite feq_refl_Fin, (dist_asserts _ _ _ Dw). cbn [andb].
  exists (_make_W_dests_uniform head parent adj), m, w. repeat split; auto.
Qed.
End CombinedWeights.

(** With two nodes the uniform destination weights are [nan] and the
    combination fails its assertions, whatever the informed weights. *)
Lemma W_dests_combined_two fuel adj anc depth_frac data c1 c2 :
  length adj = 2 ->
  _make_W_dests_combined fuel 1 0 adj anc depth_frac data c1 c2 = None.
Proof.
  intros HL. unfold _make_W_dests_combined.
  rewrite (W_dests_uniform_two adj HL).
  destruct (_make_W_dests_mutrel _ _ _ _ _ _ _) as [m|]; [|reflexivity].
  unfold _combine_arrays.
  destruct (length [NaN; NaN] =? length m) eqn:E; [|reflexivity].
  cbn [negb]. apply Nat.eqb_eq in E.
  destruct m as [|m0 [|m1 [|]]]; try discriminate. simpl.
  destruct (fadd NaN (fscale c2 m1)); reflexivity.
Qed.

(* ================================================================== *)
(** ** Depth fractions ([tree_sampler._calc_depth_frac]) *)

(** [v[C] = x]. *)
Definition set_many (C : list nat) (x : Z) (v : list Z) : list Z :=
  fold_left (fun d c => upd c x d) C v.

Fixpoint depth_loop (adj : Matrix) (fuel : nat) (stack : list nat)
    (depth : list Z) : option (list Z) :=
  match rev stack with
  | [] => Some depth
  | P :: rest =>
      match fuel with
      | O => None
      | S fuel' =>
          match flatnonzero (get_row adj P) with
          | [] => depth_loop adj fuel' (rev rest) depth
          | c :: C =>
              depth_loop adj fuel' (rev rest ++ c :: C)
                         (set_many (c :: C) (nth P depth 0 + 1)%Z depth)
          end
      end
  end.

Definition zmax (l : list Z) : Z := fold_right Z.max 0%Z l.

Definition _calc_depth_frac (fuel : nat) (adj : Matrix)
  : option (list npfloat) :=
  let K := length adj in
  match depth_loop (fill_diagonal adj 0%Z) fuel [0] (repeat 0%Z K) with
  | None => None
  | Some depth =>
      if negb (nth 0 depth 0 =? 0)%Z then None else
      if negb (forallb (fun d => (0 <? d)%Z) (skipn 1 depth)) then None else
      Some (map (fun d => fdiv (Fin (IZR d)) (Fin (IZR (zmax depth)))) depth)
  end.

Lemma set_many_length C x v : length (set_many C x v) = length v.
Proof.
  unfold set_many. revert v. induction C as [|c C IH]; intros v; simpl;
    [reflexivity|]. now rewrite IH, upd_length.
Qed.

Lemma nth_set_many C x v i :
  nth i (set_many C x v) 0%Z =
  if mem i C && (i <? length v) then x else nth i v 0%Z.
Proof.
  unfold set_many, mem. revert v. induction C as [|c C IH]; intros v; simpl;
    [reflexivity|].
  rewrite IH, upd_length, nth_upd.
  destruct (Nat.eqb_spec i c) as [->|Hne]; simpl.
  - destruct (existsb (Nat.eqb c) C); simpl;
      destruct (c <? length v); reflexivity.
  - reflexivity.
Qed.

Section DepthFrac.
Variable K : nat.
Variable adj : Matrix.
Hypothesis V : valid_adj K adj.

Let adj0 := fill_diagonal adj 0%Z.



End DepthFrac.

(* ================================================================== *)
(** ** The proposal step ([tree_sampler._generate_new_sample]) *)

Definition obind {A B} (m : option A) (f : A -> option B) : option B :=
  match m with Some a => f a | None => None end.

Notation "'let?' x ':=' m 'in' k" := (obind m (fun x => k))
  (at level 10, x pattern, m at level 100, k at level 200).

(** [stacked[mode]] for the two-row array [np.vstack((arr1, arr2))]. *)
Definition stacked_row (stacked : list npfloat * list npfloat) (mode : nat)
  : option (list npfloat) :=
  match mode with
  | 0 => Some (fst stacked)
  | 1 => Some (snd stacked)
  | _ => None
  end.

Section Proposal.
Variable Rng : Type.
(** [np.random.choice(len(W), p=W)]. *)
Variable rand_choice : list npfloat -> Rng -> nat * Rng.
(** [hparams.gamma]; the module is not among the source files. *)
Variable gamma : R.
(** The closures [__calc_phi] and [__calc_llh_phi] of [_run_chain], built on
    the external frequency fitter. *)
Variable calc_phi : Matrix -> list (list R).
Variable calc_llh_phi : Matrix -> list (list R) -> R.

Definition _sample_cat (W : list npfloat) (g : Rng) : option (nat * Rng) :=
  if negb (sample_cat_pre W) then None else
  let (choice, g') := rand_choice W g in
  if fgt (nth choice W NaN) (Fin 0%R) then Some (choice, g') else None.

Definition _generate_new_sample (fuel : nat) (old_samp : TS.t)
    (data_logmutrel : Mutrel npfloat) (g : Rng)
  : option ((TS.t * npfloat * npfloat) * Rng) :=
  let mode_weights := [Fin gamma; Fin (1 - gamma)%R] in
  let? (mode, g) := _sample_cat mode_weights g in
  let? (W_nodes_stacked_old, W_nodes_old) :=
    _make_W_nodes_combined fuel (TS.adj old_samp) data_logmutrel
                           gamma (1 - gamma)%R in
  let? row := stacked_row W_nodes_stacked_old mode in
  let? (B, g) := _sample_cat row g in
  let? old_parent := _find_parent B (TS.adj old_samp) in
  let? (W_dests_stacked_old, W_dests_old) :=
    _make_W_dests_combined fuel B old_parent (TS.adj old_samp)
      (TS.anc old_samp) (TS.depth_frac old_samp) data_logmutrel
      gamma (1 - gamma)%R in
  let? row := stacked_row W_dests_stacked_old mode in
  let? (A, g) := _sample_cat row g in
  let? new_adj := _modify_tree (TS.adj old_samp) (TS.anc old_samp) A B in
  let? new_parent := _find_parent B new_adj in
  let? new_anc := make_ancestral_from_adj fuel new_adj in
  let? new_depth_frac := _calc_depth_frac fuel new_adj in
  let new_phi := calc_phi new_adj in
  let new_samp :=
    TS.mk new_adj new_anc new_depth_frac new_phi
          (calc_llh_phi new_adj new_phi) in
  let? (_, W_nodes_new) :=
    _make_W_nodes_combined fuel (TS.adj new_samp) data_logmutrel
                           gamma (1 - gamma)%R in
  let? (_, W_dests_new) :=
    _make_W_dests_combined fuel B new_parent (TS.adj new_samp)
      (TS.anc new_samp) (TS.depth_frac new_samp) data_logmutrel
      gamma (1 - gamma)%R in
  let log_p_new_given_old :=
    fadd (flog (nth B W_nodes_old NaN)) (flog (nth A W_dests_old NaN)) in
  let log_p_old_given_new :=
    fadd (flog (nth B W_nodes_new NaN))
         (flog (nth old_parent W_dests_new NaN)) in
  Some ((new_samp, log_p_new_given_old, log_p_old_given_new), g).
End Proposal.

(* ------------------------------------------------------------------ *)
(** *** Facts used by the proposal step *)

(** A tree on two nodes is the root with its single child. *)
Lemma valid_adj_two adj :
  valid_adj 2 adj -> adj = [[1; 1]; [0; 1]]%Z.
Proof.
  intros V. destruct (va_square _ _ V) as [HL HR].
  destruct adj as [|r0 [|r1 [|]]]; try discriminate.
  assert (L0 : length r0 = 2) by (apply (HR 0); lia).
  assert (L1 : length r1 = 2) by (apply (HR 1); lia).
  destruct r0 as [|a [|b [|]]]; try discriminate.
  destruct r1 as [|c [|d [|]]]; try discriminate.
  pose proof (va_diag _ _ V 0 ltac:(lia)) as D0.
  pose proof (va_diag _ _ V 1 ltac:(lia)) as D1.
  pose proof (va_root_col _ _ V) as R1.
  destruct (parent_exists_unique _ _ V 1 ltac:(lia)) as (p & [Hne E] & _).
  assert (Hp : p < 2).
  { apply (edge_range _ _ V p 1). split; assumption. }
  assert (p = 0) by lia. subst p.
  unfold mget, get_row in D0, D1, E. simpl in D0, D1, E.
  unfold get_col, zsum in R1. cbn in R1. subst a b d.
  assert (c = 0)%Z by lia. now subst c.
Qed.

Lemma find_parent_two adj B p :
  valid_adj 2 adj -> _find_parent B adj = Some p -> B = 1 /\ p = 0.
Proof.
  intros V. rewrite (valid_adj_two adj V).
  destruct B as [|[|B]]; unfold _find_parent; simpl.
  - discriminate.
  - intros [= <-]. auto.
  - destruct B; simpl; discriminate.
Qed.





Section SampleCat.
Variable Rng : Type.
Variable rand_choice : list npfloat -> Rng -> nat * Rng.
(** [np.random.choice] returns an index of positive probability. *)
Hypothesis choice_positive : forall W g,
  sample_cat_pre W = true ->
  fgt (nth (fst (rand_choice W g)) W NaN) (Fin 0%R) = true.

Lemma sample_cat_ok W g :
  sample_cat_pre W = true ->
  _sample_cat Rng rand_choice W g = Some (rand_choice W g) /\
  fgt (nth (fst (rand_choice W g)) W NaN) (Fin 0%R) = true.
Proof.
  intros H. pose proof (choice_positive W g H) as P.
  unfold _sample_cat. rewrite H. cbn [negb].
  destruct (rand_choice W g) as [c g']. cbn [fst] in P. now rewrite P.
Qed.
End SampleCat.

Lemma sample_cat_inv Rng rand_choice W g c g' :
  _sample_cat Rng rand_choice W g = Some (c, g') ->
  sample_cat_pre W = true /\ fgt (nth c W NaN) (Fin 0%R) = true /\
  rand_choice W g = (c, g').
Proof.
  unfold _sample_cat. destruct (sample_cat_pre W); [|discriminate].
  cbn [negb]. destruct (rand_choice W g) as [c0 g0].
  destruct (fgt (nth c0 W NaN) (Fin 0%R)) eqn:E; [|discriminate].
  intros [= <- <-]. auto.
Qed.

(** With two nodes no proposal can be generated. *)
Lemma generate_new_sample_two Rng rand_choice gamma calc_phi calc_llh_phi
    fuel old_samp data g :
  valid_adj 2 (TS.adj old_samp) ->
  _generate_new_sample Rng rand_choice gamma calc_phi calc_llh_phi
                       fuel old_samp data g = None.
Proof.
  intros V. unfold _generate_new_sample.
  destruct (_sample_cat _ _ _ g) as [[mode g1]|]; [|reflexivity].
  cbn [obind].
  destruct (_make_W_nodes_combined _ _ _ _ _) as [[st w]|]; [|reflexivity].
  cbn [obind].
  destruct (stacked_row st mode) as [row|]; [|reflexivity]. cbn [obind].
  destruct (_sample_cat _ _ row g1) as [[B g2]|]; [|reflexivity].
  cbn [obind].
  destruct (_find_parent B (TS.adj old_samp)) as [p|] eqn:EP; [|reflexivity].
  cbn [obind]. destruct (find_parent_two _ _ _ V EP) as [-> ->].
  rewrite W_dests_combined_two; [reflexivity|].
  now destruct (va_square _ _ V).
Qed.




Section GenerateOk.
Variable Rng : Type.
Variable rand_choice : list npfloat -> Rng -> nat * Rng.
Variable gamma : R.
Variable calc_phi : Matrix -> list (list R).
Variable calc_llh_phi : Matrix -> list (list R) -> R.
Hypothesis choice_positive : forall W g,
  sample_cat_pre W = true ->
  fgt (nth (fst (rand_choice W g)) W NaN) (Fin 0%R) = true.
Hypothesis Hgamma : (0 <= gamma <= 1)%R.

Variable K : nat.
Variable old_samp : TS.t.
Variable data : Mutrel npfloat.
Hypothesis V : valid_adj K (TS.adj old_samp).
Hypothesis HAnc : ancestry_of K (TS.adj old_samp) (TS.anc old_samp).
Hypothesis WF : wf_logmutrel (K - 1) data.
Hypothesis HK : 3 <= K.

End GenerateOk.

(* ================================================================== *)
(** ** A four-node instance

    The root with three children, and log-relation data on the three
    clusters in which every off-diagonal cell holds the logs of the
    probabilities 1/2, 1/4 and 1/4 of the three valid relations. *)

Definition star4 : Matrix :=
  [[1; 1; 1; 1]; [0; 1; 0; 0]; [0; 0; 1; 0]; [0; 0; 0; 1]]%Z.
Definition star4_anc : Matrix :=
  [[1; 1; 1; 1]; [0; 1; 0; 0]; [0; 0; 1; 0]; [0; 0; 0; 1]]%Z.

Definition log_half : R := ln (1 / 2).
Definition log_quarter : R := ln (1 / 4).

(** Cells in the order garbage, cocluster, A_B, B_A, diff_branches. *)
Definition cell_same : list npfloat := [NInf; Fin 0%R; NInf; NInf; NInf].
Definition cell_AB : list npfloat :=
  [NInf; NInf; Fin log_half; Fin log_quarter; Fin log_quarter].
Definition cell_BA : list npfloat :=
  [NInf; NInf; Fin log_quarter; Fin log_half; Fin log_quarter].
Definition cell_diff : list npfloat :=
  [NInf; NInf; Fin log_quarter; Fin log_quarter; Fin log_half].

(** Clusters 1 and 3 are most likely ancestor and descendant; the other two
    pairs are most likely on different branches. *)
Definition star4_logmutrel : Mutrel npfloat :=
  mkMutrel [0; 1; 2]
    [[cell_same; cell_diff; cell_AB];
     [cell_diff; cell_same; cell_diff];
     [cell_BA;   cell_diff; cell_same]].

Lemma log_quarter_lt_half : (log_quarter < log_half)%R.
Proof. unfold log_quarter, log_half. apply ln_increasing; lra. Qed.

Lemma log_half_neg : (log_half < 0)%R.
Proof.
  unfold log_half. rewrite <- ln_1. apply ln_increasing; lra.
Qed.

Lemma star4_valid : valid_adj 4 star4.
Proof. apply valid_adjb_sound. reflexivity. Qed.

Lemma star4_ancestry : ancestry_of 4 star4 star4_anc.
Proof.
  apply (ancestry_of_computed 4 star4 star4_anc 4 star4_valid);
    [lia|reflexivity].
Qed.

Lemma star4_wf : wf_logmutrel (4 - 1) star4_logmutrel.
Proof.
  pose proof log_quarter_lt_half. pose proof log_half_neg.
  split; [|split; [reflexivity|]].
  - split; [reflexivity|]. intros a Ha.
    split; [destruct a as [|[|[|a]]]; try reflexivity; lia|].
    intros b Hb.
    destruct a as [|[|[|a]]]; try lia;
      destruct b as [|[|[|b]]]; try lia; reflexivity.
  - intros a b Ha Hb.
    destruct a as [|[|[|a]]]; try lia;
      destruct b as [|[|[|b]]]; try lia;
      (split; [reflexivity|]); (split; [|split; reflexivity]);
      intros Hne m Hm; try congruence;
      destruct Hm as [<-|[<-|[<-|[]]]];
      (eexists; split; [reflexivity|lra]).
Qed.

(** The trees obtained from [star4] by attaching node 3 under node 1 and
    under node 2. *)
Definition star4_under1 : Matrix :=
  [[1; 1; 1; 0]; [0; 1; 0; 1]; [0; 0; 1; 0]; [0; 0; 0; 1]]%Z.
Definition star4_under2 : Matrix :=
  [[1; 1; 1; 0]; [0; 1; 0; 0]; [0; 0; 1; 1]; [0; 0; 0; 1]]%Z.

Lemma modify_star4_under1 :
  _modify_tree star4 star4_anc 1 3 = Some star4_under1.
Proof. reflexivity. Qed.

Lemma modify_star4_under2 :
  _modify_tree star4 star4_anc 2 3 = Some star4_under2.
Proof. reflexivity. Qed.

Ltac decide_reals :=
  repeat match goal with
  | |- context [Req_dec_T ?a ?b] =>
      destruct (Req_dec_T a b) as [_|N]; [|exfalso; apply N; reflexivity]
  | |- context [Rle_dec ?a ?b] =>
      destruct (Rle_dec a b) as [_|N]; [|exfalso; apply N; lra]
  end.

Ltac eval_score :=
  cbv - [Req_dec_T Rle_dec Rlt_dec IZR Rplus Rmult Ropp Rminus Rdiv Rinv
         ln exp log_half log_quarter].

Lemma score_star4_under1 :
  exists T,
    _calc_tree_logmutrel 4 star4_under1 star4_logmutrel = Some T /\
    triu_sum T = Fin (log_half + log_half + log_half)%R.
Proof.
  pose proof log_quarter_lt_half. pose proof log_half_neg.
  eexists. split.
  - eval_score. decide_reals. reflexivity.
  - eval_score. f_equal. ring.
Qed.

Lemma score_star4_under2 :
  exists T,
    _calc_tree_logmutrel 4 star4_under2 star4_logmutrel = Some T /\
    triu_sum T = Fin (log_quarter + log_half + log_quarter)%R.
Proof.
  pose proof log_quarter_lt_half. pose proof log_half_neg.
  eexists. split.
  - eval_score. decide_reals. reflexivity.
  - eval_score. f_equal. ring.
Qed.

(** C1: the informed destination weights do not score the hypothetical
    trees. For every valid tree with at least three nodes, every subtree
    head [head > 0] with parent [parent] and well-formed log-relation data,
    the log-weight [_make_W_dests_mutrel] records for each candidate
    destination [d] outside [{head, parent}] is the upper-triangular sum of
    the score matrix of the tree [adj] it was given (the tree
    [_modify_tree adj anc d head] is computed and not scored), so the
    returned vector, zero at [head] and [parent] and summing to one, gives
    every candidate destination the same weight, whatever the scores of the
    hypothetical trees. *)
Theorem informed_dest_weights_score_current_tree :
  forall K adj anc data head parent fuel depth_frac,
    valid_adj K adj -> ancestry_of K adj anc -> wf_logmutrel (K - 1) data ->
    0 < head < K -> edge adj parent head -> K <= fuel -> 3 <= K ->
    exists w T lw,
      _calc_tree_logmutrel fuel adj data = Some T /\
      logweights_loop fuel head parent adj anc data (seq 0 K)
                      (repeat NInf K) = Some lw /\
      (forall d, d < K -> dest_masked head parent d = false ->
         nth d lw NaN = triu_sum T) /\
      _make_W_dests_mutrel fuel head parent adj anc depth_frac data = Some w /\
      is_dist K (dest_masked head parent) w /\
      forall d d', d < K -> d' < K ->
        dest_masked head parent d = false ->
        dest_masked head parent d' = false ->
        nth d w NaN = nth d' w NaN.
Proof.
  intros K adj anc data head parent fuel depth_frac V HAnc WF Hh Hp Hf HK.
  destruct (calc_tree_logmutrel_ok K adj data V WF fuel Hf) as (T & HT & _).
  destruct (logweights_loop_ok K adj anc data head parent V HAnc Hh
              fuel T (seq 0 K) Hf HT) with (lw := repeat NInf K)
    as (lw & Hlw & HL & Hn).
  { intros d Hd. apply in_seq in Hd. lia. }
  destruct (W_dests_mutrel_dist K adj anc data head parent V HAnc WF Hh Hp
              fuel depth_frac Hf HK) as (w & c & Hw & Dw & Hc).
  exists w, T, lw.
  refine (conj HT (conj Hlw (conj _ (conj Hw (conj Dw _))))).
  - intros d Hd Hm. rewrite Hn, Hm, repeat_length.
    assert (M : mem d (seq 0 K) = true).
    { unfold mem. apply existsb_exists. exists d. split.
      - apply in_seq. lia.
      - apply Nat.eqb_refl. }
    apply Nat.ltb_lt in Hd. now rewrite M, Hd.
  - intros d d' Hd Hd' Hm Hm'. now rewrite (Hc d), (Hc d').
Qed.

Lemma informed_dest_weights_score_current_tree_witness :
  exists w T1 T2 s1 s2,
    _make_W_dests_mutrel 4 3 0 star4 star4_anc
      [Fin 0%R; Fin 1%R; Fin 1%R; Fin 1%R] star4_logmutrel = Some w /\
    nth 1 w NaN = nth 2 w NaN /\
    option_map (fun new_adj => _calc_tree_logmutrel 4 new_adj star4_logmutrel)
               (_modify_tree star4 star4_anc 1 3) = Some (Some T1) /\
    option_map (fun new_adj => _calc_tree_logmutrel 4 new_adj star4_logmutrel)
               (_modify_tree star4 star4_anc 2 3) = Some (Some T2) /\
    triu_sum T1 = Fin s1 /\ triu_sum T2 = Fin s2 /\ s1 <> s2.
Proof.
  destruct (informed_dest_weights_score_current_tree 4 star4 star4_anc
              star4_logmutrel 3 0 4 [Fin 0%R; Fin 1%R; Fin 1%R; Fin 1%R]
              star4_valid star4_ancestry star4_wf)
    as (w & _ & _ & _ & _ & _ & Hw & _ & Heq).
  - lia.
  - split; [discriminate|reflexivity].
  - lia.
  - lia.
  - destruct score_star4_under1 as (T1 & E1 & S1).
    destruct score_star4_under2 as (T2 & E2 & S2).
    exists w, T1, T2, (log_half + log_half + log_half)%R,
      (log_quarter + log_half + log_quarter)%R.
    split; [exact Hw|]. split; [apply Heq; auto; lia|].
    rewrite modify_star4_under1, modify_star4_under2. simpl.
    rewrite E1, E2. repeat split; auto.
    pose proof log_quarter_lt_half. lra.
Defined.

(** C10: on a valid tree with at least three nodes, with well-formed
    log-relation data and a mixture weight in [0, 1], each of the six
    weight vectors of the proposal engine (uniform, informed and mixed, for
    node and for destination selection) has finite nonnegative entries that
    sum to one, is exactly zero at its masked indices (the root for nodes,
    the subtree head and its parent for destinations) and positive
    elsewhere, so it passes the assertions of [_sample_cat] on its weights,
    and the index [_sample_cat] draws from it is returned with a positive
    weight. On a tree of two nodes the only head is node 1 with parent 0,
    both destination weights are masked to zero, the uniform destination
    weights are [nan] after the division by the zero sum, the combined
    destination weights fail their assertions, and no proposal is
    generated. *)
Theorem proposal_weights_are_distributions :
  forall K adj anc data gamma fuel head parent depth_frac,
    valid_adj K adj -> ancestry_of K adj anc -> wf_logmutrel (K - 1) data ->
    (0 <= gamma <= 1)%R -> K <= fuel ->
    0 < head < K -> edge adj parent head ->
    (3 <= K ->
     exists nu nm nw du dm dw,
       _make_W_nodes_uniform adj = nu /\
       _make_W_nodes_mutrel fuel adj data = Some nm /\
       _make_W_nodes_combined fuel adj data gamma (1 - gamma)%R =
         Some ((nu, nm), nw) /\
       _make_W_dests_uniform head parent adj = du /\
       _make_W_dests_mutrel fuel head parent adj anc depth_frac data =
         Some dm /\
       _make_W_dests_combined fuel head parent adj anc depth_frac data
                              gamma (1 - gamma)%R = Some ((du, dm), dw) /\
       Forall (fun w => is_dist K (fun i => Nat.eqb i 0) w /\
                        sample_cat_pre w = true) [nu; nm; nw] /\
       Forall (fun w => is_dist K (dest_masked head parent) w /\
                        sample_cat_pre w = true) [du; dm; dw] /\
       forall Rng (rand_choice : list npfloat -> Rng -> nat * Rng),
         (forall W g, sample_cat_pre W = true ->
            fgt (nth (fst (rand_choice W g)) W NaN) (Fin 0%R) = true) ->
         forall w g, In w [nu; nm; nw; du; dm; dw] ->
           exists c g', _sample_cat Rng rand_choice w g = Some (c, g') /\
                        c < K /\ fgt (nth c w NaN) (Fin 0%R) = true) /\
    (K = 2 ->
     head = 1 /\ parent = 0 /\
     upd parent (Fin 0%R) (upd head (Fin 0%R) (repeat (Fin 1%R) (length adj)))
       = [Fin 0%R; Fin 0%R] /\
     _make_W_dests_uniform head parent adj = [NaN; NaN] /\
     _make_W_dests_combined fuel head parent adj anc depth_frac data
                            gamma (1 - gamma)%R = None /\
     forall Rng rand_choice calc_phi calc_llh_phi old_samp g,
       TS.adj old_samp = adj ->
       _generate_new_sample Rng rand_choice gamma calc_phi calc_llh_phi
                            fuel old_samp data g = None).
Proof.
  intros K adj anc data gamma fuel head parent depth_frac
         V HAnc WF Hg Hf Hh Hp.
  split.
  - intros HK.
    assert (Hc1 : (0 <= gamma)%R) by lra.
    assert (Hc2 : (0 <= 1 - gamma)%R) by lra.
    assert (Hc12 : (gamma + (1 - gamma) = 1)%R) by ring.
    destruct (W_nodes_combined_ok K adj data gamma (1 - gamma)%R V WF HK
                Hc1 Hc2 Hc12 fuel Hf)
      as (nu & nm & nw & Ew & Eu & Em & Du & Dm & Dw & _).
    destruct (W_dests_combined_ok K adj anc data gamma (1 - gamma)%R V HAnc
                WF HK Hc1 Hc2 Hc12 fuel head parent depth_frac Hf Hh Hp)
      as (du & dm & dw & Ed & Edu & Edm & Ddu & Ddm & Ddw & _).
    exists nu, nm, nw, du, dm, dw.
    pose proof (is_dist_sample_cat_pre _ _ _ Du) as Pu.
    pose proof (is_dist_sample_cat_pre _ _ _ Dm) as Pm.
    pose proof (is_dist_sample_cat_pre _ _ _ Dw) as Pw.
    pose proof (is_dist_sample_cat_pre _ _ _ Ddu) as Pdu.
    pose proof (is_dist_sample_cat_pre _ _ _ Ddm) as Pdm.
    pose proof (is_dist_sample_cat_pre _ _ _ Ddw) as Pdw.
    refine (conj (eq_sym Eu) (conj Em (conj Ew (conj (eq_sym Edu)
             (conj Edm (conj Ed (conj _ (conj _ _)))))))).
    + repeat constructor; assumption.
    + repeat constructor; assumption.
    + intros Rng rand_choice Hc w g Hin.
      assert (Hw : sample_cat_pre w = true /\ length w = K).
      { cbn [In] in Hin.
        destruct Hin as [<-|[<-|[<-|[<-|[<-|[<-|[]]]]]]]; split;
          try assumption; eapply is_dist_length; eassumption. }
      destruct Hw as [Hpre HL].
      destruct (sample_cat_ok Rng rand_choice Hc w g Hpre) as [E Hpos].
      destruct (rand_choice w g) as [c g'] eqn:Ec. cbn [fst] in Hpos.
      exists c, g'. split; [exact E|]. split; [|exact Hpos].
      destruct (Nat.lt_ge_cases c K) as [Hlt|Hge]; [assumption|].
      rewrite nth_overflow in Hpos by lia. discriminate.
  - intros ->.
    assert (Hh1 : head = 1) by lia. subst head.
    assert (parent = 0).
    { destruct (edge_range _ _ V _ _ Hp) as [HpK _].
      destruct Hp as [Hne _]. lia. }
    subst parent.
    destruct (va_square _ _ V) as [HL _].
    refine (conj eq_refl (conj eq_refl (conj _ (conj _ (conj _ _))))).
    + rewrite HL. reflexivity.
    + now apply W_dests_uniform_two.
    + now apply W_dests_combined_two.
    + intros Rng rand_choice calc_phi calc_llh_phi old_samp g E.
      apply generate_new_sample_two. now rewrite E.
Qed.

(** The root with its single child, and log-relation data on one cluster. *)
Definition pair2 : Matrix := [[1; 1]; [0; 1]]%Z.
Definition single_logmutrel : Mutrel npfloat := mkMutrel [0] [[cell_same]].

Lemma pair2_valid : valid_adj 2 pair2.
Proof. apply valid_adjb_sound. reflexivity. Qed.

Lemma pair2_ancestry : ancestry_of 2 pair2 pair2.
Proof.
  apply (ancestry_of_computed 2 pair2 pair2 2 pair2_valid); [lia|reflexivity].
Qed.

Lemma single_wf : wf_logmutrel (2 - 1) single_logmutrel.
Proof.
  split; [|split; [reflexivity|]].
  - split; [reflexivity|]. intros a Ha.
    assert (a = 0) by lia. subst a. split; [reflexivity|].
    intros b Hb. assert (b = 0) by lia. subst b. reflexivity.
  - intros a b Ha Hb. assert (a = 0) by lia. assert (b = 0) by lia. subst.
    split; [reflexivity|]. split; [|split; reflexivity].
    intros Hne. congruence.
Qed.

Lemma proposal_weights_are_distributions_witness :
  (exists nw dw,
     option_map snd (_make_W_nodes_combined 4 star4 star4_logmutrel
                       (1 / 2) (1 - 1 / 2)) = Some nw /\
     option_map snd (_make_W_dests_combined 4 3 0 star4 star4_anc
                       [Fin 0%R; Fin 1%R; Fin 1%R; Fin 1%R] star4_logmutrel
                       (1 / 2) (1 - 1 / 2)) = Some dw /\
     is_dist 4 (fun i => Nat.eqb i 0) nw /\
     is_dist 4 (dest_masked 3 0) dw) /\
  _make_W_dests_uniform 1 0 pair2 = [NaN; NaN] /\
  _make_W_dests_combined 2 1 0 pair2 pair2 [Fin 0%R; Fin 1%R]
                         single_logmutrel (1 / 2) (1 - 1 / 2) = None.
Proof.
  assert (Hg : (0 <= 1 / 2 <= 1)%R) by lra.
  assert (E4 : edge star4 0 3) by (split; [discriminate|reflexivity]).
  assert (E2 : edge pair2 0 1) by (split; [discriminate|reflexivity]).
  split.
  - destruct (proposal_weights_are_distributions 4 star4 star4_anc
                star4_logmutrel (1 / 2) 4 3 0
                [Fin 0%R; Fin 1%R; Fin 1%R; Fin 1%R]
                star4_valid star4_ancestry star4_wf Hg
                (le_n 4) (conj (Nat.lt_0_succ 2) (le_n 4)) E4) as [H3 _].
    destruct (H3 ltac:(lia))
      as (nu & nm & nw & du & dm & dw & _ & _ & En & _ & _ & Ed & Fn & Fd & _).
    exists nw, dw. rewrite En, Ed.
    inversion Fn as [|? ? _ Fn1]. inversion Fn1 as [|? ? _ Fn2].
    inversion Fn2 as [|? ? [Dn _] _].
    inversion Fd as [|? ? _ Fd1]. inversion Fd1 as [|? ? _ Fd2].
    inversion Fd2 as [|? ? [Dd _] _].
    repeat split; assumption.
  - destruct (proposal_weights_are_distributions 2 pair2 pair2
                single_logmutrel (1 / 2) 2 1 0 [Fin 0%R; Fin 1%R]
                pair2_valid pair2_ancestry single_wf Hg
                (le_n 2) (conj (Nat.lt_0_succ 0) (le_n 2)) E2) as [_ H2].
    destruct (H2 eq_refl) as (_ & _ & _ & Hu & Hc & _).
    split; assumption.
Defined.



(* ------------------------------------------------------------------ *)
(** *** A concrete generator

    The state counts the draws; a categorical draw returns the first index
    of positive weight and a uniform draw returns 1/2. *)

Fixpoint first_positive (W : list npfloat) : nat :=
  match W with
  | [] => 0
  | w :: W' => if fgt w (Fin 0%R) then 0 else S (first_positive W')
  end.

Definition count_choice (W : list npfloat) (g : nat) : nat * nat :=
  (first_positive W, S g).

Lemma fadd_zero_l a : fadd (Fin 0%R) a = a.
Proof. destruct a; simpl; try reflexivity. now rewrite Rplus_0_l. Qed.

Lemma first_positive_ok W :
  sample_cat_pre W = true ->
  fgt (nth (first_positive W) W NaN) (Fin 0%R) = true.
Proof.
  unfold sample_cat_pre. intros H. apply andb_true_iff in H as [Hn Hs].
  induction W as [|w W IH].
  - exfalso. simpl in Hs.
    destruct (Rle_dec _ _) as [L|]; [|discriminate].
    rewrite Rabs_R0 in L.
    replace (1 - 0)%R with 1%R in L by ring. rewrite Rabs_R1 in L. lra.
  - cbn [first_positive]. destruct (fgt w (Fin 0%R)) eqn:Ew; [exact Ew|].
    cbn [nth]. cbn [forallb] in Hn. apply andb_true_iff in Hn as [Hw Hn].
    apply IH; [exact Hn|].
    assert (w = Fin 0%R).
    { destruct w as [| | |x]; try discriminate. simpl in Hw, Ew.
      destruct (Rle_dec 0 x); [|discriminate].
      destruct (Rlt_dec 0 x); [discriminate|]. f_equal. lra. }
    subst w. cbn [fsum fold_right] in Hs. now rewrite fadd_zero_l in Hs.
Qed.

Lemma count_choice_positive W (g : nat) :
  sample_cat_pre W = true ->
  fgt (nth (fst (count_choice W g)) W NaN) (Fin 0%R) = true.
Proof. apply first_positive_ok. Qed.




(* ------------------------------------------------------------------ *)
(** *** Reconstruction of a topologically sorted tree *)

Lemma eye_square K : is_square K (eye K).
Proof.
  unfold eye. split.
  - now rewrite length_map, length_seq.
  - intros i Hi. unfold get_row.
    rewrite (nth_indep _ [] (map (fun j => if Nat.eqb 0 j then 1%Z else 0%Z)
                                  (seq 0 K)))
      by (rewrite length_map, length_seq; lia).
    rewrite (map_nth (fun i => map (fun j => if Nat.eqb i j then 1%Z else 0%Z)
                                   (seq 0 K)) (seq 0 K) 0 i).
    now rewrite length_map, length_seq.
Qed.

Lemma mget_eye K i j :
  i < K -> j < K -> mget (eye K) i j = if Nat.eqb i j then 1%Z else 0%Z.
Proof.
  intros Hi Hj. unfold mget, get_row, eye.
  rewrite (nth_indep _ [] (map (fun j => if Nat.eqb 0 j then 1%Z else 0%Z)
                                (seq 0 K)))
    by (rewrite length_map, length_seq; lia).
  rewrite (map_nth (fun i => map (fun j => if Nat.eqb i j then 1%Z else 0%Z)
                                 (seq 0 K)) (seq 0 K) 0 i).
  rewrite seq_nth by lia. cbn [Nat.add].
  rewrite (nth_indep _ 0%Z (if Nat.eqb i 0 then 1%Z else 0%Z))
    by (rewrite length_map, length_seq; lia).
  rewrite (map_nth (fun j => if Nat.eqb i j then 1%Z else 0%Z) (seq 0 K) 0 j).
  now rewrite seq_nth by lia.
Qed.

Section Reconstruct.
Import TreeBuilder.
Variable N : nat.
Variable adj : Matrix.
Variable relations : Relations.
Hypothesis V : valid_adj N adj.
(** Every parent has a smaller index than its child. *)
Hypothesis Htopo : forall i j, edge adj i j -> i < j.
(** Below the diagonal the relations are those of the tree. *)
Hypothesis Hanc : forall I J, J < I < N -> panc adj J I ->
  rel_at relations I J = B_A.
Hypothesis Hdiff : forall I J, J < I < N -> ~ panc adj J I ->
  rel_at relations I J = diff_branches.

Lemma topo_path n i j : path adj n i j -> i + n <= j.
Proof.
  induction 1 as [i|n i j k P IH E]; [lia|].
  pose proof (Htopo _ _ E). lia.
Qed.

Lemma topo_panc i j : panc adj i j -> i < j.
Proof. intros [n P]. apply topo_path in P. lia. Qed.

Lemma parent_largest p I J :
  edge adj p I -> p < J -> ~ panc adj J I.
Proof.
  intros E HpJ H. apply (panc_via_parent _ _ V J p I E) in H.
  apply reach_cases in H as [->|H]; [lia|].
  apply topo_panc in H. lia.
Qed.

Lemma place_node_skip I Js Js' M placed :
  (forall J, In J Js -> rel_at relations I J = diff_branches) ->
  place_node relations I (Js ++ Js') M placed =
  place_node relations I Js' M placed.
Proof.
  induction Js as [|J Js IH]; intros H; [reflexivity|].
  cbn [app place_node]. rewrite (H J) by now left.
  apply IH. intros J' HJ'. apply H. now right.
Qed.

Lemma place_node_placed I Js M :
  (forall J, In J Js -> placeable (rel_at relations I J) = true) ->
  place_node relations I Js M true = Some M.
Proof.
  induction Js as [|J Js IH]; intros H; [reflexivity|].
  cbn [place_node]. pose proof (H J (or_introl eq_refl)) as HJ.
  assert (IH' : place_node relations I Js M true = Some M)
    by (apply IH; intros J' HJ'; apply H; now right).
  destruct (rel_at relations I J); try discriminate; exact IH'.
Qed.

Lemma below_placeable I J :
  J < I < N -> placeable (rel_at relations I J) = true.
Proof.
  intros H. destruct (panc_decidable N adj J I V) as [P|P].
  - now rewrite (Hanc I J H P).
  - now rewrite (Hdiff I J H P).
Qed.

(** The inner loop attaches a node to its parent in the tree. *)
Lemma place_node_parent I p M :
  I < N -> edge adj p I ->
  place_node relations I (rev (seq 0 I)) M false = Some (mset M p I 1%Z).
Proof.
  intros HI E. pose proof (Htopo _ _ E) as HpI.
  assert (Hs : seq 0 I = seq 0 p ++ [p] ++ seq (S p) (I - S p)).
  { replace I with (p + (1 + (I - S p))) at 1 by lia.
    rewrite seq_app, seq_app. cbn [Nat.add seq].
    now rewrite Nat.add_1_r. }
  rewrite Hs, !rev_app_distr, <- app_assoc.
  rewrite place_node_skip.
  - cbn [rev app place_node].
    rewrite (Hanc I p) by
      first [lia | exists 0; eapply path_snoc; [apply path_nil|exact E]].
    apply place_node_placed. intros J HJ.
    rewrite <- in_rev in HJ. apply in_seq in HJ.
    apply below_placeable. lia.
  - intros J HJ. rewrite <- in_rev in HJ. apply in_seq in HJ.
    apply Hdiff; [lia|]. apply (parent_largest p); [exact E|lia].
Qed.

(** The matrix after the nodes below [I] were placed. *)
Definition placed_below (I : nat) (M : Matrix) : Prop :=
  is_square N M /\
  forall i j, i < N -> j < N ->
    mget M i j =
    if Nat.eqb i j then 1%Z
    else if j <? I then mget adj i j else 0%Z.

Lemma placed_below_step I M p :
  0 < I < N -> edge adj p I -> placed_below I M ->
  placed_below (S I) (mset M p I 1%Z).
Proof.
  intros HI E [HS H]. pose proof (Htopo _ _ E) as HpI.
  split; [now apply mset_square|].
  intros i j Hi Hj. rewrite (mget_mset N) by (auto; lia).
  rewrite (H i j Hi Hj).
  destruct (Nat.eqb_spec i p) as [->|Hip];
    destruct (Nat.eqb_spec j I) as [->|HjI]; cbn [andb].
  - destruct (Nat.eqb_spec p I); [lia|].
    destruct (Nat.ltb_spec I (S I)); [|lia]. symmetry. apply E.
  - destruct (Nat.eqb_spec p j); [reflexivity|].
    destruct (Nat.ltb_spec j I), (Nat.ltb_spec j (S I)); try lia; reflexivity.
  - destruct (Nat.eqb_spec i I); [reflexivity|].
    destruct (Nat.ltb_spec I I); [lia|].
    destruct (Nat.ltb_spec I (S I)); [|lia].
    destruct (va_binary _ _ V i I Hi Hj) as [Z0|Z1]; [now rewrite Z0|].
    exfalso. apply Hip.
    apply (parent_unique _ _ V i p I); [split; assumption|exact E].
  - destruct (Nat.eqb_spec i j); [reflexivity|].
    destruct (Nat.ltb_spec j I), (Nat.ltb_spec j (S I)); try lia; reflexivity.
Qed.

Lemma place_all_reconstruct n : forall I M,
  I + n = N -> 0 < I -> placed_below I M ->
  exists M', place_all relations (seq I n) M = Built M' /\ placed_below N M'.
Proof.
  induction n as [|n IH]; intros I M HIn HI HM.
  - exists M. split; [reflexivity|]. now replace N with I by lia.
  - cbn [seq place_all].
    destruct (parent_exists_unique _ _ V I ltac:(lia)) as (p & E & _).
    rewrite (place_node_parent I p M ltac:(lia) E).
    apply IH; [lia|lia|].
    apply placed_below_step; auto. lia.
Qed.

Lemma placed_below_init :
  2 <= N -> placed_below 2 (mset (eye N) 0 1 1%Z).
Proof.
  intros HN. pose proof (eye_square N) as HS.
  split; [now apply mset_square|].
  intros i j Hi Hj. rewrite (mget_mset N) by (auto; lia).
  rewrite mget_eye by assumption.
  destruct (parent_exists_unique _ _ V 1 ltac:(lia)) as (p & E & Hu).
  pose proof (Htopo _ _ E) as Hp. assert (p = 0) by lia. subst p.
  destruct (Nat.eqb_spec i j) as [->|Hij].
  - destruct (Nat.eqb_spec j 0) as [->|]; cbn [andb]; reflexivity.
  - destruct (Nat.ltb_spec j 2) as [Hj2|Hj2].
    + destruct (va_binary _ _ V i j Hi Hj) as [Z0|Z1].
      * rewrite Z0.
        destruct (Nat.eqb_spec i 0) as [->|]; cbn [andb]; [|reflexivity].
        destruct (Nat.eqb_spec j 1) as [->|]; [|reflexivity].
        destruct E as [_ E]. congruence.
      * assert (Eij : edge adj i j) by (split; assumption).
        rewrite Z1.
        assert (j = 1).
        { destruct j as [|[|j]]; [|reflexivity|lia].
          exfalso. apply (root_no_parent _ _ V i Eij). }
        subst j. rewrite (Hu i Eij). reflexivity.
    + destruct (Nat.eqb_spec j 1); [lia|]. now rewrite andb_false_r.
Qed.

(** On the relation matrix of a topologically sorted tree [make_adj]
    returns the adjacency matrix of that tree. *)
Lemma make_adj_reconstructs :
  2 <= N -> length relations = N ->
  (forall r, In r relations -> length r = N) ->
  make_adj relations = Built adj.
Proof.
  intros HN HL Hrows. unfold make_adj. rewrite HL.
  assert (Hshape : forallb (fun r => length r =? N) relations = true).
  { apply forallb_forall. intros r Hr. apply Nat.eqb_eq, Hrows, Hr. }
  rewrite Hshape. cbn [negb].
  destruct (Nat.ltb_spec N 2) as [|_]; [lia|].
  destruct (parent_exists_unique _ _ V 1 ltac:(lia)) as (p & E & _).
  pose proof (Htopo _ _ E) as Hp. assert (p = 0) by lia. subst p.
  rewrite (Hanc 1 0) by
    first [lia | exists 0; eapply path_snoc; [apply path_nil|exact E]].
  cbn [Models_eqb negb].
  destruct (place_all_reconstruct (N - 2) 2 (mset (eye N) 0 1 1%Z))
    as (M' & -> & [HS' H']); [lia|lia|now apply placed_below_init|].
  f_equal. apply (matrix_ext N); [exact HS'|apply (va_square _ _ V)|].
  intros i j Hi Hj. rewrite (H' i j Hi Hj).
  destruct (Nat.eqb_spec i j) as [->|]; [symmetry; now apply (va_diag _ _ V)|].
  apply Nat.ltb_lt in Hj. now rewrite Hj.
Qed.
End Reconstruct.

(* ------------------------------------------------------------------ *)
(** *** The log transform produces well-formed data *)

Lemma ln_ratio_nonpos p :
  (0 <= p <= 1)%R -> (ln ((p + alpha) / (1 + 3 * alpha)) <= 0)%R.
Proof.
  intros [H0 H1]. assert (Ha : (0 < alpha)%R) by (unfold alpha; lra).
  rewrite <- ln_1.
  assert (Hr : (0 < (p + alpha) / (1 + 3 * alpha) <= 1)%R).
  { split.
    - apply Rdiv_lt_0_compat; lra.
    - apply (Rmult_le_reg_r (1 + 3 * alpha)%R); [lra|].
      unfold Rdiv. rewrite Rmult_assoc, Rinv_l by lra. lra. }
  destruct Hr as [Hpos [Hlt|Heq]]; [|rewrite Heq; lra].
  left. now apply ln_increasing.
Qed.

(** On a relation model over the clusters [0 .. K-1] whose off-diagonal
    pairs have all their mass on the valid classes and whose entries for
    (a, b) and (b, a) mirror each other, [_make_data_logmutrel] returns
    data that the scoring functions accept. *)
Lemma make_data_logmutrel_wf K (mutrel : Mutrel R) :
  mutrel_shape K (rels mutrel) -> vids mutrel = seq 0 K ->
  (forall a b m, a < K -> b < K -> (0 <= prob (rels mutrel) a b m)%R) ->
  (forall a b, a < K -> b < K -> a <> b ->
     (prob (rels mutrel) a b A_B + prob (rels mutrel) a b B_A +
      prob (rels mutrel) a b diff_branches = 1)%R) ->
  (forall a b, a < K -> b < K ->
     prob (rels mutrel) a b A_B = prob (rels mutrel) b a B_A /\
     prob (rels mutrel) a b diff_branches =
       prob (rels mutrel) b a diff_branches) ->
  exists data,
    _make_data_logmutrel mutrel = Some data /\ wf_logmutrel K data.
Proof.
  intros Sh Hv Hnn Hone Hsym.
  exists (mkMutrel (vids mutrel) (logrels_of (rels mutrel))).
  split; [now apply (make_data_logmutrel_total K)|].
  assert (Hoff : forall a b, a < K -> b < K -> a <> b ->
            cell3 NaN (logrels_of (rels mutrel)) a b =
            [NInf; NInf;
             Fin (ln ((prob (rels mutrel) a b A_B + alpha) / (1 + 3 * alpha)));
             Fin (ln ((prob (rels mutrel) a b B_A + alpha) / (1 + 3 * alpha)));
             Fin (ln ((prob (rels mutrel) a b diff_branches + alpha) /
                      (1 + 3 * alpha)))]).
  { intros a b Ha Hb Hne. rewrite (cell3_logrels K) by assumption.
    pose proof (Hnn a b A_B Ha Hb) as H1.
    pose proof (Hnn a b B_A Ha Hb) as H2.
    pose proof (Hnn a b diff_branches Ha Hb) as H3.
    destruct (cell_five K (rels mutrel) 0%R a b Sh Ha Hb)
      as (g & c & ab & ba & d & E).
    unfold prob, class_at in *. rewrite E in *. simpl in H1, H2, H3.
    now rewrite cell_logrel_offdiag. }
  assert (Hdiag : forall a, a < K ->
            cell3 NaN (logrels_of (rels mutrel)) a a =
            [NInf; Fin 0%R; NInf; NInf; NInf]).
  { intros a Ha. rewrite (cell3_logrels K) by assumption.
    destruct (cell_five K (rels mutrel) 0%R a a Sh Ha Ha)
      as (g & c & ab & ba & d & E).
    rewrite E. apply cell_logrel_diag. }
  split; [now apply logrels_shape|]. split; [exact Hv|].
  intros a b Ha Hb. cbn [rels]. unfold logp.
  split; [now rewrite Hdiag|].
  destruct (Nat.eq_dec a b) as [->|Hne].
  - rewrite Hdiag by assumption. split; [congruence|]. split; reflexivity.
  - rewrite (Hoff a b), (Hoff b a) by auto.
    destruct (Hsym a b Ha Hb) as [S1 S2].
    split; [|unfold class_at; simpl; rewrite S1, S2; split; reflexivity].
    intros _ m Hm.
    pose proof (Hnn a b A_B Ha Hb) as H1.
    pose proof (Hnn a b B_A Ha Hb) as H2.
    pose proof (Hnn a b diff_branches Ha Hb) as H3.
    pose proof (Hone a b Ha Hb Hne) as H4.
    destruct Hm as [<-|[<-|[<-|[]]]]; unfold class_at; simpl;
      (eexists; split; [reflexivity|apply ln_ratio_nonpos; lra]).
Qed.

(* ================================================================== *)
(** * Further properties

    Properties of the functions around the proposal engine: the tree
    builder, the tree validator, the parent lookups, the tree
    initialisations, the depth fractions and the leaf ordering of
    [common]. *)

(** A matrix in which every non-root node has exactly one parent, of
    smaller index, is a valid tree. *)
Lemma valid_adj_of_smaller_parents K (R : Matrix) :
  0 < K -> is_square K R ->
  (forall i j, i < K -> j < K -> mget R i j = 0%Z \/ mget R i j = 1%Z) ->
  (forall i, i < K -> mget R i i = 1%Z) ->
  (forall i, i < K -> i <> 0 -> mget R i 0 = 0%Z) ->
  (forall j, 0 < j < K ->
     exists p, p < j /\
       forall i, i < K -> i <> j -> (mget R i j = 1%Z <-> i = p)) ->
  valid_adj K R.
Proof.
  intros HK HS Hb Hd H0 Hp.
  apply valid_adj_of_parents; auto.
  - intros j Hj. destruct (Hp j Hj) as (p & Hpj & H).
    exists p. repeat split; try lia; apply H; auto.
  - intros j. induction j as [j IH] using lt_wf_ind. intros Hj.
    destruct (Nat.eq_dec j 0) as [->|Hne]; [apply reach_refl|].
    destruct (Hp j ltac:(lia)) as (p & Hpj & H).
    apply (reach_trans _ _ p); [apply IH; lia|].
    apply reach_edge. split; [lia|]. apply H; auto; lia.
Qed.

Section BuilderOutcome.
Import TreeBuilder.
Variable relations : Relations.
Let N := length relations.
Hypothesis Hrows : forall r, In r relations -> length r = N.

(** The node the inner loop attaches [I] to: the largest [J < I] whose
    relation to [I] is [B_A]. *)
Definition first_BA (relations : Relations) (I : nat) : option nat :=
  find (fun J => Models_eqb (rel_at relations I J) B_A) (rev (seq 0 I)).

Lemma place_node_placed_any I Js M :
  (forall J, In J Js -> placeable (rel_at relations I J) = true) ->
  place_node relations I Js M true = Some M.
Proof.
  induction Js as [|J Js IH]; intros H; [reflexivity|].
  cbn [place_node]. pose proof (H J (or_introl eq_refl)) as HJ.
  assert (IH' : place_node relations I Js M true = Some M)
    by (apply IH; intros J' HJ'; apply H; now right).
  destruct (rel_at relations I J); try discriminate; exact IH'.
Qed.

Lemma place_node_find I Js M :
  (forall J, In J Js -> placeable (rel_at relations I J) = true) ->
  place_node relations I Js M false =
  Some match find (fun J => Models_eqb (rel_at relations I J) B_A) Js with
       | Some J => mset M J I 1%Z
       | None => M
       end.
Proof.
  induction Js as [|J Js IH]; intros H; [reflexivity|].
  cbn [place_node find]. pose proof (H J (or_introl eq_refl)) as HJ.
  assert (Hrest : forall J', In J' Js ->
                    placeable (rel_at relations I J') = true)
    by (intros J' HJ'; apply H; now right).
  destruct (rel_at relations I J); try discriminate; cbn [Models_eqb].
  - now apply place_node_placed_any.
  - now apply IH.
Qed.

Lemma first_BA_Some I p :
  first_BA relations I = Some p -> p < I /\ rel_at relations I p = B_A.
Proof.
  unfold first_BA. intros H. apply find_some in H as [Hin E].
  rewrite <- in_rev in Hin. apply in_seq in Hin. split; [lia|].
  now destruct (Models_eqb_spec (rel_at relations I p) B_A).
Qed.

Lemma first_BA_None I :
  first_BA relations I = None ->
  forall J, J < I -> rel_at relations I J <> B_A.
Proof.
  unfold first_BA. intros H J HJ E.
  assert (Hin : In J (rev (seq 0 I)))
    by (rewrite <- in_rev; apply in_seq; lia).
  pose proof (find_none _ _ H J Hin) as F. cbv beta in F.
  rewrite E in F. discriminate F.
Qed.

(** The entries of the matrix [make_adj] builds. *)
Definition built_entry (relations : Relations) (i j : nat) : Z :=
  if Nat.eqb i j then 1%Z
  else if Nat.eqb j 0 then 0%Z
  else if Nat.eqb j 1 then (if Nat.eqb i 0 then 1%Z else 0%Z)
  else match first_BA relations j with
       | Some p => if Nat.eqb i p then 1%Z else 0%Z
       | None => 0%Z
       end.

(** The matrix once the nodes below [I] have gone through the loop. *)
Definition built_below (I : nat) (M : Matrix) : Prop :=
  is_square N M /\
  forall i j, i < N -> j < N ->
    mget M i j = if j <? I then built_entry relations i j
                 else if Nat.eqb i j then 1%Z else 0%Z.

Lemma built_below_init : 2 <= N -> built_below 2 (mset (eye N) 0 1 1%Z).
Proof.
  intros HN. pose proof (eye_square N) as HS.
  split; [now apply mset_square|].
  intros i j Hi Hj. rewrite (mget_mset N) by (auto; lia).
  rewrite mget_eye by assumption. unfold built_entry.
  destruct (Nat.ltb_spec j 2) as [Hj2|Hj2].
  - destruct j as [|[|j]]; [| |lia].
    + rewrite andb_false_r. destruct (Nat.eqb i 0); reflexivity.
    + rewrite andb_true_r. cbn [Nat.eqb].
      destruct (Nat.eqb_spec i 0) as [->|]; [reflexivity|].
      destruct (Nat.eqb i 1); reflexivity.
  - destruct (Nat.eqb_spec j 1); [lia|]. now rewrite andb_false_r.
Qed.

Lemma built_below_step I M M' :
  2 <= I < N -> built_below I M ->
  place_node relations I (rev (seq 0 I)) M false = Some M' ->
  built_below (S I) M'.
Proof.
  intros HI [HS H] HP.
  assert (Hpl : forall J, In J (rev (seq 0 I)) ->
                  placeable (rel_at relations I J) = true).
  { intros J HJ.
    destruct (placeable (rel_at relations I J)) eqn:E; [reflexivity|].
    assert (HN' : place_node relations I (rev (seq 0 I)) M false = None)
      by (apply place_node_raises; eauto).
    congruence. }
  rewrite (place_node_find I _ M Hpl) in HP. injection HP as <-.
  fold (first_BA relations I).
  destruct (first_BA relations I) as [p|] eqn:Ep.
  - destruct (first_BA_Some I p Ep) as [HpI _].
    split; [now apply mset_square|].
    intros i j Hi Hj. rewrite (mget_mset N) by (auto; lia).
    rewrite (H i j Hi Hj).
    destruct (Nat.eqb_spec j I) as [->|HjI].
    + destruct (Nat.ltb_spec I I); [lia|].
      destruct (Nat.ltb_spec I (S I)); [|lia].
      unfold built_entry. rewrite Ep.
      destruct (Nat.eqb_spec I 0); [lia|]. destruct (Nat.eqb_spec I 1); [lia|].
      destruct (Nat.eqb_spec i p) as [->|]; cbn [andb].
      * destruct (Nat.eqb_spec p I); [lia|reflexivity].
      * reflexivity.
    + rewrite andb_false_r.
      destruct (Nat.ltb_spec j I), (Nat.ltb_spec j (S I)); try lia;
        reflexivity.
  - split; [exact HS|].
    intros i j Hi Hj. rewrite (H i j Hi Hj).
    destruct (Nat.eqb_spec j I) as [->|HjI].
    + destruct (Nat.ltb_spec I I); [lia|].
      destruct (Nat.ltb_spec I (S I)); [|lia].
      unfold built_entry. rewrite Ep.
      destruct (Nat.eqb_spec I 0); [lia|]. destruct (Nat.eqb_spec I 1); [lia|].
      reflexivity.
    + destruct (Nat.ltb_spec j I), (Nat.ltb_spec j (S I)); try lia;
        reflexivity.
Qed.

Lemma place_all_built n : forall I M M',
  I + n = N -> 2 <= I -> built_below I M ->
  place_all relations (seq I n) M = Built M' -> built_below N M'.
Proof.
  induction n as [|n IH]; intros I M M' HIn HI HM HP.
  - cbn in HP. injection HP as <-. now replace N with I by lia.
  - cbn [seq place_all] in HP.
    destruct (place_node relations I (rev (seq 0 I)) M false) as [M1|] eqn:E;
      [|discriminate].
    apply (IH (S I) M1 M'); [lia|lia| |exact HP].
    apply (built_below_step I M); auto. lia.
Qed.

Lemma make_adj_entries adj :
  make_adj relations = Built adj ->
  2 <= N /\ is_square N adj /\
  forall i j, i < N -> j < N -> mget adj i j = built_entry relations i j.
Proof.
  unfold make_adj. fold N.
  destruct (forallb (fun r => length r =? N) relations); [|discriminate].
  cbn [negb]. destruct (Nat.ltb_spec N 2) as [|HN]; [discriminate|].
  destruct (Models_eqb (rel_at relations 1 0) B_A); [|discriminate].
  cbn [negb]. intros H. split; [exact HN|].
  destruct (place_all_built (N - 2) 2 _ adj ltac:(lia) (le_n 2)
              (built_below_init HN) H) as [HS HE].
  split; [exact HS|]. intros i j Hi Hj. rewrite (HE i j Hi Hj).
  apply Nat.ltb_lt in Hj. now rewrite Hj.
Qed.
End BuilderOutcome.

(** The relations of the three-node chain 0 -> 1 -> 2. *)
Definition chain3_relations : TreeBuilder.Relations :=
  [[cocluster; A_B; A_B]; [B_A; cocluster; A_B]; [B_A; B_A; cocluster]].

Lemma rows_of_three (r0 r1 r2 : list Models) :
  length r0 = 3 -> length r1 = 3 -> length r2 = 3 ->
  forall r, In r [r0; r1; r2] -> length r = 3.
Proof. intros H0 H1 H2 r [<-|[<-|[<-|[]]]]; assumption. Qed.

(** X1: the outcome of [make_adj] on an N x N relation array. With fewer
    than two nodes the lookup of [relations[1,0]] is out of range. With at
    least two nodes the builder raises [CannotBuildTreeException] exactly
    when node 1 is not marked a descendant of node 0 or some entry below
    the diagonal is neither [B_A] nor [diff_branches]; in every other case
    it returns an N x N matrix with unit diagonal in which node 1 hangs
    off node 0 and each later node [I] hangs off the largest [J < I] with
    [relations[I][J] = B_A], if there is one, and has no parent
    otherwise. *)
Theorem make_adj_outcome :
  forall relations : TreeBuilder.Relations,
    let N := length relations in
    (forall r, In r relations -> length r = N) ->
    (N < 2 -> TreeBuilder.make_adj relations = TreeBuilder.IndexError) /\
    (2 <= N ->
     (TreeBuilder.make_adj relations = TreeBuilder.CannotBuildTreeException <->
      TreeBuilder.rel_at relations 1 0 <> B_A \/
      exists I J, J < I < N /\
        TreeBuilder.placeable (TreeBuilder.rel_at relations I J) = false) /\
     (TreeBuilder.make_adj relations <> TreeBuilder.CannotBuildTreeException ->
      exists adj,
        TreeBuilder.make_adj relations = TreeBuilder.Built adj /\
        is_square N adj /\
        forall i j, i < N -> j < N ->
          mget adj i j = built_entry relations i j)).
Proof.
  intros relations N Hrows.
  assert (Hshape : forallb (fun r => length r =? N) relations = true).
  { apply forallb_forall. intros r Hr. apply Nat.eqb_eq, Hrows, Hr. }
  split.
  - intros HN. unfold TreeBuilder.make_adj. fold N. rewrite Hshape.
    cbn [negb]. apply Nat.ltb_lt in HN. now rewrite HN.
  - intros HN. split.
    + apply TreeBuilder.make_adj_raises; [exact HN|].
      intros I HI. apply Hrows. apply nth_In. exact HI.
    + intros Hno.
      destruct (TreeBuilder.make_adj relations) as [adj| | |] eqn:E.
      * exists adj. split; [reflexivity|].
        destruct (make_adj_entries relations adj E) as (_ & HS & HE).
        split; assumption.
      * congruence.
      * exfalso. revert E. unfold TreeBuilder.make_adj. fold N.
        rewrite Hshape. cbn [negb].
        destruct (N <? 2); [discriminate|].
        destruct (negb _); [discriminate|].
        apply TreeBuilder.place_all_never_fails_otherwise.
      * exfalso. revert E. unfold TreeBuilder.make_adj. fold N.
        rewrite Hshape. cbn [negb].
        destruct (Nat.ltb_spec N 2); [lia|].
        destruct (negb _); [discriminate|].
        apply TreeBuilder.place_all_never_fails_otherwise.
Qed.

Lemma make_adj_outcome_witness :
  TreeBuilder.make_adj chain3_relations <> TreeBuilder.CannotBuildTreeException /\
  exists adj,
    TreeBuilder.make_adj chain3_relations = TreeBuilder.Built adj /\
    is_square 3 adj /\
    forall i j, i < 3 -> j < 3 ->
      mget adj i j = built_entry chain3_relations i j.
Proof.
  assert (Hno : TreeBuilder.make_adj chain3_relations <>
                TreeBuilder.CannotBuildTreeException) by discriminate.
  split; [exact Hno|].
  assert (Hr : forall r, In r chain3_relations -> length r = 3)
    by (apply rows_of_three; reflexivity).
  destruct (make_adj_outcome chain3_relations Hr) as [_ H].
  destruct (H (le_S _ _ (le_n 2))) as [_ Hb]. exact (Hb Hno).
Defined.

(** X2: when [make_adj] returns, the matrix is a valid tree (unit
    diagonal, one parent per non-root node, every node reachable from node
    0) exactly when every node [I >= 2] has some [J < I] with
    [relations[I][J] = B_A]; a node whose relations below the diagonal are
    all [diff_branches] is left without a parent. *)
Theorem make_adj_valid_iff :
  forall (relations : TreeBuilder.Relations) adj,
    TreeBuilder.make_adj relations = TreeBuilder.Built adj ->
    (valid_adj (length relations) adj <->
     forall I, 2 <= I < length relations ->
       exists J, J < I /\ TreeBuilder.rel_at relations I J = B_A).
Proof.
  intros relations adj E.
  destruct (make_adj_entries relations adj E) as (HN & HS & HE).
  set (N := length relations) in *.
  split.
  - intros V I HI.
    destruct (parent_exists_unique _ _ V I ltac:(lia)) as (p & Ep & _).
    destruct (edge_range _ _ V _ _ Ep) as [HpN _].
    destruct Ep as [Hne E1]. rewrite HE in E1 by lia.
    unfold built_entry in E1.
    destruct (Nat.eqb_spec p I); [contradiction|].
    destruct (Nat.eqb_spec I 0); [lia|]. destruct (Nat.eqb_spec I 1); [lia|].
    destruct (first_BA relations I) as [q|] eqn:Eq; [|discriminate].
    exists q. now apply first_BA_Some.
  - intros Hall.
    assert (Hb : forall i j, i < N -> j < N ->
                   mget adj i j = 0%Z \/ mget adj i j = 1%Z).
    { intros i j Hi Hj. rewrite HE by assumption. unfold built_entry.
      destruct (Nat.eqb i j); auto. destruct (Nat.eqb j 0); auto.
      destruct (Nat.eqb j 1); [destruct (Nat.eqb i 0); auto|].
      destruct (first_BA relations j); auto. destruct (Nat.eqb i n); auto. }
    apply valid_adj_of_smaller_parents; auto; try lia.
    + intros i Hi. rewrite HE by assumption. unfold built_entry.
      now rewrite Nat.eqb_refl.
    + intros i Hi Hne. rewrite HE by lia. unfold built_entry.
      destruct (Nat.eqb_spec i 0); [contradiction|reflexivity].
    + intros j Hj. destruct (Nat.eq_dec j 1) as [->|Hj1].
      * exists 0. split; [lia|]. intros i Hi Hne. rewrite HE by lia.
        unfold built_entry. destruct (Nat.eqb_spec i 1); [contradiction|].
        cbn [Nat.eqb]. destruct (Nat.eqb_spec i 0); split; intros; auto;
          try discriminate; contradiction.
      * destruct (Hall j ltac:(lia)) as (J & HJ & EJ).
        destruct (first_BA relations j) as [p|] eqn:Ep.
        -- destruct (first_BA_Some relations j p Ep) as [Hpj _].
           exists p. split; [exact Hpj|]. intros i Hi Hne.
           rewrite HE by lia. unfold built_entry. rewrite Ep.
           destruct (Nat.eqb_spec i j); [contradiction|].
           destruct (Nat.eqb_spec j 0); [lia|].
           destruct (Nat.eqb_spec j 1); [contradiction|].
           destruct (Nat.eqb_spec i p); split; intros; auto;
             try discriminate; contradiction.
        -- exfalso. exact (first_BA_None relations j Ep J HJ EJ).
Qed.

Lemma make_adj_valid_iff_witness :
  valid_adj 3 chain3 <->
  forall I, 2 <= I < 3 ->
    exists J, J < I /\ TreeBuilder.rel_at chain3_relations I J = B_A.
Proof.
  apply (make_adj_valid_iff chain3_relations chain3). reflexivity.
Defined.

Lemma tree_rel_cases K adj x y m :
  valid_adj K adj -> tree_rel adj x y m ->
  (m = cocluster <-> x = y) /\
  (m = A_B <-> panc adj x y) /\
  (m = B_A <-> panc adj y x) /\
  (m = diff_branches <-> x <> y /\ ~ panc adj x y /\ ~ panc adj y x) /\
  m <> garbage.
Proof.
  intros V H.
  assert (Irr : forall z, ~ panc adj z z) by apply (panc_irrefl _ _ V).
  assert (Asym : forall a b, panc adj a b -> ~ panc adj b a)
    by apply (panc_asym _ _ V).
  destruct H as [[-> ->]|[(Hne & P & ->)|[(Hne & P & ->)|(Hne & P1 & P2 & ->)]]].
  - repeat split; try discriminate; try tauto;
      try (intros P; exfalso; exact (Irr _ P)).
  - repeat split; try discriminate; try tauto; intros H;
      try (exfalso; subst; exact (Irr _ P));
      exfalso; exact (Asym _ _ P H).
  - repeat split; try discriminate; try tauto; intros H;
      try (exfalso; subst; exact (Irr _ P));
      exfalso; exact (Asym _ _ P H).
  - repeat split; try discriminate; try tauto; intros H;
      try contradiction; exfalso; subst; contradiction.
Qed.

(** X3: on a valid tree [_determine_node_rels] passes its assertions and
    returns a K x K array that classifies every pair of nodes: [cocluster]
    exactly on the diagonal, [A_B] exactly when the row node is a proper
    ancestor of the column node, [B_A] exactly when it is a proper
    descendant, and [diff_branches] exactly when neither is an ancestor of
    the other; no pair is [garbage]. *)
Theorem determine_node_rels_classifies :
  forall K adj fuel,
    valid_adj K adj -> K <= fuel ->
    exists nr,
      _determine_node_rels fuel adj = Some nr /\
      rel_square K nr /\
      forall x y, x < K -> y < K ->
        (rget nr x y = cocluster <-> x = y) /\
        (rget nr x y = A_B <-> panc adj x y) /\
        (rget nr x y = B_A <-> panc adj y x) /\
        (rget nr x y = diff_branches <->
           x <> y /\ ~ panc adj x y /\ ~ panc adj y x) /\
        rget nr x y <> garbage.
Proof.
  intros K adj fuel V Hf.
  destruct (determine_node_rels_ok K adj V fuel Hf) as (nr & E & HS & H).
  exists nr. split; [exact E|]. split; [exact HS|].
  intros x y Hx Hy. apply (tree_rel_cases K adj); auto.
Qed.

Lemma determine_node_rels_classifies_witness :
  exists nr,
    _determine_node_rels 3 unsorted3 = Some nr /\
    rel_square 3 nr /\
    forall x y, x < 3 -> y < 3 ->
      (rget nr x y = cocluster <-> x = y) /\
      (rget nr x y = A_B <-> panc unsorted3 x y) /\
      (rget nr x y = B_A <-> panc unsorted3 y x) /\
      (rget nr x y = diff_branches <->
         x <> y /\ ~ panc unsorted3 x y /\ ~ panc unsorted3 y x) /\
      rget nr x y <> garbage.
Proof.
  apply (determine_node_rels_classifies 3 unsorted3 3).
  - apply valid_adjb_sound. reflexivity.
  - lia.
Defined.

Lemma chain3_topo i j : edge chain3 i j -> i < j.
Proof.
  intros E.
  assert (V : valid_adj 3 chain3) by (apply valid_adjb_sound; reflexivity).
  destruct (edge_range _ _ V _ _ E) as [Hi Hj]. destruct E as [Hne E].
  destruct i as [|[|[|i]]]; destruct j as [|[|[|j]]]; try lia;
    try discriminate E; congruence.
Qed.

(** X4: the tree builder inverts the relation traversal. For a valid tree
    with at least two nodes in which every parent has a smaller index than
    its children, [make_adj] applied to the array [_determine_node_rels]
    returns gives back the adjacency matrix. *)
Theorem make_adj_inverts_determine_node_rels :
  forall K adj fuel,
    valid_adj K adj -> 2 <= K -> K <= fuel ->
    (forall i j, edge adj i j -> i < j) ->
    exists nr,
      _determine_node_rels fuel adj = Some nr /\
      TreeBuilder.make_adj nr = TreeBuilder.Built adj.
Proof.
  intros K adj fuel V HK Hf Htopo.
  destruct (determine_node_rels_ok K adj V fuel Hf) as (nr & E & [HL HR] & H).
  exists nr. split; [exact E|].
  apply (make_adj_reconstructs K adj nr V Htopo); auto.
  - intros I J HIJ P.
    destruct (tree_rel_cases K adj I J _ V (H I J ltac:(lia) ltac:(lia)))
      as (_ & _ & HB & _).
    apply HB, P.
  - intros I J HIJ NP.
    destruct (tree_rel_cases K adj I J _ V (H I J ltac:(lia) ltac:(lia)))
      as (_ & _ & _ & HD & _).
    apply HD. split; [lia|]. split; [|exact NP].
    intros P. apply (topo_panc adj Htopo) in P. lia.
  - intros r Hr. destruct (In_nth _ _ [] Hr) as (i & Hi & <-).
    apply HR. lia.
Qed.

Lemma make_adj_inverts_determine_node_rels_witness :
  exists nr,
    _determine_node_rels 3 chain3 = Some nr /\
    TreeBuilder.make_adj nr = TreeBuilder.Built chain3.
Proof.
  apply (make_adj_inverts_determine_node_rels 3 chain3 3).
  - apply valid_adjb_sound. reflexivity.
  - lia.
  - lia.
  - exact chain3_topo.
Defined.

(* ------------------------------------------------------------------ *)
(** ** Parent lookups ([tree_sampler._find_parent], [_find_parents]) *)

(** [np.argmax] of a non-empty vector: the first index of its maximum. *)
Fixpoint argmax_aux (l : list Z) (i best : nat) (bv : Z) : nat :=
  match l with
  | [] => best
  | y :: l' =>
      if (bv <? y)%Z then argmax_aux l' (S i) i y
      else argmax_aux l' (S i) best bv
  end.

Definition argmax (l : list Z) : nat :=
  match l with
  | [] => 0
  | x :: l' => argmax_aux l' 1 0 x
  end.

(** [np.argmax(adj[:,1:], axis=0)] on the copy with zeroed diagonal; the
    reduction of an empty axis raises. *)
Definition _find_parents (adj : Matrix) : option (list nat) :=
  let K := length adj in
  let adj0 := fill_diagonal adj 0%Z in
  if K =? 0 then None
  else Some (map (fun j => argmax (get_col adj0 j)) (seq 1 (K - 1))).

Lemma argmax_aux_spec l : forall pre best bv,
  best < length pre -> nth best pre 0%Z = bv ->
  (forall k, k < length pre -> (nth k pre 0 <= bv)%Z) ->
  (forall k, k < best -> (nth k pre 0 < bv)%Z) ->
  let r := argmax_aux l (length pre) best bv in
  let all := pre ++ l in
  r < length all /\
  (forall k, k < length all -> (nth k all 0 <= nth r all 0)%Z) /\
  (forall k, k < r -> (nth k all 0 < nth r all 0)%Z).
Proof.
  induction l as [|y l IH]; intros pre best bv Hb Hv Hmax Hfirst; cbn zeta.
  - cbn [argmax_aux]. rewrite app_nil_r, Hv. auto.
  - cbn [argmax_aux].
    replace (pre ++ y :: l) with ((pre ++ [y]) ++ l)
      by (now rewrite <- app_assoc).
    replace (S (length pre)) with (length (pre ++ [y]))
      by (rewrite length_app; simpl; lia).
    destruct (Z.ltb_spec bv y) as [Hlt|Hge].
    + apply IH.
      * rewrite length_app. simpl. lia.
      * rewrite app_nth2, Nat.sub_diag by lia. reflexivity.
      * intros k Hk. rewrite length_app in Hk. simpl in Hk.
        destruct (Nat.lt_ge_cases k (length pre)) as [Hk'|Hk'].
        -- rewrite app_nth1 by lia. specialize (Hmax k Hk'). lia.
        -- replace k with (length pre) by lia.
           rewrite app_nth2, Nat.sub_diag by lia. simpl. lia.
      * intros k Hk. rewrite app_nth1 by lia. specialize (Hmax k Hk). lia.
    + apply IH.
      * rewrite length_app. simpl. lia.
      * rewrite app_nth1 by lia. exact Hv.
      * intros k Hk. rewrite length_app in Hk. simpl in Hk.
        destruct (Nat.lt_ge_cases k (length pre)) as [Hk'|Hk'].
        -- rewrite app_nth1 by lia. now apply Hmax.
        -- replace k with (length pre) by lia.
           rewrite app_nth2, Nat.sub_diag by lia. simpl. lia.
      * intros k Hk. rewrite app_nth1 by lia. now apply Hfirst.
Qed.

Lemma argmax_spec l :
  l <> [] ->
  argmax l < length l /\
  (forall k, k < length l -> (nth k l 0 <= nth (argmax l) l 0)%Z) /\
  (forall k, k < argmax l -> (nth k l 0 < nth (argmax l) l 0)%Z).
Proof.
  destruct l as [|x l]; [congruence|]. intros _.
  apply (argmax_aux_spec l [x] 0 x); simpl; auto; try lia.
  intros [|k] Hk; [lia|simpl in Hk; lia].
Qed.

Lemma flatnonzero_nil l :
  (forall i, i < length l -> nth i l 0%Z = 0%Z) -> flatnonzero l = [].
Proof.
  intros H. destruct (flatnonzero l) as [|a r] eqn:E; [reflexivity|].
  assert (Hin : In a (flatnonzero l)) by (rewrite E; now left).
  apply flatnonzero_In in Hin as [Ha Hnz]. now rewrite H in Hnz.
Qed.

(** X5: [_find_parent] on a valid tree. For a non-root node it returns the
    node's parent, the only node with an edge to it; for the root, which
    has no parent, and for an index outside the tree the lookup fails. *)
Theorem find_parent_unique_parent :
  forall K adj,
    valid_adj K adj ->
    (forall j, 0 < j < K ->
       exists p, _find_parent j adj = Some p /\ edge adj p j /\
                 forall q, edge adj q j -> q = p) /\
    _find_parent 0 adj = None /\
    (forall j, K <= j -> _find_parent j adj = None).
Proof.
  intros K adj V. destruct (va_square _ _ V) as [HL HR].
  split; [|split].
  - intros j Hj. destruct (find_parent_ok K adj j V Hj) as (p & E & Ed).
    exists p. split; [exact E|]. split; [exact Ed|].
    intros q Eq. apply (parent_unique _ _ V q p j Eq Ed).
  - unfold _find_parent. rewrite flatnonzero_nil; [reflexivity|].
    intros i Hi. rewrite upd_length, get_col_length, HL in Hi.
    rewrite nth_upd, get_col_length, HL, nth_get_col.
    destruct (Nat.eqb_spec i 0) as [->|Hne].
    + pose proof (va_pos _ _ V) as HK. apply Nat.ltb_lt in HK.
      now rewrite HK.
    + cbn [andb].
      destruct (va_binary _ _ V i 0 Hi (va_pos _ _ V)) as [Z0|Z1];
        [exact Z0|].
      exfalso. apply (root_no_parent _ _ V i). split; assumption.
  - intros j Hj. unfold _find_parent. rewrite flatnonzero_nil; [reflexivity|].
    intros i Hi. rewrite upd_length, get_col_length, HL in Hi.
    rewrite nth_upd, get_col_length, HL, nth_get_col.
    destruct (Nat.ltb_spec j K); [lia|]. rewrite andb_false_r.
    unfold mget. apply nth_overflow. rewrite (HR i Hi). exact Hj.
Qed.

Lemma find_parent_unique_parent_witness :
  _find_parent 1 unsorted3 = Some 2 /\ _find_parent 2 unsorted3 = Some 0 /\
  _find_parent 0 unsorted3 = None /\ _find_parent 3 unsorted3 = None.
Proof.
  assert (V : valid_adj 3 unsorted3) by (apply valid_adjb_sound; reflexivity).
  destruct (find_parent_unique_parent 3 unsorted3 V) as (_ & H0 & H3).
  split; [reflexivity|]. split; [reflexivity|].
  split; [exact H0|apply H3; lia].
Defined.

(** X6: [_find_parents] on a valid tree returns, for the nodes 1 .. K-1 in
    order, the parent [_find_parent] finds for each of them. *)
Theorem find_parents_agree :
  forall K adj,
    valid_adj K adj ->
    exists ps,
      _find_parents adj = Some ps /\ length ps = K - 1 /\
      forall j, 0 < j < K ->
        _find_parent j adj = Some (nth (j - 1) ps 0) /\
        edge adj (nth (j - 1) ps 0) j.
Proof.
  intros K adj V. destruct (va_square _ _ V) as [HL HR].
  pose proof (va_pos _ _ V) as HK.
  unfold _find_parents. rewrite HL.
  destruct (Nat.eqb_spec K 0); [lia|].
  eexists. split; [reflexivity|]. split; [now rewrite length_map, length_seq|].
  intros j Hj.
  rewrite (nth_indep _ 0 (argmax (get_col (fill_diagonal adj 0%Z) 0)))
    by (rewrite length_map, length_seq; lia).
  rewrite (map_nth (fun j => argmax (get_col (fill_diagonal adj 0%Z) j))).
  rewrite seq_nth by lia. replace (1 + (j - 1)) with j by lia.
  set (col := get_col (fill_diagonal adj 0%Z) j).
  assert (Hlen : length col = K).
  { unfold col. rewrite get_col_length. unfold fill_diagonal, mapi.
    rewrite length_map, length_combine, length_seq. lia. }
  assert (Hcol : forall i, i < K ->
            nth i col 0%Z = if Nat.eqb i j then 0%Z else mget adj i j).
  { intros i Hi. unfold col. rewrite nth_get_col.
    apply (mget_fill_diagonal K); [split; assumption|lia|lia]. }
  destruct (find_parent_ok K adj j V Hj) as (p & Ep & Ed).
  destruct (edge_range _ _ V _ _ Ed) as [HpK _].
  destruct (argmax_spec col) as (Hr & Hmax & _).
  { intros E. rewrite E in Hlen. simpl in Hlen. lia. }
  rewrite Hlen in Hr, Hmax.
  pose proof (Hmax p HpK) as Hp. rewrite (Hcol p HpK), (Hcol _ Hr) in Hp.
  destruct Ed as [Hpj E1].
  destruct (Nat.eqb_spec p j); [contradiction|]. rewrite E1 in Hp.
  destruct (Nat.eqb_spec (argmax col) j) as [|Hrj]; [lia|].
  assert (Er : edge adj (argmax col) j).
  { split; [exact Hrj|].
    destruct (va_binary _ _ V (argmax col) j Hr ltac:(lia)); lia. }
  rewrite (parent_unique _ _ V _ p j Er (conj Hpj E1)).
  split; [exact Ep|]. split; assumption.
Qed.

Lemma find_parents_agree_witness :
  exists ps,
    _find_parents unsorted3 = Some ps /\ length ps = 3 - 1 /\
    forall j, 0 < j < 3 ->
      _find_parent j unsorted3 = Some (nth (j - 1) ps 0) /\
      edge unsorted3 (nth (j - 1) ps 0) j.
Proof.
  apply (find_parents_agree 3 unsorted3).
  apply valid_adjb_sound. reflexivity.
Defined.

(* ------------------------------------------------------------------ *)
(** ** What [_modify_tree] returns, and how its moves are undone *)

Lemma swap_idx_sym a b i : swap_idx b a i = swap_idx a b i.
Proof.
  unfold swap_idx.
  destruct (Nat.eqb_spec i a), (Nat.eqb_spec i b); subst; reflexivity.
Qed.

(** X7: what [_modify_tree] returns on a valid tree, for [A <> B] and
    [B] not the root. When [B] is not an ancestor of [A] the result differs
    from [adj] only in column [B], whose single off-diagonal 1 is in row
    [A]: [B] with its subtree hangs under [A]. When [B] is an ancestor of
    [A] the result is [adj] with the labels [A] and [B] exchanged in rows
    and columns. *)
Theorem modify_tree_result :
  forall K adj anc A B,
    valid_adj K adj -> ancestry_of K adj anc ->
    A < K -> 0 < B < K -> A <> B ->
    exists R,
      _modify_tree adj anc A B = Some R /\ is_square K R /\
      (~ panc adj B A ->
       forall i j, i < K -> j < K ->
         mget R i j =
         if Nat.eqb i j then 1%Z
         else if Nat.eqb j B then (if Nat.eqb i A then 1%Z else 0%Z)
         else mget adj i j) /\
      (panc adj B A ->
       forall i j, i < K -> j < K ->
         mget R i j = mget adj (swap_idx A B i) (swap_idx A B j)).
Proof.
  intros K adj anc A B V HAnc HA HB HAB.
  destruct (panc_dec_anc K adj anc A B HAnc HA HB HAB) as [Hp|Hp].
  - eexists. split; [now apply (modify_tree_swap K adj anc A B)|].
    split; [now apply (swap_square K)|]. split; [contradiction|].
    intros _ i j Hi Hj. now apply (swap_pointwise K).
  - eexists. split; [now apply (modify_tree_move K adj anc A B)|].
    split; [apply (va_square _ _ (move_valid K adj A B V HA HB HAB Hp))|].
    split; [|contradiction].
    intros _ i j Hi Hj. now apply (move_pointwise K).
Qed.

Lemma modify_tree_result_witness :
  exists R,
    _modify_tree chain3 chain3_anc 2 1 = Some R /\ is_square 3 R /\
    (~ panc chain3 1 2 ->
     forall i j, i < 3 -> j < 3 ->
       mget R i j =
       if Nat.eqb i j then 1%Z
       else if Nat.eqb j 1 then (if Nat.eqb i 2 then 1%Z else 0%Z)
       else mget chain3 i j) /\
    (panc chain3 1 2 ->
     forall i j, i < 3 -> j < 3 ->
       mget R i j = mget chain3 (swap_idx 2 1 i) (swap_idx 2 1 j)).
Proof.
  assert (V : valid_adj 3 chain3) by (apply valid_adjb_sound; reflexivity).
  apply (modify_tree_result 3 chain3 chain3_anc 2 1 V).
  - apply (ancestry_of_computed 3 chain3 chain3_anc 3 V); [lia|reflexivity].
  - lia.
  - lia.
  - discriminate.
Defined.

Section MoveBack.
Variable K : nat.
Variables adj anc : Matrix.
Variables A B P : nat.
Hypothesis V : valid_adj K adj.
Hypothesis HA : A < K.
Hypothesis HB : 0 < B < K.
Hypothesis HAB : A <> B.
Hypothesis Hnot : ~ panc adj B A.
Hypothesis HP : edge adj P B.

Let R := fill_diagonal (move_subtree (fill_diagonal adj 0%Z) A B) 1%Z.

(** Below [B] the moved tree has the paths of the old one. *)
Lemma moved_path_from_head n b x : path R n b x -> b = B -> path adj n b x.
Proof.
  pose proof (move_valid K adj A B V HA HB HAB Hnot) as VR. fold R in VR.
  induction 1 as [i|n i j k Pth IH E]; intros ->; [apply path_nil|].
  destruct (Nat.eq_dec k B) as [->|Hk].
  - exfalso. apply (acyclic _ _ VR n B (proj2 HB)).
    eapply path_snoc; eauto.
  - eapply path_snoc; [now apply IH|].
    apply (move_edge K adj A B V HA HB HAB) in E.
    destruct E as [[E _]|[_ E]]; [contradiction|exact E].
Qed.

Lemma former_parent_not_below : ~ panc R B P.
Proof.
  intros [n Pth]. apply (moved_path_from_head _ _ _) in Pth; [|reflexivity].
  apply (acyclic _ _ V (S n) B (proj2 HB)).
  eapply path_snoc; [exact Pth|exact HP].
Qed.

Lemma move_back ancR :
  ancestry_of K R ancR -> _modify_tree R ancR P B = Some adj.
Proof.
  intros HAncR.
  pose proof (move_valid K adj A B V HA HB HAB Hnot) as VR. fold R in VR.
  destruct (edge_range _ _ V _ _ HP) as [HPK _].
  assert (HPB : P <> B) by apply HP.
  rewrite (modify_tree_move K R ancR P B VR HAncR HPK HB HPB
             former_parent_not_below).
  f_equal. apply (matrix_ext K).
  - apply (va_square _ _ (move_valid K R P B VR HPK HB HPB
                            former_parent_not_below)).
  - apply (va_square _ _ V).
  - intros i j Hi Hj.
    rewrite (move_pointwise K R P B VR HPK HB HPB i j Hi Hj).
    destruct (Nat.eqb_spec i j) as [->|Hij];
      [symmetry; now apply (va_diag _ _ V)|].
    destruct (Nat.eqb_spec j B) as [->|HjB].
    + destruct (Nat.eqb_spec i P) as [->|HiP]; [symmetry; apply HP|].
      destruct (va_binary _ _ V i B Hi Hj) as [Z0|Z1]; [now rewrite Z0|].
      exfalso. apply HiP.
      apply (parent_unique _ _ V i P B); [split; assumption|exact HP].
    + unfold R. rewrite (move_pointwise K adj A B V HA HB HAB i j Hi Hj).
      destruct (Nat.eqb_spec i j); [contradiction|].
      destruct (Nat.eqb_spec j B); [contradiction|reflexivity].
Qed.
End MoveBack.

Section SwapBack.
Variable K : nat.
Variables adj anc : Matrix.
Variables A B : nat.
Hypothesis V : valid_adj K adj.
Hypothesis HA : A < K.
Hypothesis HB : 0 < B < K.
Hypothesis HAB : A <> B.
Hypothesis Hanc : panc adj B A.

Let R := fill_diagonal (swap_nodes (fill_diagonal adj 0%Z) A B) 1%Z.
Let sigma := swap_idx A B.

Lemma relabel_path n i j :
  path adj n i j -> i < K -> path R n (sigma i) (sigma j).
Proof.
  induction 1 as [i|n i j k Pth IH E]; intros Hi; [apply path_nil|].
  eapply path_snoc; [now apply IH|].
  pose proof (path_range _ _ V _ _ _ Pth Hi) as Hj.
  destruct (edge_range _ _ V _ _ E) as [_ Hk].
  apply (swap_edge K adj A B V HA HB HAB Hanc);
    try (apply swap_idx_lt; lia).
  unfold sigma. now rewrite !swap_idx_invol.
Qed.

Lemma swapped_ancestor : panc R A B.
Proof.
  destruct Hanc as [n Pth].
  apply relabel_path in Pth; [|lia].
  unfold sigma, swap_idx in Pth. rewrite !Nat.eqb_refl in Pth.
  destruct (Nat.eqb_spec B A); [congruence|]. now exists n.
Qed.

Lemma swap_back ancR :
  ancestry_of K R ancR -> _modify_tree R ancR B A = Some adj.
Proof.
  intros HAncR.
  pose proof (swap_valid K adj A B V HA HB HAB Hanc) as VR. fold R in VR.
  pose proof (swap_A_not_root K adj A B V HA HAB Hanc) as HA0.
  assert (HA' : 0 < A < K) by lia.
  assert (HBA : B <> A) by congruence.
  rewrite (modify_tree_swap K R ancR B A VR HAncR (proj2 HB) HA' HBA
             swapped_ancestor).
  f_equal. apply (matrix_ext K).
  - apply (swap_square K R B A VR (proj2 HB) HA' HBA).
  - apply (va_square _ _ V).
  - intros i j Hi Hj.
    rewrite (swap_pointwise K R B A VR (proj2 HB) HA' HBA swapped_ancestor
               i j Hi Hj).
    rewrite !(swap_idx_sym A B). unfold R.
    rewrite (swap_pointwise K adj A B V HA HB HAB Hanc)
      by (apply swap_idx_lt; lia).
    now rewrite !swap_idx_invol.
Qed.
End SwapBack.

(** X8: a move is undone by moving back. When [B] is not an ancestor of
    [A], [_modify_tree] hangs [B] under [A]; applying [_modify_tree] to the
    result with the former parent of [B] as destination returns the
    original adjacency matrix. *)
Theorem modify_tree_move_undone :
  forall K adj anc A B P R ancR,
    valid_adj K adj -> ancestry_of K adj anc ->
    A < K -> 0 < B < K -> A <> B ->
    ~ panc adj B A -> edge adj P B ->
    _modify_tree adj anc A B = Some R -> ancestry_of K R ancR ->
    _modify_tree R ancR P B = Some adj.
Proof.
  intros K adj anc A B P R ancR V HAnc HA HB HAB Hnot HP HR HAncR.
  rewrite (modify_tree_move K adj anc A B V HAnc HA HB HAB Hnot) in HR.
  injection HR as <-. now apply (move_back K adj A B P).
Qed.

(** X9: a swap is undone by the opposite swap. When [B] is an ancestor of
    [A], [_modify_tree] exchanges the two nodes; applying [_modify_tree] to
    the result with the two arguments exchanged returns the original
    adjacency matrix. *)
Theorem modify_tree_swap_undone :
  forall K adj anc A B R ancR,
    valid_adj K adj -> ancestry_of K adj anc ->
    A < K -> 0 < B < K -> A <> B -> panc adj B A ->
    _modify_tree adj anc A B = Some R -> ancestry_of K R ancR ->
    _modify_tree R ancR B A = Some adj.
Proof.
  intros K adj anc A B R ancR V HAnc HA HB HAB Hanc HR HAncR.
  rewrite (modify_tree_swap K adj anc A B V HAnc HA HB HAB Hanc) in HR.
  injection HR as <-. now apply (swap_back K adj A B).
Qed.

Definition star3 : Matrix := [[1; 1; 1]; [0; 1; 0]; [0; 0; 1]]%Z.
Definition unsorted3_anc : Matrix := [[1; 1; 1]; [0; 1; 0]; [0; 1; 1]]%Z.

Lemma chain3_valid : valid_adj 3 chain3.
Proof. apply valid_adjb_sound. reflexivity. Qed.

Lemma chain3_ancestry : ancestry_of 3 chain3 chain3_anc.
Proof.
  apply (ancestry_of_computed 3 chain3 chain3_anc 3 chain3_valid);
    [lia|reflexivity].
Qed.

Lemma modify_tree_move_undone_witness :
  _modify_tree star3 star3 1 2 = Some chain3.
Proof.
  apply (modify_tree_move_undone 3 chain3 chain3_anc 0 2 1 star3 star3
           chain3_valid chain3_ancestry).
  - lia.
  - lia.
  - discriminate.
  - apply (no_panc_root _ _ chain3_valid).
  - split; [discriminate|reflexivity].
  - reflexivity.
  - apply (ancestry_of_computed 3 star3 star3 3); [|lia|reflexivity].
    apply valid_adjb_sound. reflexivity.
Defined.

Lemma modify_tree_swap_undone_witness :
  _modify_tree unsorted3 unsorted3_anc 1 2 = Some chain3.
Proof.
  apply (modify_tree_swap_undone 3 chain3 chain3_anc 2 1 unsorted3
           unsorted3_anc chain3_valid chain3_ancestry).
  - lia.
  - lia.
  - discriminate.
  - exists 0. eapply path_snoc; [apply path_nil|].
    split; [discriminate|reflexivity].
  - reflexivity.
  - apply (ancestry_of_computed 3 unsorted3 unsorted3_anc 3); [|lia|reflexivity].
    apply valid_adjb_sound. reflexivity.
Defined.

(* ------------------------------------------------------------------ *)
(** ** What the validator accepts ([tree_sampler._ensure_valid_tree]) *)

Lemma count_occ_concat_map (f : nat -> list nat) l j :
  count_occ Nat.eq_dec (concat (map f l)) j =
  list_sum (map (fun P => count_occ Nat.eq_dec (f P) j) l).
Proof.
  induction l as [|a l IH]; [reflexivity|].
  cbn [map concat list_sum fold_right]. rewrite count_occ_app, IH.
  reflexivity.
Qed.

Lemma list_sum_perm (f : nat -> nat) l l' :
  Permutation l l' -> list_sum (map f l) = list_sum (map f l').
Proof.
  induction 1; simpl; lia.
Qed.

Lemma list_sum_seq_zsumf (f : nat -> nat) K :
  Z.of_nat (list_sum (map f (seq 0 K))) = zsumf (fun i => Z.of_nat (f i)) K.
Proof.
  induction K as [|K IH]; [reflexivity|].
  rewrite seq_S, map_app, list_sum_app, zsumf_S. simpl. lia.
Qed.

Section ValidatorSound.
Variable K : nat.
Variable adj : Matrix.
Hypothesis HS : is_square K adj.
Hypothesis Hbin : forall i j, i < K -> j < K ->
  mget adj i j = 0%Z \/ mget adj i j = 1%Z.

Let adj0 := fill_diagonal adj 0%Z.
Let ch (P : nat) : list nat := flatnonzero (get_row adj0 P).

Lemma ch_In P c : P < K -> (In c (ch P) <-> c < K /\ edge adj P c).
Proof.
  intros HP. unfold ch. rewrite flatnonzero_In.
  rewrite (get_row_length K) by (unfold adj0; sq_side).
  fold (mget adj0 P c). split.
  - intros [Hc Hnz]. split; [exact Hc|]. unfold adj0 in Hnz.
    rewrite (mget_fill_diagonal K) in Hnz by sq_side.
    destruct (Nat.eqb_spec P c); [congruence|].
    split; [assumption|]. destruct (Hbin P c HP Hc); congruence.
  - intros [Hc [Hne E]]. split; [exact Hc|]. unfold adj0.
    rewrite (mget_fill_diagonal K) by sq_side.
    destruct (Nat.eqb_spec P c); [congruence|]. rewrite E. discriminate.
Qed.

(** A run of the loop pops a duplicate-free sequence of nodes, and what
    was popped is what was pushed: the initial stack and the children of
    every popped node. *)
Lemma ensure_loop_trace fuel : forall stack visited vis,
  ensure_loop adj0 fuel stack visited = Some vis ->
  NoDup visited ->
  exists pops,
    vis = rev pops ++ visited /\ NoDup vis /\
    Permutation pops (stack ++ concat (map ch pops)).
Proof.
  induction fuel as [|fuel IH]; intros stack visited vis H ND.
  - destruct stack as [|P s _] using rev_ind.
    + cbn in H. injection H as <-. exists []. auto.
    + cbn [ensure_loop] in H. rewrite rev_app_distr in H. discriminate H.
  - destruct stack as [|P s _] using rev_ind.
    + cbn in H. injection H as <-. exists []. auto.
    + cbn [ensure_loop] in H. rewrite rev_app_distr in H. cbn in H.
      rewrite rev_involutive in H.
      destruct (existsb (Nat.eqb P) visited) eqn:Ev; [discriminate|].
      assert (HP : ~ In P visited).
      { intros Hin. apply existsb_eqb_In in Hin. congruence. }
      destruct (IH _ _ _ H (NoDup_cons P HP ND)) as (pops & E & NDv & Pm).
      exists (P :: pops). split; [|split; [exact NDv|]].
      * rewrite E. cbn [rev]. now rewrite <- app_assoc.
      * cbn [map concat]. fold (ch P) in Pm.
        rewrite <- app_assoc. apply Permutation_cons_app.
        rewrite app_assoc. cbn [app]. now rewrite <- app_assoc in Pm |- *.
Qed.

(** A property that holds of the initial stack and passes from a node to
    its children holds of every visited node. *)
Lemma ensure_loop_closed (Q : nat -> Prop) fuel : forall stack visited vis,
  (forall P c, Q P -> In c (ch P) -> Q c) ->
  ensure_loop adj0 fuel stack visited = Some vis ->
  (forall x, In x stack -> Q x) -> (forall x, In x visited -> Q x) ->
  forall x, In x vis -> Q x.
Proof.
  induction fuel as [|fuel IH]; intros stack visited vis Hcl H Hs Hv.
  - destruct stack as [|P s _] using rev_ind.
    + cbn in H. injection H as <-. exact Hv.
    + cbn [ensure_loop] in H. rewrite rev_app_distr in H. discriminate H.
  - destruct stack as [|P s _] using rev_ind.
    + cbn in H. injection H as <-. exact Hv.
    + cbn [ensure_loop] in H. rewrite rev_app_distr in H. cbn in H.
      rewrite rev_involutive in H.
      destruct (existsb (Nat.eqb P) visited); [discriminate|].
      assert (QP : Q P) by (apply Hs; rewrite in_app_iff; simpl; auto).
      apply (IH _ _ _ Hcl H).
      * intros x Hx. apply in_app_iff in Hx as [Hx|Hx].
        -- apply Hs. rewrite in_app_iff. auto.
        -- apply (Hcl P); assumption.
      * intros x [<-|Hx]; auto.
Qed.

Lemma ensure_valid_tree_sound fuel vis :
  _ensure_valid_tree fuel adj = Some vis -> valid_adj K adj.
Proof.
  unfold _ensure_valid_tree. destruct HS as [HL HR]. rewrite HL.
  destruct (forallb (fun z => (z =? 1)%Z) (diag adj)) eqn:Hd; [|discriminate].
  cbn [negb]. fold adj0.
  destruct (ensure_loop adj0 fuel [0] []) as [v|] eqn:Hrun; [|discriminate].
  destruct (visited_all K v) eqn:Hall; [|discriminate]. intros [= ->].
  unfold visited_all in Hall. apply andb_true_iff in Hall as [Hin Hlt].
  rewrite forallb_forall in Hin, Hlt.
  assert (Hall : forall k, k < K <-> In k vis).
  { intros k. split.
    - intros Hk. apply existsb_eqb_In, Hin, in_seq. lia.
    - intros Hk. apply Nat.ltb_lt, Hlt, Hk. }
  destruct (ensure_loop_trace fuel [0] [] vis Hrun (NoDup_nil _))
    as (pops & E & NDv & Pm).
  rewrite app_nil_r in E. subst vis.
  assert (NDp : NoDup pops).
  { apply NoDup_rev in NDv. now rewrite rev_involutive in NDv. }
  assert (Hallp : forall k, k < K <-> In k pops).
  { intros k. rewrite Hall. symmetry. apply in_rev. }
  assert (H0 : In 0 pops).
  { apply (Permutation_in 0 (Permutation_sym Pm)). now left. }
  assert (HK : 0 < K) by now apply Hallp.
  assert (Hdiag : forall i, i < K -> mget adj i i = 1%Z).
  { intros i Hi. rewrite forallb_forall in Hd.
    apply Z.eqb_eq, Hd. unfold diag. rewrite HL.
    apply in_map_iff. exists i. split; [reflexivity|]. apply in_seq. lia. }
  assert (Pseq : Permutation pops (seq 0 K)).
  { apply NoDup_Permutation; [exact NDp|apply seq_NoDup|].
    intros k. rewrite <- Hallp, in_seq. lia. }
  (* the number of parents of every node *)
  assert (Hoff : forall j, j < K ->
            zsumf (fun i => if Nat.eqb i j then 0 else mget adj i j)%Z K =
            if Nat.eqb j 0 then 0%Z else 1%Z).
  { intros j Hj.
    assert (C1 : count_occ Nat.eq_dec pops j = 1).
    { apply NoDup_count_occ'; [exact NDp|now apply Hallp]. }
    rewrite (proj1 (Permutation_count_occ Nat.eq_dec _ _) Pm j) in C1.
    cbn [app count_occ] in C1.
    assert (E : zsumf (fun i => if Nat.eqb i j then 0 else mget adj i j)%Z K =
                Z.of_nat (list_sum
                  (map (fun P => count_occ Nat.eq_dec (ch P) j) (seq 0 K)))).
    { rewrite list_sum_seq_zsumf. apply zsumf_ext. intros i Hi.
      destruct (in_dec Nat.eq_dec j (ch i)) as [Hin'|Hnin].
      - pose proof (proj1 (NoDup_count_occ' Nat.eq_dec (ch i))
                      (flatnonzero_NoDup _) j Hin') as C.
        unfold ch in C |- *. rewrite C.
        apply (ch_In i j Hi) in Hin' as [_ [Hne E1]].
        destruct (Nat.eqb_spec i j); [contradiction|]. now rewrite E1.
      - pose proof (proj1 (count_occ_not_In Nat.eq_dec (ch i) j) Hnin) as C.
        unfold ch in C |- *. rewrite C.
        destruct (Nat.eqb_spec i j) as [|Hne]; [reflexivity|].
        destruct (Hbin i j Hi Hj) as [Z0|Z1]; [now rewrite Z0|].
        exfalso. apply Hnin. apply (ch_In i j Hi).
        split; [exact Hj|split; assumption]. }
    rewrite E, <- (list_sum_perm _ _ _ Pseq), <- count_occ_concat_map.
    destruct (Nat.eq_dec 0 j) as [<-|Hne].
    - cbn [Nat.eqb]. lia.
    - destruct (Nat.eqb_spec j 0); [lia|]. now rewrite C1. }
  refine (Build_valid_adj K adj HK (conj HL HR) Hbin Hdiag _ _ _).
  - rewrite colsum_zsumf, HL, (zsumf_split _ 0 K HK).
    rewrite (Hdiag 0 HK), (Hoff 0 HK). reflexivity.
  - intros j Hj. rewrite colsum_zsumf, HL.
    rewrite (zsumf_split _ j K (proj2 Hj)).
    rewrite (Hdiag j (proj2 Hj)), (Hoff j (proj2 Hj)).
    destruct (Nat.eqb_spec j 0); [lia|reflexivity].
  - intros j Hj.
    apply (ensure_loop_closed (fun x => x < K /\ reach adj 0 x)
             fuel [0] [] (rev pops)); auto.
    + intros P c [HP RP] Hc. apply (ch_In P c HP) in Hc as [Hc E].
      split; [exact Hc|].
      apply (reach_trans _ _ P); [exact RP|now apply reach_edge].
    + intros x [<-|[]]. split; [exact HK|apply reach_refl].
    + intros x [].
    + now apply Hall.
Qed.
End ValidatorSound.

(** X10: [_ensure_valid_tree] accepts exactly the trees. On a K x K matrix
    of zeros and ones the assertions of the validator all pass (unit
    diagonal, no node met twice by the traversal from node 0, every node
    met) if and only if the matrix satisfies the adjacency invariants: unit
    diagonal, column 0 summing to 1, every other column summing to 2, and
    every node reachable from node 0. *)
Theorem ensure_valid_tree_accepts_exactly_trees :
  forall K adj fuel,
    is_square K adj ->
    (forall i j, i < K -> j < K -> mget adj i j = 0%Z \/ mget adj i j = 1%Z) ->
    K <= fuel ->
    ((exists vis, _ensure_valid_tree fuel adj = Some vis) <-> valid_adj K adj).
Proof.
  intros K adj fuel HS Hb Hf. split.
  - intros [vis H]. exact (ensure_valid_tree_sound K adj HS Hb fuel vis H).
  - intros V. destruct (ensure_valid_tree_ok K adj V fuel Hf) as (vis & H & _).
    now exists vis.
Qed.

(** The matrix the builder returns for a node it could not place. *)
Definition orphan_adj : Matrix := [[1; 1; 0]; [0; 1; 0]; [0; 0; 1]]%Z.

Lemma binary3 (M : Matrix) :
  forallb (forallb (fun z => (z =? 0)%Z || (z =? 1)%Z)) M = true ->
  forall i j, i < 3 -> j < 3 -> length M = 3 ->
    (forall r, In r M -> length r = 3) ->
    mget M i j = 0%Z \/ mget M i j = 1%Z.
Proof.
  intros H i j Hi Hj HL HR. rewrite forallb_forall in H.
  assert (Hrow : In (get_row M i) M) by (apply nth_In; lia).
  specialize (H _ Hrow). rewrite forallb_forall in H.
  assert (Hz : In (mget M i j) (get_row M i)).
  { apply nth_In. rewrite (HR _ Hrow). exact Hj. }
  specialize (H _ Hz). apply orb_true_iff in H as [E|E];
    apply Z.eqb_eq in E; auto.
Qed.

Lemma ensure_valid_tree_accepts_exactly_trees_witness :
  ((exists vis, _ensure_valid_tree 3 chain3 = Some vis) <->
   valid_adj 3 chain3) /\
  ((exists vis, _ensure_valid_tree 3 orphan_adj = Some vis) <->
   valid_adj 3 orphan_adj).
Proof.
  split.
  - apply (ensure_valid_tree_accepts_exactly_trees 3 chain3 3).
    + split; [reflexivity|]. intros [|[|[|i]]] Hi; try lia; reflexivity.
    + intros i j Hi Hj. apply (binary3 chain3); auto.
      intros r [<-|[<-|[<-|[]]]]; reflexivity.
    + lia.
  - apply (ensure_valid_tree_accepts_exactly_trees 3 orphan_adj 3).
    + split; [reflexivity|]. intros [|[|[|i]]] Hi; try lia; reflexivity.
    + intros i j Hi Hj. apply (binary3 orphan_adj); auto.
      intros r [<-|[<-|[<-|[]]]]; reflexivity.
    + lia.
Defined.

(* ------------------------------------------------------------------ *)
(** ** The values of the depth fractions ([tree_sampler._calc_depth_frac]) *)

Lemma zmax_ge l z : In z l -> (z <= zmax l)%Z.
Proof.
  induction l as [|a l IH]; intros H; [destruct H|].
  cbn [zmax fold_right]. fold (zmax l).
  destruct H as [<-|H]; [lia|]. specialize (IH H). lia.
Qed.

Lemma zmax_attained l : zmax l = 0%Z \/ In (zmax l) l.
Proof.
  induction l as [|a l IH]; [now left|].
  cbn [zmax fold_right]. fold (zmax l).
  destruct (Z.max_spec a (zmax l)) as [[_ E]|[_ E]]; rewrite E.
  - destruct IH as [IH|IH]; [now left|right; now right].
  - right. now left.
Qed.

Section DepthValues.
Variable K : nat.
Variable adj : Matrix.
Hypothesis V : valid_adj K adj.

Let adj0 := fill_diagonal adj 0%Z.

(** Every discovered node carries its distance from the root. *)
Definition depth_known (D : list nat) (depth : list Z) : Prop :=
  length depth = K /\
  forall x, In x D ->
    (0 <= nth x depth 0)%Z /\ path adj (Z.to_nat (nth x depth 0%Z)) 0 x.

Lemma depth_loop_depths fuel : forall stack visited depth,
  dfs_inv K adj stack visited -> depth_known (stack ++ visited) depth ->
  K <= fuel + length visited ->
  exists depth', depth_loop adj0 fuel stack depth = Some depth' /\
                 depth_known (seq 0 K) depth'.
Proof.
  induction fuel as [|fuel IH]; intros stack visited depth Inv DK Hf.
  - destruct stack as [|s stack _] using rev_ind.
    + exists depth. split; [reflexivity|]. destruct DK as [L Hp].
      destruct (dfs_inv_final K adj V visited Inv) as [_ Hall].
      split; [exact L|]. intros x Hx. apply in_seq in Hx.
      apply Hp. apply Hall. lia.
    + exfalso. destruct Inv as (ND & Hlt & _).
      assert (Hincl : incl ((stack ++ [s]) ++ visited) (seq 0 K)).
      { intros x Hx. apply in_seq. specialize (Hlt x Hx). lia. }
      pose proof (NoDup_incl_length ND Hincl) as Hlen.
      rewrite !length_app, length_seq in Hlen. simpl in *. lia.
  - destruct stack as [|s stack _] using rev_ind.
    + exists depth. split; [reflexivity|]. destruct DK as [L Hp].
      destruct (dfs_inv_final K adj V visited Inv) as [_ Hall].
      split; [exact L|]. intros x Hx. apply in_seq in Hx.
      apply Hp. apply Hall. lia.
    + destruct (dfs_inv_step K adj V _ _ _ Inv) as [HPv Inv'].
      assert (HsK : s < K).
      { destruct Inv as (_ & Hlt & _). apply Hlt.
        rewrite !in_app_iff. simpl. auto. }
      simpl. rewrite rev_app_distr. simpl. rewrite rev_involutive.
      fold adj0 in Inv' |- *.
      destruct DK as [L Hp].
      destruct (Hp s) as [Hs0 Hsp];
        [rewrite !in_app_iff; simpl; auto|].
      destruct (flatnonzero (get_row adj0 s)) as [|c C] eqn:EC.
      * apply (IH stack (s :: visited)).
        -- rewrite app_nil_r in Inv'. exact Inv'.
        -- split; [exact L|]. intros x Hx. apply Hp.
           rewrite !in_app_iff in *. simpl in *. tauto.
        -- simpl. lia.
      * apply (IH (stack ++ c :: C) (s :: visited)
                  (set_many (c :: C) (nth s depth 0 + 1)%Z depth));
          [exact Inv'| |simpl; lia].
        assert (HC : forall x, In x (c :: C) -> edge adj s x).
        { intros x Hx. apply (children_In K adj V s x HsK).
          fold adj0. now rewrite EC. }
        split; [rewrite set_many_length; exact L|].
        intros x Hx. rewrite nth_set_many.
        destruct (mem x (c :: C)) eqn:Ex; cbn [andb].
        -- apply mem_In, HC in Ex.
           destruct (edge_range _ _ V _ _ Ex) as [_ HxK].
           rewrite L. apply Nat.ltb_lt in HxK. rewrite HxK.
           split; [lia|].
           replace (Z.to_nat (nth s depth 0 + 1)%Z)
             with (S (Z.to_nat (nth s depth 0%Z))) by lia.
           eapply path_snoc; [exact Hsp|exact Ex].
        -- apply Hp.
           rewrite !in_app_iff in Hx |- *. cbn [In] in Hx |- *.
           destruct Hx as [[Hx|Hx]|[Hx|Hx]]; auto.
           exfalso. assert (Hm : mem x (c :: C) = true)
             by (apply mem_In; exact Hx). congruence.
Qed.

Lemma calc_depth_frac_values fuel :
  K <= fuel ->
  exists depth,
    depth_known (seq 0 K) depth /\
    _calc_depth_frac fuel adj =
      Some (map (fun d => fdiv (Fin (IZR d)) (Fin (IZR (zmax depth)))) depth).
Proof.
  intros Hf. unfold _calc_depth_frac.
  destruct (va_square _ _ V) as [HL _]. rewrite HL.
  pose proof (va_pos _ _ V) as HK.
  destruct (depth_loop_depths fuel [0] [] (repeat 0%Z K))
    as (depth & Hrun & L & Hp).
  { apply (dfs_inv_init K adj V). }
  { split; [apply repeat_length|].
    intros x [<-|[]]. rewrite nth_repeat_in by lia.
    split; [lia|apply path_nil]. }
  { simpl. lia. }
  exists depth. split; [split; assumption|].
  fold adj0. rewrite Hrun.
  assert (Hd : forall x d, x < K -> path adj d 0 x ->
                 nth x depth 0%Z = Z.of_nat d).
  { intros x d Hx Pd. destruct (Hp x) as [H0 Px]; [apply in_seq; lia|].
    rewrite (depth_unique _ _ V _ _ _ Pd Px). lia. }
  rewrite (Hd 0 0 HK (path_nil _ _)). cbn [negb Z.eqb Z.of_nat].
  assert (E : forallb (fun d => (0 <? d)%Z) (skipn 1 depth) = true).
  { apply forallb_forall. intros d Hdin.
    destruct (In_nth _ _ 0%Z Hdin) as (i & Hi & <-).
    rewrite length_skipn, L in Hi. rewrite nth_skipn.
    destruct (Hp (1 + i)) as [H0 Px]; [apply in_seq; lia|].
    apply Z.ltb_lt.
    destruct (Z.to_nat (nth (1 + i) depth 0%Z)) as [|n] eqn:En; [|lia].
    inversion Px. }
  now rewrite E.
Qed.
End DepthValues.

(** X11: the values [_calc_depth_frac] returns on a valid tree. Entry [x]
    is the number of edges between the root and [x] divided by the largest
    such number in the tree, so with at least two nodes every entry lies
    in [0, 1], the root gets 0 and a deepest node gets 1; on the tree of
    one node the division is 0/0 and the result is [nan]. *)
Theorem calc_depth_frac_is_relative_depth :
  forall K adj fuel,
    valid_adj K adj -> K <= fuel ->
    exists df dmax,
      _calc_depth_frac fuel adj = Some df /\ length df = K /\
      (exists x, x < K /\ path adj dmax 0 x) /\
      (forall x d, x < K -> path adj d 0 x ->
         d <= dmax /\ nth x df NaN = fdiv (Fin (INR d)) (Fin (INR dmax))) /\
      (2 <= K ->
       0 < dmax /\
       forall x d, x < K -> path adj d 0 x ->
         nth x df NaN = Fin (INR d / INR dmax)%R) /\
      (K = 1 -> df = [NaN]).
Proof.
  intros K adj fuel V Hf.
  destruct (calc_depth_frac_values K adj V fuel Hf) as (depth & [L Hp] & E).
  pose proof (va_pos _ _ V) as HK.
  assert (Hd : forall x d, x < K -> path adj d 0 x ->
                 nth x depth 0%Z = Z.of_nat d).
  { intros x d Hx Pd. destruct (Hp x) as [H0 Px]; [apply in_seq; lia|].
    rewrite (depth_unique _ _ V _ _ _ Pd Px). lia. }
  assert (Hmax0 : (0 <= zmax depth)%Z).
  { pose proof (Hd 0 0 HK (path_nil _ _)) as H00.
    assert (Hin : In (nth 0 depth 0%Z) depth) by (apply nth_In; lia).
    apply zmax_ge in Hin. rewrite H00 in Hin. simpl in Hin. exact Hin. }
  exists (map (fun d => fdiv (Fin (IZR d)) (Fin (IZR (zmax depth)))) depth),
    (Z.to_nat (zmax depth)).
  assert (Hmax : IZR (zmax depth) = INR (Z.to_nat (zmax depth))).
  { rewrite INR_IZR_INZ. f_equal. lia. }
  assert (Hval : forall x d, x < K -> path adj d 0 x ->
            d <= Z.to_nat (zmax depth) /\
            nth x (map (fun d => fdiv (Fin (IZR d)) (Fin (IZR (zmax depth))))
                       depth) NaN =
            fdiv (Fin (INR d)) (Fin (INR (Z.to_nat (zmax depth))))).
  { intros x d Hx Pd. split.
    - assert (Hin : In (nth x depth 0%Z) depth) by (apply nth_In; lia).
      apply zmax_ge in Hin. rewrite (Hd x d Hx Pd) in Hin. lia.
    - rewrite (nth_indep _ NaN
                 (fdiv (Fin (IZR 0)) (Fin (IZR (zmax depth)))))
        by (rewrite length_map; lia).
      rewrite (map_nth (fun d => fdiv (Fin (IZR d)) (Fin (IZR (zmax depth))))).
      rewrite (Hd x d Hx Pd), <- INR_IZR_INZ, Hmax. reflexivity. }
  split; [exact E|]. split; [now rewrite length_map|].
  split; [|split; [exact Hval|split]].
  - destruct (zmax_attained depth) as [Z0|Hin].
    + exists 0. split; [exact HK|]. rewrite Z0. apply path_nil.
    + destruct (In_nth _ _ 0%Z Hin) as (x & Hx & Ex). rewrite L in Hx.
      exists x. split; [exact Hx|].
      destruct (Hp x) as [_ Px]; [apply in_seq; lia|]. now rewrite Ex in Px.
  - intros HK2.
    destruct (va_reach _ _ V 1 ltac:(lia)) as [d Pd].
    assert (Hd1 : 0 < d).
    { destruct d; [inversion Pd|lia]. }
    destruct (Hval 1 d ltac:(lia) Pd) as [Hle _].
    split; [lia|].
    intros x d' Hx Pd'. destruct (Hval x d' Hx Pd') as [_ ->].
    apply fdiv_Fin. apply not_0_INR. lia.
  - intros ->. destruct depth as [|z [|]]; try discriminate. simpl.
    assert (z = 0%Z) by (apply (Hd 0 0); [lia|apply path_nil]). subst z.
    cbn [zmax fold_right Z.max Z.compare]. f_equal.
    unfold fdiv. destruct (Req_dec_T 0 0) as [_|N]; [reflexivity|].
    exfalso. now apply N.
Qed.

Lemma calc_depth_frac_is_relative_depth_witness :
  exists df dmax,
    _calc_depth_frac 3 chain3 = Some df /\ length df = 3 /\
    (exists x, x < 3 /\ path chain3 dmax 0 x) /\
    (forall x d, x < 3 -> path chain3 d 0 x ->
       d <= dmax /\ nth x df NaN = fdiv (Fin (INR d)) (Fin (INR dmax))) /\
    (2 <= 3 ->
     0 < dmax /\
     forall x d, x < 3 -> path chain3 d 0 x ->
       nth x df NaN = Fin (INR d / INR dmax)%R) /\
    (3 = 1 -> df = [NaN]).
Proof.
  apply (calc_depth_frac_is_relative_depth 3 chain3 3 chain3_valid).
  lia.
Defined.

(* ------------------------------------------------------------------ *)
(** ** The values of the uniform weights *)

Lemma rsum_upd i (v : R) l :
  i < length l -> rsum (upd i v l) = (rsum l - nth i l 0 + v)%R.
Proof.
  revert i. induction l as [|a l IH]; intros [|i] H; simpl in *; try lia.
  - lra.
  - rewrite IH by lia. lra.
Qed.

Lemma rsum_repeat_one K : rsum (repeat 1%R K) = INR K.
Proof.
  induction K as [|K IH]; [reflexivity|].
  cbn [repeat rsum fold_right]. fold (rsum (repeat 1%R K)).
  rewrite IH, S_INR. lra.
Qed.

Lemma nth_normalize_Fin rs i :
  (rsum rs <> 0)%R -> i < length rs ->
  nth i (normalize (map Fin rs)) NaN = Fin (nth i rs 0 / rsum rs)%R.
Proof.
  intros Hs Hi. rewrite normalize_Fin by assumption.
  rewrite nth_map_Fin by (now rewrite length_map).
  f_equal.
  rewrite (nth_indep _ 0%R ((fun x => x / rsum rs)%R 0%R))
    by (now rewrite length_map).
  now rewrite (map_nth (fun x => x / rsum rs)%R).
Qed.

(** X12: the uniform weights. On a tree of [K >= 2] nodes
    [_make_W_nodes_uniform] gives the root weight 0 and every other node
    [1 / (K - 1)]; on the tree of one node it returns [nan]. For a subtree
    head and a parent that are distinct nodes of a tree of [K >= 3] nodes
    [_make_W_dests_uniform] gives both weight 0 and every other node
    [1 / (K - 2)]. *)
Theorem uniform_weights_values :
  forall K (adj : Matrix) head parent,
    length adj = K ->
    (2 <= K ->
     forall i, i < K ->
       nth i (_make_W_nodes_uniform adj) NaN =
       if Nat.eqb i 0 then Fin 0%R else Fin (1 / INR (K - 1))%R) /\
    (K = 1 -> _make_W_nodes_uniform adj = [NaN]) /\
    (3 <= K -> head < K -> parent < K -> head <> parent ->
     forall i, i < K ->
       nth i (_make_W_dests_uniform head parent adj) NaN =
       if dest_masked head parent i then Fin 0%R
       else Fin (1 / INR (K - 2))%R).
Proof.
  intros K adj head parent HL. split; [|split].
  - intros HK i Hi. unfold _make_W_nodes_uniform. rewrite HL.
    replace (repeat (Fin 1%R) K) with (map Fin (repeat 1%R K))
      by (now rewrite map_repeat).
    rewrite upd_map.
    assert (Hs : rsum (upd 0 0%R (repeat 1%R K)) = INR (K - 1)).
    { rewrite rsum_upd by (rewrite repeat_length; lia).
      rewrite rsum_repeat_one, nth_repeat_in by lia.
      rewrite minus_INR by lia. simpl. lra. }
    assert (Hpos : (0 < INR (K - 1))%R) by (apply lt_0_INR; lia).
    rewrite nth_normalize_Fin
      by (rewrite ?Hs, ?upd_length, ?repeat_length; try lra; lia).
    rewrite Hs, nth_upd, repeat_length.
    destruct (Nat.eqb_spec i 0) as [->|Hne]; cbn [andb].
    + destruct (Nat.ltb_spec 0 K); [|lia]. f_equal. unfold Rdiv. ring.
    + now rewrite nth_repeat_in by lia.
  - intros ->. unfold _make_W_nodes_uniform, normalize. rewrite HL. simpl.
    replace (0 + 0)%R with 0%R by ring.
    unfold fdiv. destruct (Req_dec_T 0 0); [reflexivity|congruence].
  - intros HK Hh Hp Hne i Hi. unfold _make_W_dests_uniform. rewrite HL.
    replace (repeat (Fin 1%R) K) with (map Fin (repeat 1%R K))
      by (now rewrite map_repeat).
    rewrite !upd_map.
    assert (Hs : rsum (upd parent 0%R (upd head 0%R (repeat 1%R K))) =
                 INR (K - 2)).
    { rewrite rsum_upd by (rewrite upd_length, repeat_length; lia).
      rewrite rsum_upd by (rewrite repeat_length; lia).
      rewrite nth_upd, repeat_length, rsum_repeat_one.
      destruct (Nat.eqb_spec parent head); [congruence|]. cbn [andb].
      rewrite !nth_repeat_in by lia.
      rewrite minus_INR by lia. simpl. lra. }
    assert (Hpos : (0 < INR (K - 2))%R) by (apply lt_0_INR; lia).
    rewrite nth_normalize_Fin
      by (rewrite ?Hs, ?upd_length, ?repeat_length; try lra; lia).
    rewrite Hs, !nth_upd, !upd_length, repeat_length. unfold dest_masked.
    apply Nat.ltb_lt in Hh, Hp. rewrite Hh, Hp, !andb_true_r.
    destruct (Nat.eqb i parent); cbn [orb].
    + f_equal. unfold Rdiv. ring.
    + destruct (Nat.eqb i head).
      * f_equal. unfold Rdiv. ring.
      * now rewrite nth_repeat_in by lia.
Qed.

Lemma uniform_weights_values_witness :
  (forall i, i < 4 ->
     nth i (_make_W_nodes_uniform star4) NaN =
     if Nat.eqb i 0 then Fin 0%R else Fin (1 / INR (4 - 1))%R) /\
  (forall i, i < 4 ->
     nth i (_make_W_dests_uniform 3 0 star4) NaN =
     if dest_masked 3 0 i then Fin 0%R else Fin (1 / INR (4 - 2))%R).
Proof.
  destruct (uniform_weights_values 4 star4 3 0 eq_refl) as (Hn & _ & Hd).
  split.
  - apply Hn. lia.
  - apply Hd; lia.
Defined.

(* ------------------------------------------------------------------ *)
(** ** Tree initialisations ([tree_sampler._init_cluster_adj_*]) *)

(** [for k in range(1, K): cluster_adj[k-1,k] = 1] on [np.eye(K)]. *)
Definition _init_cluster_adj_linear (K : nat) : Matrix :=
  fold_left (fun cluster_adj k => mset cluster_adj (k - 1) k 1%Z)
            (seq 1 (K - 1)) (eye K).

(** [cluster_adj[0,:] = 1] on [np.eye(K)]; row 0 of an empty array is out
    of range. *)
Definition _init_cluster_adj_branching (K : nat) : option Matrix :=
  if K =? 0 then None else Some (set_row (eye K) 0 (repeat 1%Z K)).

Section RandomInit.
Variable Rng : Type.
(** [np.random.randint(low, high)]. *)
Variable rand_int : nat -> nat -> Rng -> nat * Rng.

(** [for idx in range(1, K): parents.append(np.random.randint(0, idx))],
    over the remaining indices. *)
Fixpoint draw_parents (idxs : list nat) (g : Rng) : list nat * Rng :=
  match idxs with
  | [] => ([], g)
  | idx :: rest =>
      let (p, g1) := rand_int 0 idx g in
      let (parents, g2) := draw_parents rest g1 in
      (p :: parents, g2)
  end.

(** [cluster_adj[parents, range(1,K)] = 1] on [np.eye(K)]. *)
Definition _init_cluster_adj_random (K : nat) (g : Rng) : Matrix * Rng :=
  let (parents, g') := draw_parents (seq 1 (K - 1)) g in
  (fold_left (fun cluster_adj pk => mset cluster_adj (fst pk) (snd pk) 1%Z)
             (combine parents (seq 1 (K - 1))) (eye K),
   g').
End RandomInit.

(** Entries of a matrix after a run of single-entry assignments of 1. *)
Lemma mget_fold_mset {X} K (r c : X -> nat) (xs : list X) : forall M i j,
  is_square K M -> (forall x, In x xs -> r x < K /\ c x < K) ->
  is_square K (fold_left (fun M x => mset M (r x) (c x) 1%Z) xs M) /\
  mget (fold_left (fun M x => mset M (r x) (c x) 1%Z) xs M) i j =
  if existsb (fun x => Nat.eqb i (r x) && Nat.eqb j (c x)) xs
  then 1%Z else mget M i j.
Proof.
  induction xs as [|x xs IH]; intros M i j HS Hin; [now split|].
  cbn [fold_left existsb].
  destruct (Hin x (or_introl eq_refl)) as [Hr Hc].
  destruct (IH (mset M (r x) (c x) 1%Z) i j) as [HS' E].
  { now apply mset_square. }
  { intros y Hy. apply Hin. now right. }
  split; [exact HS'|]. rewrite E, (mget_mset K) by assumption.
  destruct (existsb _ xs); [now rewrite orb_true_r|].
  rewrite orb_false_r. reflexivity.
Qed.

Lemma linear_entries K i j :
  i < K -> j < K ->
  is_square K (_init_cluster_adj_linear K) /\
  mget (_init_cluster_adj_linear K) i j =
  if Nat.eqb i j || Nat.eqb j (S i) then 1%Z else 0%Z.
Proof.
  intros Hi Hj. unfold _init_cluster_adj_linear.
  destruct (mget_fold_mset K (fun k => k - 1) (fun k => k) (seq 1 (K - 1))
              (eye K) i j (eye_square K)) as [HS E].
  { intros k Hk. apply in_seq in Hk. lia. }
  split; [exact HS|]. rewrite E, mget_eye by assumption.
  destruct (existsb _ (seq 1 (K - 1))) eqn:Ex.
  - apply existsb_exists in Ex as (k & Hk & Ek). apply in_seq in Hk.
    apply andb_true_iff in Ek as [E1 E2].
    apply Nat.eqb_eq in E1, E2. subst i j.
    destruct (Nat.eqb_spec k (S (k - 1))); [|lia]. now rewrite orb_true_r.
  - destruct (Nat.eqb_spec j (S i)) as [->|Hne]; [|now rewrite orb_false_r].
    exfalso.
    assert (T : existsb (fun x => Nat.eqb i (x - 1) && Nat.eqb (S i) x)
                        (seq 1 (K - 1)) = true).
    { apply existsb_exists. exists (S i). split; [apply in_seq; lia|].
      cbn [Nat.sub]. rewrite Nat.sub_0_r, !Nat.eqb_refl. reflexivity. }
    congruence.
Qed.

(** X13: [_init_cluster_adj_linear] builds the chain. For [K >= 1] the
    result is a valid tree in which node [j >= 1] has parent [j - 1], so a
    node is a proper ancestor of exactly the nodes of larger index. *)
Theorem init_linear_is_chain :
  forall K, 1 <= K ->
    valid_adj K (_init_cluster_adj_linear K) /\
    (forall i j, edge (_init_cluster_adj_linear K) i j <->
                 j = S i /\ j < K) /\
    (forall i j, j < K -> (panc (_init_cluster_adj_linear K) i j <-> i < j)).
Proof.
  intros K HK.
  assert (HE : forall i j, i < K -> j < K ->
            mget (_init_cluster_adj_linear K) i j =
            if Nat.eqb i j || Nat.eqb j (S i) then 1%Z else 0%Z)
    by (intros; now apply linear_entries).
  assert (V : valid_adj K (_init_cluster_adj_linear K)).
  { apply valid_adj_of_smaller_parents; try lia.
    - apply (linear_entries K 0 0); lia.
    - intros i j Hi Hj. rewrite HE by assumption.
      destruct (_ || _); auto.
    - intros i Hi. rewrite HE by assumption. now rewrite Nat.eqb_refl.
    - intros i Hi Hne. rewrite HE by lia.
      destruct (Nat.eqb_spec i 0); [contradiction|]. reflexivity.
    - intros j Hj. exists (j - 1). split; [lia|].
      intros i Hi Hne. rewrite HE by lia.
      destruct (Nat.eqb_spec i j); [contradiction|]. cbn [orb].
      destruct (Nat.eqb_spec j (S i)); split; intros; try lia; discriminate. }
  assert (Hedge : forall i j, edge (_init_cluster_adj_linear K) i j <->
                              j = S i /\ j < K).
  { intros i j. split.
    - intros E. destruct (edge_range _ _ V _ _ E) as [Hi Hj].
      destruct E as [Hne E]. rewrite HE in E by assumption.
      destruct (Nat.eqb_spec i j); [contradiction|]. cbn [orb] in E.
      destruct (Nat.eqb_spec j (S i)); [auto|discriminate].
    - intros [-> Hj]. split; [lia|]. rewrite HE by lia.
      now rewrite Nat.eqb_refl, orb_true_r. }
  split; [exact V|]. split; [exact Hedge|].
  intros i j Hj. split.
  - apply (topo_panc (_init_cluster_adj_linear K)).
    intros a b E. apply Hedge in E. lia.
  - intros Hij. induction j as [|j IH]; [lia|].
    destruct (Nat.eq_dec i j) as [->|Hne].
    + exists 0. eapply path_snoc; [apply path_nil|]. apply Hedge. auto.
    + destruct IH as [n Pn]; [lia|lia|]. exists (S n).
      eapply path_snoc; [exact Pn|]. apply Hedge. auto.
Qed.

Lemma init_linear_is_chain_witness :
  _init_cluster_adj_linear 3 = chain3 /\
  valid_adj 3 (_init_cluster_adj_linear 3).
Proof.
  split; [reflexivity|].
  apply (init_linear_is_chain 3). lia.
Defined.

(** X14: [_init_cluster_adj_branching] builds the star. For [K >= 1] the
    result is a valid tree in which every other node is a child of node 0;
    for [K = 0] the assignment to row 0 is out of range. *)
Theorem init_branching_is_star :
  forall K,
    (K = 0 -> _init_cluster_adj_branching K = None) /\
    (1 <= K ->
     exists adj,
       _init_cluster_adj_branching K = Some adj /\ valid_adj K adj /\
       forall i j, edge adj i j <-> i = 0 /\ 0 < j < K).
Proof.
  intros K. split; [intros ->; reflexivity|]. intros HK.
  unfold _init_cluster_adj_branching.
  destruct (Nat.eqb_spec K 0); [lia|].
  eexists. split; [reflexivity|].
  set (adj := set_row (eye K) 0 (repeat 1%Z K)).
  assert (HS : is_square K adj).
  { unfold adj. apply set_row_square; [apply eye_square|].
    apply repeat_length. }
  assert (HE : forall i j, i < K -> j < K ->
            mget adj i j = if Nat.eqb i 0 || Nat.eqb i j then 1%Z else 0%Z).
  { intros i j Hi Hj. unfold adj.
    rewrite (mget_set_row K) by (try apply eye_square; lia).
    destruct (Nat.eqb_spec i 0); cbn [orb].
    - now apply nth_repeat_in.
    - now apply mget_eye. }
  assert (V : valid_adj K adj).
  { apply valid_adj_of_smaller_parents; try lia; auto.
    - intros i j Hi Hj. rewrite HE by assumption. destruct (_ || _); auto.
    - intros i Hi. rewrite HE by assumption.
      now rewrite Nat.eqb_refl, orb_true_r.
    - intros i Hi Hne. rewrite HE by lia.
      destruct (Nat.eqb_spec i 0); [contradiction|reflexivity].
    - intros j Hj. exists 0. split; [lia|].
      intros i Hi Hne. rewrite HE by lia.
      destruct (Nat.eqb_spec i j); [contradiction|]. rewrite orb_false_r.
      destruct (Nat.eqb_spec i 0); split; intros; auto; try discriminate;
        contradiction. }
  split; [exact V|]. intros i j. split.
  - intros E. destruct (edge_range _ _ V _ _ E) as [Hi Hj].
    destruct E as [Hne E]. rewrite HE in E by assumption.
    destruct (Nat.eqb_spec i j); [contradiction|]. rewrite orb_false_r in E.
    destruct (Nat.eqb_spec i 0); [|discriminate]. lia.
  - intros [-> Hj]. split; [lia|]. rewrite HE by lia. reflexivity.
Qed.

Lemma init_branching_is_star_witness :
  exists adj,
    _init_cluster_adj_branching 4 = Some adj /\ valid_adj 4 adj /\
    forall i j, edge adj i j <-> i = 0 /\ 0 < j < 4.
Proof.
  destruct (init_branching_is_star 4) as [_ H]. apply H. lia.
Defined.

Section RandomInitValid.
Variable Rng : Type.
Variable rand_int : nat -> nat -> Rng -> nat * Rng.
(** [np.random.randint(0, idx)] lies in [0, idx). *)
Hypothesis rand_int_range : forall idx g,
  0 < idx -> fst (rand_int 0 idx g) < idx.

Lemma draw_parents_range idxs : forall g,
  (forall idx, In idx idxs -> 0 < idx) ->
  length (fst (draw_parents Rng rand_int idxs g)) = length idxs /\
  forall n, n < length idxs ->
    nth n (fst (draw_parents Rng rand_int idxs g)) 0 < nth n idxs 0.
Proof.
  induction idxs as [|idx rest IH]; intros g Hpos.
  - split; [reflexivity|]. intros n Hn. simpl in Hn. lia.
  - cbn [draw_parents].
    pose proof (rand_int_range idx g (Hpos idx (or_introl eq_refl))) as Hr.
    destruct (rand_int 0 idx g) as [p g1]. cbn [fst] in Hr.
    destruct (IH g1) as [HL Hn]; [intros; apply Hpos; now right|].
    destruct (draw_parents Rng rand_int rest g1) as [ps g2].
    cbn [fst] in *. split; [simpl; now rewrite HL|].
    intros [|n] Hlt; [exact Hr|]. simpl in Hlt |- *. apply Hn. lia.
Qed.

Lemma random_entries K g i j :
  i < K -> j < K ->
  let parents := fst (draw_parents Rng rand_int (seq 1 (K - 1)) g) in
  is_square K (fst (_init_cluster_adj_random Rng rand_int K g)) /\
  mget (fst (_init_cluster_adj_random Rng rand_int K g)) i j =
  if Nat.eqb i j || (negb (Nat.eqb j 0) && Nat.eqb i (nth (j - 1) parents 0))
  then 1%Z else 0%Z.
Proof.
  intros Hi Hj parents. unfold _init_cluster_adj_random.
  destruct (draw_parents_range (seq 1 (K - 1)) g) as [HL Hn].
  { intros idx Hin. apply in_seq in Hin. lia. }
  fold parents in HL, Hn. rewrite length_seq in HL, Hn.
  assert (Hps : forall n, n < K - 1 -> nth n parents 0 < S n).
  { intros n Hlt. specialize (Hn n Hlt). now rewrite seq_nth in Hn. }
  unfold parents in *.
  destruct (draw_parents Rng rand_int (seq 1 (K - 1)) g) as [ps g'].
  cbn [fst] in *.
  assert (Hcomb : forall pk, In pk (combine ps (seq 1 (K - 1))) ->
            exists n, n < K - 1 /\ pk = (nth n ps 0, S n)).
  { intros pk Hin. destruct (In_nth _ _ (0, 0) Hin) as (n & Hlt & E).
    rewrite length_combine, length_seq, HL, Nat.min_id in Hlt.
    exists n. split; [exact Hlt|]. rewrite <- E.
    rewrite combine_nth by (now rewrite length_seq).
    now rewrite seq_nth. }
  destruct (mget_fold_mset K fst snd (combine ps (seq 1 (K - 1))) (eye K) i j
              (eye_square K)) as [HS E].
  { intros pk Hin. destruct (Hcomb pk Hin) as (n & Hlt & ->). cbn [fst snd].
    specialize (Hps n Hlt). lia. }
  split; [exact HS|]. rewrite E, mget_eye by assumption.
  destruct (existsb _ (combine ps (seq 1 (K - 1)))) eqn:Ex.
  - apply existsb_exists in Ex as (pk & Hin & Ek).
    destruct (Hcomb pk Hin) as (n & Hlt & ->). cbn [fst snd] in Ek.
    apply andb_true_iff in Ek as [E1 E2]. apply Nat.eqb_eq in E1, E2.
    subst i j. cbn [Nat.eqb negb Nat.sub andb].
    now rewrite Nat.sub_0_r, Nat.eqb_refl, orb_true_r.
  - destruct (Nat.eqb_spec i j) as [|Hne]; [reflexivity|]. cbn [orb].
    destruct (Nat.eqb_spec j 0) as [|Hj0]; [reflexivity|]. cbn [negb andb].
    destruct (Nat.eqb_spec i (nth (j - 1) ps 0)) as [->|]; [|reflexivity].
    exfalso.
    assert (T : existsb (fun x => Nat.eqb (nth (j - 1) ps 0) (fst x) &&
                                  Nat.eqb j (snd x))
                        (combine ps (seq 1 (K - 1))) = true).
    { apply existsb_exists. exists (nth (j - 1) ps 0, j). split.
      - replace (nth (j - 1) ps 0, j)
          with (nth (j - 1) (combine ps (seq 1 (K - 1))) (0, 0)).
        + apply nth_In. rewrite length_combine, length_seq, HL. lia.
        + rewrite combine_nth by (now rewrite length_seq).
          rewrite seq_nth by lia. f_equal. lia.
      - cbn [fst snd]. now rewrite !Nat.eqb_refl. }
    congruence.
Qed.
End RandomInitValid.

(** X15: [_init_cluster_adj_random] builds a tree whatever is drawn. With
    [np.random.randint(0, idx)] in [0, idx), for [K >= 1] the result is a
    valid tree in which every parent has a smaller index than its child:
    node [j >= 1] hangs off the [j]-th drawn parent. *)
Theorem init_random_is_sorted_tree :
  forall Rng (rand_int : nat -> nat -> Rng -> nat * Rng) K g,
    (forall idx g0, 0 < idx -> fst (rand_int 0 idx g0) < idx) ->
    1 <= K ->
    let adj := fst (_init_cluster_adj_random Rng rand_int K g) in
    let parents := fst (draw_parents Rng rand_int (seq 1 (K - 1)) g) in
    valid_adj K adj /\
    (forall i j, edge adj i j <-> 0 < j < K /\ i = nth (j - 1) parents 0) /\
    (forall i j, edge adj i j -> i < j).
Proof.
  intros Rng rand_int K g Hr HK adj parents.
  assert (HE : forall i j, i < K -> j < K ->
            mget adj i j =
            if Nat.eqb i j ||
               (negb (Nat.eqb j 0) && Nat.eqb i (nth (j - 1) parents 0))
            then 1%Z else 0%Z)
    by (intros; now apply random_entries).
  assert (Hps : forall j, 0 < j < K -> nth (j - 1) parents 0 < j).
  { intros j Hj.
    destruct (draw_parents_range Rng rand_int Hr (seq 1 (K - 1)) g) as [_ Hn].
    { intros idx Hin. apply in_seq in Hin. lia. }
    fold parents in Hn. rewrite length_seq in Hn.
    specialize (Hn (j - 1) ltac:(lia)). rewrite seq_nth in Hn by lia. lia. }
  assert (V : valid_adj K adj).
  { apply valid_adj_of_smaller_parents; try lia.
    - apply (random_entries Rng rand_int Hr K g 0 0); lia.
    - intros i j Hi Hj. rewrite HE by assumption. destruct (_ || _); auto.
    - intros i Hi. rewrite HE by assumption. now rewrite Nat.eqb_refl.
    - intros i Hi Hne. rewrite HE by lia.
      destruct (Nat.eqb_spec i 0); [contradiction|reflexivity].
    - intros j Hj. exists (nth (j - 1) parents 0). split; [now apply Hps|].
      intros i Hi Hne. rewrite HE by lia.
      destruct (Nat.eqb_spec i j); [contradiction|].
      destruct (Nat.eqb_spec j 0); [lia|]. cbn [orb negb andb].
      destruct (Nat.eqb_spec i (nth (j - 1) parents 0)); split; intros;
        auto; try discriminate; contradiction. }
  assert (Hedge : forall i j,
            edge adj i j <-> 0 < j < K /\ i = nth (j - 1) parents 0).
  { intros i j. split.
    - intros E. destruct (edge_range _ _ V _ _ E) as [Hi Hj].
      destruct E as [Hne E]. rewrite HE in E by assumption.
      destruct (Nat.eqb_spec i j); [contradiction|]. cbn [orb] in E.
      destruct (Nat.eqb_spec j 0); [discriminate|]. cbn [negb andb] in E.
      destruct (Nat.eqb_spec i (nth (j - 1) parents 0)); [|discriminate].
      split; [lia|assumption].
    - intros [Hj ->]. specialize (Hps j Hj). split; [lia|].
      rewrite HE by lia.
      destruct (Nat.eqb_spec j 0); [lia|]. cbn [negb andb].
      now rewrite Nat.eqb_refl, orb_true_r. }
  split; [exact V|]. split; [exact Hedge|].
  intros i j E. apply Hedge in E as [Hj ->]. now apply Hps.
Qed.

(** A generator for [randint] that counts its draws. *)
Definition count_int (low high g : nat) : nat * nat :=
  (low + g mod high, S g).

Lemma init_random_is_sorted_tree_witness :
  valid_adj 4 (fst (_init_cluster_adj_random nat count_int 4 1)) /\
  forall i j, edge (fst (_init_cluster_adj_random nat count_int 4 1)) i j ->
              i < j.
Proof.
  destruct (init_random_is_sorted_tree nat count_int 4 1) as (V & _ & T).
  - intros idx g0 Hidx. cbn [count_int fst Nat.add].
    apply Nat.mod_upper_bound. lia.
  - lia.
  - split; assumption.
Defined.

(* ------------------------------------------------------------------ *)
(** ** From a relation model to the score of a tree *)

Lemma calc_tree_logmutrel_entries K adj data fuel nr T :
  _determine_node_rels fuel adj = Some nr -> length nr = K -> 0 < K ->
  _calc_tree_logmutrel fuel adj data = Some T ->
  forall a b, a < K - 1 -> b < K - 1 ->
    fmget T (a + 1) (b + 1) = logp (rels data) a b (rget nr (a + 1) (b + 1)).
Proof.
  intros Hnr HL HK HT a b Ha Hb.
  rewrite calc_tree_logmutrel_unfold, Hnr in HT. cbv zeta in HT.
  rewrite HL in HT.
  destruct (negb (forallb _ nr)); [discriminate|].
  destruct (negb (shape3b _ _ _)); [discriminate|].
  destruct (negb (list_nat_eqb _ _)); [discriminate|].
  destruct (negb (forallb _ (seq 0 K))); [discriminate|].
  destruct (negb (forallb (forallb fle0) _)); [discriminate|].
  injection HT as <-.
  rewrite with_zero_margins_entry by lia.
  rewrite !Nat.add_1_r. reflexivity.
Qed.

(** X16: scoring a tree against a relation model. For a relation model
    over the clusters [0 .. K-2] with nonnegative entries, all the mass of
    every off-diagonal pair on the three valid classes and mirrored entries
    for (a, b) and (b, a), and for a valid tree on [K] nodes, the log
    transform, the relation traversal and the score matrix all pass their
    assertions; the score matrix is K x K, symmetric and non-positive with
    zero diagonal, first row and first column, and its entry for two
    distinct clusters is [log((p + alpha) / (1 + 3 alpha))] for the
    probability [p] the model gives to the relation the two nodes have in
    the tree. *)
Theorem tree_score_of_relation_model :
  forall K adj (mutrel : Mutrel R) fuel,
    valid_adj K adj -> K <= fuel ->
    mutrel_shape (K - 1) (rels mutrel) -> vids mutrel = seq 0 (K - 1) ->
    (forall a b m, a < K - 1 -> b < K - 1 ->
       (0 <= prob (rels mutrel) a b m)%R) ->
    (forall a b, a < K - 1 -> b < K - 1 -> a <> b ->
       (prob (rels mutrel) a b A_B + prob (rels mutrel) a b B_A +
        prob (rels mutrel) a b diff_branches = 1)%R) ->
    (forall a b, a < K - 1 -> b < K - 1 ->
       prob (rels mutrel) a b A_B = prob (rels mutrel) b a B_A /\
       prob (rels mutrel) a b diff_branches =
         prob (rels mutrel) b a diff_branches) ->
    exists data nr T,
      _make_data_logmutrel mutrel = Some data /\
      _determine_node_rels fuel adj = Some nr /\
      _calc_tree_logmutrel fuel adj data = Some T /\
      is_score_matrix K T /\
      forall a b, a < K - 1 -> b < K - 1 -> a <> b ->
        fmget T (a + 1) (b + 1) =
        Fin (ln ((prob (rels mutrel) a b (rget nr (a + 1) (b + 1)) + alpha) /
                 (1 + 3 * alpha))).
Proof.
  intros K adj mutrel fuel V Hf Sh Hv Hnn Hone Hsym.
  destruct (make_data_logmutrel_wf (K - 1) mutrel Sh Hv Hnn Hone Hsym)
    as (data & Hdata & WF).
  pose proof (make_data_logmutrel_total (K - 1) mutrel Sh Hnn Hone) as Hd'.
  rewrite Hdata in Hd'. injection Hd' as Ed.
  destruct (determine_node_rels_ok K adj V fuel Hf) as (nr & Hnr & [HL HR] & Htree).
  destruct (calc_tree_logmutrel_ok K adj data V WF fuel Hf) as (T & HT & ST).
  exists data, nr, T.
  refine (conj Hdata (conj Hnr (conj HT (conj ST _)))).
  intros a b Ha Hb Hne.
  rewrite (calc_tree_logmutrel_entries K adj data fuel nr T Hnr HL
             (va_pos _ _ V) HT a b Ha Hb).
  unfold logp. rewrite Ed. cbn [rels].
  rewrite (cell3_logrels (K - 1)) by assumption.
  pose proof (Hnn a b A_B Ha Hb) as H1.
  pose proof (Hnn a b B_A Ha Hb) as H2.
  pose proof (Hnn a b diff_branches Ha Hb) as H3.
  destruct (cell_five (K - 1) (rels mutrel) 0%R a b Sh Ha Hb)
    as (g & c & ab & ba & d & E).
  unfold prob, class_at in *. rewrite E in *. simpl in H1, H2, H3.
  rewrite cell_logrel_offdiag by assumption.
  destruct (tree_rel_cases K adj (a + 1) (b + 1) _ V
              (Htree (a + 1) (b + 1) ltac:(lia) ltac:(lia)))
    as (Hc & _ & _ & _ & Hg).
  destruct (rget nr (a + 1) (b + 1)); try reflexivity.
  - congruence.
  - assert (a + 1 = b + 1) by now apply Hc. lia.
Qed.

Lemma proper_pair_cases (P : nat -> nat -> Prop) :
  P 0 0 -> P 0 1 -> P 1 0 -> P 1 1 ->
  forall a b, a < 3 - 1 -> b < 3 - 1 -> P a b.
Proof.
  intros H00 H01 H10 H11 [|[|a]] [|[|b]] Ha Hb; try lia; assumption.
Qed.

Lemma tree_score_of_relation_model_witness :
  exists data nr T,
    _make_data_logmutrel proper_pair = Some data /\
    _determine_node_rels 3 chain3 = Some nr /\
    _calc_tree_logmutrel 3 chain3 data = Some T /\
    is_score_matrix 3 T /\
    forall a b, a < 3 - 1 -> b < 3 - 1 -> a <> b ->
      fmget T (a + 1) (b + 1) =
      Fin (ln ((prob (rels proper_pair) a b (rget nr (a + 1) (b + 1)) + alpha) /
               (1 + 3 * alpha))).
Proof.
  apply (tree_score_of_relation_model 3 chain3 proper_pair 3 chain3_valid).
  - lia.
  - apply pair_shape; reflexivity.
  - reflexivity.
  - intros a b m. revert a b.
    apply (proper_pair_cases
             (fun a b => (0 <= prob (rels proper_pair) a b m)%R));
      destruct m; unfold prob, class_at; simpl; lra.
  - apply (proper_pair_cases
             (fun a b => a <> b ->
                (prob (rels proper_pair) a b A_B +
                 prob (rels proper_pair) a b B_A +
                 prob (rels proper_pair) a b diff_branches = 1)%R));
      intros Hne; try congruence; unfold prob, class_at; simpl; lra.
  - apply (proper_pair_cases
             (fun a b =>
                prob (rels proper_pair) a b A_B =
                prob (rels proper_pair) b a B_A /\
                prob (rels proper_pair) a b diff_branches =
                prob (rels proper_pair) b a diff_branches));
      split; reflexivity.
Defined.

(* ------------------------------------------------------------------ *)
(** ** Every state of a chain is a tree *)

Section ChainInvariant.
Variable Rng : Type.
Variable rand_choice : list npfloat -> Rng -> nat * Rng.
Variable rand_uniform : Rng -> R * Rng.
Variable gamma : R.
Variable calc_phi : Matrix -> list (list R).
Variable calc_llh_phi : Matrix -> list (list R) -> R.
Variable K : nat.
Variable data : Mutrel npfloat.
Variable fuel : nat.
Hypothesis choice_positive : forall W g,
  sample_cat_pre W = true ->
  fgt (nth (fst (rand_choice W g)) W NaN) (Fin 0%R) = true.
Hypothesis Hgamma : (0 <= gamma <= 1)%R.
Hypothesis WF : wf_logmutrel (K - 1) data.
Hypothesis HK : 3 <= K.
Hypothesis Hfuel : K <= fuel.




End ChainInvariant.





(* ================================================================== *)
(** ** The leaf order of a linkage tree ([common.agglo_children_to_adjlist],
    [common.dfs]) *)

(** A dict from node index to the list of its children, as key-value pairs
    in insertion order. *)
Definition AdjList := list (nat * list nat).

(** [A[k]]; [k in A] is [lookup A k <> None]. *)
Definition lookup (A : AdjList) (k : nat) : option (list nat) :=
  option_map snd (find (fun kv => Nat.eqb (fst kv) k) A).

(** [A[k] = v]. *)
Definition dict_set (A : AdjList) (k : nat) (v : list nat) : AdjList :=
  if existsb (fun kv => Nat.eqb (fst kv) k) A
  then map (fun kv => if Nat.eqb (fst kv) k then (k, v) else kv) A
  else A ++ [(k, v)].

(** [max(A.keys())]; the maximum of no keys raises. *)
Definition max_key (A : AdjList) : option nat :=
  match map fst A with
  | [] => None
  | k :: ks => Some (fold_left Nat.max ks k)
  end.

Definition enumerate {X} (l : list X) : list (nat * X) :=
  combine (seq 0 (length l)) l.

Definition agglo_children_to_adjlist (children : list (list nat))
    (nleaves : nat) : option (AdjList * nat) :=
  (* [len(children) == nleaves - 1] over the integers *)
  if negb ((0 <? nleaves) && (length children =? nleaves - 1)) then None else
  let adjlist :=
    fold_left (fun adjlist ic => dict_set adjlist (fst ic + nleaves) (snd ic))
              (enumerate children) [] in
  let root := nleaves + length children - 1 in
  match max_key adjlist with
  | None => None
  | Some m => if m =? root then Some (adjlist, root) else None
  end.

(** [_dfs(A, parent)] with the list [ordered] it appends to passed along;
    [fuel] bounds the depth of the recursion. *)
Fixpoint _dfs (fuel : nat) (A : AdjList) (parent : nat) (ordered : list nat)
  : option (list nat) :=
  match fuel with
  | O => None
  | S fuel' =>
      match lookup A parent with
      | None => Some (ordered ++ [parent])
      | Some C =>
          fold_left (fun acc child =>
                       match acc with
                       | Some o => _dfs fuel' A child o
                       | None => None
                       end) C (Some ordered)
      end
  end.

Definition dfs (fuel : nat) (adjlist : AdjList) (root : nat)
  : option (list nat) :=
  _dfs fuel adjlist root [].

Lemma combine_app_eq {X Y} (l1 l2 : list X) (m1 m2 : list Y) :
  length l1 = length m1 ->
  combine (l1 ++ l2) (m1 ++ m2) = combine l1 m1 ++ combine l2 m2.
Proof.
  revert m1. induction l1 as [|a l1 IH]; intros [|b m1] H;
    simpl in *; try discriminate; [reflexivity|].
  f_equal. apply IH. lia.
Qed.

Lemma enumerate_snoc {X} (l : list X) x :
  enumerate (l ++ [x]) = enumerate l ++ [(length l, x)].
Proof.
  unfold enumerate. rewrite length_app. cbn [length].
  rewrite Nat.add_1_r, seq_S, combine_app_eq by (now rewrite length_seq).
  reflexivity.
Qed.

Lemma lookup_app_miss A k v k' :
  lookup A k' = None ->
  lookup (A ++ [(k, v)]) k' = if Nat.eqb k k' then Some v else None.
Proof.
  unfold lookup. induction A as [|[a w] A IH]; cbn [app find fst].
  - destruct (Nat.eqb k k'); reflexivity.
  - destruct (Nat.eqb a k'); [discriminate|]. exact IH.
Qed.

Lemma lookup_app_hit A k v k' w :
  lookup A k' = Some w -> lookup (A ++ [(k, v)]) k' = Some w.
Proof.
  unfold lookup. induction A as [|[a u] A IH]; cbn [app find fst].
  - discriminate.
  - destruct (Nat.eqb a k'); [auto|]. exact IH.
Qed.

Lemma lookup_None_keys A k :
  lookup A k = None <-> ~ In k (map fst A).
Proof.
  unfold lookup. induction A as [|[a u] A IH]; cbn [find map fst In].
  - tauto.
  - destruct (Nat.eqb_spec a k) as [->|Hne]; cbn [option_map].
    + split; [discriminate|]. intros H. exfalso. apply H. now left.
    + rewrite IH. tauto.
Qed.

(** The dict the loop builds. *)
Lemma built_adjlist (children : list (list nat)) nleaves :
  let A := fold_left
             (fun adjlist ic => dict_set adjlist (fst ic + nleaves) (snd ic))
             (enumerate children) [] in
  map fst A = seq nleaves (length children) /\
  forall k, lookup A k =
    if (nleaves <=? k) && (k <? nleaves + length children)
    then Some (nth (k - nleaves) children []) else None.
Proof.
  induction children as [|c cs IH] using rev_ind; cbn zeta.
  - split; [reflexivity|]. intros k. cbn [length].
    rewrite Nat.add_0_r.
    destruct (Nat.leb_spec nleaves k), (Nat.ltb_spec k nleaves);
      try lia; reflexivity.
  - rewrite enumerate_snoc, fold_left_app. cbn [fold_left fst snd].
    cbn zeta in IH. destruct IH as [Hk Hl].
    set (A := fold_left
                (fun (adjlist : AdjList) (ic : nat * list nat) =>
                   dict_set adjlist (fst ic + nleaves) (snd ic))
                (enumerate cs) []) in *.
    assert (Hnew : existsb (fun kv => Nat.eqb (fst kv) (length cs + nleaves)) A
                   = false).
    { destruct (existsb _ A) eqn:E; [|reflexivity].
      apply existsb_exists in E as (kv & Hin & Ek).
      apply Nat.eqb_eq in Ek.
      assert (In (fst kv) (map fst A)) by (now apply in_map).
      rewrite Hk in H. apply in_seq in H. lia. }
    unfold dict_set. rewrite Hnew. split.
    + rewrite map_app, Hk, length_app. cbn [map fst length].
      rewrite Nat.add_1_r, seq_S. f_equal. f_equal. lia.
    + intros k. rewrite length_app. cbn [length].
      specialize (Hl k).
      destruct ((nleaves <=? k) && (k <? nleaves + length cs)) eqn:Ein.
      * rewrite (lookup_app_hit _ _ _ _ _ Hl).
        apply andb_true_iff in Ein as [E1 E2].
        apply Nat.leb_le in E1. apply Nat.ltb_lt in E2.
        destruct (Nat.leb_spec nleaves k); [|lia].
        destruct (Nat.ltb_spec k (nleaves + (length cs + 1))); [|lia].
        cbn [andb]. now rewrite app_nth1 by lia.
      * rewrite (lookup_app_miss _ _ _ _ Hl).
        destruct (Nat.eqb_spec (length cs + nleaves) k) as [<-|Hne].
        -- destruct (Nat.leb_spec nleaves (length cs + nleaves)); [|lia].
           destruct (Nat.ltb_spec (length cs + nleaves)
                                  (nleaves + (length cs + 1))); [|lia].
           cbn [andb]. rewrite app_nth2 by lia.
           replace (length cs + nleaves - nleaves - length cs) with 0 by lia.
           reflexivity.
        -- assert (Hout : k < nleaves \/ nleaves + length cs <= k).
           { apply andb_false_iff in Ein as [E|E].
             - apply Nat.leb_gt in E. lia.
             - apply Nat.ltb_ge in E. lia. }
           destruct (Nat.leb_spec nleaves k);
             destruct (Nat.ltb_spec k (nleaves + (length cs + 1)));
             cbn [andb]; try reflexivity; lia.
Qed.

Lemma fold_max_seq n len :
  fold_left Nat.max (seq (S n) len) n = n + len.
Proof.
  revert n. induction len as [|len IH]; intros n; cbn [seq fold_left]; [lia|].
  rewrite Nat.max_r by lia. rewrite IH. lia.
Qed.

Lemma agglo_children_to_adjlist_ok children nleaves :
  2 <= nleaves -> length children = nleaves - 1 ->
  exists A,
    agglo_children_to_adjlist children nleaves =
      Some (A, nleaves + length children - 1) /\
    forall k, lookup A k =
      if (nleaves <=? k) && (k <? nleaves + length children)
      then Some (nth (k - nleaves) children []) else None.
Proof.
  intros Hn HL. unfold agglo_children_to_adjlist.
  destruct (Nat.ltb_spec 0 nleaves); [|lia].
  rewrite HL, Nat.eqb_refl. cbn [andb negb].
  destruct (built_adjlist children nleaves) as [Hk Hl]. cbn zeta in Hk, Hl.
  set (A := fold_left
              (fun (adjlist : AdjList) (ic : nat * list nat) =>
                 dict_set adjlist (fst ic + nleaves) (snd ic))
              (enumerate children) []) in *.
  unfold max_key. rewrite Hk, HL.
  destruct (nleaves - 1) as [|m] eqn:Em; [lia|].
  cbn [seq]. rewrite fold_max_seq.
  replace (nleaves + m =? nleaves + S m - 1) with true
    by (symmetry; apply Nat.eqb_eq; lia).
  exists A. split; [reflexivity|]. rewrite HL in Hl. exact Hl.
Qed.

(** Sums over an initial segment of the naturals. *)
Definition nsum (f : nat -> nat) (N : nat) : nat := list_sum (map f (seq 0 N)).

Lemma nsum_S f N : nsum f (S N) = nsum f N + f N.
Proof. unfold nsum. rewrite seq_S, map_app, list_sum_app. simpl. lia. Qed.

Lemma nsum_ext f g N : (forall i, i < N -> f i = g i) -> nsum f N = nsum g N.
Proof.
  induction N as [|N IH]; intros H; [reflexivity|].
  rewrite !nsum_S, IH, H; auto.
Qed.

Lemma nsum_add f g N : nsum (fun i => f i + g i) N = nsum f N + nsum g N.
Proof.
  induction N as [|N IH]; [reflexivity|]. rewrite !nsum_S, IH. lia.
Qed.

Lemma nsum_zero N : nsum (fun _ => 0) N = 0.
Proof. induction N as [|N IH]; [reflexivity|]. rewrite nsum_S, IH. lia. Qed.

Lemma nsum_pick a f N :
  a < N -> nsum (fun u => if Nat.eq_dec a u then f u else 0) N = f a.
Proof.
  induction N as [|N IH]; intros H; [lia|]. rewrite nsum_S.
  destruct (Nat.eq_dec a N) as [->|Hne].
  - rewrite (nsum_ext _ (fun _ => 0)), nsum_zero; [lia|].
    intros i Hi. destruct (Nat.eq_dec N i); [lia|reflexivity].
  - rewrite IH by lia. lia.
Qed.

Notation "'cnt' x l" := (count_occ Nat.eq_dec l x)
  (at level 10, x at level 9, l at level 9).

(** A sum over a list is the sum over the values, weighted by how often
    each occurs. *)
Lemma list_sum_by_count f l N :
  (forall u, In u l -> u < N) ->
  list_sum (map f l) = nsum (fun u => cnt u l * f u) N.
Proof.
  induction l as [|a l IH]; intros H.
  - cbn. symmetry. apply nsum_zero.
  - cbn [map list_sum fold_right]. fold (list_sum (map f l)).
    rewrite IH by (intros u Hu; apply H; now right).
    rewrite <- (nsum_pick a f N) by (apply H; now left).
    rewrite <- nsum_add. apply nsum_ext. intros u Hu.
    cbn [count_occ]. destruct (Nat.eq_dec a u); lia.
Qed.

Lemma list_sum_zero f (l : list nat) :
  (forall u, In u l -> f u = 0) -> list_sum (map f l) = 0.
Proof.
  induction l as [|a l IH]; intros H; [reflexivity|].
  cbn [map list_sum fold_right]. fold (list_sum (map f l)).
  rewrite IH by (intros; apply H; now right).
  rewrite (H a) by now left. reflexivity.
Qed.

Lemma cnt_concat_rows x (rows : list (list nat)) :
  cnt x (concat rows) = nsum (fun i => cnt x (nth i rows [])) (length rows).
Proof.
  induction rows as [|r rows IH] using rev_ind; [reflexivity|].
  rewrite concat_app, count_occ_app, length_app. cbn [length concat].
  rewrite Nat.add_1_r, nsum_S, app_nil_r, IH.
  rewrite app_nth2, Nat.sub_diag by lia. cbn [nth]. f_equal.
  apply nsum_ext. intros i Hi. now rewrite app_nth1 by lia.
Qed.

Lemma nsum_shift f n len :
  (forall u, u < n -> f u = 0) ->
  nsum f (n + len) = nsum (fun i => f (n + i)) len.
Proof.
  intros H0. induction len as [|len IH].
  - rewrite Nat.add_0_r. rewrite (nsum_ext f (fun _ => 0)) by assumption.
    apply nsum_zero.
  - rewrite Nat.add_succ_r, !nsum_S, IH. reflexivity.
Qed.

Section Linkage.
Variable A : AdjList.
(** Children are older than the cluster that merges them. *)
Hypothesis children_older : forall u C c,
  lookup A u = Some C -> In c C -> c < u.

Let ch (u : nat) : list nat :=
  match lookup A u with Some C => C | None => [] end.

Let step (fuel : nat) (acc : option (list nat)) (child : nat) :=
  match acc with
  | Some o => _dfs fuel A child o
  | None => None
  end.

Lemma fold_step_None fuel C : fold_left (step fuel) C None = None.
Proof. induction C as [|c C IH]; [reflexivity|exact IH]. Qed.

(** What a visit contributes: the leaves [L] it appends and the inner
    nodes [I] it passes through; together they are the start node and the
    children of all of them. *)
Definition visit_of (starts : list nat) (L I : list nat) : Prop :=
  (forall x, In x L -> lookup A x = None) /\
  (forall x, In x I -> lookup A x <> None) /\
  (forall x, In x (L ++ I) -> exists s, In s starts /\ x <= s) /\
  forall x, cnt x (L ++ I) =
            cnt x starts + list_sum (map (fun u => cnt x (ch u)) (L ++ I)).

Lemma visit_of_app s starts L1 I1 L2 I2 :
  visit_of [s] L1 I1 -> visit_of starts L2 I2 ->
  visit_of (s :: starts) (L1 ++ L2) (I1 ++ I2).
Proof.
  intros (Hl1 & Hi1 & Hb1 & Hc1) (Hl2 & Hi2 & Hb2 & Hc2).
  split; [|split; [|split]].
  - intros x Hx. apply in_app_iff in Hx as [Hx|Hx]; auto.
  - intros x Hx. apply in_app_iff in Hx as [Hx|Hx]; auto.
  - intros x Hx.
    assert (Hx' : In x (L1 ++ I1) \/ In x (L2 ++ I2))
      by (rewrite !in_app_iff in *; tauto).
    destruct Hx' as [Hx'|Hx'].
    + destruct (Hb1 x Hx') as (s' & [<-|[]] & Hle). exists s. split; auto.
      now left.
    + destruct (Hb2 x Hx') as (s' & Hs' & Hle). exists s'. split; auto.
      now right.
  - intros x. specialize (Hc1 x). specialize (Hc2 x).
    rewrite !count_occ_app, !map_app, !list_sum_app in *.
    cbn [count_occ] in *. destruct (Nat.eq_dec s x); lia.
Qed.

Lemma dfs_visit fuel : forall v ordered out,
  _dfs fuel A v ordered = Some out ->
  exists L I, out = ordered ++ L /\ visit_of [v] L I.
Proof.
  induction fuel as [|fuel IH]; intros v ordered out H; [discriminate|].
  cbn [_dfs] in H. destruct (lookup A v) as [C|] eqn:Ev.
  - assert (Hfold : forall C' ordered' out',
              (forall c, In c C' -> c < v) ->
              fold_left (step fuel) C' (Some ordered') = Some out' ->
              exists L I, out' = ordered' ++ L /\ visit_of C' L I).
    { induction C' as [|c C' IHC]; intros ordered' out' Hlt Hf.
      - cbn in Hf. injection Hf as <-. exists [], [].
        split; [now rewrite app_nil_r|].
        split; [intros x []|]. split; [intros x []|].
        split; [intros x []|]. intros x. reflexivity.
      - cbn [fold_left step] in Hf.
        destruct (_dfs fuel A c ordered') as [o1|] eqn:E1;
          [|fold (step fuel) in Hf; rewrite fold_step_None in Hf;
            discriminate].
        destruct (IH _ _ _ E1) as (L1 & I1 & -> & V1).
        destruct (IHC _ _ (fun c' Hc' => Hlt c' (or_intror Hc')) Hf)
          as (L2 & I2 & -> & V2).
        exists (L1 ++ L2), (I1 ++ I2). split; [now rewrite app_assoc|].
        now apply visit_of_app. }
    destruct (Hfold C ordered out) as (L & I & -> & (Hl & Hi & Hb & Hc)).
    { intros c Hc. now apply (children_older v C). }
    { exact H. }
    exists L, (v :: I). split; [reflexivity|].
    split; [exact Hl|]. split; [|split].
    + intros x [<-|Hx]; [congruence|auto].
    + intros x Hx. exists v. split; [now left|].
      assert (Hx' : x = v \/ In x (L ++ I)).
      { apply in_app_iff in Hx as [Hx|[<-|Hx]];
          [right|left; reflexivity|right]; apply in_app_iff; auto. }
      destruct Hx' as [->|Hx']; [lia|].
      destruct (Hb x Hx') as (s & Hs & Hle).
      pose proof (children_older v C s Ev Hs). lia.
    + intros x. specialize (Hc x).
      rewrite count_occ_app, map_app, list_sum_app in *.
      cbn [count_occ map list_sum fold_right].
      fold (list_sum (map (fun u => cnt x (ch u)) I)).
      unfold ch at 2. rewrite Ev.
      destruct (Nat.eq_dec v x); lia.
  - injection H as <-. exists [v], []. split; [reflexivity|].
    split; [intros x [<-|[]]; exact Ev|]. split; [intros x []|].
    split.
    + intros x [<-|[]]. exists v. split; [now left|lia].
    + intros x. cbn [app map list_sum fold_right count_occ].
      unfold ch. rewrite Ev. cbn [count_occ]. lia.
Qed.

Lemma dfs_total fuel : forall v ordered,
  v < fuel -> exists out, _dfs fuel A v ordered = Some out.
Proof.
  induction fuel as [|fuel IH]; intros v ordered Hv; [lia|].
  cbn [_dfs]. destruct (lookup A v) as [C|] eqn:Ev; [|eauto].
  assert (Hlt : forall c, In c C -> c < fuel).
  { intros c Hc. pose proof (children_older v C c Ev Hc). lia. }
  clear Ev. revert ordered. induction C as [|c C IHC]; intros ordered.
  - cbn. eauto.
  - cbn [fold_left]. destruct (IH c ordered (Hlt c (or_introl eq_refl)))
      as (o1 & ->).
    apply IHC. intros c' Hc'. apply Hlt. now right.
Qed.
End Linkage.

(** X18: the leaf order of a linkage tree is a permutation. For a linkage
    over [nleaves >= 2] leaves, given as the [nleaves - 1] rows of child
    indices of the clusters [nleaves, nleaves + 1, ...] in which the
    children of a cluster have smaller indices than the cluster and every
    node but the last cluster is a child exactly once,
    [agglo_children_to_adjlist] returns the dict of the clusters with the
    last cluster as root, and [dfs] from that root returns every leaf
    [0 .. nleaves - 1] exactly once. *)
Theorem linkage_leaf_order_is_permutation :
  forall (children : list (list nat)) nleaves fuel,
    2 <= nleaves -> length children = nleaves - 1 ->
    (forall idx c, idx < length children ->
       In c (nth idx children []) -> c < nleaves + idx) ->
    Permutation (concat children) (seq 0 (2 * nleaves - 2)) ->
    2 * nleaves - 1 <= fuel ->
    exists adjlist ordered,
      agglo_children_to_adjlist children nleaves =
        Some (adjlist, 2 * nleaves - 2) /\
      dfs fuel adjlist (2 * nleaves - 2) = Some ordered /\
      Permutation ordered (seq 0 nleaves).
Proof.
  intros children n fuel Hn HL W2 W3 Hf.
  destruct (agglo_children_to_adjlist_ok children n Hn HL) as (A & HA & Hl).
  set (len := length children) in *.
  set (r := 2 * n - 2).
  replace (n + len - 1) with r in HA by (unfold r; lia).
  assert (Hch : forall u, match lookup A u with Some C => C | None => [] end =
                  if (n <=? u) && (u <? n + len)
                  then nth (u - n) children [] else []).
  { intros u. rewrite Hl. now destruct (_ && _). }
  assert (Hold : forall u C c, lookup A u = Some C -> In c C -> c < u).
  { intros u C c Hu Hc. rewrite Hl in Hu.
    destruct ((n <=? u) && (u <? n + len)) eqn:E; [|discriminate].
    apply andb_true_iff in E as [E1 E2].
    apply Nat.leb_le in E1. apply Nat.ltb_lt in E2.
    injection Hu as <-. specialize (W2 (u - n) c ltac:(lia) Hc). lia. }
  destruct (dfs_total A Hold fuel r []) as (out & Hout); [unfold r; lia|].
  destruct (dfs_visit A Hold fuel r [] out Hout)
    as (L & I & -> & (HlL & HiI & Hb & Hc)).
  cbn [app] in Hout.
  exists A, L. split; [exact HA|]. split; [exact Hout|].
  set (ch := fun u => match lookup A u with Some C => C | None => [] end) in *.
  assert (Hle : forall u, In u (L ++ I) -> u <= r).
  { intros u Hu. destruct (Hb u Hu) as (s & [<-|[]] & Hs). exact Hs. }
  assert (Hchlt : forall u c, In c (ch u) -> c < u).
  { intros u c Hin. unfold ch in Hin.
    destruct (lookup A u) as [C|] eqn:E; [|destruct Hin].
    now apply (Hold u C). }
  (* every node up to the root is visited exactly once *)
  assert (Hone : forall d x, x <= r -> r - x <= d -> cnt x (L ++ I) = 1).
  { induction d as [d IH] using lt_wf_ind. intros x Hx Hd.
    rewrite Hc. cbn [count_occ].
    destruct (Nat.eq_dec r x) as [<-|Hne].
    - rewrite list_sum_zero; [reflexivity|].
      intros u Hu. apply count_occ_not_In. intros Hin.
      apply Hchlt in Hin. specialize (Hle u Hu). lia.
    - rewrite (list_sum_by_count _ _ (S r))
        by (intros u Hu; specialize (Hle u Hu); lia).
      rewrite (nsum_ext _ (fun u => cnt x (ch u))).
      + replace (S r) with (n + len) by (unfold r, len; lia).
        rewrite nsum_shift.
        * rewrite (nsum_ext _ (fun i => cnt x (nth i children []))).
          -- rewrite <- cnt_concat_rows.
             rewrite (proj1 (Permutation_count_occ Nat.eq_dec _ _) W3 x).
             apply NoDup_count_occ'; [apply seq_NoDup|].
             apply in_seq. unfold r in *. lia.
          -- intros i Hi. unfold ch. rewrite Hch.
             destruct (Nat.leb_spec n (n + i)); [|lia].
             destruct (Nat.ltb_spec (n + i) (n + len)); [|lia].
             cbn [andb]. now replace (n + i - n) with i by lia.
        * intros u Hu. unfold ch. rewrite Hch.
          destruct (Nat.leb_spec n u); [lia|]. reflexivity.
      + intros u Hu.
        destruct (in_dec Nat.eq_dec x (ch u)) as [Hin|Hnin].
        * apply Hchlt in Hin.
          rewrite (IH (r - u)) by lia. unfold ch. lia.
        * apply (count_occ_not_In Nat.eq_dec) in Hnin.
          unfold ch in Hnin |- *. rewrite Hnin. lia. }
  assert (Hkey : forall x, x <= r -> (lookup A x = None <-> x < n)).
  { intros x Hx. rewrite Hl.
    destruct (Nat.leb_spec n x); destruct (Nat.ltb_spec x (n + len));
      cbn [andb]; split; intros; try lia; try discriminate; auto;
      unfold r, len in *; lia. }
  assert (HinL : forall x, In x L <-> x < n).
  { intros x. split.
    - intros Hx. apply Hkey; [apply Hle, in_app_iff; auto|now apply HlL].
    - intros Hx.
      assert (H1 : cnt x (L ++ I) = 1)
        by (apply (Hone r); unfold r; lia).
      rewrite count_occ_app in H1.
      assert (H0 : cnt x I = 0).
      { apply count_occ_not_In. intros Hin. apply (HiI x Hin).
        apply Hkey; [unfold r; lia|exact Hx]. }
      apply (count_occ_In Nat.eq_dec). lia. }
  apply NoDup_Permutation; [|apply seq_NoDup|].
  - apply (NoDup_count_occ Nat.eq_dec). intros x.
    destruct (in_dec Nat.eq_dec x L) as [Hin|Hnin].
    + assert (H1 : cnt x (L ++ I) = 1).
      { apply (Hone r); [apply Hle, in_app_iff; auto|lia]. }
      rewrite count_occ_app in H1. lia.
    + apply (count_occ_not_In Nat.eq_dec) in Hnin. lia.
  - intros x. rewrite HinL, in_seq. lia.
Qed.

(** A linkage over three leaves: the leaves 0 and 2 merge into cluster 3,
    which merges with leaf 1 into cluster 4. *)
Definition linkage3 : list (list nat) := [[0; 2]; [1; 3]].

Lemma linkage_leaf_order_is_permutation_witness :
  exists adjlist ordered,
    agglo_children_to_adjlist linkage3 3 = Some (adjlist, 2 * 3 - 2) /\
    dfs 5 adjlist (2 * 3 - 2) = Some ordered /\
    Permutation ordered (seq 0 3).
Proof.
  apply (linkage_leaf_order_is_permutation linkage3 3 5).
  - lia.
  - reflexivity.
  - intros [|[|idx]] c Hidx Hc; simpl in *; try lia;
      repeat destruct Hc as [<-|Hc]; try lia; destruct Hc.
  - simpl. apply (Permutation_trans (l' := [0; 1; 2; 3])).
    + apply perm_skip, perm_swap.
    + apply Permutation_refl.
  - lia.
Defined.

(* ================================================================== *)
(** ** The initial tree ([tree_sampler._init_cluster_adj_mutrels]) *)

(** [x == y] on finite floats. *)
Definition req (x y : R) : bool := if Req_dec_T x y then true else false.

(** [v[C] = x] on a float vector. *)
Definition rset_many (C : list nat) (x : R) (v : list R) : list R :=
  fold_left (fun w c => upd c x w) C v.

(** [v[C] = vals], the k-th index receiving the k-th value. *)
Definition scatter {X} (C : list nat) (vals v : list X) : list X :=
  fold_left (fun w cx => upd (fst cx) (snd cx) w) (combine C vals) v.

(** [np.max] of a float vector, which raises on an empty one. *)
Definition rmax_list (l : list R) : option R :=
  match l with
  | [] => None
  | x :: t => Some (fold_left Rmax t x)
  end.

(** [a += b]: elementwise on equal lengths, a one-element [b] is broadcast,
    any other pair of shapes raises. *)
Definition np_iadd (a b : list R) : option (list R) :=
  if length a =? length b
  then Some (map (fun p => (fst p + snd p)%R) (combine a b))
  else match b with
       | [x] => Some (map (fun y => (y + x)%R) a)
       | _ => None
       end.

(** The variables the loop of [_init_cluster_adj_mutrels] updates. The sets
    [in_tree] and [remaining] are lists: the code only sums the sub-vectors
    they select, compares them with 0 and writes them back at the same
    indices. *)
Record InitState : Type := mkInit {
  i_adj : Matrix;
  i_depth : list Z;
  i_in_tree : list nat;
  i_remaining : list nat;
  i_W_nodes : list R
}.

Section InitMutrels.
Variable Rng : Type.
Variable rand_choice : list npfloat -> Rng -> nat * Rng.
(** [hparams.theta] and [hparams.kappa]; the module is not among the source
    files. *)
Variables theta kappa : R.
Variable data_mutrel : Mutrel R.

(** One pass through the body of the [while] loop. *)
Definition init_step (K : nat) (st : InitState) (g : Rng)
  : option (InitState * Rng) :=
  let adj := i_adj st in
  let depth := i_depth st in
  let in_tree := i_in_tree st in
  let remaining := i_remaining st in
  let W_nodes := i_W_nodes st in
  let W_nodes :=
    if forallb (fun i => req (nth i W_nodes 0%R) 0) remaining
    then rset_many remaining 1 W_nodes else W_nodes in
  let W_nodes_norm := normalize (map Fin W_nodes) in
  let? (nidx, g) := _sample_cat Rng rand_choice W_nodes_norm g in
  (* cidx = nidx - 1; at nidx = 0 the identifier looked up is never 'S-1' *)
  match nidx with
  | O => None
  | S cidx =>
      let? vid := nth_error (vids data_mutrel) cidx in
      if negb (vid =? cidx) then None else
      let anc_probs :=
        map (fun cell => class_at 0%R cell B_A)
            (nth cidx (rels data_mutrel) []) in
      let? a := nth_error anc_probs cidx in
      if negb (req a 0) then None else
      (* under the guard some depth is positive, so [zmax] is [np.max] *)
      let depth_frac :=
        if existsb (fun d => (0 <? d)%Z) depth
        then map (fun d => (IZR d / IZR (zmax depth))%R) depth
        else map IZR depth in
      if negb (req (nth 0 depth_frac 0%R) 0) then None else
      let W_parents := repeat 0%R K in
      let? mx := rmax_list anc_probs in
      let W_parents :=
        upd 0 (nth 0 W_parents 0 + theta * (1 - mx))%R W_parents in
      let? tail :=
        np_iadd (skipn 1 W_parents) (map (Rmult theta) anc_probs) in
      let W_parents := firstn 1 W_parents ++ tail in
      let? W_parents := np_iadd W_parents (map (Rmult kappa) depth_frac) in
      if negb (req (nth nidx W_parents 0%R) 0) then None else
      let W_parents := rset_many remaining 0 W_parents in
      let W_parents_intree := map (fun i => nth i W_parents 0%R) in_tree in
      let W_parents_intree :=
        if forallb (fun w => req w 0) W_parents_intree
        then map (fun _ => 1%R) W_parents_intree else W_parents_intree in
      (* this normalized copy is dropped by the assignment that follows *)
      let W_parents_intree := normalize (map Fin W_parents_intree) in
      let W_parents_intree :=
        map (fun i => Rmax (1 / 100000) (nth i W_parents 0%R)) in_tree in
      let W_parents_intree := normalize (map Fin W_parents_intree) in
      let W_parents := scatter in_tree W_parents_intree (map Fin W_parents) in
      let? (parent, g) := _sample_cat Rng rand_choice W_parents g in
      let adj := mset adj parent nidx 1%Z in
      let depth := upd nidx (nth parent depth 0 + 1)%Z depth in
      (* remaining.remove(nidx) raises on a missing element *)
      if negb (mem nidx remaining) then None else
      Some (mkInit adj depth (set_add nidx in_tree)
                   (remove Nat.eq_dec nidx remaining)
                   (upd nidx 0%R W_nodes), g)
  end.

Fixpoint init_loop (K : nat) (fuel : nat) (st : InitState) (g : Rng)
  : option (InitState * Rng) :=
  match i_remaining st with
  | [] => Some (st, g)
  | _ :: _ =>
      match fuel with
      | O => None
      | S fuel' =>
          let? (st', g') := init_step K st g in
          init_loop K fuel' st' g'
      end
  end.

Definition _init_cluster_adj_mutrels (fuel : nat) (g : Rng)
  : option (Matrix * Rng) :=
  let K := length (rels data_mutrel) + 1 in
  let adj := eye K in
  let depth := repeat 0%Z K in
  let in_tree := [0] in
  let remaining := seq 1 (K - 1) in
  let W_nodes := repeat 0%R K in
  let? tail :=
    np_iadd (skipn 1 W_nodes)
            (map (fun row => rsum (map (fun cell => class_at 0%R cell A_B) row))
                 (rels data_mutrel)) in
  let W_nodes := firstn 1 W_nodes ++ tail in
  if negb (req (nth 0 W_nodes 0%R) 0) then None else
  let? (st, g) :=
    init_loop K fuel (mkInit adj depth in_tree remaining W_nodes) g in
  if negb (forallb (fun w => req w 0) (i_W_nodes st)) then None else
  if negb ((nth 0 (i_depth st) 0 =? 0)%Z &&
           forallb (fun d => (0 <? d)%Z) (skipn 1 (i_depth st)))
  then None else
  Some (i_adj st, g).

(** [_init_chain] after seeding: the initial tree, its validation, and the
    sample built from it, with the closures [__calc_phi] and
    [__calc_llh_phi] of [_run_chain]. *)
Variable calc_phi : Matrix -> list (list R).
Variable calc_llh_phi : Matrix -> list (list R) -> R.

End InitMutrels.

(* ------------------------------------------------------------------ *)
(** *** Vector updates and sums over index sets *)

Lemma req_true x y : req x y = true <-> x = y.
Proof. unfold req. destruct (Req_dec_T x y); split; congruence. Qed.

Lemma req_refl x : req x x = true.
Proof. now apply req_true. Qed.

Lemma rset_many_length C x v : length (rset_many C x v) = length v.
Proof.
  unfold rset_many. revert v. induction C as [|c C IH]; intros v; simpl;
    [reflexivity|]. now rewrite IH, upd_length.
Qed.

Lemma nth_rset_many C x v i :
  nth i (rset_many C x v) 0%R =
  if mem i C && (i <? length v) then x else nth i v 0%R.
Proof.
  unfold rset_many, mem. revert v. induction C as [|c C IH]; intros v; simpl;
    [reflexivity|].
  rewrite IH, upd_length, nth_upd.
  destruct (Nat.eqb_spec i c) as [->|Hne]; simpl.
  - destruct (existsb (Nat.eqb c) C); simpl;
      destruct (c <? length v); reflexivity.
  - reflexivity.
Qed.

Lemma scatter_length {X} C (vals v : list X) :
  length (scatter C vals v) = length v.
Proof.
  unfold scatter. revert v.
  induction (combine C vals) as [|[c x] l IH]; intros v; simpl;
    [reflexivity|]. now rewrite IH, upd_length.
Qed.

(** Writing [F i] at every index [i] of [C]. *)
Lemma nth_scatter_map {X} (F : nat -> X) C v i d :
  nth i (scatter C (map F C) v) d =
  if mem i C && (i <? length v) then F i else nth i v d.
Proof.
  unfold scatter, mem. revert v. induction C as [|c C IH]; intros v;
    [reflexivity|].
  cbn [map combine fold_left fst snd existsb].
  rewrite IH, upd_length, nth_upd.
  destruct (Nat.eqb_spec i c) as [->|Hne]; simpl.
  - destruct (existsb (Nat.eqb c) C); simpl;
      destruct (c <? length v); reflexivity.
  - reflexivity.
Qed.

Lemma np_iadd_same a b :
  length a = length b ->
  np_iadd a b = Some (map (fun p => (fst p + snd p)%R) (combine a b)).
Proof. intros H. unfold np_iadd. apply Nat.eqb_eq in H. now rewrite H. Qed.

Lemma sum_combine_length a b :
  length a = length b ->
  length (map (fun p : R * R => (fst p + snd p)%R) (combine a b)) = length a.
Proof. intros H. rewrite length_map, length_combine. lia. Qed.

Lemma nth_sum_combine a : forall b i,
  length a = length b ->
  nth i (map (fun p => (fst p + snd p)%R) (combine a b)) 0%R =
  (nth i a 0 + nth i b 0)%R.
Proof.
  induction a as [|x a IH]; intros [|y b] i H; try discriminate.
  - destruct i; simpl; lra.
  - destruct i; simpl; [reflexivity|]. apply IH. now injection H.
Qed.

Lemma rsum_map_add (f g : nat -> R) l :
  rsum (map (fun i => (f i + g i)%R) l) = (rsum (map f l) + rsum (map g l))%R.
Proof. induction l as [|a l IH]; simpl; [lra|]. rewrite IH. lra. Qed.

Lemma rsum_map_ext (f g : nat -> R) l :
  (forall i, In i l -> f i = g i) -> rsum (map f l) = rsum (map g l).
Proof.
  intros H. f_equal. apply map_ext_in. exact H.
Qed.

Lemma rsum_map_zero (f : nat -> R) l :
  (forall i, In i l -> f i = 0%R) -> rsum (map f l) = 0%R.
Proof.
  induction l as [|a l IH]; intros H; simpl; [reflexivity|].
  rewrite IH by (intros; apply H; now right).
  rewrite (H a) by now left. lra.
Qed.

Lemma rsum_single (c : R) t n : forall a,
  rsum (map (fun i => if i =? t then c else 0%R) (seq a n)) =
  if (a <=? t) && (t <? a + n) then c else 0%R.
Proof.
  induction n as [|n IH]; intros a.
  - simpl. destruct (Nat.leb_spec a t), (Nat.ltb_spec t (a + 0));
      simpl; try reflexivity. lia.
  - cbn [seq map rsum fold_right]. fold (rsum (map (fun i => if i =? t then c else 0%R) (seq (S a) n))).
    rewrite IH.
    destruct (Nat.eqb_spec a t), (Nat.leb_spec (S a) t),
      (Nat.ltb_spec t (S a + n)), (Nat.leb_spec a t),
      (Nat.ltb_spec t (a + S n)); simpl; try lra; lia.
Qed.

(** Summing over the indices below [K] that lie in a duplicate-free list is
    summing over the list. *)
Lemma rsum_indicator (h : nat -> R) K T :
  NoDup T -> (forall t, In t T -> t < K) ->
  rsum (map (fun i => if mem i T then h i else 0%R) (seq 0 K)) =
  rsum (map h T).
Proof.
  induction T as [|t T IH]; intros ND HT.
  - simpl. now apply rsum_map_zero.
  - inversion ND as [|? ? Hnin ND']; subst.
    rewrite (rsum_map_ext _
               (fun i => ((if i =? t then h t else 0) +
                          (if mem i T then h i else 0))%R)).
    + rewrite rsum_map_add, rsum_single, IH;
        [|exact ND'|intros; apply HT; now right].
      assert (t < K) by (apply HT; now left).
      destruct (Nat.leb_spec 0 t), (Nat.ltb_spec t (0 + K)); simpl;
        try lra; lia.
    + intros i _. unfold mem. cbn [existsb].
      destruct (Nat.eqb_spec i t) as [->|Hne]; simpl.
      * fold (mem t T). destruct (mem t T) eqn:E; [|lra].
        apply mem_In in E. contradiction.
      * lra.
Qed.

Lemma rsum_nth_seq (l : list R) :
  rsum l = rsum (map (fun i => nth i l 0%R) (seq 0 (length l))).
Proof.
  f_equal. apply (nth_ext _ _ 0%R 0%R).
  - now rewrite length_map, length_seq.
  - intros n Hn.
    rewrite (nth_indep (map _ _) 0%R ((fun i => nth i l 0%R) 0))
      by (now rewrite length_map, length_seq).
    rewrite (map_nth (fun i => nth i l 0%R)), seq_nth by exact Hn.
    reflexivity.
Qed.

Lemma rmax_list_Some l : l <> [] -> exists mx, rmax_list l = Some mx.
Proof. destruct l; [congruence|]. intros _. eexists. reflexivity. Qed.

(** Adding edges keeps paths. *)
Lemma path_mono (M N : Matrix) n i j :
  (forall a b, edge M a b -> edge N a b) -> path M n i j -> path N n i j.
Proof.
  intros H P. induction P as [|n i j k P IH E]; [constructor|].
  eapply path_snoc; [exact IH|apply H, E].
Qed.

Lemma reach_mono (M N : Matrix) i j :
  (forall a b, edge M a b -> edge N a b) -> reach M i j -> reach N i j.
Proof. intros H [n P]. exists n. now apply (path_mono M). Qed.

Lemma forallb_false_exists {A} (f : A -> bool) l :
  forallb f l = false -> exists x, In x l /\ f x = false.
Proof.
  induction l as [|a l IH]; [discriminate|]. cbn [forallb].
  destruct (f a) eqn:E; cbn [andb]; intros H.
  - destruct (IH H) as (x & Hx & Fx). exists x. split; [now right|exact Fx].
  - exists a. split; [now left|exact E].
Qed.

Lemma fgt_zero_zero : fgt (Fin 0%R) (Fin 0%R) = false.
Proof. unfold fgt. destruct (Rlt_dec 0 0); [lra|reflexivity]. Qed.

(* ------------------------------------------------------------------ *)
(** *** The two draws of one pass *)

Section InitChoices.
Variable K : nat.
Variables in_tree remaining : list nat.
Hypothesis ND : NoDup in_tree.
Hypothesis Hroot : In 0 in_tree.
Hypothesis Hdisj : forall i, In i in_tree -> ~ In i remaining.
Hypothesis Hcover : forall i, i < K <-> In i in_tree \/ In i remaining.

(** Nonnegative node weights that vanish on the tree and are positive
    somewhere: normalized, they pass the checks of [_sample_cat], and a
    node drawn from them is a remaining one. *)
Lemma weights_choice W :
  length W = K ->
  (forall i, In i in_tree -> nth i W 0%R = 0%R) ->
  (forall i, i < K -> (0 <= nth i W 0)%R) ->
  (exists i, In i remaining /\ (0 < nth i W 0)%R) ->
  sample_cat_pre (normalize (map Fin W)) = true /\
  forall c, fgt (nth c (normalize (map Fin W)) NaN) (Fin 0%R) = true ->
            In c remaining /\ (0 < nth c W 0)%R.
Proof.
  intros HL Hz Hnn (i0 & Hi0 & Pi0).
  assert (Hi0K : i0 < K) by (apply Hcover; now right).
  assert (HS : (0 < rsum W)%R).
  { apply rsum_pos.
    - intros x Hx. destruct (In_nth _ _ 0%R Hx) as (i & Hi & <-).
      apply Hnn. lia.
    - exists (nth i0 W 0%R). split; [apply nth_In; lia|exact Pi0]. }
  assert (HS0 : rsum W <> 0%R) by lra.
  assert (Hnth : forall i, i < K ->
            nth i (map (fun x => x / rsum W)%R W) 0%R =
            (nth i W 0 / rsum W)%R).
  { intros i Hi.
    rewrite (nth_indep _ 0%R ((fun x => x / rsum W)%R 0%R))
      by (rewrite length_map; lia).
    now rewrite (map_nth (fun x => x / rsum W)%R). }
  assert (D : is_dist K (fun i => req (nth i W 0%R) 0)
                (normalize (map Fin W))).
  { exists (map (fun x => x / rsum W)%R W).
    split; [now apply normalize_Fin|].
    split; [now rewrite length_map|].
    split; [rewrite rsum_map_div by exact HS0; now field|].
    intros i Hi. rewrite Hnth by exact Hi.
    destruct (req (nth i W 0%R) 0) eqn:E.
    - apply req_true in E. rewrite E. unfold Rdiv. apply Rmult_0_l.
    - assert (nth i W 0%R <> 0%R)
        by (intros E'; apply req_true in E'; congruence).
      specialize (Hnn i Hi). apply Rdiv_lt_0_compat; lra. }
  split; [exact (is_dist_sample_cat_pre _ _ _ D)|].
  intros c Hc.
  assert (HcK : c < K).
  { destruct (Nat.lt_ge_cases c K) as [|Hge]; [assumption|].
    rewrite nth_overflow in Hc
      by (rewrite (is_dist_length _ _ _ D); exact Hge).
    discriminate. }
  destruct (req (nth c W 0%R) 0) eqn:E.
  - rewrite (is_dist_masked _ _ _ c D HcK E), fgt_zero_zero in Hc.
    discriminate.
  - assert (Hne : nth c W 0%R <> 0%R)
      by (intros E'; apply req_true in E'; congruence).
    split.
    + apply Hcover in HcK as [Hin|Hin]; [|exact Hin].
      exfalso. apply Hne, Hz, Hin.
    + specialize (Hnn c HcK). lra.
Qed.

(** The node weights after the reset to 1 of an all-zero remainder. *)
Lemma node_weights_choice W :
  length W = K ->
  (forall i, In i in_tree -> nth i W 0%R = 0%R) ->
  (forall i, i < K -> (0 <= nth i W 0)%R) ->
  remaining <> [] ->
  let W' := if forallb (fun i => req (nth i W 0%R) 0) remaining
            then rset_many remaining 1 W else W in
  length W' = K /\
  (forall i, In i in_tree -> nth i W' 0%R = 0%R) /\
  (forall i, i < K -> (0 <= nth i W' 0)%R) /\
  sample_cat_pre (normalize (map Fin W')) = true /\
  forall c, fgt (nth c (normalize (map Fin W')) NaN) (Fin 0%R) = true ->
            In c remaining.
Proof.
  intros HL Hz Hnn Hne W'.
  assert (HW' : length W' = K /\
                (forall i, In i in_tree -> nth i W' 0%R = 0%R) /\
                (forall i, i < K -> (0 <= nth i W' 0)%R) /\
                exists i, In i remaining /\ (0 < nth i W' 0)%R).
  { unfold W'. destruct (forallb _ remaining) eqn:E.
    - split; [now rewrite rset_many_length|].
      split; [|split].
      + intros i Hi. rewrite nth_rset_many.
        destruct (mem i remaining) eqn:M; [|now apply Hz].
        apply mem_In in M. exfalso. exact (Hdisj i Hi M).
      + intros i Hi. rewrite nth_rset_many.
        destruct (mem i remaining && (i <? length W)); [lra|now apply Hnn].
      + destruct remaining as [|r rest] eqn:ER; [congruence|].
        exists r. split; [now left|]. rewrite nth_rset_many.
        assert (Hr : r < K) by (apply Hcover; right; now left).
        assert (M : mem r (r :: rest) = true) by (apply mem_In; now left).
        rewrite M, HL. apply Nat.ltb_lt in Hr. rewrite Hr. simpl. lra.
    - split; [exact HL|]. split; [exact Hz|]. split; [exact Hnn|].
      destruct (forallb_false_exists _ _ E) as (i & Hi & Fi).
      exists i. split; [exact Hi|].
      assert (nth i W 0%R <> 0%R)
        by (intros E'; apply req_true in E'; congruence).
      assert (i < K) by (apply Hcover; now right).
      specialize (Hnn i ltac:(assumption)). lra. }
  destruct HW' as (L' & Z' & N' & P').
  destruct (weights_choice W' L' Z' N' P') as [Hpre Hc].
  split; [exact L'|]. split; [exact Z'|]. split; [exact N'|].
  split; [exact Hpre|]. intros c H. apply (Hc c H).
Qed.

(** The parent weights: whatever the scores, after the floor at 1e-5 and
    the normalization they pass the checks of [_sample_cat], and a parent
    drawn from them is in the tree. *)
Lemma parent_weights_choice W3 :
  length W3 = K ->
  let Wz := rset_many remaining 0 W3 in
  let v := scatter in_tree
             (normalize (map Fin (map (fun i => Rmax (1 / 100000)
                                                     (nth i Wz 0%R))
                                      in_tree)))
             (map Fin Wz) in
  sample_cat_pre v = true /\
  forall p, fgt (nth p v NaN) (Fin 0%R) = true -> In p in_tree /\ p < K.
Proof.
  intros HL Wz v.
  set (h := fun i => Rmax (1 / 100000) (nth i Wz 0%R)).
  assert (Hh : forall i, (0 < h i)%R).
  { intros i. unfold h.
    pose proof (Rmax_l (1 / 100000) (nth i Wz 0%R)). lra. }
  set (S := rsum (map h in_tree)).
  assert (HS : (0 < S)%R).
  { apply rsum_pos.
    - intros x Hx. apply in_map_iff in Hx as (i & <- & _).
      pose proof (Hh i). lra.
    - exists (h 0). split; [now apply in_map|apply Hh]. }
  assert (HS0 : S <> 0%R) by lra.
  assert (HLz : length Wz = K) by (unfold Wz; now rewrite rset_many_length).
  set (gf := fun i => if mem i in_tree then h i else 0%R).
  assert (Ev : v = map Fin (map (fun i => (gf i / S)%R) (seq 0 K))).
  { unfold v. fold h. rewrite normalize_Fin by exact HS0. fold S.
    rewrite !map_map.
    apply (nth_ext _ _ NaN NaN).
    - now rewrite scatter_length, !length_map, length_seq.
    - intros n Hn. rewrite scatter_length, length_map, HLz in Hn.
      rewrite (nth_scatter_map (fun i => Fin (h i / S)%R)).
      rewrite length_map, HLz.
      apply Nat.ltb_lt in Hn as Hn'. rewrite Hn', andb_true_r.
      rewrite (nth_map_seq (fun i => Fin (gf i / S)%R)) by exact Hn.
      unfold gf. destruct (mem n in_tree) eqn:M; [reflexivity|].
      rewrite nth_map_Fin by lia. f_equal.
      unfold Wz. rewrite nth_rset_many, HL, Hn', andb_true_r.
      assert (In n remaining).
      { apply Hcover in Hn as [Hin|Hin]; [|exact Hin].
        apply mem_In in Hin. congruence. }
      assert (M' : mem n remaining = true) by now apply mem_In.
      rewrite M'. unfold Rdiv. now rewrite Rmult_0_l. }
  assert (D : is_dist K (fun i => negb (mem i in_tree)) v).
  { exists (map (fun i => (gf i / S)%R) (seq 0 K)).
    split; [exact Ev|]. split; [now rewrite length_map, length_seq|].
    split.
    - rewrite <- (map_map gf (fun x => (x / S)%R)).
      rewrite rsum_map_div by exact HS0.
      unfold gf. rewrite rsum_indicator.
      + fold S. now field.
      + exact ND.
      + intros t Ht. apply Hcover. now left.
    - intros i Hi. rewrite (nth_map_seq (fun i => (gf i / S)%R)) by exact Hi.
      unfold gf. destruct (mem i in_tree); cbn [negb].
      + apply Rdiv_lt_0_compat; [apply Hh|exact HS].
      + unfold Rdiv. apply Rmult_0_l. }
  split; [exact (is_dist_sample_cat_pre _ _ _ D)|].
  intros p Hp.
  assert (HpK : p < K).
  { destruct (Nat.lt_ge_cases p K) as [|Hge]; [assumption|].
    rewrite nth_overflow in Hp
      by (rewrite (is_dist_length _ _ _ D); exact Hge).
    discriminate. }
  split; [|exact HpK].
  destruct (mem p in_tree) eqn:M; [now apply mem_In|].
  rewrite (is_dist_masked _ _ _ p D HpK), fgt_zero_zero in Hp
    by (now rewrite M).
  discriminate.
Qed.
End InitChoices.

Lemma nth_map_lt {A B} (f : A -> B) l i da db :
  i < length l -> nth i (map f l) db = f (nth i l da).
Proof.
  intros H. rewrite (nth_indep _ db (f da)) by (now rewrite length_map).
  apply map_nth.
Qed.

(* ------------------------------------------------------------------ *)
(** *** What the loop keeps *)

(** The invariant of the [while] loop on [K] nodes: the nodes are split
    between [in_tree] and [remaining]; the weights of the nodes in the tree
    are 0 and the others are nonnegative; the depths are 0 at the root and
    on [remaining], positive on the rest of the tree; every node of the
    tree but the root has one parent and is reachable from the root; the
    remaining nodes have none. *)
Record init_inv (K : nat) (st : InitState) : Prop := {
  ii_square : is_square K (i_adj st);
  ii_depth_len : length (i_depth st) = K;
  ii_W_len : length (i_W_nodes st) = K;
  ii_nodup : NoDup (i_in_tree st);
  ii_root : In 0 (i_in_tree st);
  ii_disj : forall i, In i (i_in_tree st) -> ~ In i (i_remaining st);
  ii_cover : forall i, i < K <-> In i (i_in_tree st) \/ In i (i_remaining st);
  ii_W_tree : forall i, In i (i_in_tree st) -> nth i (i_W_nodes st) 0%R = 0%R;
  ii_W_nonneg : forall i, i < K -> (0 <= nth i (i_W_nodes st) 0)%R;
  ii_depth_tree : forall i, In i (i_in_tree st) -> i <> 0 ->
                    (0 < nth i (i_depth st) 0)%Z;
  ii_depth_rem : forall i, In i (i_remaining st) ->
                   nth i (i_depth st) 0%Z = 0%Z;
  ii_depth_root : nth 0 (i_depth st) 0%Z = 0%Z;
  ii_binary : forall i j, i < K -> j < K ->
                mget (i_adj st) i j = 0%Z \/ mget (i_adj st) i j = 1%Z;
  ii_diag : forall i, i < K -> mget (i_adj st) i i = 1%Z;
  ii_col_rem : forall i j, i < K -> In j (i_remaining st) -> i <> j ->
                 mget (i_adj st) i j = 0%Z;
  ii_col_root : forall i, i < K -> i <> 0 -> mget (i_adj st) i 0 = 0%Z;
  ii_parent : forall j, In j (i_in_tree st) -> j <> 0 ->
                exists p, p < K /\ p <> j /\
                  forall i, i < K -> i <> j ->
                    (mget (i_adj st) i j = 1%Z <-> i = p);
  ii_reach : forall j, In j (i_in_tree st) -> reach (i_adj st) 0 j
}.

(** Attaching a remaining node under a node of the tree keeps the
    invariant. *)
Lemma init_inv_attach K adj depth in_tree remaining W nidx parent :
  init_inv K (mkInit adj depth in_tree remaining W) ->
  In nidx remaining -> In parent in_tree ->
  init_inv K (mkInit (mset adj parent nidx 1%Z)
                     (upd nidx (nth parent depth 0 + 1)%Z depth)
                     (set_add nidx in_tree)
                     (remove Nat.eq_dec nidx remaining)
                     (upd nidx 0%R W)).
Proof.
  intros [Hsq HdL HWL ND Hroot Hdisj Hcover HWz HWn Hdt Hdr Hd0 Hbin Hdg
          Hcr Hc0 Hpar Hre] Hn Hp.
  cbn [i_adj i_depth i_in_tree i_remaining i_W_nodes] in *.
  assert (HnK : nidx < K) by (apply Hcover; now right).
  assert (HpK : parent < K) by (apply Hcover; now left).
  assert (Hnin : ~ In nidx in_tree) by (intros H; exact (Hdisj _ H Hn)).
  assert (Hpn : parent <> nidx) by (intros ->; contradiction).
  assert (Hn0 : nidx <> 0) by (intros ->; contradiction).
  assert (Eadd : set_add nidx in_tree = nidx :: in_tree).
  { unfold set_add. destruct (mem nidx in_tree) eqn:M; [|reflexivity].
    apply mem_In in M. contradiction. }
  assert (Hm : forall a b,
            mget (mset adj parent nidx 1%Z) a b =
            if Nat.eqb a parent && Nat.eqb b nidx then 1%Z else mget adj a b)
    by (intros a b; now apply (mget_mset K)).
  assert (Hother : forall a b, b <> nidx ->
            mget (mset adj parent nidx 1%Z) a b = mget adj a b).
  { intros a b Hb. rewrite Hm. apply Nat.eqb_neq in Hb.
    now rewrite Hb, andb_false_r. }
  assert (Hedge : forall a b, edge adj a b ->
                    edge (mset adj parent nidx 1%Z) a b).
  { intros a b [Hab E]. split; [exact Hab|]. rewrite Hm.
    now destruct (Nat.eqb a parent && Nat.eqb b nidx). }
  assert (Hdp : (0 <= nth parent depth 0)%Z).
  { destruct (Nat.eq_dec parent 0) as [->|Hne]; [lia|].
    specialize (Hdt parent Hp Hne). lia. }
  rewrite Eadd.
  constructor; cbn [i_adj i_depth i_in_tree i_remaining i_W_nodes].
  - now apply mset_square.
  - now rewrite upd_length.
  - now rewrite upd_length.
  - now constructor.
  - now right.
  - intros i [<-|Hi] Hr.
    + now apply remove_In in Hr.
    + apply in_remove in Hr as [Hr _]. exact (Hdisj i Hi Hr).
  - intros i. split.
    + intros Hi. apply Hcover in Hi as [Hi|Hi]; [left; now right|].
      destruct (Nat.eq_dec i nidx) as [->|Hne]; [left; now left|].
      right. apply in_in_remove; assumption.
    + intros [[<-|Hi]|Hi]; [exact HnK|apply Hcover; now left|].
      apply in_remove in Hi as [Hi _]. apply Hcover. now right.
  - intros i Hi. rewrite nth_upd, HWL.
    apply Nat.ltb_lt in HnK as HnK'. rewrite HnK', andb_true_r.
    destruct (Nat.eqb_spec i nidx) as [->|Hne]; [reflexivity|].
    destruct Hi as [<-|Hi]; [congruence|now apply HWz].
  - intros i Hi. rewrite nth_upd.
    destruct (Nat.eqb i nidx && (nidx <? length W)); [lra|now apply HWn].
  - intros i Hi Hi0. rewrite nth_upd, HdL.
    apply Nat.ltb_lt in HnK as HnK'. rewrite HnK', andb_true_r.
    destruct (Nat.eqb_spec i nidx) as [->|Hne]; [lia|].
    destruct Hi as [<-|Hi]; [congruence|now apply Hdt].
  - intros i Hi. apply in_remove in Hi as [Hi Hne].
    rewrite nth_upd_other by exact Hne. now apply Hdr.
  - rewrite nth_upd_other by auto. exact Hd0.
  - intros i j Hi Hj. rewrite Hm.
    destruct (Nat.eqb i parent && Nat.eqb j nidx); [now right|now apply Hbin].
  - intros i Hi. rewrite Hm.
    destruct (Nat.eqb_spec i parent) as [->|]; simpl; [|now apply Hdg].
    apply Nat.eqb_neq in Hpn. rewrite Hpn. now apply Hdg.
  - intros i j Hi Hj Hij. apply in_remove in Hj as [Hj Hne].
    rewrite Hother by exact Hne. now apply Hcr.
  - intros i Hi Hi0. rewrite Hother by auto. now apply Hc0.
  - intros j [<-|Hj] Hj0.
    + exists parent. split; [exact HpK|]. split; [exact Hpn|].
      intros i Hi Hin. rewrite Hm, Nat.eqb_refl, andb_true_r.
      destruct (Nat.eqb_spec i parent) as [->|Hne]; [tauto|].
      rewrite (Hcr i nidx Hi Hn Hin). split; [discriminate|contradiction].
    + destruct (Hpar j Hj Hj0) as (p & HpK' & Hpj & H).
      exists p. split; [exact HpK'|]. split; [exact Hpj|].
      intros i Hi Hij. rewrite Hother by (intros ->; contradiction).
      now apply H.
  - intros j [<-|Hj].
    + apply (reach_trans _ _ parent).
      * apply (reach_mono adj); [exact Hedge|now apply Hre].
      * apply reach_edge. split; [exact Hpn|].
        now rewrite Hm, !Nat.eqb_refl.
    + apply (reach_mono adj); [exact Hedge|now apply Hre].
Qed.

Section InitValid.
Variable Rng : Type.
Variable rand_choice : list npfloat -> Rng -> nat * Rng.
Variables theta kappa : R.
Variable data_mutrel : Mutrel R.
(** The number of clusters; the tree has one node more. *)
Variable K1 : nat.
Hypothesis choice_positive : forall W g,
  sample_cat_pre W = true ->
  fgt (nth (fst (rand_choice W g)) W NaN) (Fin 0%R) = true.
Hypothesis Hshape : mutrel_shape K1 (rels data_mutrel).
Hypothesis Hvids : vids data_mutrel = seq 0 K1.
Hypothesis Hnn : forall a b, a < K1 -> b < K1 ->
  (0 <= prob (rels data_mutrel) a b A_B)%R.
Hypothesis Hdiag : forall a, a < K1 ->
  prob (rels data_mutrel) a a B_A = 0%R.

Lemma anc_probs_facts cidx :
  cidx < K1 ->
  let anc_probs := map (fun cell => class_at 0%R cell B_A)
                       (nth cidx (rels data_mutrel) []) in
  length anc_probs = K1 /\ nth_error anc_probs cidx = Some 0%R.
Proof.
  intros Hc anc_probs. destruct Hshape as [HL HR].
  destruct (HR cidx Hc) as [HLr _].
  assert (L : length anc_probs = K1)
    by (unfold anc_probs; now rewrite length_map).
  split; [exact L|].
  rewrite (nth_error_nth' _ 0%R) by lia. f_equal.
  unfold anc_probs. rewrite (nth_map_lt _ _ _ []) by lia.
  apply (Hdiag cidx Hc).
Qed.

Lemma depth_frac_zero (depth : list Z) i :
  i < length depth -> nth i depth 0%Z = 0%Z ->
  nth i (if existsb (fun d => (0 <? d)%Z) depth
         then map (fun d => (IZR d / IZR (zmax depth))%R) depth
         else map IZR depth) 0%R = 0%R.
Proof.
  intros Hi Hz. destruct (existsb _ depth).
  - rewrite (nth_map_lt _ _ _ 0%Z) by exact Hi. rewrite Hz.
    unfold Rdiv. apply Rmult_0_l.
  - rewrite (nth_map_lt _ _ _ 0%Z) by exact Hi. now rewrite Hz.
Qed.

Lemma depth_frac_length (depth : list Z) :
  length (if existsb (fun d => (0 <? d)%Z) depth
          then map (fun d => (IZR d / IZR (zmax depth))%R) depth
          else map IZR depth) = length depth.
Proof. destruct (existsb _ depth); apply length_map. Qed.


(** One pass of the loop succeeds, keeps the invariant and takes a node
    out of [remaining]. *)
Lemma init_step_ok st g :
  init_inv (S K1) st -> i_remaining st <> [] ->
  exists st' g',
    init_step Rng rand_choice theta kappa data_mutrel (S K1) st g =
      Some (st', g') /\
    init_inv (S K1) st' /\
    length (i_remaining st') < length (i_remaining st).
Proof.
  intros I Hne. destruct st as [adj depth in_tree remaining W].
  pose proof I as [Hsq HdL HWL ND Hroot Hdisj Hcover HWz HWn Hdt Hdr Hd0
                   Hbin Hdg Hcr Hc0 Hpar Hre].
  cbn [i_adj i_depth i_in_tree i_remaining i_W_nodes] in *.
  unfold init_step. cbn [i_adj i_depth i_in_tree i_remaining i_W_nodes].
  cbv zeta.
  pose proof (node_weights_choice (S K1) in_tree remaining Hdisj Hcover
                W HWL HWz HWn Hne) as NW.
  cbv zeta in NW.
  set (W' := if forallb (fun i => req (nth i W 0%R) 0) remaining
             then rset_many remaining 1 W else W) in *.
  destruct NW as (L' & Z' & N' & Pre & Hc).
  destruct (sample_cat_ok Rng rand_choice choice_positive _ g Pre)
    as [E1 P1].
  rewrite E1. destruct (rand_choice (normalize (map Fin W')) g)
    as [nidx g1].
  cbn [obind fst] in *.
  pose proof (Hc nidx P1) as Hn.
  assert (HnK : nidx < S K1) by (apply Hcover; now right).
  destruct nidx as [|cidx]; [exfalso; exact (Hdisj 0 Hroot Hn)|].
  assert (HcK : cidx < K1) by lia.
  rewrite Hvids, (nth_error_nth' _ 0) by (rewrite length_seq; exact HcK).
  rewrite seq_nth by exact HcK. cbn [obind Nat.add].
  rewrite Nat.eqb_refl. cbn [negb].
  destruct (anc_probs_facts cidx HcK) as [HaL Ha].
  set (anc_probs := map (fun cell => class_at 0%R cell B_A)
                        (nth cidx (rels data_mutrel) [])) in *.
  rewrite Ha. cbn [obind]. rewrite req_refl. cbn [negb].
  set (depth_frac := if existsb (fun d => (0 <? d)%Z) depth
                     then map (fun d => (IZR d / IZR (zmax depth))%R) depth
                     else map IZR depth).
  assert (HfL : length depth_frac = S K1)
    by (unfold depth_frac; now rewrite depth_frac_length).
  assert (Hf0 : nth 0 depth_frac 0%R = 0%R)
    by (apply depth_frac_zero; [lia|exact Hd0]).
  assert (Hfn : nth (S cidx) depth_frac 0%R = 0%R)
    by (apply depth_frac_zero; [lia|now apply Hdr]).
  rewrite Hf0, req_refl. cbn [negb].
  destruct (rmax_list_Some anc_probs) as [mx Emx].
  { intros E. rewrite E in HaL. simpl in HaL. lia. }
  rewrite Emx. cbn [obind repeat upd skipn firstn nth app].
  rewrite np_iadd_same
    by (now rewrite repeat_length, length_map).
  cbn [obind].
  set (tail := map (fun p => (fst p + snd p)%R)
                   (combine (repeat 0%R K1) (map (Rmult theta) anc_probs))).
  assert (HtL : length tail = K1).
  { unfold tail. rewrite sum_combine_length;
      now rewrite repeat_length, ?length_map. }
  rewrite np_iadd_same by (cbn [length]; now rewrite length_map, HtL, HfL).
  cbn [obind].
  set (W3 := map (fun p => (fst p + snd p)%R)
                 (combine ((0 + theta * (1 - mx))%R :: tail)
                          (map (Rmult kappa) depth_frac))).
  assert (H3L : length W3 = S K1).
  { unfold W3. rewrite sum_combine_length; cbn [length];
      now rewrite ?length_map, HtL, ?HfL. }
  assert (H3n : nth (S cidx) W3 0%R = 0%R).
  { unfold W3. rewrite nth_sum_combine
      by (cbn [length]; now rewrite length_map, HtL, HfL).
    cbn [nth]. unfold tail. rewrite nth_sum_combine
      by (now rewrite repeat_length, length_map).
    rewrite nth_repeat.
    rewrite (nth_map_lt (Rmult theta) _ _ 0%R) by lia.
    rewrite (nth_map_lt (Rmult kappa) _ _ 0%R) by lia.
    rewrite Hfn.
    apply nth_error_nth with (d := 0%R) in Ha. rewrite Ha. lra. }
  rewrite H3n, req_refl. cbn [negb].
  pose proof (parent_weights_choice (S K1) in_tree remaining ND Hroot
                Hcover W3 H3L) as PW.
  cbv zeta in PW. destruct PW as [Pre2 Hp].
  destruct (sample_cat_ok Rng rand_choice choice_positive _ g1 Pre2)
    as [E2 P2].
  rewrite E2.
  match goal with
  | |- context [rand_choice ?V g1] =>
      destruct (rand_choice V g1) as [parent g2]
  end.
  cbn [obind fst] in *.
  destruct (Hp parent P2) as [Hpin HpK].
  assert (M : mem (S cidx) remaining = true) by now apply mem_In.
  rewrite M. cbn [negb].
  eexists _, _. split; [reflexivity|]. split.
  - apply (init_inv_attach (S K1) adj depth in_tree remaining W'
                            (S cidx) parent).
    + constructor;
        cbn [i_adj i_depth i_in_tree i_remaining i_W_nodes]; assumption.
    + exact Hn.
    + exact Hpin.
  - cbn [i_remaining]. now apply remove_length_lt.
Qed.

Lemma init_loop_ok fuel : forall st g,
  init_inv (S K1) st -> length (i_remaining st) <= fuel ->
  exists st' g',
    init_loop Rng rand_choice theta kappa data_mutrel (S K1) fuel st g =
      Some (st', g') /\
    init_inv (S K1) st' /\ i_remaining st' = [].
Proof.
  induction fuel as [|fuel IH]; intros st g I Hf.
  - destruct (i_remaining st) eqn:E; [|simpl in Hf; lia].
    exists st, g. cbn [init_loop]. rewrite E. auto.
  - destruct (i_remaining st) as [|r rest] eqn:E.
    + exists st, g. cbn [init_loop]. rewrite E. auto.
    + destruct (init_step_ok st g I) as (st1 & g1 & E1 & I1 & Hlt).
      { rewrite E. discriminate. }
      cbn [init_loop]. rewrite E, E1. cbn [obind].
      apply IH; [exact I1|]. rewrite E in Hlt. lia.
Qed.

(** The state the loop starts from. *)
Lemma init_inv_start :
  exists tail,
    np_iadd (skipn 1 (repeat 0%R (S K1)))
      (map (fun row => rsum (map (fun cell => class_at 0%R cell A_B) row))
           (rels data_mutrel)) = Some tail /\
    init_inv (S K1)
      (mkInit (eye (S K1)) (repeat 0%Z (S K1)) [0] (seq 1 K1)
              (firstn 1 (repeat 0%R (S K1)) ++ tail)).
Proof.
  destruct Hshape as [HL HR].
  cbn [repeat skipn firstn app].
  rewrite np_iadd_same by (now rewrite repeat_length, length_map).
  eexists. split; [reflexivity|].
  set (sums := map (fun row => rsum (map (fun cell => class_at 0%R cell A_B)
                                         row)) (rels data_mutrel)).
  assert (HsL : length sums = K1) by (unfold sums; now rewrite length_map).
  assert (Hs : forall a, a < K1 -> (0 <= nth a sums 0)%R).
  { intros a Ha. unfold sums.
    rewrite (nth_map_lt _ _ _ []) by lia.
    apply rsum_nonneg. intros x Hx.
    apply in_map_iff in Hx as (cell & <- & Hcell).
    destruct (In_nth _ _ [] Hcell) as (b & Hb & <-).
    destruct (HR a Ha) as [HLa _]. rewrite HLa in Hb.
    apply (Hnn a b Ha Hb). }
  set (tail := map (fun p => (fst p + snd p)%R)
                   (combine (repeat 0%R K1) sums)).
  assert (HtL : length tail = K1).
  { unfold tail. rewrite sum_combine_length; now rewrite repeat_length. }
  constructor; cbn [i_adj i_depth i_in_tree i_remaining i_W_nodes].
  - apply eye_square.
  - apply (repeat_length 0%Z (S K1)).
  - cbn [length]. now rewrite HtL.
  - constructor; [intros []|constructor].
  - now left.
  - intros i [<-|[]] Hi. apply in_seq in Hi. lia.
  - intros i. rewrite in_seq. cbn [In]. lia.
  - intros i [<-|[]]. reflexivity.
  - intros [|i] Hi; cbn [nth]; [lra|].
    unfold tail. rewrite nth_sum_combine by (now rewrite repeat_length).
    rewrite nth_repeat. specialize (Hs i ltac:(lia)). lra.
  - intros i [<-|[]] Hi. congruence.
  - intros i _. exact (nth_repeat 0%Z (S K1) i).
  - reflexivity.
  - intros i j Hi Hj. rewrite mget_eye by assumption.
    destruct (Nat.eqb i j); auto.
  - intros i Hi. rewrite mget_eye by assumption. now rewrite Nat.eqb_refl.
  - intros i j Hi Hj Hij. apply in_seq in Hj.
    rewrite mget_eye by lia. apply Nat.eqb_neq in Hij. now rewrite Hij.
  - intros i Hi Hi0. rewrite mget_eye by lia.
    apply Nat.eqb_neq in Hi0. now rewrite Hi0.
  - intros j [<-|[]] Hj. congruence.
  - intros j [<-|[]]. apply reach_refl.
Qed.

(** A state the loop can end in holds a valid tree and passes the two
    final assertions. *)
Lemma init_inv_final st :
  init_inv (S K1) st -> i_remaining st = [] ->
  valid_adj (S K1) (i_adj st) /\
  forallb (fun w => req w 0) (i_W_nodes st) = true /\
  ((nth 0 (i_depth st) 0 =? 0)%Z &&
   forallb (fun d => (0 <? d)%Z) (skipn 1 (i_depth st))) = true.
Proof.
  intros [Hsq HdL HWL ND Hroot Hdisj Hcover HWz HWn Hdt Hdr Hd0 Hbin Hdg
          Hcr Hc0 Hpar Hre] E.
  rewrite E in Hcover.
  assert (Hall : forall i, i < S K1 -> In i (i_in_tree st)).
  { intros i Hi. apply Hcover in Hi as [Hi|[]]. exact Hi. }
  split; [|split].
  - apply valid_adj_of_parents; auto; try lia.
    intros j Hj. apply Hpar; [apply Hall|]; lia.
  - apply forallb_forall. intros w Hw.
    destruct (In_nth _ _ 0%R Hw) as (i & Hi & <-). rewrite HWL in Hi.
    apply req_true, HWz, Hall, Hi.
  - rewrite Hd0. cbn [Z.eqb andb].
    apply forallb_forall. intros d Hd.
    destruct (i_depth st) as [|d0 rest] eqn:ED; [discriminate|].
    cbn [skipn] in Hd. destruct (In_nth _ _ 0%Z Hd) as (i & Hi & <-).
    cbn [length] in HdL. apply Z.ltb_lt.
    apply (Hdt (S i)); [apply Hall|]; lia.
Qed.

Lemma init_cluster_adj_mutrels_ok fuel g :
  K1 <= fuel ->
  exists adj g',
    _init_cluster_adj_mutrels Rng rand_choice theta kappa data_mutrel fuel g =
      Some (adj, g') /\
    valid_adj (S K1) adj.
Proof.
  intros Hf. unfold _init_cluster_adj_mutrels.
  destruct Hshape as [HL _]. rewrite HL, Nat.add_1_r.
  replace (S K1 - 1) with K1 by lia.
  destruct init_inv_start as (tail & -> & I0).
  cbn [obind].
  assert (H0 : nth 0 (firstn 1 (repeat 0%R (S K1)) ++ tail) 0%R = 0%R)
    by reflexivity.
  rewrite H0, req_refl. cbn [negb].
  destruct (init_loop_ok fuel _ g I0) as (st & g' & -> & I & E).
  { cbn [i_remaining]. now rewrite length_seq. }
  cbn [obind].
  destruct (init_inv_final st I E) as (V & -> & ->). cbn [negb].
  exists (i_adj st), g'. split; [reflexivity|exact V].
Qed.

End InitValid.

(** X19: the initial tree is a tree. On a relation model over [K1]
    clusters with the identifiers [S0 .. S(K1-1)], nonnegative [A_B]
    probabilities and no probability that a cluster is its own ancestor,
    and with [np.random.choice] returning indices of positive probability,
    [_init_cluster_adj_mutrels] fails none of its assertions, whatever the
    hyperparameters [theta] and [kappa], and the matrix it returns is a
    valid tree on [K1 + 1] nodes. *)
Theorem init_cluster_adj_mutrels_returns_tree :
  forall Rng (rand_choice : list npfloat -> Rng -> nat * Rng)
         (theta kappa : R) (data_mutrel : Mutrel R) K1 fuel g,
    (forall W g0, sample_cat_pre W = true ->
       fgt (nth (fst (rand_choice W g0)) W NaN) (Fin 0%R) = true) ->
    mutrel_shape K1 (rels data_mutrel) ->
    vids data_mutrel = seq 0 K1 ->
    (forall a b, a < K1 -> b < K1 ->
       (0 <= prob (rels data_mutrel) a b A_B)%R) ->
    (forall a, a < K1 -> prob (rels data_mutrel) a a B_A = 0%R) ->
    K1 <= fuel ->
    exists adj g',
      _init_cluster_adj_mutrels Rng rand_choice theta kappa data_mutrel
                                fuel g = Some (adj, g') /\
      valid_adj (S K1) adj.
Proof.
  intros Rng rand_choice theta kappa data_mutrel K1 fuel g
         Hc Hsh Hv Hnn Hd Hf.
  now apply init_cluster_adj_mutrels_ok.
Qed.

Lemma pair_cases (P : nat -> nat -> Prop) :
  P 0 0 -> P 0 1 -> P 1 0 -> P 1 1 ->
  forall a b, a < 2 -> b < 2 -> P a b.
Proof.
  intros H00 H01 H10 H11 [|[|a]] [|[|b]] Ha Hb; try lia; assumption.
Qed.

Lemma proper_pair_diag a :
  a < 2 -> prob (rels proper_pair) a a B_A = 0%R.
Proof. destruct a as [|[|a]]; intros Ha; try lia; reflexivity. Qed.

Lemma init_cluster_adj_mutrels_returns_tree_witness :
  exists adj g',
    _init_cluster_adj_mutrels nat count_choice 4 1 proper_pair 2 0 =
      Some (adj, g') /\
    valid_adj 3 adj.
Proof.
  apply (init_cluster_adj_mutrels_returns_tree nat count_choice 4%R 1%R
           proper_pair 2 2 0 count_choice_positive).
  - apply pair_shape; reflexivity.
  - reflexivity.
  - apply (pair_cases
             (fun a b => (0 <= prob (rels proper_pair) a b A_B)%R));
      unfold prob, class_at; simpl; lra.
  - exact proper_pair_diag.
  - lia.
Defined.



(* ------------------------------------------------------------------ *)
(** *** What the assertions of the loop demand of the input *)

(** The two assertions on the drawn cluster [cidx]: its identifier is
    ['S<cidx>'], and its probability of being its own ancestor is 0. *)
Definition cluster_checked (data_mutrel : Mutrel R) (cidx : nat) : Prop :=
  nth_error (vids data_mutrel) cidx = Some cidx /\
  nth_error (map (fun cell => class_at 0%R cell B_A)
                 (nth cidx (rels data_mutrel) [])) cidx = Some 0%R.

Section InitChecks.
Variable Rng : Type.
Variable rand_choice : list npfloat -> Rng -> nat * Rng.
Variables theta kappa : R.
Variable data_mutrel : Mutrel R.

Ltac step_through :=
  repeat match goal with
    | |- obind ?m _ = Some _ -> _ =>
        destruct m as [?|] eqn:?; cbn [obind]; [|discriminate]
    | |- (if negb ?b then None else _) = Some _ -> _ =>
        destruct b eqn:?; cbn [negb]; [|discriminate]
    | |- (let (_, _) := ?p in _) = Some _ -> _ => destruct p as [? ?]
    end.

(** A pass that succeeds has drawn a cluster on which both assertions
    hold, and has removed its node from [remaining]. *)
Lemma init_step_checked K st g st' g' :
  init_step Rng rand_choice theta kappa data_mutrel K st g = Some (st', g') ->
  exists cidx,
    cluster_checked data_mutrel cidx /\
    i_remaining st' = remove Nat.eq_dec (S cidx) (i_remaining st).
Proof.
  unfold init_step. cbv zeta.
  destruct (_sample_cat Rng rand_choice _ g) as [[nidx g1]|];
    cbn [obind]; [|discriminate].
  destruct nidx as [|cidx]; [discriminate|].
  destruct (nth_error (vids data_mutrel) cidx) as [vid|] eqn:Ev;
    cbn [obind]; [|discriminate].
  destruct (Nat.eqb_spec vid cidx) as [->|]; cbn [negb]; [|discriminate].
  destruct (nth_error (map _ _) cidx) as [a|] eqn:Ea; cbn [obind];
    [|discriminate].
  destruct (req a 0) eqn:Er; cbn [negb]; [|discriminate].
  apply req_true in Er. subst a.
  step_through.
  intros [= <- _]. exists cidx. split; [split; assumption|reflexivity].
Qed.

Lemma init_loop_checked K fuel : forall st g st' g',
  init_loop Rng rand_choice theta kappa data_mutrel K fuel st g =
    Some (st', g') ->
  forall i, In i (i_remaining st) ->
    exists cidx, i = S cidx /\ cluster_checked data_mutrel cidx.
Proof.
  induction fuel as [|fuel IH]; intros st g st' g' E i Hi; cbn [init_loop] in E;
    destruct (i_remaining st) as [|r rest] eqn:ER;
    try discriminate; try (now destruct Hi).
  destruct (init_step _ _ _ _ _ K st g) as [[st1 g1]|] eqn:E1;
    cbn [obind] in E; [|discriminate].
  destruct (init_step_checked K st g st1 g1 E1) as (c & Hc & Hr).
  destruct (Nat.eq_dec i (S c)) as [->|Hne]; [now exists c|].
  apply (IH st1 g1 st' g' E i). rewrite Hr, ER.
  now apply in_in_remove.
Qed.

Lemma init_cluster_adj_mutrels_checked fuel g adj g' :
  _init_cluster_adj_mutrels Rng rand_choice theta kappa data_mutrel fuel g =
    Some (adj, g') ->
  forall a, a < length (rels data_mutrel) -> cluster_checked data_mutrel a.
Proof.
  unfold _init_cluster_adj_mutrels. cbv zeta.
  destruct (np_iadd _ _) as [tail|]; cbn [obind]; [|discriminate].
  destruct (req _ 0); cbn [negb]; [|discriminate].
  destruct (init_loop _ _ _ _ _ _ fuel _ g) as [[st g1]|] eqn:EL;
    cbn [obind]; [|discriminate].
  intros _ a Ha.
  destruct (init_loop_checked _ fuel _ g st g1 EL (S a)) as (c & [= ->] & Hc);
    [|exact Hc].
  cbn [i_remaining]. apply in_seq. lia.
Qed.
End InitChecks.

(** X21: what [_init_cluster_adj_mutrels] rejects. If for some cluster [a]
    the identifier at position [a] is not ['S<a>'], or the relation model
    gives a nonzero probability to [a] being its own ancestor, the function
    returns no tree: whatever the random draws and the hyperparameters, a
    lookup or an assertion fails before the loop ends. *)
Theorem init_cluster_adj_mutrels_rejects :
  forall Rng (rand_choice : list npfloat -> Rng -> nat * Rng)
         (theta kappa : R) (data_mutrel : Mutrel R) fuel g a,
    a < length (rels data_mutrel) ->
    nth_error (vids data_mutrel) a <> Some a \/
    prob (rels data_mutrel) a a B_A <> 0%R ->
    _init_cluster_adj_mutrels Rng rand_choice theta kappa data_mutrel
                              fuel g = None.
Proof.
  intros Rng rand_choice theta kappa data_mutrel fuel g a Ha Hbad.
  destruct (_init_cluster_adj_mutrels Rng rand_choice theta kappa
              data_mutrel fuel g) as [[adj g']|] eqn:E; [|reflexivity].
  exfalso.
  destruct (init_cluster_adj_mutrels_checked Rng rand_choice theta kappa
              data_mutrel fuel g adj g' E a Ha) as [Hv Hp].
  destruct Hbad as [Hbad|Hbad]; [exact (Hbad Hv)|]. apply Hbad.
  assert (Hl : a < length (nth a (rels data_mutrel) [])).
  { rewrite <- (length_map (fun cell => class_at 0%R cell B_A)).
    apply nth_error_Some. rewrite Hp. discriminate. }
  apply nth_error_nth with (d := 0%R) in Hp.
  rewrite (nth_map_lt _ _ _ []) in Hp by exact Hl. exact Hp.
Qed.

(** The proper pair with its two identifiers exchanged. *)
Definition relabelled_pair : Mutrel R := mkMutrel [1; 0] (rels proper_pair).

Lemma init_cluster_adj_mutrels_rejects_witness :
  _init_cluster_adj_mutrels nat count_choice 4 1 relabelled_pair 2 0 = None.
Proof.
  apply (init_cluster_adj_mutrels_rejects nat count_choice 4%R 1%R
           relabelled_pair 2 0 0).
  - simpl. lia.
  - left. simpl. discriminate.
Defined.

(* ================================================================== *)
(** ** The orchestrator on chains that succeed ([tree_sampler.sample_trees]) *)







